(** * DES teaching tool: the cipher core, the mode layer and the grader

    A shallow embedding of [src/lib/des.ts] (tables, key schedule, round
    function, single-block cipher), of the byte helpers and the
    mode-of-operation functions of the application file, and of the
    diagnostic engine [diagnoseDESSubmission], followed by the properties
    the specification states about them.

    Conventions of the embedding.
    - A JavaScript string is a [list ascii]; a character is a UTF-16 code
      unit below 256.  Literals are written [str "..."].
    - A [number] is a [Z]; a bit sequence ([Bits = number[]]) is a [list Z].
    - An array read [a[i]] out of range gives [undefined] in JavaScript.
      Every consumer of such a read in this code is a bitwise operator
      ([^], [|], [<<], [>>], [&]), which coerces [undefined] to 0, so
      [at_ 0 a i] reads 0 there.
    - [throw new Error(m)] is [Threw m]; a normal return is [Returned v]. *)

From Stdlib Require Import String Ascii ZArith QArith Bool List Lia.
Import ListNotations.
Open Scope Z_scope.

(* ================================================================== *)
(** ** JavaScript built-ins used by the sources *)
(* ================================================================== *)

Module JS.

Abbreviation jstring := (list ascii).

Definition str (s : string) : jstring := list_ascii_of_string s.

Definition code (c : ascii) : Z := Z.of_nat (nat_of_ascii c).

(** [a[i]], with [d] standing for what the consumer makes of [undefined]. *)
Definition at_ {A : Type} (d : A) (a : list A) (i : Z) : A :=
  if i <? 0 then d else nth (Z.to_nat i) a d.

(** [a.slice(s, e)] for [0 <= s]; an end before the start gives []. *)
Definition slice {A : Type} (a : list A) (s e : nat) : list A :=
  firstn (e - s) (skipn s a).

(** [a.slice(s)]; a negative start counts from the end. *)
Definition sliceFrom {A : Type} (a : list A) (s : Z) : list A :=
  if s <? 0
  then skipn (Z.to_nat (Z.max (Z.of_nat (length a) + s) 0)) a
  else skipn (Z.to_nat s) a.

Definition padStart (s : jstring) (n : nat) (c : ascii) : jstring :=
  repeat c (n - length s) ++ s.

Definition padEnd (s : jstring) (n : nat) (c : ascii) : jstring :=
  s ++ repeat c (n - length s).

(** [String.prototype.toLowerCase] on code units below 256: A-Z and the
    Latin-1 capitals (U+00C0..U+00DE without U+00D7) move up by 32. *)
Definition lowerChar (c : ascii) : ascii :=
  let n := nat_of_ascii c in
  if ((65 <=? n) && (n <=? 90))%nat then ascii_of_nat (n + 32)
  else if ((192 <=? n) && (n <=? 222) && negb (n =? 215))%nat
       then ascii_of_nat (n + 32)
  else c.

Definition toLowerCase (s : jstring) : jstring := map lowerChar s.

(** White space and line terminators below 256. *)
Definition isSpace (c : ascii) : bool :=
  let n := nat_of_ascii c in
  ((9 <=? n) && (n <=? 13) || (n =? 32) || (n =? 160))%nat.

Fixpoint trimStart (s : jstring) : jstring :=
  match s with
  | c :: t => if isSpace c then trimStart t else s
  | [] => []
  end.

Definition trimEnd (s : jstring) : jstring := rev (trimStart (rev s)).

Definition trim (s : jstring) : jstring := trimEnd (trimStart s).

(** The value of a hexadecimal digit, either case. *)
Definition hexDigitValue (c : ascii) : option Z :=
  let n := nat_of_ascii c in
  if ((48 <=? n) && (n <=? 57))%nat then Some (Z.of_nat (n - 48))
  else if ((97 <=? n) && (n <=? 102))%nat then Some (Z.of_nat (n - 87))
  else if ((65 <=? n) && (n <=? 70))%nat then Some (Z.of_nat (n - 55))
  else None.

Definition isHexDigit (c : ascii) : bool :=
  match hexDigitValue c with Some _ => true | None => false end.

(** The longest prefix of hexadecimal digits, read most significant first. *)
Fixpoint hexPrefix (s : jstring) (acc : option Z) : option Z :=
  match s with
  | c :: t =>
      match hexDigitValue c with
      | Some v => hexPrefix t (Some (16 * match acc with Some a => a | None => 0 end + v))
      | None => acc
      end
  | [] => acc
  end.

(** [parseInt(s, 16)]: leading white space, an optional sign, an optional
    [0x] or [0X], then the longest prefix of digits; [None] is [NaN].  The
    sources apply it to one or two characters, where the value is exact. *)
Definition parseInt16 (s : jstring) : option Z :=
  let s1 := trimStart s in
  let '(neg, s2) :=
    match s1 with
    | "-"%char :: t => (true, t)
    | "+"%char :: t => (false, t)
    | _ => (false, s1)
    end in
  let s3 :=
    match s2 with
    | "0"%char :: "x"%char :: t => t
    | "0"%char :: "X"%char :: t => t
    | _ => s2
    end in
  match hexPrefix s3 None with
  | Some v => Some (if neg then - v else v)
  | None => None
  end.

(** [x | 0] style coercion of a possibly-[NaN] number inside a bitwise
    operator: [NaN] counts as 0. *)
Definition toInt (v : option Z) : Z :=
  match v with Some z => z | None => 0 end.

(** [a.map((x, idx) => f x idx)]. *)
Fixpoint mapiFrom {A B : Type} (f : A -> nat -> B) (i : nat) (a : list A) : list B :=
  match a with
  | [] => []
  | x :: t => f x i :: mapiFrom f (S i) t
  end.

Definition mapi {A B : Type} (f : A -> nat -> B) (a : list A) : list B :=
  mapiFrom f 0%nat a.

(** [a.forEach((x, idx) => ...)] threading the variables the callback
    assigns as a state [St]. *)
Fixpoint forEachFrom {A St : Type} (f : St -> A -> nat -> St) (i : nat) (a : list A) (s : St) : St :=
  match a with
  | [] => s
  | x :: t => forEachFrom f (S i) t (f s x i)
  end.

Definition forEach {A St : Type} (f : St -> A -> nat -> St) (a : list A) (s : St) : St :=
  forEachFrom f 0%nat a s.

(** [for (let i = 0; i < a.length; i += size) ... a.slice(i, i + size)]:
    the pieces the loop visits, in order.  [fuel] bounds the number of
    iterations; [length a] is enough for a positive [size]. *)
Fixpoint chunksFuel {A : Type} (fuel size : nat) (a : list A) : list (list A) :=
  match fuel with
  | O => []
  | S fuel' =>
      match a with
      | [] => []
      | _ => firstn size a :: chunksFuel fuel' size (skipn size a)
      end
  end.

Definition chunks {A : Type} (size : nat) (a : list A) : list (list A) :=
  chunksFuel (length a) size a.

(** [a.join('')] over elements that may be [undefined] (printed as ''). *)
Definition joinChars (a : list (option ascii)) : jstring :=
  concat (map (fun o => match o with Some c => [c] | None => [] end) a).

End JS.

Import JS.

(** Outcome of a call that may throw. *)
Inductive outcome (A : Type) : Type :=
| Returned (value : A)
| Threw (message : string).

Arguments Returned {A} value.
Arguments Threw {A} message.

Definition bind {A B : Type} (m : outcome A) (k : A -> outcome B) : outcome B :=
  match m with
  | Returned a => k a
  | Threw e => Threw e
  end.

Notation "x <- m ;; k" := (bind m (fun x => k))
  (at level 61, m at next level, right associativity).
Notation "' p <- m ;; k" := (bind m (fun x => let p := x in k))
  (at level 61, p pattern, m at next level, right associativity).

(* ================================================================== *)
(** ** src/lib/des.ts *)
(* ================================================================== *)

Abbreviation Bits := (list Z).

Inductive Mode := encrypt | decrypt.

Record RoundInfo := {
  ri_round : nat;
  ri_left : jstring;
  ri_right : jstring;
  ri_subKey : jstring;
  ri_expanded : jstring;
  ri_xorWithKey : jstring;
  ri_sBoxOutput : jstring;
  ri_pBoxOutput : jstring;
  ri_roundOutput : jstring
}.

Record KeyScheduleRound := {
  ks_round : nat;
  ks_shifts : nat;
  ks_c : jstring;
  ks_d : jstring;
  ks_subKey : jstring
}.

Record KeyScheduleInfo := {
  parityDroppedKey : jstring;
  ks_rounds : list KeyScheduleRound
}.

(** [DESResult] without its [id], a random label from [nanoid()] that no
    computation reads. *)
Record DESResult := {
  mode : Mode;
  inputHex : jstring;
  outputHex : jstring;
  ipOutput : jstring;
  fpOutput : jstring;
  rounds : list RoundInfo;
  subKeys : list jstring;
  keySchedule : KeyScheduleInfo
}.

Definition IP_TABLE : list Z :=
  [58; 50; 42; 34; 26; 18; 10; 2; 60; 52; 44; 36; 28; 20; 12; 4; 62; 54; 46; 38;
   30; 22; 14; 6; 64; 56; 48; 40; 32; 24; 16; 8; 57; 49; 41; 33; 25; 17; 9; 1; 59;
   51; 43; 35; 27; 19; 11; 3; 61; 53; 45; 37; 29; 21; 13; 5; 63; 55; 47; 39; 31;
   23; 15; 7].

Definition FP_TABLE : list Z :=
  [40; 8; 48; 16; 56; 24; 64; 32; 39; 7; 47; 15; 55; 23; 63; 31; 38; 6; 46; 14;
   54; 22; 62; 30; 37; 5; 45; 13; 53; 21; 61; 29; 36; 4; 44; 12; 52; 20; 60; 28;
   35; 3; 43; 11; 51; 19; 59; 27; 34; 2; 42; 10; 50; 18; 58; 26; 33; 1; 41; 9; 49;
   17; 57; 25].

Definition E_TABLE : list Z :=
  [32; 1; 2; 3; 4; 5; 4; 5; 6; 7; 8; 9; 8; 9; 10; 11; 12; 13; 12; 13; 14; 15; 16;
   17; 16; 17; 18; 19; 20; 21; 20; 21; 22; 23; 24; 25; 24; 25; 26; 27; 28; 29; 28;
   29; 30; 31; 32; 1].

Definition P_TABLE : list Z :=
  [16; 7; 20; 21; 29; 12; 28; 17; 1; 15; 23; 26; 5; 18; 31; 10; 2; 8; 24; 14; 32;
   27; 3; 9; 19; 13; 30; 6; 22; 11; 4; 25].

Definition PC1_TABLE : list Z :=
  [57; 49; 41; 33; 25; 17; 9; 1; 58; 50; 42; 34; 26; 18; 10; 2; 59; 51; 43; 35;
   27; 19; 11; 3; 60; 52; 44; 36; 63; 55; 47; 39; 31; 23; 15; 7; 62; 54; 46; 38;
   30; 22; 14; 6; 61; 53; 45; 37; 29; 21; 13; 5; 28; 20; 12; 4].

Definition PC2_TABLE : list Z :=
  [14; 17; 11; 24; 1; 5; 3; 28; 15; 6; 21; 10; 23; 19; 12; 4; 26; 8; 16; 7; 27; 20;
   13; 2; 41; 52; 31; 37; 47; 55; 30; 40; 51; 45; 33; 48; 44; 49; 39; 56; 34; 53;
   46; 42; 50; 36; 29; 32].

Definition SHIFT_SCHEDULE : list nat :=
  [1; 1; 2; 2; 2; 2; 2; 2; 1; 2; 2; 2; 2; 2; 2; 1]%nat.

Definition S_BOXES : list (list (list Z)) :=
  [
    [
      [14; 4; 13; 1; 2; 15; 11; 8; 3; 10; 6; 12; 5; 9; 0; 7];
      [0; 15; 7; 4; 14; 2; 13; 1; 10; 6; 12; 11; 9; 5; 3; 8];
      [4; 1; 14; 8; 13; 6; 2; 11; 15; 12; 9; 7; 3; 10; 5; 0];
      [15; 12; 8; 2; 4; 9; 1; 7; 5; 11; 3; 14; 10; 0; 6; 13]
    ];
    [
      [15; 1; 8; 14; 6; 11; 3; 4; 9; 7; 2; 13; 12; 0; 5; 10];
      [3; 13; 4; 7; 15; 2; 8; 14; 12; 0; 1; 10; 6; 9; 11; 5];
      [0; 14; 7; 11; 10; 4; 13; 1; 5; 8; 12; 6; 9; 3; 2; 15];
      [13; 8; 10; 1; 3; 15; 4; 2; 11; 6; 7; 12; 0; 5; 14; 9]
    ];
    [
      [10; 0; 9; 14; 6; 3; 15; 5; 1; 13; 12; 7; 11; 4; 2; 8];
      [13; 7; 0; 9; 3; 4; 6; 10; 2; 8; 5; 14; 12; 11; 15; 1];
      [13; 6; 4; 9; 8; 15; 3; 0; 11; 1; 2; 12; 5; 10; 14; 7];
      [1; 10; 13; 0; 6; 9; 8; 7; 4; 15; 14; 3; 11; 5; 2; 12]
    ];
    [
      [7; 13; 14; 3; 0; 6; 9; 10; 1; 2; 8; 5; 11; 12; 4; 15];
      [13; 8; 11; 5; 6; 15; 0; 3; 4; 7; 2; 12; 1; 10; 14; 9];
      [10; 6; 9; 0; 12; 11; 7; 13; 15; 1; 3; 14; 5; 2; 8; 4];
      [3; 15; 0; 6; 10; 1; 13; 8; 9; 4; 5; 11; 12; 7; 2; 14]
    ];
    [
      [2; 12; 4; 1; 7; 10; 11; 6; 8; 5; 3; 15; 13; 0; 14; 9];
      [14; 11; 2; 12; 4; 7; 13; 1; 5; 0; 15; 10; 3; 9; 8; 6];
      [4; 2; 1; 11; 10; 13; 7; 8; 15; 9; 12; 5; 6; 3; 0; 14];
      [11; 8; 12; 7; 1; 14; 2; 13; 6; 15; 0; 9; 10; 4; 5; 3]
    ];
    [
      [12; 1; 10; 15; 9; 2; 6; 8; 0; 13; 3; 4; 14; 7; 5; 11];
      [10; 15; 4; 2; 7; 12; 9; 5; 6; 1; 13; 14; 0; 11; 3; 8];
      [9; 14; 15; 5; 2; 8; 12; 3; 7; 0; 4; 10; 1; 13; 11; 6];
      [4; 3; 2; 12; 9; 5; 15; 10; 11; 14; 1; 7; 6; 0; 8; 13]
    ];
    [
      [4; 11; 2; 14; 15; 0; 8; 13; 3; 12; 9; 7; 5; 10; 6; 1];
      [13; 0; 11; 7; 4; 9; 1; 10; 14; 3; 5; 12; 2; 15; 8; 6];
      [1; 4; 11; 13; 12; 3; 7; 14; 10; 15; 6; 8; 0; 5; 9; 2];
      [6; 11; 13; 8; 1; 4; 10; 7; 9; 5; 0; 15; 14; 2; 3; 12]
    ];
    [
      [13; 2; 8; 4; 6; 15; 11; 1; 10; 9; 3; 14; 5; 0; 12; 7];
      [1; 15; 13; 8; 10; 3; 7; 4; 12; 5; 6; 11; 0; 14; 9; 2];
      [7; 11; 4; 1; 9; 12; 14; 2; 0; 6; 10; 13; 15; 3; 5; 8];
      [2; 1; 14; 7; 4; 10; 8; 13; 15; 12; 9; 0; 3; 5; 6; 11]
    ]
  ].

Definition hexLookup : jstring := str "0123456789abcdef".

Definition permute (bits : Bits) (table : list Z) : Bits :=
  map (fun index => at_ 0 bits (index - 1)) table.

(** [shift % bits.length] is [NaN] on an empty array, where both slices are
    empty; [Nat.modulo] by 0 leaves the same empty result. *)
Definition leftShift (bits : Bits) (shift : nat) : Bits :=
  let normalized := (shift mod length bits)%nat in
  skipn normalized bits ++ firstn normalized bits.

Definition xorBits (a b : Bits) : Bits :=
  mapi (fun bit idx => Z.land (Z.lxor bit (at_ 0 b (Z.of_nat idx))) 1) a.

Definition chunkBits (bits : Bits) (size : nat) : list Bits := chunks size bits.

(** [hexLookup[value]] is [undefined] past the sixteenth digit.  A chunk
    has at most four elements, far from the 32-bit wrap of [<<]. *)
Definition toHexDigit (bits : Bits) : option ascii :=
  let value := fold_left (fun acc bit => Z.lor (Z.shiftl acc 1) bit) bits 0 in
  if value <? 0 then None else nth_error hexLookup (Z.to_nat value).

Definition bitsToHex (bits : Bits) : jstring :=
  joinChars (map toHexDigit (chunkBits bits 4)).

(** The default [size = hex.length * 4] is not used by the callers in
    scope; they always pass the size. *)
Definition hexToBits (hex : jstring) (size : nat) : Bits :=
  let padded := padStart (toLowerCase hex) (size / 4) "0"%char in
  let bits :=
    flat_map (fun char =>
      let value := toInt (parseInt16 [char]) in
      [Z.land (Z.shiftr value 3) 1; Z.land (Z.shiftr value 2) 1;
       Z.land (Z.shiftr value 1) 1; Z.land value 1]) padded in
  sliceFrom bits (Z.of_nat (length bits) - Z.of_nat size).

Definition initial_permutation (block : Bits) : Bits := permute block IP_TABLE.

Definition final_permutation (block : Bits) : Bits := permute block FP_TABLE.

Definition expansion_permutation (bits : Bits) : Bits := permute bits E_TABLE.

Definition p_box_permutation (bits : Bits) : Bits := permute bits P_TABLE.

(** [S_BOXES[index]] is [undefined] from the ninth chunk on, and a row
    outside 0..3 is [undefined] too; indexing either would throw a
    TypeError.  [f_function_sbox_defined] shows that the round function
    always passes eight chunks of six bits, so the defaults [[]] below are
    never read by the cipher. *)
Definition s_box_substitution (bits : Bits) : Bits :=
  concat (mapi (fun chunk index =>
    let row := Z.lor (Z.shiftl (at_ 0 chunk 0) 1) (at_ 0 chunk 5) in
    let column :=
      Z.lor (Z.lor (Z.lor (Z.shiftl (at_ 0 chunk 1) 3) (Z.shiftl (at_ 0 chunk 2) 2))
                   (Z.shiftl (at_ 0 chunk 3) 1))
            (at_ 0 chunk 4) in
    let sValue := at_ 0 (at_ [] (at_ [] S_BOXES (Z.of_nat index)) row) column in
    [Z.land (Z.shiftr sValue 3) 1; Z.land (Z.shiftr sValue 2) 1;
     Z.land (Z.shiftr sValue 1) 1; Z.land sValue 1]) (chunkBits bits 6)).

Record FResult := {
  f_expanded : Bits;
  f_xorResult : Bits;
  f_sBoxResult : Bits;
  f_pBoxResult : Bits
}.

Definition f_function (right subKey : Bits) : FResult :=
  let expanded := expansion_permutation right in
  let xorResult := xorBits expanded subKey in
  let sBoxResult := s_box_substitution xorResult in
  let pBoxResult := p_box_permutation sBoxResult in
  {| f_expanded := expanded; f_xorResult := xorResult;
     f_sBoxResult := sBoxResult; f_pBoxResult := pBoxResult |}.

Record RoundResult := {
  r_left : Bits;
  r_right : Bits;
  r_expanded : Bits;
  r_xorResult : Bits;
  r_sBoxResult : Bits;
  r_pBoxResult : Bits
}.

Definition feistel_round (left right subKey : Bits) : RoundResult :=
  let f := f_function right subKey in
  let newRight := xorBits left (f_pBoxResult f) in
  {| r_left := right; r_right := newRight;
     r_expanded := f_expanded f; r_xorResult := f_xorResult f;
     r_sBoxResult := f_sBoxResult f; r_pBoxResult := f_pBoxResult f |}.

(** The variables the key-schedule loop assigns: [c], [d], [rounds],
    [subKeys]. *)
Record KsState := {
  st_c : Bits;
  st_d : Bits;
  st_rounds : list KeyScheduleRound;
  st_subKeys : list jstring
}.

Definition ks_step (s : KsState) (shift index : nat) : KsState :=
  let c := leftShift (st_c s) shift in
  let d := leftShift (st_d s) shift in
  let combined := c ++ d in
  let subKeyBits := permute combined PC2_TABLE in
  let subKeyHex := bitsToHex subKeyBits in
  {| st_c := c; st_d := d;
     st_rounds := st_rounds s ++
       [{| ks_round := index + 1; ks_shifts := shift;
           ks_c := bitsToHex c; ks_d := bitsToHex d; ks_subKey := subKeyHex |}];
     st_subKeys := st_subKeys s ++ [subKeyHex] |}.

Definition generate_subkeys (keyHex : jstring) : KeyScheduleInfo * list jstring :=
  let keyBits := hexToBits (slice (padEnd keyHex 16 "0"%char) 0 16) 64 in
  let parityDropped := permute keyBits PC1_TABLE in
  let c := slice parityDropped 0 28 in
  let d := sliceFrom parityDropped 28 in
  let s := forEach ks_step SHIFT_SCHEDULE
             {| st_c := c; st_d := d; st_rounds := []; st_subKeys := [] |} in
  ({| parityDroppedKey := bitsToHex parityDropped; ks_rounds := st_rounds s |},
   st_subKeys s).

(** The variables the round loop of [runCore] assigns. *)
Record CoreState := {
  cs_left : Bits;
  cs_right : Bits;
  cs_roundData : list RoundInfo
}.

Definition core_step (s : CoreState) (subKeyHex : jstring) (index : nat) : CoreState :=
  let left := cs_left s in
  let right := cs_right s in
  let subKeyBits := hexToBits subKeyHex 48 in
  let r := feistel_round left right subKeyBits in
  {| cs_left := r_left r; cs_right := r_right r;
     cs_roundData := cs_roundData s ++
       [{| ri_round := index + 1;
           ri_left := bitsToHex left;
           ri_right := bitsToHex right;
           ri_subKey := subKeyHex;
           ri_expanded := bitsToHex (r_expanded r);
           ri_xorWithKey := bitsToHex (r_xorResult r);
           ri_sBoxOutput := bitsToHex (r_sBoxResult r);
           ri_pBoxOutput := bitsToHex (r_pBoxResult r);
           ri_roundOutput := bitsToHex (r_left r ++ r_right r) |}] |}.

Definition runCore (inputHex keyHex : jstring) (mode : Mode) : DESResult :=
  let block := hexToBits inputHex 64 in
  let ip := initial_permutation block in
  let '(keySchedule, subKeys) := generate_subkeys keyHex in
  let left := slice ip 0 32 in
  let right := sliceFrom ip 32 in
  let sequence := match mode with encrypt => subKeys | decrypt => rev subKeys end in
  let s := forEach core_step sequence
             {| cs_left := left; cs_right := right; cs_roundData := [] |} in
  let preOutput := cs_right s ++ cs_left s in
  let fp := final_permutation preOutput in
  {| mode := mode;
     inputHex := toLowerCase inputHex;
     outputHex := bitsToHex fp;
     ipOutput := bitsToHex ip;
     fpOutput := bitsToHex fp;
     rounds := cs_roundData s;
     subKeys := sequence;
     keySchedule := keySchedule |}.

Definition des_encrypt (plaintextHex keyHex : jstring) : DESResult :=
  runCore plaintextHex keyHex encrypt.

Definition des_decrypt (ciphertextHex keyHex : jstring) : DESResult :=
  runCore ciphertextHex keyHex decrypt.

(** *** Avalanche comparison *)

(** [percentage] is the decimal that [toFixed(2)] prints, kept as a
    rational: [diff / 64 * 100] is exact in binary floating point, and
    [toFixed] rounds it to hundredths, a tie going up. *)
Record AvalancheRoundDiff := {
  ad_round : nat;
  differingBits : Z;
  percentage : Q
}.

Definition toFixed2 (num den : Z) : Q :=
  Qmake ((2 * 100 * num + den) / (2 * den)) 100.

(** [bit !== mutatedBits[idx]] holds when the index is past the end. *)
Definition countDiff (baseBits mutatedBits : Bits) : Z :=
  forEach (fun diff bit idx =>
             match nth_error mutatedBits idx with
             | Some other => if bit =? other then diff else diff + 1
             | None => diff + 1
             end) baseBits 0.

Definition avalanche_step (base mutated : list RoundInfo)
  (diffs : list AvalancheRoundDiff) (i : nat) (_ : nat) : list AvalancheRoundDiff :=
  match nth_error base i, nth_error mutated i with
  | Some baseRound, Some mutatedRound =>
      let baseBits := hexToBits (ri_roundOutput baseRound) 64 in
      let mutatedBits := hexToBits (ri_roundOutput mutatedRound) 64 in
      let diff := countDiff baseBits mutatedBits in
      diffs ++ [{| ad_round := i + 1; differingBits := diff;
                   percentage := toFixed2 (diff * 100) 64 |}]
  | _, _ => diffs
  end.

Definition compareRoundsForAvalanche (base mutated : list RoundInfo)
  : list AvalancheRoundDiff :=
  forEach (avalanche_step base mutated) (seq 0 16) [].

(* ================================================================== *)
(** ** The diagnostic engine (services/diagnostics) *)
(* ================================================================== *)

(** [a === b] on strings. *)
Fixpoint strEq (a b : jstring) : bool :=
  match a, b with
  | [], [] => true
  | x :: a', y :: b' => Ascii.eqb x y && strEq a' b'
  | _, _ => false
  end.

(** [/[^0-9a-f]/gi] removed, then [padEnd(16, '0')], [slice(0, 16)],
    [toLowerCase()]. *)
Definition normalizeBlockHex (hex : jstring) : jstring :=
  toLowerCase (slice (padEnd (filter isHexDigit hex) 16 "0"%char) 0 16).

(** The module's own copies of [permute] and [leftShift]. *)
Definition permuteBits (bits : Bits) (table : list Z) : Bits :=
  map (fun index => at_ 0 bits (index - 1)) table.

Definition leftShift' (bits : Bits) (shift : nat) : Bits :=
  let normalized := (shift mod length bits)%nat in
  skipn normalized bits ++ firstn normalized bits.

Definition subkey_step (s : Bits * Bits * list jstring) (shift : nat) (_ : nat)
  : Bits * Bits * list jstring :=
  let '(c0, d0, subKeys) := s in
  let c := leftShift' c0 shift in
  let d := leftShift' d0 shift in
  let combined := c ++ d in
  let subKeyBits := permuteBits combined PC2_TABLE in
  (c, d, subKeys ++ [bitsToHex subKeyBits]).

Definition generateSubkeysWithSchedule (keyHex : jstring) (shiftSchedule : option (list nat))
  : list jstring :=
  let keyBits := hexToBits (normalizeBlockHex keyHex) 64 in
  let parityDropped := permuteBits keyBits PC1_TABLE in
  let c := slice parityDropped 0 28 in
  let d := sliceFrom parityDropped 28 in
  let schedule := match shiftSchedule with Some sch => sch | None => SHIFT_SCHEDULE end in
  snd (forEach subkey_step schedule (c, d, [])).

Inductive KeyOrder := normal | reversed.

(** An absent boolean option is falsy: [false]. *)
Record VariantOptions := {
  skipIP : bool;
  skipFP : bool;
  skipFinalSwap : bool;
  swapAfterRound : option (list nat);
  roundLimit : option nat;
  keyOrder : option KeyOrder;
  shiftSchedule : option (list nat)
}.

Definition noOptions : VariantOptions :=
  {| skipIP := false; skipFP := false; skipFinalSwap := false;
     swapAfterRound := None; roundLimit := None; keyOrder := None;
     shiftSchedule := None |}.

Definition variant_step (options : VariantOptions) (s : Bits * Bits)
  (subKeyHex : jstring) (i : nat) : Bits * Bits :=
  let left := fst s in
  let right := snd s in
  let subKeyBits := hexToBits subKeyHex 48 in
  let r := feistel_round left right subKeyBits in
  let swapHere :=
    match swapAfterRound options with
    | Some rs => existsb (Nat.eqb (i + 1)) rs
    | None => false
    end in
  (if swapHere then r_right r else r_left r,
   if swapHere then r_left r else r_right r).

Definition runVariant (inputHex keyHex : jstring) (options : VariantOptions) : jstring :=
  let block := hexToBits (normalizeBlockHex inputHex) 64 in
  let ip := if skipIP options then block else initial_permutation block in
  let subKeys := generateSubkeysWithSchedule keyHex (shiftSchedule options) in
  let sequence :=
    match keyOrder options with Some reversed => rev subKeys | _ => subKeys end in
  let roundsToRun :=
    Nat.min (length sequence)
            (match roundLimit options with Some n => n | None => 16%nat end) in
  let left := slice ip 0 32 in
  let right := sliceFrom ip 32 in
  let final := forEach (variant_step options) (firstn roundsToRun sequence) (left, right) in
  let left := fst final in
  let right := snd final in
  let preOutput := if skipFinalSwap options then left ++ right else right ++ left in
  let fp := if skipFP options then preOutput else final_permutation preOutput in
  bitsToHex fp.

(** [score] comes from a decimal literal of the source; it is kept as the
    rational the literal denotes. *)
Record DiagnosisResult := {
  matchedPattern : option jstring;
  message : jstring;
  variantMatched : option jstring;
  expectedOutput : jstring;
  studentOutput : jstring;
  score : Q;
  tags : list jstring
}.

Record DiagnoseInput := {
  in_plaintextHex : jstring;
  in_keyHex : jstring;
  in_studentOutputHex : jstring
}.

Record Pattern := {
  code : jstring;
  label : jstring;
  options : VariantOptions;
  description : jstring;
  credit : Q
}.

(** The arrow in the fifth label is kept as the bytes of the source file;
    no code reads a label. *)
Definition patterns : list Pattern :=
  [ {| code := str "skip-ip-fp";
       label := str "Skipped IP/FP";
       options := {| skipIP := true; skipFP := true; skipFinalSwap := false;
                     swapAfterRound := None; roundLimit := None; keyOrder := None;
                     shiftSchedule := None |};
       description := str "Student output matches a run with no initial/final permutation.";
       credit := 6 # 10 |};
    {| code := str "skip-ip";
       label := str "Skipped IP";
       options := {| skipIP := true; skipFP := false; skipFinalSwap := false;
                     swapAfterRound := None; roundLimit := None; keyOrder := None;
                     shiftSchedule := None |};
       description := str "Initial Permutation (IP) was skipped but FP was still applied.";
       credit := 5 # 10 |};
    {| code := str "no-final-swap";
       label := str "Forgot final swap";
       options := {| skipIP := false; skipFP := false; skipFinalSwap := true;
                     swapAfterRound := None; roundLimit := None; keyOrder := None;
                     shiftSchedule := None |};
       description := str "Halves were not swapped before the final permutation.";
       credit := 6 # 10 |};
    {| code := str "swap-after-round-1";
       label := str "Swapped halves after R1";
       options := {| skipIP := false; skipFP := false; skipFinalSwap := false;
                     swapAfterRound := Some [1%nat]; roundLimit := None; keyOrder := None;
                     shiftSchedule := None |};
       description := str "Left/right halves inverted after round 1.";
       credit := 5 # 10 |};
    {| code := str "reversed-subkeys";
       label := str "K16→K1 order";
       options := {| skipIP := false; skipFP := false; skipFinalSwap := false;
                     swapAfterRound := None; roundLimit := None; keyOrder := Some reversed;
                     shiftSchedule := None |};
       description := str "Round keys applied in reverse order.";
       credit := 4 # 10 |};
    {| code := str "two-rounds-only";
       label := str "Stopped after 2 rounds";
       options := {| skipIP := false; skipFP := false; skipFinalSwap := false;
                     swapAfterRound := None; roundLimit := Some 2%nat; keyOrder := None;
                     shiftSchedule := None |};
       description := str "Execution ended after round 2.";
       credit := 2 # 10 |};
    {| code := str "four-rounds-only";
       label := str "Stopped after 4 rounds";
       options := {| skipIP := false; skipFP := false; skipFinalSwap := false;
                     swapAfterRound := None; roundLimit := Some 4%nat; keyOrder := None;
                     shiftSchedule := None |};
       description := str "Execution ended after round 4.";
       credit := 3 # 10 |};
    {| code := str "all-one-bit-shifts";
       label := str "Wrong shift schedule";
       options := {| skipIP := false; skipFP := false; skipFinalSwap := false;
                     swapAfterRound := None; roundLimit := None; keyOrder := None;
                     shiftSchedule := Some (repeat 1%nat 16) |};
       description := str "Used 1-bit shifts for all key-schedule rounds.";
       credit := 3 # 10 |} ].

(** [Math.max(a, b)] and [Math.min(a, b)]. *)
Definition mathMax (a b : Q) : Q := if Qle_bool a b then b else a.
Definition mathMin (a b : Q) : Q := if Qle_bool a b then a else b.

(** The [for (const pattern of patterns)] loop: the first pattern whose
    variant output is the submission returns from the function. *)
Fixpoint scanPatterns (plaintextHex keyHex studentOutput expectedOutput : jstring)
  (ps : list Pattern) : option DiagnosisResult :=
  match ps with
  | [] => None
  | pattern :: rest =>
      let variantOutput := runVariant plaintextHex keyHex (options pattern) in
      if strEq variantOutput studentOutput then
        let credit := mathMin 1 (mathMax 0 (credit pattern)) in
        Some {| matchedPattern := Some (code pattern);
                variantMatched := Some (label pattern);
                message := description pattern;
                expectedOutput := expectedOutput;
                studentOutput := studentOutput;
                score := credit;
                tags := [str "incorrect"; code pattern] |}
      else scanPatterns plaintextHex keyHex studentOutput expectedOutput rest
  end.

Definition diagnoseDESSubmission (input : DiagnoseInput) : DiagnosisResult :=
  let plaintextHex := normalizeBlockHex (in_plaintextHex input) in
  let keyHex := normalizeBlockHex (in_keyHex input) in
  let studentOutput := normalizeBlockHex (in_studentOutputHex input) in
  let expected := des_encrypt plaintextHex keyHex in
  let expectedOutput := outputHex expected in
  if strEq studentOutput expectedOutput then
    {| matchedPattern := Some (str "correct");
       message := str "Answer matches expected ciphertext.";
       variantMatched := None;
       expectedOutput := expectedOutput;
       studentOutput := studentOutput;
       score := 1;
       tags := [str "correct"] |}
  else
    match scanPatterns plaintextHex keyHex studentOutput expectedOutput patterns with
    | Some result => result
    | None =>
        {| matchedPattern := None;
           message := str "No known mistake pattern matched. Likely multiple or different errors.";
           variantMatched := None;
           expectedOutput := expectedOutput;
           studentOutput := studentOutput;
           score := 0;
           tags := [str "incorrect"; str "unclassified"] |}
    end.

(* ================================================================== *)
(** ** The byte helpers and the mode layer (application file) *)
(* ================================================================== *)

(** A [Uint8Array] is a list of numbers in 0..255. *)
Abbreviation Bytes := (list Z).

Definition digitChar (v : Z) : ascii :=
  nth (Z.to_nat v) (str "0123456789abcdef") "0"%char.

Fixpoint hexDigitsFuel (fuel : nat) (n : Z) (acc : jstring) : jstring :=
  match fuel with
  | O => acc
  | S fuel' =>
      let acc' := digitChar (n mod 16) :: acc in
      if n <? 16 then acc' else hexDigitsFuel fuel' (n / 16) acc'
  end.

(** [n.toString(16)] for a non-negative integer. *)
Definition toString16 (n : Z) : jstring :=
  hexDigitsFuel (S (Z.to_nat (Z.log2 n))) n [].

Definition bytesToHex (bytes : Bytes) : jstring :=
  concat (map (fun byte => padStart (toString16 byte) 2 "0"%char) bytes).

(** The loop of [hexToBytes] over two-character slices; a store into a
    [Uint8Array] keeps the value modulo 256. *)
Fixpoint parsePairs (pairs : list jstring) : outcome Bytes :=
  match pairs with
  | [] => Returned []
  | p :: rest =>
      match parseInt16 p with
      | None => Threw "Invalid hex input."
      | Some byte => bytes <- parsePairs rest ;; Returned ((byte mod 256) :: bytes)
      end
  end.

Definition hexToBytes (hex : jstring) : outcome Bytes :=
  let sanitized := trim hex in
  if (length sanitized mod 2 =? 0)%nat
  then parsePairs (chunks 2 sanitized)
  else Threw "Hex input must have an even length.".

(** [pad] is never 0, so [padValue] is always [pad]; the test is kept as
    the source has it. *)
Definition padTo8Bytes (bytes : Bytes) : Bytes :=
  let pad := (8 - (length bytes mod 8))%nat in
  let padValue := if (pad =? 0)%nat then 8%nat else pad in
  bytes ++ repeat (Z.of_nat padValue) padValue.

(** The reads [bytes[bytes.length - 1 - i]] are in range: the guard has
    returned when [pad > bytes.length]. *)
Definition unpadPkcs (bytes : Bytes) : Bytes :=
  if (length bytes =? 0)%nat then bytes
  else
    let pad := at_ 0 bytes (Z.of_nat (length bytes) - 1) in
    if (pad <? 1) || (pad >? 8) || (pad >? Z.of_nat (length bytes)) then bytes
    else if forallb (fun i => at_ 0 bytes (Z.of_nat (length bytes) - 1 - Z.of_nat i) =? pad)
                    (seq 0 (Z.to_nat pad))
         then slice bytes 0 (length bytes - Z.to_nat pad)
         else bytes.

Definition concatByteChunks (chunks : list Bytes) : Bytes := concat chunks.

Definition encryptBlock (block : Bytes) (keyHex : jstring) : outcome (Bytes * DESResult) :=
  let res := des_encrypt (bytesToHex block) keyHex in
  bytes <- hexToBytes (outputHex res) ;;
  Returned (bytes, res).

Definition decryptBlock (block : Bytes) (keyHex : jstring) : outcome (Bytes * DESResult) :=
  let res := des_decrypt (bytesToHex block) keyHex in
  bytes <- hexToBytes (outputHex res) ;;
  Returned (bytes, res).

Definition xorBlocks (a b : Bytes) : Bytes :=
  map (fun i => (Z.lxor (at_ 0 a (Z.of_nat i)) (at_ 0 b (Z.of_nat i))) mod 256) (seq 0 8).

Fixpoint setNth (i : nat) (v : Z) (a : Bytes) : Bytes :=
  match a, i with
  | [], _ => []
  | _ :: t, O => v :: t
  | x :: t, S i' => x :: setNth i' v t
  end.

(** The loop of [incrementCounter] from index [n - 1] down to 0.  On a
    counter shorter than 8 bytes the read is [undefined], the store is
    dropped and [undefined !== 0] leaves the loop. *)
Fixpoint incrementFrom (n : nat) (out : Bytes) : Bytes :=
  match n with
  | O => out
  | S i =>
      match nth_error out i with
      | None => out
      | Some v =>
          let v' := Z.land (v + 1) 255 in
          let out' := setNth i v' out in
          if v' =? 0 then incrementFrom i out' else out'
      end
  end.

Definition incrementCounter (counter : Bytes) : Bytes := incrementFrom 8 counter.

Inductive DesMode := ECB | CBC | CFB | OFB | CTR.

(** The variables the block loops assign: the chaining value ([prev],
    [feedback], [ofb] or [counter]), [blocks] and [firstBlockResult]. *)
Record ModeState := {
  ms_chain : Bytes;
  ms_blocks : list Bytes;
  ms_first : option DESResult
}.

Definition getFirst (first : option DESResult) (res : DESResult) : option DESResult :=
  match first with Some r => Some r | None => Some res end.

Fixpoint forEachBlock (f : ModeState -> Bytes -> outcome ModeState)
  (blocks : list Bytes) (s : ModeState) : outcome ModeState :=
  match blocks with
  | [] => Returned s
  | b :: rest => s' <- f s b ;; forEachBlock f rest s'
  end.

Definition enc_step (mode : DesMode) (keyHex : jstring) (s : ModeState) (block : Bytes)
  : outcome ModeState :=
  match mode with
  | ECB =>
      ' (bytes, result) <- encryptBlock block keyHex ;;
      Returned {| ms_chain := ms_chain s; ms_blocks := ms_blocks s ++ [bytes];
                  ms_first := getFirst (ms_first s) result |}
  | CBC =>
      let xored := xorBlocks block (ms_chain s) in
      ' (bytes, result) <- encryptBlock xored keyHex ;;
      Returned {| ms_chain := bytes; ms_blocks := ms_blocks s ++ [bytes];
                  ms_first := getFirst (ms_first s) result |}
  | CFB =>
      ' (keystream, result) <- encryptBlock (ms_chain s) keyHex ;;
      let cipherBlock := xorBlocks block keystream in
      Returned {| ms_chain := cipherBlock; ms_blocks := ms_blocks s ++ [cipherBlock];
                  ms_first := getFirst (ms_first s) result |}
  | OFB =>
      ' (keystream, result) <- encryptBlock (ms_chain s) keyHex ;;
      let cipherBlock := xorBlocks block keystream in
      Returned {| ms_chain := keystream; ms_blocks := ms_blocks s ++ [cipherBlock];
                  ms_first := getFirst (ms_first s) result |}
  | CTR =>
      ' (keystream, result) <- encryptBlock (ms_chain s) keyHex ;;
      let cipherBlock := xorBlocks block keystream in
      Returned {| ms_chain := incrementCounter (ms_chain s);
                  ms_blocks := ms_blocks s ++ [cipherBlock];
                  ms_first := getFirst (ms_first s) result |}
  end.

(** [randomBlock] is what [generateRandomBlock()] returns on this call; it
    is read only when [customIv] is absent and the mode is not ECB.  The
    final [else throw 'Unsupported encryption mode'] needs a mode outside
    [DesMode]. *)
Definition encryptBytesWithMode (randomBlock : Bytes) (plaintext : Bytes)
  (keyHex : jstring) (mode : DesMode) (customIv : option Bytes)
  : outcome (Bytes * DESResult) :=
  match mode with
  | ECB =>
      s <- forEachBlock (enc_step ECB keyHex) (chunks 8 plaintext)
             {| ms_chain := []; ms_blocks := []; ms_first := None |} ;;
      match ms_first s with
      | None => Threw "No blocks were encrypted"
      | Some firstBlockResult =>
          Returned (concatByteChunks (ms_blocks s), firstBlockResult)
      end
  | _ =>
      let iv := match customIv with Some v => v | None => randomBlock end in
      s <- forEachBlock (enc_step mode keyHex) (chunks 8 plaintext)
             {| ms_chain := iv; ms_blocks := []; ms_first := None |} ;;
      match ms_first s with
      | None => Threw "No blocks were encrypted"
      | Some firstBlockResult =>
          Returned (concatByteChunks [iv; concatByteChunks (ms_blocks s)], firstBlockResult)
      end
  end.

Definition dec_step (mode : DesMode) (keyHex : jstring) (s : ModeState) (block : Bytes)
  : outcome ModeState :=
  match mode with
  | ECB =>
      ' (bytes, result) <- decryptBlock block keyHex ;;
      Returned {| ms_chain := ms_chain s; ms_blocks := ms_blocks s ++ [bytes];
                  ms_first := getFirst (ms_first s) result |}
  | CBC =>
      ' (decrypted, result) <- decryptBlock block keyHex ;;
      let plainBlock := xorBlocks decrypted (ms_chain s) in
      Returned {| ms_chain := block; ms_blocks := ms_blocks s ++ [plainBlock];
                  ms_first := getFirst (ms_first s) result |}
  | CFB =>
      ' (keystream, result) <- encryptBlock (ms_chain s) keyHex ;;
      let plainBlock := xorBlocks block keystream in
      Returned {| ms_chain := block; ms_blocks := ms_blocks s ++ [plainBlock];
                  ms_first := getFirst (ms_first s) result |}
  | OFB =>
      ' (keystream, result) <- encryptBlock (ms_chain s) keyHex ;;
      let plainBlock := xorBlocks block keystream in
      Returned {| ms_chain := keystream; ms_blocks := ms_blocks s ++ [plainBlock];
                  ms_first := getFirst (ms_first s) result |}
  | CTR =>
      ' (keystream, result) <- encryptBlock (ms_chain s) keyHex ;;
      let plainBlock := xorBlocks block keystream in
      Returned {| ms_chain := incrementCounter (ms_chain s);
                  ms_blocks := ms_blocks s ++ [plainBlock];
                  ms_first := getFirst (ms_first s) result |}
  end.

(** [firstBlockResult!] is [undefined] when no block was visited: [None]. *)
Definition decryptBytesWithMode (ciphertext : Bytes) (keyHex : jstring) (mode : DesMode)
  : outcome (Bytes * option DESResult) :=
  match mode with
  | ECB =>
      s <- forEachBlock (dec_step ECB keyHex) (chunks 8 ciphertext)
             {| ms_chain := []; ms_blocks := []; ms_first := None |} ;;
      Returned (concatByteChunks (ms_blocks s), ms_first s)
  | _ =>
      if (length ciphertext <? 16)%nat
      then Threw "Ciphertext must include an 8-byte IV/nonce."
      else
        let iv := slice ciphertext 0 8 in
        let body := sliceFrom ciphertext 8 in
        s <- forEachBlock (dec_step mode keyHex) (chunks 8 body)
               {| ms_chain := iv; ms_blocks := []; ms_first := None |} ;;
        Returned (concatByteChunks (ms_blocks s), ms_first s)
  end.

(** The decrypt branch of [runTextProcess] (and, with another message, of
    [runFileProcess]) from the decoded [sourceBytes] on: the length guard,
    the mode decryption, the unpadding. *)
Definition runTextProcess_decrypt (sourceBytes : Bytes) (keyHex : jstring) (desMode : DesMode)
  : outcome (Bytes * option DESResult) :=
  if negb (length sourceBytes mod 8 =? 0)%nat
  then Threw "Ciphertext length must be a multiple of 8 bytes."
  else
    ' (output, firstBlockResult) <- decryptBytesWithMode sourceBytes keyHex desMode ;;
    Returned (unpadPkcs output, firstBlockResult).

(** *** Further functions of the application file *)

Definition binDigitValue (c : ascii) : option Z :=
  if Ascii.eqb c "0" then Some 0 else if Ascii.eqb c "1" then Some 1 else None.

Fixpoint binPrefix (s : jstring) (acc : option Z) : option Z :=
  match s with
  | c :: t =>
      match binDigitValue c with
      | Some v => binPrefix t (Some (2 * match acc with Some a => a | None => 0 end + v))
      | None => acc
      end
  | [] => acc
  end.

(** [parseInt(s, 2)]: leading white space, an optional sign, then the
    longest prefix of binary digits; [None] is [NaN]. *)
Definition parseInt2 (s : jstring) : option Z :=
  let s1 := trimStart s in
  let '(neg, s2) :=
    match s1 with
    | "-"%char :: t => (true, t)
    | "+"%char :: t => (false, t)
    | _ => (false, s1)
    end in
  match binPrefix s2 None with
  | Some v => Some (if neg then - v else v)
  | None => None
  end.

Fixpoint binDigitsFuel (fuel : nat) (n : Z) (acc : jstring) : jstring :=
  match fuel with
  | O => acc
  | S fuel' =>
      let acc' := digitChar (n mod 2) :: acc in
      if n <? 2 then acc' else binDigitsFuel fuel' (n / 2) acc'
  end.

(** [n.toString(2)] for a non-negative integer. *)
Definition toString2 (n : Z) : jstring :=
  binDigitsFuel (S (Z.to_nat (Z.log2 n))) n [].

(** [v.toString(radix)] for an integer or [NaN], [digits] printing the
    non-negative integers in that radix. *)
Definition numberToString (digits : Z -> jstring) (v : option Z) : jstring :=
  match v with
  | None => str "NaN"
  | Some n => if n <? 0 then "-"%char :: digits (- n) else digits n
  end.

Definition binaryStringToHex (binary : jstring) : jstring :=
  if (length binary =? 0)%nat then []
  else
    let paddedLength := ((length binary + 3) / 4 * 4)%nat in
    let paddedBinary := padEnd binary paddedLength "0"%char in
    concat (map (fun nibble => numberToString toString16 (parseInt2 nibble))
                (chunks 4 paddedBinary)).

Definition hexToBinaryString (hex : jstring) : jstring :=
  concat (map (fun char => padStart (numberToString toString2 (parseInt16 [char])) 4 "0"%char)
              hex).

(** A [for] loop over blocks whose body may throw, threading the variables
    it assigns. *)
Fixpoint forEachOutcome {A St : Type} (f : St -> A -> outcome St) (a : list A) (s : St)
  : outcome St :=
  match a with
  | [] => Returned s
  | x :: rest => s' <- f s x ;; forEachOutcome f rest s'
  end.

(** The loop bodies of [encryptBytesWithModeFixedIv]; the state is the
    chaining value ([prev], [feedback], [ofb] or [counter]) and [blocks]. *)
Definition fixed_step (mode : DesMode) (keyHex : jstring) (s : Bytes * list Bytes)
  (block : Bytes) : outcome (Bytes * list Bytes) :=
  match mode with
  | ECB =>
      ' (bytes, _) <- encryptBlock block keyHex ;;
      Returned (fst s, snd s ++ [bytes])
  | CBC =>
      let xored := xorBlocks block (fst s) in
      ' (bytes, _) <- encryptBlock xored keyHex ;;
      Returned (bytes, snd s ++ [bytes])
  | CFB =>
      ' (keystream, _) <- encryptBlock (fst s) keyHex ;;
      let cipherBlock := xorBlocks block keystream in
      Returned (cipherBlock, snd s ++ [cipherBlock])
  | OFB =>
      ' (keystream, _) <- encryptBlock (fst s) keyHex ;;
      let cipherBlock := xorBlocks block keystream in
      Returned (keystream, snd s ++ [cipherBlock])
  | CTR =>
      ' (keystream, _) <- encryptBlock (fst s) keyHex ;;
      let cipherBlock := xorBlocks block keystream in
      Returned (incrementCounter (fst s), snd s ++ [cipherBlock])
  end.

Definition encryptBytesWithModeFixedIv (plaintext : Bytes) (keyHex : jstring)
  (mode : DesMode) (iv : option Bytes) : outcome Bytes :=
  match mode with
  | ECB =>
      s <- forEachOutcome (fixed_step ECB keyHex) (chunks 8 plaintext) ([], []) ;;
      Returned (concatByteChunks (snd s))
  | _ =>
      match iv with
      | None => Threw "IV/nonce required for non-ECB test vector."
      | Some iv =>
          if negb (length iv =? 8)%nat then Threw "IV must be 8 bytes."
          else
            s <- forEachOutcome (fixed_step mode keyHex) (chunks 8 plaintext) (iv, []) ;;
            Returned (concatByteChunks [iv; concatByteChunks (snd s)])
      end
  end.

(** [chunkArray(array, size)]; the loop does not end for a [size] that is
    not positive, and the callers pass 6 and 4. *)
Definition chunkArray {T : Type} (array : list T) (size : nat) : list (list T) :=
  chunks size array.

(** [chunkBinaryToRows(binary, rowSize = 8)]: each row is the list of the
    one-character strings of a slice. *)
Definition chunkBinaryToRows (binary : jstring) (rowSize : option nat) : list (list jstring) :=
  let rowSize := match rowSize with Some n => n | None => 8%nat end in
  flat_map (fun piece =>
              let slice := map (fun c => [c]) piece in
              if (length slice =? 0)%nat then [] else [slice])
           (chunks rowSize binary).

Record FileEnvelope := {
  env_name : jstring;
  env_data : Bytes
}.

(** [ivInput.trim() !== '' && /^[0-9a-fA-F]{16}$/.test(ivInput)
    ? hexToBytes(ivInput) : undefined]. *)
Definition customIvBytes (ivInput : jstring) : outcome (option Bytes) :=
  if negb (strEq (trim ivInput) []) && ((length ivInput =? 16)%nat && forallb isHexDigit ivInput)
  then bytes <- hexToBytes ivInput ;; Returned (Some bytes)
  else Returned None.

Section FileEnvelopes.

(** [new TextEncoder().encode] and [new TextDecoder().decode]. *)
Variable textToUtf8Bytes : jstring -> Bytes.
Variable utf8BytesToText : Bytes -> jstring.

(** [name || 'file']. *)
Definition orFile (name : jstring) : jstring :=
  match name with [] => str "file" | _ => name end.

(** The array has exactly the length of its three parts; array lengths
    are below 2^31, where [>>] is the shift of the integers. *)
Definition wrapFileEnvelope (name : jstring) (data : Bytes) : Bytes :=
  let safeName := orFile name in
  let nameBytes := textToUtf8Bytes safeName in
  [Z.land (Z.shiftr (Z.of_nat (length nameBytes)) 8) 255;
   Z.land (Z.of_nat (length nameBytes)) 255] ++ nameBytes ++ data.

Definition orDecrypted (name : jstring) : jstring :=
  match name with [] => str "decrypted.bin" | _ => name end.

Definition unwrapFileEnvelope (bytes : Bytes) : FileEnvelope :=
  if (length bytes <? 2)%nat
  then {| env_name := str "decrypted.bin"; env_data := bytes |}
  else
    let nameLength := Z.lor (Z.shiftl (at_ 0 bytes 0) 8) (at_ 0 bytes 1) in
    let nameStart := 2 in
    let nameEnd := Z.min (Z.of_nat (length bytes)) (nameStart + nameLength) in
    let name := orDecrypted (utf8BytesToText (slice bytes 2 (Z.to_nat nameEnd))) in
    let data := sliceFrom bytes nameEnd in
    {| env_name := name; env_data := data |}.

End FileEnvelopes.

Inductive InputFormat := if_binary | if_hex.

Inductive KeyFormat := kf_binary | kf_hex | kf_text.

(** What [keyValidation] holds. *)
Record KeyValidation := {
  kv_display : jstring;
  kv_binary : jstring;
  kv_hex : jstring;
  kv_valid : bool;
  kv_helper : jstring
}.

(** What [plainValidation] holds. *)
Record PlainValidation := {
  pv_display : jstring;
  pv_binary : jstring;
  pv_hex : jstring;
  pv_remaining : Z;
  pv_valid : bool;
  pv_helper : jstring
}.

(** [/[^01]/g] keeps these characters. *)
Definition isBinaryDigit (c : ascii) : bool := Ascii.eqb c "0" || Ascii.eqb c "1".

(** [x || 64] on a number: 0 is falsy. *)
Definition orNumber (x d : Z) : Z := if x =? 0 then d else x.

Definition plainValidation (plaintext : jstring) (plaintextFormat : InputFormat)
  : PlainValidation :=
  match plaintextFormat with
  | if_binary =>
      let sanitized := filter isBinaryDigit plaintext in
      let validLength :=
        (0 <? length sanitized)%nat && (length sanitized mod 64 =? 0)%nat in
      let hex := binaryStringToHex sanitized in
      {| pv_display := sanitized;
         pv_binary := sanitized;
         pv_hex := hex;
         pv_remaining := 64 - orNumber (Z.of_nat (length sanitized) mod 64) 64;
         pv_valid := validLength;
         pv_helper := if validLength
                      then str "Ready (multiples of 64 bits supported)"
                      else str "Enter binary in multiples of 64 bits (block size)" |}
  | if_hex =>
      let sanitized := toLowerCase (filter isHexDigit plaintext) in
      let validLength :=
        (0 <? length sanitized)%nat && (length sanitized mod 16 =? 0)%nat in
      {| pv_display := sanitized;
         pv_binary := hexToBinaryString sanitized;
         pv_hex := sanitized;
         pv_remaining := 16 - orNumber (Z.of_nat (length sanitized) mod 16) 16;
         pv_valid := validLength;
         pv_helper := if validLength
                      then str "Ready (multiples of 16 hex chars supported)"
                      else str "Requires hex in multiples of 16 characters (64-bit blocks)" |}
  end.

Section TextKeys.

(** [new TextEncoder().encode]. *)
Variable textToUtf8Bytes : jstring -> Bytes.

(** A fresh [Uint8Array(8)] holds zeros; [set] copies [bytes] to its
    start. *)
Definition textKeyToDesKeyBytes (value : jstring) : Bytes :=
  let bytes := textToUtf8Bytes value in
  if (8 <? length bytes)%nat then slice bytes 0 8
  else if (length bytes <? 8)%nat then bytes ++ repeat 0 (8 - length bytes)
  else bytes.

Definition keyValidation (keyValue : jstring) (keyFormat : KeyFormat) : KeyValidation :=
  match keyFormat with
  | kf_binary =>
      let sanitized := slice (filter isBinaryDigit keyValue) 0 64 in
      let hex := binaryStringToHex sanitized in
      {| kv_display := sanitized;
         kv_binary := padEnd sanitized 64 "0"%char;
         kv_hex := hex;
         kv_valid := (length sanitized =? 64)%nat;
         kv_helper := if (length sanitized =? 64)%nat
                      then str "Key ready"
                      else str "Enter exactly 64 binary digits (0/1)" |}
  | kf_text =>
      let text := keyValue in
      let derivedBytes := textKeyToDesKeyBytes text in
      let derivedHex := bytesToHex derivedBytes in
      {| kv_display := text;
         kv_binary := hexToBinaryString derivedHex;
         kv_hex := derivedHex;
         kv_valid := (0 <? length (trim text))%nat;
         kv_helper := if (0 <? length (trim text))%nat
                      then str "Derived from text (UTF-8 padded/truncated to 8 bytes)"
                      else str "Please enter a key." |}
  | kf_hex =>
      let sanitized := toLowerCase (slice (filter isHexDigit keyValue) 0 16) in
      {| kv_display := sanitized;
         kv_binary := hexToBinaryString (padEnd sanitized 16 "0"%char);
         kv_hex := padEnd sanitized 16 "0"%char;
         kv_valid := (length sanitized =? 16)%nat;
         kv_helper := if (length sanitized =? 16)%nat
                      then str "Key ready"
                      else str "Requires 16 hex characters with parity bits" |}
  end.

End TextKeys.

(** *** The callbacks of the [App] component *)

Inductive InputKind := ik_binary | ik_hex | ik_text | ik_file.

Inductive CipherEncoding := ce_hex | ce_base64.

(** The state variables of [App] that the three callbacks read; a file is
    a [Uint8Array] or [null]. *)
Record AppState := {
  st_plaintext : jstring;
  st_plaintextFormat : InputFormat;
  st_keyValue : jstring;
  st_keyFormat : KeyFormat;
  st_inputKind : InputKind;
  st_textInput : jstring;
  st_textCipherInput : jstring;
  st_textCipherEncoding : CipherEncoding;
  st_fileBytes : option Bytes;
  st_fileName : jstring;
  st_fileCipherBytes : option Bytes;
  st_desMode : DesMode;
  st_ivInput : jstring
}.

(** What a callback leaves behind: the message it hands to [setError],
    from a guard before the [try] or from the [catch], no other data being
    set on either path; or the values it hands to the other setters. *)
Inductive Shown (A : Type) : Type :=
| ErrorSet (message : string)
| ValuesSet (values : A).

Arguments ErrorSet {A} message.
Arguments ValuesSet {A} values.

(** [try { ... } catch (processError) { setError(processError.message) }]:
    every call that can throw comes before the first setter of the block. *)
Definition tryCatch {A : Type} (body : outcome A) : Shown A :=
  match body with
  | Returned values => ValuesSet values
  | Threw message => ErrorSet message
  end.

(** [!value] on a string. *)
Definition isEmpty (value : jstring) : bool :=
  match value with [] => true | _ => false end.

(** [!value] on a string that may be [undefined]. *)
Definition isMissing (value : option jstring) : bool :=
  match value with Some (_ :: _) => false | _ => true end.

Definition keyErrorMessage (keyFormat : KeyFormat) : string :=
  match keyFormat with
  | kf_text => "Please enter a key."
  | _ => "Key must be 64 bits (16 hex chars or 64 binary digits)."
  end.

(** The setters of [runTextProcess] that carry data.  [setTextCipherInput]
    is called only when encrypting; [setLastEncryptResult] or
    [setLastDecryptResult] receives [tv_currentResult] and [setActiveTab]
    the mode; the timing, the flow step and the resets of the avalanche
    panel are left out. *)
Record TextValues := {
  tv_textCipherHex : jstring;
  tv_textCipherBase64 : jstring;
  tv_textCipherInput : option jstring;
  tv_textPlainOutput : jstring;
  tv_currentResult : option DESResult;
  tv_activeMode : Mode;
  tv_lastKeyHex : jstring
}.

(** The setters of [runFileProcess] that carry data, with the same
    omissions. *)
Record FileValues := {
  fv_fileCipherBytes : option Bytes;
  fv_filePlainBytes : option Bytes;
  fv_fileOutputName : jstring;
  fv_currentResult : option DESResult;
  fv_activeMode : Mode;
  fv_lastKeyHex : jstring
}.

(** The setters of the binary and hex path of [runProcess] that carry
    data, with the same omissions; [setPlaintext] is called only when
    decrypting. *)
Record BlockValues := {
  bv_currentResult : option DESResult;
  bv_activeMode : Mode;
  bv_lastKeyHex : jstring;
  bv_lastCipherHex : jstring;
  bv_lastIvHex : option jstring;
  bv_plaintext : option jstring
}.

(** [overrides?: { plaintextHex?: string; keyHex?: string }]. *)
Record Overrides := {
  ov_plaintextHex : option jstring;
  ov_keyHex : option jstring
}.

Inductive ProcessShown :=
| ByTextProcess (shown : Shown TextValues)
| ByFileProcess (shown : Shown FileValues)
| ByBlocks (shown : Shown BlockValues).

Section Callbacks.

(** [new TextEncoder().encode] and [new TextDecoder().decode]. *)
Variable textToUtf8Bytes : jstring -> Bytes.
Variable utf8BytesToText : Bytes -> jstring.

(** [btoa] on a string of characters below 256, and [atob], which throws
    on what is not Base64 ([None]). *)
Variable btoa : jstring -> jstring.
Variable atob : jstring -> option jstring.

(** [String.fromCharCode(b)] for an element of a [Uint8Array]. *)
Definition bytesToBase64 (bytes : Bytes) : jstring :=
  let binary := forEach (fun binary b _ => binary ++ [ascii_of_nat (Z.to_nat b)]) bytes [] in
  btoa binary.

Definition base64ToBytes (value : jstring) : outcome Bytes :=
  match atob (trim value) with
  | Some binary => Returned (map JS.code binary)
  | None => Threw "Invalid Base64 input."
  end.

(** [runTextProcess(mode)].  [randomBlock] is what [generateRandomBlock()]
    returns if it is called.  The callback is not rebuilt when [ivInput]
    changes, so [st_ivInput] is the field as it was when one of the other
    fields last changed. *)
Definition runTextProcess (randomBlock : Bytes) (st : AppState) (mode : Mode)
  : Shown TextValues :=
  let keyValidation := keyValidation textToUtf8Bytes (st_keyValue st) (st_keyFormat st) in
  if negb (kv_valid keyValidation) then ErrorSet (keyErrorMessage (st_keyFormat st))
  else if match mode with encrypt => isEmpty (trim (st_textInput st)) | decrypt => false end
  then ErrorSet "Enter text to encrypt."
  else if match mode with decrypt => isEmpty (trim (st_textCipherInput st)) | encrypt => false end
  then ErrorSet "Paste ciphertext in hex or Base64 to decrypt."
  else
    tryCatch
      (let keyHex := kv_hex keyValidation in
       match mode with
       | encrypt =>
           let padded := padTo8Bytes (textToUtf8Bytes (st_textInput st)) in
           customIv <- customIvBytes (st_ivInput st) ;;
           ' (output, firstBlockResult) <-
               encryptBytesWithMode randomBlock padded keyHex (st_desMode st) customIv ;;
           let cipherHex := bytesToHex output in
           let cipherB64 := bytesToBase64 output in
           Returned {| tv_textCipherHex := cipherHex;
                       tv_textCipherBase64 := cipherB64;
                       tv_textCipherInput := Some cipherHex;
                       tv_textPlainOutput := [];
                       tv_currentResult := Some firstBlockResult;
                       tv_activeMode := encrypt;
                       tv_lastKeyHex := kv_hex keyValidation |}
       | decrypt =>
           sourceBytes <-
             match st_textCipherEncoding st with
             | ce_hex => hexToBytes (trim (st_textCipherInput st))
             | ce_base64 => base64ToBytes (trim (st_textCipherInput st))
             end ;;
           ' (unpadded, firstBlockResult) <-
               runTextProcess_decrypt sourceBytes keyHex (st_desMode st) ;;
           Returned {| tv_textCipherHex := bytesToHex sourceBytes;
                       tv_textCipherBase64 := bytesToBase64 sourceBytes;
                       tv_textCipherInput := None;
                       tv_textPlainOutput := utf8BytesToText unpadded;
                       tv_currentResult := firstBlockResult;
                       tv_activeMode := decrypt;
                       tv_lastKeyHex := kv_hex keyValidation |}
       end).

(** [runFileProcess(mode)]; [!targetBytes] holds for [null] only.  As
    above for [st_ivInput]. *)
Definition runFileProcess (randomBlock : Bytes) (st : AppState) (mode : Mode)
  : Shown FileValues :=
  let keyValidation := keyValidation textToUtf8Bytes (st_keyValue st) (st_keyFormat st) in
  if negb (kv_valid keyValidation) then ErrorSet (keyErrorMessage (st_keyFormat st))
  else
    let targetBytes :=
      match mode with
      | encrypt => st_fileBytes st
      | decrypt =>
          match st_fileBytes st with
          | Some bytes => Some bytes
          | None => st_fileCipherBytes st
          end
      end in
    match targetBytes with
    | None => ErrorSet "Select a file first."
    | Some targetBytes =>
        tryCatch
          (let keyHex := kv_hex keyValidation in
           match mode with
           | encrypt =>
               let payload :=
                 wrapFileEnvelope textToUtf8Bytes (orFile (st_fileName st)) targetBytes in
               let padded := padTo8Bytes payload in
               customIv <- customIvBytes (st_ivInput st) ;;
               ' (output, firstBlockResult) <-
                   encryptBytesWithMode randomBlock padded keyHex (st_desMode st) customIv ;;
               Returned {| fv_fileCipherBytes := Some output;
                           fv_filePlainBytes := None;
                           fv_fileOutputName := orFile (st_fileName st) ++ str ".des";
                           fv_currentResult := Some firstBlockResult;
                           fv_activeMode := encrypt;
                           fv_lastKeyHex := kv_hex keyValidation |}
           | decrypt =>
               if negb (length targetBytes mod 8 =? 0)%nat
               then Threw "Encrypted file length must be a multiple of 8 bytes."
               else
                 ' (output, firstBlockResult) <-
                     decryptBytesWithMode targetBytes keyHex (st_desMode st) ;;
                 let envelope := unwrapFileEnvelope utf8BytesToText (unpadPkcs output) in
                 Returned {| fv_fileCipherBytes := None;
                             fv_filePlainBytes := Some (env_data envelope);
                             fv_fileOutputName := orDecrypted (env_name envelope);
                             fv_currentResult := firstBlockResult;
                             fv_activeMode := decrypt;
                             fv_lastKeyHex := kv_hex keyValidation |}
           end)
    end.

(** [overrides?.plaintextHex] and [overrides?.keyHex]. *)
Definition overridePlaintextHex (overrides : option Overrides) : option jstring :=
  match overrides with Some o => ov_plaintextHex o | None => None end.

Definition overrideKeyHex (overrides : option Overrides) : option jstring :=
  match overrides with Some o => ov_keyHex o | None => None end.

(** [a ?? b]. *)
Definition orElse {A : Type} (a : option A) (b : A) : A :=
  match a with Some v => v | None => b end.

(** [runProcess(mode, overrides)].  On the last path [inputKind] is
    'binary' or 'hex', so the two tests of it inside the [try] hold.  As
    above for [st_ivInput]. *)
Definition runProcess (randomBlock : Bytes) (st : AppState) (mode : Mode)
  (overrides : option Overrides) : ProcessShown :=
  match st_inputKind st with
  | ik_text => ByTextProcess (runTextProcess randomBlock st mode)
  | ik_file => ByFileProcess (runFileProcess randomBlock st mode)
  | _ =>
      let keyValidation := keyValidation textToUtf8Bytes (st_keyValue st) (st_keyFormat st) in
      let plainValidation := plainValidation (st_plaintext st) (st_plaintextFormat st) in
      ByBlocks
        (if negb (kv_valid keyValidation) && isMissing (overrideKeyHex overrides)
         then ErrorSet (keyErrorMessage (st_keyFormat st))
         else if negb (pv_valid plainValidation) && isMissing (overridePlaintextHex overrides)
         then ErrorSet "Provide data in multiples of 64 bits (16 hex chars) for this mode."
         else
           tryCatch
             (let plainHex := orElse (overridePlaintextHex overrides) (pv_hex plainValidation) in
              let keyHex := orElse (overrideKeyHex overrides) (kv_hex keyValidation) in
              inputBytes <- hexToBytes plainHex ;;
              match mode with
              | encrypt =>
                  let padded := padTo8Bytes inputBytes in
                  customIv <- customIvBytes (st_ivInput st) ;;
                  ' (output, firstBlockResult) <-
                      encryptBytesWithMode randomBlock padded keyHex (st_desMode st) customIv ;;
                  let outHex := bytesToHex output in
                  Returned {| bv_currentResult := Some firstBlockResult;
                              bv_activeMode := encrypt;
                              bv_lastKeyHex := keyHex;
                              bv_lastCipherHex := outHex;
                              bv_lastIvHex := match st_desMode st with
                                              | ECB => None
                                              | _ => Some (slice outHex 0 16)
                                              end;
                              bv_plaintext := None |}
              | decrypt =>
                  let padded := padTo8Bytes inputBytes in
                  ' (output, firstBlockResult) <-
                      decryptBytesWithMode padded keyHex (st_desMode st) ;;
                  let cipherHex := bytesToHex inputBytes in
                  Returned {| bv_currentResult := firstBlockResult;
                              bv_activeMode := decrypt;
                              bv_lastKeyHex := keyHex;
                              bv_lastCipherHex := cipherHex;
                              bv_lastIvHex := match st_desMode st with
                                              | ECB => None
                                              | _ => Some (slice cipherHex 0 16)
                                              end;
                              bv_plaintext := Some (bytesToHex (unpadPkcs output)) |}
              end))
  end.

End Callbacks.

(* ================================================================== *)
(** ** Vocabulary of the statements and of their proofs *)
(* ================================================================== *)

Definition is_bit (b : Z) : Prop := b = 0 \/ b = 1.

Definition bitlist (bits : Bits) : Prop := Forall is_bit bits.

(** The four bits [hexToBits] pushes for one character. *)
Definition charBits (char : ascii) : Bits :=
  let value := toInt (parseInt16 [char]) in
  [Z.land (Z.shiftr value 3) 1; Z.land (Z.shiftr value 2) 1;
   Z.land (Z.shiftr value 1) 1; Z.land value 1].

(** Hexadecimal digits of either case, and the digits of [hexLookup]. *)
Definition hexString (s : jstring) : Prop := Forall (fun c => isHexDigit c = true) s.

Definition lowerHexString (s : jstring) : Prop := Forall (fun c => In c hexLookup) s.

Ltac each_ascii c :=
  destruct c as [[] [] [] [] [] [] [] []].

(** [hex] is the hexadecimal form of a sequence of exactly [n] bits. *)
Definition hexOfBits (n : nat) (hex : jstring) : Prop :=
  length hex = (n / 4)%nat /\ lowerHexString hex /\
  exists bits, length bits = n /\ bitlist bits /\ hex = bitsToHex bits /\
               hexToBits hex n = bits.

(** What the loop of [generate_subkeys] keeps true of [c] and [d]. *)
Definition ks_inv (s : KsState) : Prop :=
  length (st_c s) = 28%nat /\ length (st_d s) = 28%nat /\
  bitlist (st_c s) /\ bitlist (st_d s).

Definition keyBits (keyHex : jstring) : Bits :=
  hexToBits (slice (padEnd keyHex 16 "0"%char) 0 16) 64.

(** One round on the two halves, as [core_step] updates them. *)
Definition feistel (lr : Bits * Bits) (subKeyHex : jstring) : Bits * Bits :=
  let r := feistel_round (fst lr) (snd lr) (hexToBits subKeyHex 48) in
  (r_left r, r_right r).

(** The cipher skeleton over a subkey sequence: IP, one round per subkey,
    the swap of the halves, FP. *)
Definition core_output (block : Bits) (sequence : list jstring) : jstring :=
  let ip := initial_permutation block in
  let final := fold_left feistel sequence (slice ip 0 32, sliceFrom ip 32) in
  bitsToHex (final_permutation (snd final ++ fst final)).

(** The sixteen characters [hexToBits(inputHex, 64)] reads: the input
    padded with '0' on the left, then its last sixteen characters. *)
Definition blockWindow (inputHex : jstring) : jstring :=
  let padded := padStart inputHex 16 "0"%char in
  sliceFrom padded (Z.of_nat (length padded) - 16).

(** The sixteen characters [generate_subkeys] reads: the key padded with
    '0' on the right, then its first sixteen characters. *)
Definition keyWindow (keyHex : jstring) : jstring :=
  slice (padEnd keyHex 16 "0"%char) 0 16.

(** The contents of a [Uint8Array]. *)
Definition byteBlock (bs : Bytes) : Prop := Forall (fun b => 0 <= b < 256) bs.

(** The two characters [bytesToHex] prints for one byte. *)
Definition byteHex (byte : Z) : jstring := padStart (toString16 byte) 2 "0"%char.

Definition isLowerHex (c : ascii) : bool := existsb (Ascii.eqb c) hexLookup.

Definition byteHex_ok (b : Z) : bool :=
  match byteHex b with
  | [c1; c2] =>
      isLowerHex c1 && isLowerHex c2 &&
      match parseInt16 [c1; c2] with Some v => v =? b | None => false end
  | _ => false
  end.

Definition pair_ok (c1 c2 : ascii) : bool :=
  match parseInt16 [c1; c2] with
  | Some b => (0 <=? b) && (b <? 256) && strEq (byteHex b) [c1; c2]
  | None => false
  end.

(** The last [n] bytes are [n] copies of the byte [n], with [1 <= n <= 8]. *)
Definition validPadding (bytes : Bytes) (n : nat) : Prop :=
  (1 <= n <= 8)%nat /\ (n <= length bytes)%nat /\
  skipn (length bytes - n) bytes = repeat (Z.of_nat n) n.

Definition lxor_ok (a : Z) : bool :=
  forallb (fun b => (0 <=? Z.lxor a b) && (Z.lxor a b <? 256)) (map Z.of_nat (seq 0 256)).

Definition matchResult (pat : Pattern) (expected student : jstring) : DiagnosisResult :=
  {| matchedPattern := Some (code pat);
     variantMatched := Some (label pat);
     message := description pat;
     expectedOutput := expected;
     studentOutput := student;
     score := mathMin 1 (mathMax 0 (credit pat));
     tags := [str "incorrect"; code pat] |}.

(** The IV a non-ECB encryption uses: the caller's, else the random one. *)
Definition usedIv (randomBlock : Bytes) (customIv : option Bytes) : Bytes :=
  match customIv with Some v => v | None => randomBlock end.

(** The ciphertext without its IV prefix: all of it in ECB. *)
Definition bodyLength (m : DesMode) (sourceBytes : Bytes) : Z :=
  match m with
  | ECB => Z.of_nat (length sourceBytes)
  | _ => Z.of_nat (length sourceBytes) - 8
  end.

(** The two messages the decrypt path throws. *)
Definition LengthError : string := "Ciphertext length must be a multiple of 8 bytes.".

Definition MissingIvError : string := "Ciphertext must include an 8-byte IV/nonce.".

Definition emptyPattern : Pattern :=
  {| code := []; label := []; options := noOptions; description := []; credit := 0 |}.

Definition diagnoseInput (p k s : jstring) : DiagnoseInput :=
  {| in_plaintextHex := p; in_keyHex := k; in_studentOutputHex := s |}.

(** Whether [S_BOXES[index][row][column]] of one chunk is a defined entry:
    one of the eight boxes, one of its four rows, one of sixteen columns. *)
Definition sboxLookupDefined (chunk : Bits) (index : nat) : bool :=
  let row := Z.lor (Z.shiftl (at_ 0 chunk 0) 1) (at_ 0 chunk 5) in
  let column :=
    Z.lor (Z.lor (Z.lor (Z.shiftl (at_ 0 chunk 1) 3) (Z.shiftl (at_ 0 chunk 2) 2))
                 (Z.shiftl (at_ 0 chunk 3) 1))
          (at_ 0 chunk 4) in
  (index <? 8)%nat && (0 <=? row) && (row <? 4) && (0 <=? column) && (column <? 16).

Definition sboxDefined (bits : Bits) : bool :=
  forallb (fun ok => ok) (mapi sboxLookupDefined (chunkBits bits 6)).

(** *** Vocabulary of the further properties *)

(** Whether two keys have the same bits outside the eight parity positions
    (every eighth bit). *)
Definition sameOffParity (k k' : jstring) : bool :=
  forallb (fun i => (i mod 8 =? 7)%nat || (nth i (keyBits k) 0 =? nth i (keyBits k') 0))
          (seq 0 64).

Definition PC1_skips_parity : bool :=
  forallb (fun index => (1 <=? index) && (index <=? 64) && negb (index mod 8 =? 0)) PC1_TABLE.

(** The record of round [j + 1] computed directly from the two halves of
    the parity-dropped key: both rotated by the sum of the first [j + 1]
    shifts. *)
Definition roundRecord (c d : Bits) (first : nat) (sched : list nat) (j : nat)
  : KeyScheduleRound :=
  let total := list_sum (firstn (j + 1) sched) in
  {| ks_round := first + j + 1;
     ks_shifts := nth j sched 0%nat;
     ks_c := bitsToHex (leftShift c total);
     ks_d := bitsToHex (leftShift d total);
     ks_subKey := bitsToHex (permute (leftShift c total ++ leftShift d total) PC2_TABLE) |}.

(** The block a round starts from, as the trace shows it. *)
Definition roundInput (x : RoundInfo) : jstring := ri_left x ++ ri_right x.

(** Every stage a round record shows is computed from the stage shown
    before it. *)
Definition roundLinked (x : RoundInfo) : Prop :=
  ri_expanded x = bitsToHex (expansion_permutation (hexToBits (ri_right x) 32)) /\
  ri_xorWithKey x
    = bitsToHex (xorBits (hexToBits (ri_expanded x) 48) (hexToBits (ri_subKey x) 48)) /\
  ri_sBoxOutput x = bitsToHex (s_box_substitution (hexToBits (ri_xorWithKey x) 48)) /\
  ri_pBoxOutput x = bitsToHex (p_box_permutation (hexToBits (ri_sBoxOutput x) 32)) /\
  ri_roundOutput x
    = ri_right x ++
      bitsToHex (xorBits (hexToBits (ri_left x) 32) (hexToBits (ri_pBoxOutput x) 32)).

Definition hexDigits22 : jstring := str "0123456789abcdefABCDEF".

(** A pair of hexadecimal digits of either case parses to the byte whose
    two printed digits are the pair in lower case. *)
Definition anyCasePair_ok (c1 c2 : ascii) : bool :=
  match parseInt16 [c1; c2] with
  | Some b => (0 <=? b) && (b <? 256) && strEq (byteHex b) [lowerChar c1; lowerChar c2]
  | None => false
  end.

(** What [parseInt] makes of a pair that starts with a digit: both digits,
    or the first alone when the second is no digit; [0x] and [0X] excepted. *)
Definition lenientPair_ok (c1 c2 : ascii) : bool :=
  if Ascii.eqb c1 "0" && (Ascii.eqb c2 "x" || Ascii.eqb c2 "X")
  then match parseInt16 [c1; c2] with None => true | Some _ => false end
  else match hexDigitValue c1, hexDigitValue c2, parseInt16 [c1; c2] with
       | Some v1, Some v2, Some b => b =? 16 * v1 + v2
       | Some v1, None, Some b => b =? v1
       | _, _, _ => false
       end.

Definition allAscii : list ascii := map ascii_of_nat (seq 0 256).

(** The number a counter of bytes denotes, most significant byte first. *)
Definition counterValue (counter : Bytes) : Z :=
  fold_left (fun acc b => acc * 256 + b) counter 0.

(** A two-character slice [parseInt] accepts because it starts with a
    hexadecimal digit and is not [0x] or [0X]. *)
Definition lenientPair (p : jstring) : bool :=
  match p with
  | [c1; c2] =>
      isHexDigit c1 &&
      negb (Ascii.eqb c1 "0" && (Ascii.eqb c2 "x" || Ascii.eqb c2 "X"))
  | _ => false
  end.

(** The cipher block ECB makes of one plaintext block. *)
Definition ecbBlock (keyHex : jstring) (block : Bytes) : Bytes :=
  match encryptBlock block keyHex with
  | Returned (bytes, _) => bytes
  | Threw _ => []
  end.

(** The number of eight-byte blocks a loop visits. *)
Definition blockCount (bytes : Bytes) : nat := ((length bytes + 7) / 8)%nat.

(** The options of a variant that keeps both permutations, the final swap
    and the standard shifts, and swaps after no round. *)
Definition plainOptions (order : option KeyOrder) (limit : option nat) : VariantOptions :=
  {| skipIP := false; skipFP := false; skipFinalSwap := false;
     swapAfterRound := None; roundLimit := limit; keyOrder := order;
     shiftSchedule := None |}.

(** Whether the schedule of [keyB] is the schedule of [keyA] read
    backwards. *)
Definition reversedSchedules (keyA keyB : jstring) : bool :=
  forallb (fun p => strEq (fst p) (snd p))
          (combine (snd (generate_subkeys keyB)) (rev (snd (generate_subkeys keyA)))).

(** The number of positions of [a] at which [b] has another bit, or none. *)
Fixpoint hamming (a b : Bits) : Z :=
  match a, b with
  | [], _ => 0
  | x :: a', y :: b' => (if x =? y then 0 else 1) + hamming a' b'
  | _ :: a', [] => 1 + hamming a' []
  end.

(** The entry the comparison makes of the rounds at index [i]. *)
Definition roundDiff (i : nat) (baseRound mutatedRound : RoundInfo) : AvalancheRoundDiff :=
  let diff := hamming (hexToBits (ri_roundOutput baseRound) 64)
                      (hexToBits (ri_roundOutput mutatedRound) 64) in
  {| ad_round := i + 1; differingBits := diff; percentage := toFixed2 (diff * 100) 64 |}.

(** The encoder and decoder on ASCII text, for the examples. *)
Definition asciiBytes (s : jstring) : Bytes := map JS.code s.

Definition asciiText (bytes : Bytes) : jstring :=
  map (fun b => ascii_of_nat (Z.to_nat b)) bytes.

Definition binaryString (s : jstring) : Prop :=
  Forall (fun c => c = "0"%char \/ c = "1"%char) s.

Definition bitChar (b : Z) : ascii := if b =? 1 then "1"%char else "0"%char.

Definition charBit (c : ascii) : Z := if Ascii.eqb c "1" then 1 else 0.

(** Every bit flipped. *)
Definition complBits (bits : Bits) : Bits := map (fun b => 1 - b) bits.

(** The hexadecimal form of the complement of the bits a string is read
    as: the [size] bits [hexToBits] gives, or the 64 key bits. *)
Definition complementHex (size : nat) (hex : jstring) : jstring :=
  bitsToHex (complBits (hexToBits hex size)).

Definition complementKey (keyHex : jstring) : jstring :=
  bitsToHex (complBits (keyBits keyHex)).

(** Whether every index of a table lies within [n] positions. *)
Definition tableWithin (n : Z) (table : list Z) : bool :=
  forallb (fun index => (1 <=? index) && (index <=? n)) table.

(* ================================================================== *)
(** ** Lists, bits and loops: basic facts *)
(* ================================================================== *)

Section ListFacts.

Context {A : Type}.

Lemma chunksFuel_enough (size : nat) :
  (0 < size)%nat ->
  forall fuel fuel' (a : list A),
    (length a <= fuel)%nat -> (length a <= fuel')%nat ->
    chunksFuel fuel size a = chunksFuel fuel' size a.
Proof.
  intros Hsize. induction fuel as [|fuel IH]; intros fuel' a Hf Hf'.
  - destruct a; [|simpl in Hf; lia]. destruct fuel'; reflexivity.
  - destruct a as [|x a]; [destruct fuel'; reflexivity|].
    destruct fuel' as [|fuel']; [simpl in Hf'; lia|].
    cbn [chunksFuel]. f_equal.
    assert (Hlen : (length (skipn size (x :: a)) <= length a)%nat).
    { rewrite length_skipn. cbn [length]. lia. }
    apply IH; cbn [length] in Hf, Hf'; lia.
Qed.

Lemma chunks_nil (size : nat) : chunks size (@nil A) = [].
Proof. reflexivity. Qed.

(** A loop over [piece ++ rest] visits [piece] first when [piece] is
    exactly one step long. *)
Lemma chunks_app (size : nat) (piece rest : list A) :
  (0 < size)%nat -> length piece = size ->
  chunks size (piece ++ rest) = piece :: chunks size rest.
Proof.
  intros Hsize Hlen. unfold chunks.
  assert (Hf : firstn size (piece ++ rest) = piece).
  { rewrite firstn_app, Hlen, Nat.sub_diag, firstn_all2 by lia. apply app_nil_r. }
  assert (Hs : skipn size (piece ++ rest) = rest).
  { rewrite skipn_app, Hlen, Nat.sub_diag, skipn_all2 by lia. reflexivity. }
  remember (piece ++ rest) as a eqn:Ea.
  destruct a as [|x a].
  - destruct piece; [simpl in Hlen; lia|discriminate].
  - cbn [length chunksFuel]. rewrite Hf, Hs. f_equal.
    apply chunksFuel_enough; try lia.
    rewrite <- Hs, length_skipn. cbn [length]. lia.
Qed.

Lemma chunks_concat (size : nat) (pieces : list (list A)) :
  (0 < size)%nat -> Forall (fun p => length p = size) pieces ->
  chunks size (concat pieces) = pieces.
Proof.
  intros Hsize Hall. induction Hall as [|p ps Hp _ IH]; [reflexivity|].
  simpl concat. rewrite chunks_app by assumption. now rewrite IH.
Qed.

Lemma chunks_lengths (size n : nat) :
  (0 < size)%nat -> forall a : list A, length a = (n * size)%nat ->
  Forall (fun p => length p = size) (chunks size a) /\ concat (chunks size a) = a.
Proof.
  intros Hsize. induction n as [|n IH]; intros a Hlen.
  - destruct a; [|simpl in Hlen; lia]. split; [constructor|reflexivity].
  - rewrite <- (firstn_skipn size a).
    assert (Hfirst : length (firstn size a) = size).
    { rewrite length_firstn. simpl in Hlen. lia. }
    assert (Hrest : length (skipn size a) = (n * size)%nat).
    { rewrite length_skipn. simpl in Hlen. lia. }
    rewrite chunks_app by assumption. destruct (IH _ Hrest) as [IH1 IH2].
    split; [constructor; assumption|]. simpl. now rewrite IH2.
Qed.

Lemma mapiFrom_length {B : Type} (f : A -> nat -> B) (a : list A) :
  forall i, length (mapiFrom f i a) = length a.
Proof. induction a; intros; simpl; [reflexivity|now rewrite IHa]. Qed.

Lemma forEachFrom_app {St : Type} (f : St -> A -> nat -> St) (a b : list A) :
  forall i s, forEachFrom f i (a ++ b) s
              = forEachFrom f (i + length a) b (forEachFrom f i a s).
Proof.
  induction a as [|x a IH]; intros i s; simpl.
  - now rewrite Nat.add_0_r.
  - rewrite IH. f_equal. lia.
Qed.

Lemma at_nth (d : A) (a : list A) (i : nat) :
  at_ d a (Z.of_nat i) = nth i a d.
Proof.
  unfold at_. destruct (Z.ltb_spec (Z.of_nat i) 0); [lia|].
  now rewrite Nat2Z.id.
Qed.

Lemma sliceFrom_nat (a : list A) (n : nat) : sliceFrom a (Z.of_nat n) = skipn n a.
Proof.
  unfold sliceFrom. destruct (Z.ltb_spec (Z.of_nat n) 0); [lia|].
  now rewrite Nat2Z.id.
Qed.

Lemma slice_0 (a : list A) (n : nat) : slice a 0 n = firstn n a.
Proof. unfold slice. now rewrite Nat.sub_0_r. Qed.

End ListFacts.

Lemma land_1_odd (x : Z) : Z.land x 1 = Z.b2z (Z.odd x).
Proof.
  rewrite <- Z.bit0_odd, Z.bit0_mod.
  change 1 with (Z.ones 1) at 1. now rewrite Z.land_ones by lia.
Qed.

Lemma odd_lxor (a b : Z) : Z.odd (Z.lxor a b) = xorb (Z.odd a) (Z.odd b).
Proof. rewrite <- !Z.bit0_odd. apply Z.lxor_spec. Qed.

Lemma land_1_bit (x : Z) : is_bit (Z.land x 1).
Proof. rewrite land_1_odd. destruct (Z.odd x); [right|left]; reflexivity. Qed.

(** [((l ^ p) & 1 ^ p) & 1] gives the bit [l] back, whatever [p] is. *)
Lemma xor_bit_cancel (l p : Z) :
  is_bit l -> Z.land (Z.lxor (Z.land (Z.lxor l p) 1) p) 1 = l.
Proof.
  intros Hl. rewrite !land_1_odd, !odd_lxor.
  destruct Hl as [-> | ->]; destruct (Z.odd p); reflexivity.
Qed.

Lemma bitlist_app (a b : Bits) : bitlist a -> bitlist b -> bitlist (a ++ b).
Proof. intros. apply Forall_app. now split. Qed.

Lemma Forall_firstn_skipn {A : Type} (P : A -> Prop) (n : nat) (a : list A) :
  Forall P a -> Forall P (firstn n a) /\ Forall P (skipn n a).
Proof. intros H. rewrite <- (firstn_skipn n a) in H. now apply Forall_app in H. Qed.

Lemma bitlist_firstn (n : nat) (a : Bits) : bitlist a -> bitlist (firstn n a).
Proof. intros H. now apply Forall_firstn_skipn. Qed.

Lemma bitlist_skipn (n : nat) (a : Bits) : bitlist a -> bitlist (skipn n a).
Proof. intros H. now apply (Forall_firstn_skipn is_bit n a). Qed.

Lemma at_bit (bits : Bits) (i : Z) : bitlist bits -> is_bit (at_ 0 bits i).
Proof.
  intros Hb. unfold at_. destruct (i <? 0); [now left|].
  destruct (Nat.lt_ge_cases (Z.to_nat i) (length bits)) as [Hlt|Hge].
  - unfold bitlist in Hb. rewrite Forall_forall in Hb. apply Hb. now apply nth_In.
  - rewrite nth_overflow by assumption. now left.
Qed.

Lemma permute_length (bits : Bits) (table : list Z) :
  length (permute bits table) = length table.
Proof. apply length_map. Qed.

Lemma permute_bitlist (bits : Bits) (table : list Z) :
  bitlist bits -> bitlist (permute bits table).
Proof.
  intros Hb. unfold permute, bitlist. rewrite Forall_map, Forall_forall.
  intros i _. now apply at_bit.
Qed.

Lemma leftShift_length (bits : Bits) (n : nat) :
  length (leftShift bits n) = length bits.
Proof.
  unfold leftShift. rewrite length_app, length_skipn, length_firstn. lia.
Qed.

Lemma leftShift_bitlist (bits : Bits) (n : nat) :
  bitlist bits -> bitlist (leftShift bits n).
Proof.
  intros Hb. unfold leftShift.
  apply bitlist_app; [now apply bitlist_skipn|now apply bitlist_firstn].
Qed.

Lemma xorBits_length (a b : Bits) : length (xorBits a b) = length a.
Proof. apply mapiFrom_length. Qed.

Lemma xorBits_bitlist (a b : Bits) : bitlist (xorBits a b).
Proof.
  unfold xorBits, mapi. generalize 0%nat.
  induction a as [|x a IH]; intros i; simpl; constructor.
  - apply land_1_bit.
  - apply IH.
Qed.

Lemma xorBits_cancel (a b : Bits) :
  bitlist a -> xorBits (xorBits a b) b = a.
Proof.
  unfold xorBits, mapi. generalize 0%nat.
  induction a as [|x a IH]; intros i Hb; simpl; [reflexivity|].
  inversion Hb; subst. f_equal; [now apply xor_bit_cancel|now apply IH].
Qed.

(* ================================================================== *)
(** ** Hexadecimal strings and bit sequences *)
(* ================================================================== *)

Lemma lowerHex_isHexDigit (c : ascii) : In c hexLookup -> isHexDigit c = true.
Proof. intros H. vm_compute in H. intuition (subst; reflexivity). Qed.

Lemma lowerHex_lowerChar (c : ascii) : In c hexLookup -> lowerChar c = c.
Proof. intros H. vm_compute in H. intuition (subst; reflexivity). Qed.

Lemma isHexDigit_lower (c : ascii) : isHexDigit c = true -> In (lowerChar c) hexLookup.
Proof.
  each_ascii c; intros H; vm_compute in H; try discriminate H; vm_compute; tauto.
Qed.

Lemma lowerHexString_hexString (s : jstring) : lowerHexString s -> hexString s.
Proof. apply Forall_impl, lowerHex_isHexDigit. Qed.

Lemma toLowerCase_lowerHex (s : jstring) : lowerHexString s -> toLowerCase s = s.
Proof.
  induction 1 as [|c s Hc _ IH]; [reflexivity|].
  simpl. now rewrite lowerHex_lowerChar, IH.
Qed.

Lemma toLowerCase_hexString (s : jstring) : hexString s -> lowerHexString (toLowerCase s).
Proof.
  intros H. unfold lowerHexString, toLowerCase. rewrite Forall_map.
  eapply Forall_impl; [|exact H]. apply isHexDigit_lower.
Qed.

Lemma hexToBits_unfold (hex : jstring) (size : nat) :
  hexToBits hex size =
  let bits := flat_map charBits (padStart (toLowerCase hex) (size / 4) "0"%char) in
  sliceFrom bits (Z.of_nat (length bits) - Z.of_nat size).
Proof. reflexivity. Qed.

Lemma charBits_four (c : ascii) : exists x1 x2 x3 x4, charBits c = [x1; x2; x3; x4].
Proof. unfold charBits. now repeat eexists. Qed.

Lemma charBits_length (s : jstring) : length (flat_map charBits s) = (4 * length s)%nat.
Proof. induction s; simpl; [reflexivity|]. rewrite IHs. lia. Qed.

Lemma charBits_bitlist (s : jstring) : bitlist (flat_map charBits s).
Proof.
  induction s as [|c s IH]; [constructor|].
  cbn [flat_map]. apply bitlist_app; [|exact IH].
  unfold charBits. repeat (apply Forall_cons; [apply land_1_bit|]). constructor.
Qed.

(** Whatever the string, [hexToBits] returns [size] bits when [size] is a
    multiple of four. *)
Lemma hexToBits_length (hex : jstring) (k : nat) :
  length (hexToBits hex (4 * k)) = (4 * k)%nat.
Proof.
  rewrite hexToBits_unfold. cbv zeta. rewrite charBits_length.
  replace (4 * k / 4)%nat with k by (rewrite Nat.mul_comm, Nat.div_mul; lia).
  unfold padStart. rewrite length_app, repeat_length.
  set (n := length (toLowerCase hex)).
  replace (Z.of_nat (4 * (k - n + n)) - Z.of_nat (4 * k))
    with (Z.of_nat (4 * (k - n + n) - 4 * k)) by lia.
  rewrite sliceFrom_nat, length_skipn, charBits_length, length_app, repeat_length.
  fold n. lia.
Qed.

Lemma hexToBits_bitlist (hex : jstring) (size : nat) : bitlist (hexToBits hex size).
Proof.
  rewrite hexToBits_unfold. cbv zeta. unfold sliceFrom.
  destruct (_ <? 0); apply bitlist_skipn, charBits_bitlist.
Qed.

(** On a string of exactly [size / 4] characters nothing is padded and
    nothing is cut. *)
Lemma hexToBits_exact (hex : jstring) :
  hexToBits hex (4 * length hex) = flat_map charBits (toLowerCase hex).
Proof.
  rewrite hexToBits_unfold. cbv zeta.
  replace (4 * length hex / 4)%nat with (length hex)
    by (rewrite Nat.mul_comm, Nat.div_mul; lia).
  unfold padStart, toLowerCase. rewrite length_map, Nat.sub_diag. cbn [repeat app].
  rewrite charBits_length, length_map, Z.sub_diag. reflexivity.
Qed.

Lemma joinChars_cons (o : option ascii) (a : list (option ascii)) :
  joinChars (o :: a) = match o with Some c => [c] | None => [] end ++ joinChars a.
Proof. reflexivity. Qed.

Lemma bitsToHex_nil : bitsToHex [] = [].
Proof. reflexivity. Qed.

Lemma bitsToHex_cons4 (a b c d : Z) (rest : Bits) :
  bitsToHex (a :: b :: c :: d :: rest) =
  match toHexDigit [a; b; c; d] with Some ch => [ch] | None => [] end ++ bitsToHex rest.
Proof.
  unfold bitsToHex, chunkBits.
  change (a :: b :: c :: d :: rest) with ([a; b; c; d] ++ rest).
  rewrite chunks_app by (simpl; lia). reflexivity.
Qed.

(** Most significant bit first: the nibble [a b c d] is the digit of value
    [8a + 4b + 2c + d], and that digit gives the same four bits back. *)
Lemma toHexDigit_nibble (a b c d : Z) :
  is_bit a -> is_bit b -> is_bit c -> is_bit d ->
  toHexDigit [a; b; c; d] = nth_error hexLookup (Z.to_nat (8 * a + 4 * b + 2 * c + d)) /\
  exists ch, toHexDigit [a; b; c; d] = Some ch /\ In ch hexLookup /\
             charBits ch = [a; b; c; d].
Proof.
  intros [-> | ->] [-> | ->] [-> | ->] [-> | ->];
    (split; [reflexivity|eexists; split; [reflexivity|split; [vm_compute; tauto|reflexivity]]]).
Qed.

Lemma charBits_digit (c : ascii) :
  isHexDigit c = true -> toHexDigit (charBits (lowerChar c)) = Some (lowerChar c).
Proof.
  each_ascii c; intros H; vm_compute in H; try discriminate H; reflexivity.
Qed.

Lemma charBits_value (c : ascii) (v : Z) :
  hexDigitValue c = Some v ->
  0 <= v < 16 /\
  charBits (lowerChar c) = [v / 8 mod 2; v / 4 mod 2; v / 2 mod 2; v mod 2].
Proof.
  each_ascii c; intros H; vm_compute in H; try discriminate H;
    injection H as <-; (split; [lia|reflexivity]).
Qed.

(** Bits to hex and back, for any number of whole nibbles. *)
Lemma bits_hex_bits (n : nat) :
  forall bits, length bits = (4 * n)%nat -> bitlist bits ->
    length (bitsToHex bits) = n /\ lowerHexString (bitsToHex bits) /\
    flat_map charBits (bitsToHex bits) = bits.
Proof.
  induction n as [|n IH]; intros bits Hlen Hb.
  - destruct bits; [|discriminate]. repeat split. constructor.
  - destruct bits as [|a [|b [|c [|d rest]]]]; try (simpl in Hlen; lia).
    inversion Hb as [|? ? Ha Hb1]; subst. inversion Hb1 as [|? ? Hb' Hb2]; subst.
    inversion Hb2 as [|? ? Hc Hb3]; subst. inversion Hb3 as [|? ? Hd Hrest]; subst.
    destruct (toHexDigit_nibble a b c d Ha Hb' Hc Hd) as [_ [ch [Hch [Hin Hbits]]]].
    rewrite bitsToHex_cons4, Hch.
    destruct (IH rest) as [IH1 [IH2 IH3]]; [simpl in Hlen; lia|assumption|].
    cbn [app length flat_map]. rewrite IH1, IH3, Hbits.
    repeat split. now constructor.
Qed.

Lemma hexToBits_bitsToHex (n : nat) (bits : Bits) :
  length bits = (4 * n)%nat -> bitlist bits ->
  hexToBits (bitsToHex bits) (4 * n) = bits.
Proof.
  intros Hlen Hb. destruct (bits_hex_bits n bits Hlen Hb) as [H1 [H2 H3]].
  rewrite <- H1. rewrite hexToBits_exact, toLowerCase_lowerHex; assumption.
Qed.

Lemma bitsToHex_charBits (hex : jstring) :
  hexString hex -> bitsToHex (flat_map charBits (toLowerCase hex)) = toLowerCase hex.
Proof.
  induction 1 as [|c hex Hc _ IH]; [reflexivity|].
  cbn [toLowerCase map flat_map]. fold (toLowerCase hex).
  pose proof (charBits_digit c Hc) as Hd.
  destruct (charBits_four (lowerChar c)) as [x1 [x2 [x3 [x4 E]]]].
  rewrite E in Hd |- *. cbn [app]. rewrite bitsToHex_cons4, Hd, IH. reflexivity.
Qed.

Lemma bitsToHex_hexToBits (hex : jstring) :
  hexString hex -> bitsToHex (hexToBits hex (4 * length hex)) = toLowerCase hex.
Proof. intros H. rewrite hexToBits_exact. now apply bitsToHex_charBits. Qed.

(* ================================================================== *)
(** ** The key schedule *)
(* ================================================================== *)

Lemma hexOfBits_intro (k : nat) (bits : Bits) :
  length bits = (4 * k)%nat -> bitlist bits -> hexOfBits (4 * k) (bitsToHex bits).
Proof.
  intros Hlen Hb. destruct (bits_hex_bits k bits Hlen Hb) as [H1 [H2 _]].
  unfold hexOfBits. replace (4 * k / 4)%nat with k
    by (rewrite Nat.mul_comm, Nat.div_mul; lia).
  repeat split; try assumption.
  exists bits. repeat split; try assumption. now apply hexToBits_bitsToHex.
Qed.

Lemma ks_step_inv (s : KsState) (shift index : nat) :
  ks_inv s -> ks_inv (ks_step s shift index).
Proof.
  intros [Hc [Hd [Bc Bd]]]. unfold ks_inv, ks_step. cbn.
  rewrite !leftShift_length. repeat split; try assumption;
    now apply leftShift_bitlist.
Qed.

Lemma ks_step_subKey (s : KsState) (shift index : nat) :
  ks_inv s ->
  exists r, st_rounds (ks_step s shift index) = st_rounds s ++ [r] /\
            st_subKeys (ks_step s shift index) = st_subKeys s ++ [ks_subKey r] /\
            ks_round r = (index + 1)%nat /\ ks_shifts r = shift /\
            hexOfBits 48 (ks_subKey r).
Proof.
  intros [Hc [Hd [Bc Bd]]]. eexists. split; [reflexivity|].
  split; [reflexivity|]. split; [reflexivity|]. split; [reflexivity|].
  cbn [ks_subKey]. change 48%nat with (4 * 12)%nat. apply hexOfBits_intro.
  - apply permute_length.
  - apply permute_bitlist, bitlist_app; now apply leftShift_bitlist.
Qed.

Lemma ks_loop (sched : list nat) :
  forall i s, ks_inv s ->
    let s' := forEachFrom ks_step i sched s in
    ks_inv s' /\
    exists new, st_rounds s' = st_rounds s ++ new /\
                st_subKeys s' = st_subKeys s ++ map ks_subKey new /\
                map ks_round new = seq (i + 1) (length sched) /\
                map ks_shifts new = sched /\
                Forall (fun r => hexOfBits 48 (ks_subKey r)) new.
Proof.
  induction sched as [|shift sched IH]; intros i s Hinv; cbn zeta.
  - split; [assumption|]. exists []. cbn. rewrite !app_nil_r. repeat split. constructor.
  - cbn [forEachFrom].
    destruct (ks_step_subKey s shift i Hinv) as [r [Hr [Hk [Hround [Hshift Hsub]]]]].
    destruct (IH (S i) (ks_step s shift i) (ks_step_inv _ _ _ Hinv))
      as [Hinv' [new [Hr' [Hk' [Hround' [Hshift' Hsub']]]]]].
    split; [assumption|]. exists (r :: new).
    rewrite Hr', Hk', Hr, Hk, <- !app_assoc. cbn [app map length seq].
    rewrite Hround, Hshift, Hround', Hshift'.
    replace (S i + 1)%nat with (S (i + 1)) by lia.
    repeat split. now constructor.
Qed.

Lemma keyBits_shape (keyHex : jstring) :
  length (keyBits keyHex) = 64%nat /\ bitlist (keyBits keyHex).
Proof.
  split; [apply (hexToBits_length _ 16)|apply hexToBits_bitlist].
Qed.

Lemma parityDropped_shape (keyHex : jstring) :
  let pd := permute (keyBits keyHex) PC1_TABLE in
  length pd = 56%nat /\ bitlist pd /\
  ks_inv {| st_c := slice pd 0 28; st_d := sliceFrom pd 28;
            st_rounds := []; st_subKeys := [] |}.
Proof.
  cbn zeta. destruct (keyBits_shape keyHex) as [_ Hb].
  assert (Hlen : length (permute (keyBits keyHex) PC1_TABLE) = 56%nat)
    by apply permute_length.
  assert (Hbits : bitlist (permute (keyBits keyHex) PC1_TABLE))
    by now apply permute_bitlist.
  split; [assumption|]. split; [assumption|].
  unfold ks_inv. cbn [st_c st_d]. rewrite slice_0.
  change 28 with (Z.of_nat 28). rewrite sliceFrom_nat.
  rewrite length_firstn, length_skipn, Hlen.
  repeat split; [now apply bitlist_firstn|now apply bitlist_skipn].
Qed.

Lemma generate_subkeys_shape (keyHex : jstring) :
  let ks := fst (generate_subkeys keyHex) in
  let sks := snd (generate_subkeys keyHex) in
  map ks_round (ks_rounds ks) = seq 1 16 /\
  map ks_shifts (ks_rounds ks) = SHIFT_SCHEDULE /\
  sks = map ks_subKey (ks_rounds ks) /\
  Forall (fun r => hexOfBits 48 (ks_subKey r)) (ks_rounds ks) /\
  hexOfBits 56 (parityDroppedKey ks).
Proof.
  cbn zeta. unfold generate_subkeys. fold (keyBits keyHex). cbn [fst snd ks_rounds].
  destruct (parityDropped_shape keyHex) as [Hlen [Hbits Hinv]].
  destruct (ks_loop SHIFT_SCHEDULE 0 _ Hinv) as [_ [new [Hr [Hk [Hround [Hshift Hsub]]]]]].
  unfold forEach. rewrite Hr, Hk. cbn [st_rounds st_subKeys app].
  split; [exact Hround|]. split; [exact Hshift|]. split; [reflexivity|].
  split; [exact Hsub|].
  cbn [parityDroppedKey]. change 56%nat with (4 * 14)%nat.
  now apply hexOfBits_intro.
Qed.

(* ================================================================== *)
(** ** The single-block cipher *)
(* ================================================================== *)

Lemma core_loop (sequence : list jstring) :
  forall i s,
    let s' := forEachFrom core_step i sequence s in
    (cs_left s', cs_right s') = fold_left feistel sequence (cs_left s, cs_right s) /\
    length (cs_roundData s') = (length (cs_roundData s) + length sequence)%nat.
Proof.
  induction sequence as [|k ks IH]; intros i s; cbn zeta.
  - cbn. split; [reflexivity|lia].
  - cbn [forEachFrom fold_left]. destruct (IH (S i) (core_step s k i)) as [H1 H2].
    rewrite H1, H2. split; [reflexivity|].
    cbn [core_step cs_roundData length]. rewrite length_app. cbn. lia.
Qed.

Lemma runCore_output (input keyHex : jstring) (m : Mode) :
  outputHex (runCore input keyHex m) =
  core_output (hexToBits input 64)
    (match m with
     | encrypt => snd (generate_subkeys keyHex)
     | decrypt => rev (snd (generate_subkeys keyHex))
     end).
Proof.
  unfold runCore, core_output. destruct (generate_subkeys keyHex) as [ks sks].
  cbv zeta. cbn [outputHex snd]. unfold forEach.
  match goal with
  | |- context [forEachFrom core_step 0 ?q ?s0] =>
      destruct (core_loop q 0%nat s0) as [H _]; cbn zeta in H;
      pose proof (f_equal fst H) as Hl; pose proof (f_equal snd H) as Hr;
      cbn [fst snd] in Hl, Hr; rewrite Hl, Hr
  end.
  reflexivity.
Qed.

Lemma runCore_fields (input keyHex : jstring) (m : Mode) :
  keySchedule (runCore input keyHex m) = fst (generate_subkeys keyHex) /\
  subKeys (runCore input keyHex m) =
    (match m with
     | encrypt => snd (generate_subkeys keyHex)
     | decrypt => rev (snd (generate_subkeys keyHex))
     end) /\
  length (rounds (runCore input keyHex m)) = length (snd (generate_subkeys keyHex)) /\
  inputHex (runCore input keyHex m) = toLowerCase input.
Proof.
  unfold runCore. destruct (generate_subkeys keyHex) as [ks sks].
  cbn [keySchedule subKeys rounds inputHex fst snd]. repeat split.
  unfold forEach.
  match goal with
  | |- context [forEachFrom core_step 0 ?q ?s0] =>
      destruct (core_loop q 0%nat s0) as [_ H]; cbn zeta in H; rewrite H
  end.
  cbn. destruct m; [reflexivity|apply length_rev].
Qed.

Lemma FP_after_IP (block : Bits) :
  length block = 64%nat ->
  final_permutation (initial_permutation block) = block.
Proof.
  intros H.
  do 64 (destruct block as [|? block]; [discriminate H|]).
  destruct block; [|discriminate H]. reflexivity.
Qed.

Lemma IP_after_FP (block : Bits) :
  length block = 64%nat ->
  initial_permutation (final_permutation block) = block.
Proof.
  intros H.
  do 64 (destruct block as [|? block]; [discriminate H|]).
  destruct block; [|discriminate H]. reflexivity.
Qed.

Lemma feistel_shape (lr : Bits * Bits) (k : jstring) :
  fst (feistel lr k) = snd lr /\
  bitlist (snd (feistel lr k)) /\
  length (snd (feistel lr k)) = length (fst lr).
Proof.
  unfold feistel, feistel_round. cbn [fst snd r_left r_right].
  split; [reflexivity|]. split; [apply xorBits_bitlist|apply xorBits_length].
Qed.

(** Undoing a round: on the swapped halves the same subkey restores the
    previous halves, swapped. *)
Lemma feistel_undo (l r : Bits) (k : jstring) :
  bitlist l ->
  feistel (snd (feistel (l, r) k), fst (feistel (l, r) k)) k = (r, l).
Proof.
  intros Hl. unfold feistel, feistel_round. cbn [fst snd r_left r_right].
  f_equal. now apply xorBits_cancel.
Qed.

(** The rounds run with the subkeys reversed, from the swapped result,
    lead back to the swapped start. *)
Lemma feistel_rounds_reverse (ks : list jstring) :
  forall l r, bitlist l -> bitlist r ->
    let final := fold_left feistel ks (l, r) in
    bitlist (fst final) /\ bitlist (snd final) /\
    (length l = length r ->
     length (fst final) = length l /\ length (snd final) = length l) /\
    fold_left feistel (rev ks) (snd final, fst final) = (r, l).
Proof.
  induction ks as [|k ks IH]; intros l r Hl Hr; cbn zeta.
  - cbn. split; [assumption|]. split; [assumption|]. split; [|reflexivity].
    intros H. split; [reflexivity|now rewrite H].
  - cbn [fold_left rev].
    destruct (feistel_shape (l, r) k) as [H1 [H2 H3]]. cbn [fst snd] in H1, H3.
    pose proof (feistel_undo l r k Hl) as Hundo.
    destruct (feistel (l, r) k) as [l1 r1] eqn:E. cbn [fst snd] in *. subst l1.
    destruct (IH r r1 Hr H2) as [B1 [B2 [Hlen Hrev]]]. cbn zeta in *.
    split; [assumption|]. split; [assumption|]. split.
    + intros Heq. destruct Hlen as [L1 L2]; [congruence|]. split; congruence.
    + rewrite fold_left_app, Hrev. cbn [fold_left]. exact Hundo.
Qed.

(** The halves [runCore] starts from. *)
Lemma halves_shape (block : Bits) :
  length block = 64%nat -> bitlist block ->
  let l := slice block 0 32 in
  let r := sliceFrom block 32 in
  length l = 32%nat /\ length r = 32%nat /\ bitlist l /\ bitlist r /\ l ++ r = block.
Proof.
  intros Hlen Hb. cbn zeta. rewrite slice_0. change 32 with (Z.of_nat 32).
  rewrite sliceFrom_nat, length_firstn, length_skipn, Hlen.
  repeat split; [now apply bitlist_firstn|now apply bitlist_skipn|apply firstn_skipn].
Qed.

Lemma halves_app (l r : Bits) :
  length l = 32%nat -> slice (l ++ r) 0 32 = l /\ sliceFrom (l ++ r) 32 = r.
Proof.
  intros Hlen. rewrite slice_0. change 32 with (Z.of_nat 32). rewrite sliceFrom_nat.
  rewrite firstn_app, skipn_app, Hlen, Nat.sub_diag.
  rewrite firstn_all2, skipn_all2 by lia. cbn. now rewrite app_nil_r.
Qed.

(** The block [core_output] prints: 64 bits, whatever the subkeys. *)
Lemma core_output_shape (block : Bits) (sequence : list jstring) :
  length block = 64%nat -> bitlist block ->
  exists l r,
    fold_left feistel sequence
      (slice (initial_permutation block) 0 32, sliceFrom (initial_permutation block) 32)
      = (l, r) /\
    length l = 32%nat /\ length r = 32%nat /\ bitlist l /\ bitlist r /\
    core_output block sequence = bitsToHex (final_permutation (r ++ l)) /\
    fold_left feistel (rev sequence) (r, l)
      = (sliceFrom (initial_permutation block) 32, slice (initial_permutation block) 0 32).
Proof.
  intros Hlen Hb.
  assert (Hip : length (initial_permutation block) = 64%nat) by apply permute_length.
  assert (Bip : bitlist (initial_permutation block)) by now apply permute_bitlist.
  destruct (halves_shape _ Hip Bip) as [L0 [R0 [BL [BR _]]]]. cbn zeta in *.
  destruct (feistel_rounds_reverse sequence _ _ BL BR) as [B1 [B2 [Hl Hrev]]].
  cbn zeta in *. destruct Hl as [L1 L2]; [congruence|].
  unfold core_output. cbv zeta.
  destruct (fold_left feistel sequence _) as [l r]. cbn [fst snd] in *.
  exists l, r. repeat split; try assumption; congruence.
Qed.

Lemma final_permutation_shape (pre : Bits) :
  bitlist pre ->
  length (final_permutation pre) = 64%nat /\ bitlist (final_permutation pre).
Proof. intros H. split; [apply permute_length|now apply permute_bitlist]. Qed.

(** Every call of [runCore] prints a block of 64 bits: sixteen digits of
    [hexLookup]. *)
Lemma runCore_output_shape (input keyHex : jstring) (m : Mode) :
  hexOfBits 64 (outputHex (runCore input keyHex m)).
Proof.
  rewrite runCore_output.
  set (q := match m with encrypt => _ | decrypt => _ end).
  destruct (core_output_shape (hexToBits input 64) q)
    as [l [r [_ [L [R [BL [BR [Hout _]]]]]]]].
  - apply (hexToBits_length _ 16).
  - apply hexToBits_bitlist.
  - rewrite Hout. change 64%nat with (4 * 16)%nat.
    destruct (final_permutation_shape (r ++ l)) as [F1 F2]; [now apply bitlist_app|].
    now apply hexOfBits_intro.
Qed.

(** Decrypting what [core_output] printed, with the subkeys reversed. *)
Lemma core_output_reverse (block : Bits) (sequence : list jstring) :
  length block = 64%nat -> bitlist block ->
  core_output (hexToBits (core_output block sequence) 64) (rev sequence)
    = bitsToHex block.
Proof.
  intros Hlen Hb.
  destruct (core_output_shape block sequence Hlen Hb)
    as [l [r [_ [L [R [BL [BR [Hout Hrev]]]]]]]].
  assert (Bpre : bitlist (r ++ l)) by now apply bitlist_app.
  assert (Lpre : length (r ++ l) = 64%nat) by (rewrite length_app; lia).
  destruct (final_permutation_shape (r ++ l) Bpre) as [F1 F2].
  rewrite Hout. change 64%nat with (4 * 16)%nat at 1.
  rewrite hexToBits_bitsToHex by assumption.
  unfold core_output at 1. cbv zeta. rewrite IP_after_FP by assumption.
  destruct (halves_app r l R) as [H1 H2]. rewrite H1, H2, Hrev. cbn [fst snd].
  assert (Hip : length (initial_permutation block) = 64%nat) by apply permute_length.
  assert (Bip : bitlist (initial_permutation block)) by now apply permute_bitlist.
  destruct (halves_shape _ Hip Bip) as [_ [_ [_ [_ Happ]]]]. cbn zeta in Happ.
  rewrite Happ, FP_after_IP by assumption. reflexivity.
Qed.

(** The round trip on any sixteen hexadecimal digits, either case: the
    block comes back in the lower case the cipher prints. *)
Lemma cipher_round_trip_any_case (block keyHex : jstring) :
  length block = 16%nat -> hexString block ->
  outputHex (des_decrypt (outputHex (des_encrypt block keyHex)) keyHex)
    = toLowerCase block.
Proof.
  intros Hlen Hhex. unfold des_decrypt, des_encrypt.
  rewrite (runCore_output _ keyHex decrypt), (runCore_output block keyHex encrypt).
  rewrite core_output_reverse.
  - change 64%nat with (4 * 16)%nat. rewrite <- Hlen. now apply bitsToHex_hexToBits.
  - apply (hexToBits_length _ 16).
  - apply hexToBits_bitlist.
Qed.

(* ================================================================== *)
(** ** Inputs of another length at the cipher boundary *)
(* ================================================================== *)

Lemma blockWindow_length (inputHex : jstring) : length (blockWindow inputHex) = 16%nat.
Proof.
  unfold blockWindow, padStart. cbv zeta.
  rewrite length_app, repeat_length.
  set (n := length inputHex).
  replace (Z.of_nat (16 - n + n) - 16) with (Z.of_nat (16 - n + n - 16)) by lia.
  rewrite sliceFrom_nat, length_skipn, length_app, repeat_length. fold n. lia.
Qed.

Lemma keyWindow_length (keyHex : jstring) : length (keyWindow keyHex) = 16%nat.
Proof.
  unfold keyWindow, padEnd. rewrite slice_0, length_firstn, length_app, repeat_length. lia.
Qed.

Lemma blockWindow_fixed (inputHex : jstring) :
  length inputHex = 16%nat -> blockWindow inputHex = inputHex.
Proof.
  intros H. unfold blockWindow, padStart. rewrite H. cbn [Nat.sub repeat app].
  rewrite H. reflexivity.
Qed.

Lemma keyWindow_fixed (keyHex : jstring) :
  length keyHex = 16%nat -> keyWindow keyHex = keyHex.
Proof.
  intros H. unfold keyWindow, padEnd. rewrite H, slice_0. cbn [Nat.sub repeat].
  rewrite app_nil_r. apply firstn_all2. lia.
Qed.

Lemma toLowerCase_padStart (s : jstring) (n : nat) :
  toLowerCase (padStart s n "0"%char) = padStart (toLowerCase s) n "0"%char.
Proof.
  unfold padStart, toLowerCase. rewrite map_app, map_repeat, length_map. reflexivity.
Qed.

Lemma flat_map_charBits_skipn (n : nat) (s : jstring) :
  skipn (4 * n) (flat_map charBits s) = flat_map charBits (skipn n s).
Proof.
  revert s. induction n as [|n IH]; intros s; [reflexivity|].
  destruct s as [|c s]; [reflexivity|].
  replace (4 * S n)%nat with (4 + 4 * n)%nat by lia.
  cbn [flat_map skipn]. destruct (charBits_four c) as [x1 [x2 [x3 [x4 E]]]].
  rewrite E. cbn [app Nat.add skipn]. apply IH.
Qed.

(** [hexToBits(inputHex, 64)] depends on the window only. *)
Lemma hexToBits_window (inputHex : jstring) :
  hexToBits inputHex 64 = hexToBits (blockWindow inputHex) 64.
Proof.
  assert (H : hexToBits inputHex 64 = flat_map charBits (toLowerCase (blockWindow inputHex))).
  { rewrite hexToBits_unfold. cbv zeta. change (64 / 4)%nat with 16%nat.
    unfold blockWindow. cbv zeta. rewrite charBits_length.
    rewrite <- toLowerCase_padStart.
    set (p := padStart inputHex 16 "0"%char).
    assert (Hp : (16 <= length p)%nat).
    { unfold p, padStart. rewrite length_app, repeat_length. lia. }
    unfold toLowerCase at 1 2. rewrite length_map.
    replace (Z.of_nat (4 * length p) - Z.of_nat 64)
      with (Z.of_nat (4 * (length p - 16))) by lia.
    replace (Z.of_nat (length p) - 16) with (Z.of_nat (length p - 16)) by lia.
    rewrite !sliceFrom_nat, flat_map_charBits_skipn. unfold toLowerCase.
    now rewrite skipn_map. }
  rewrite H, <- (hexToBits_exact (blockWindow inputHex)), blockWindow_length.
  reflexivity.
Qed.

Lemma generate_subkeys_window (keyHex : jstring) :
  generate_subkeys keyHex = generate_subkeys (keyWindow keyHex).
Proof.
  unfold generate_subkeys. fold (keyWindow keyHex). fold (keyWindow (keyWindow keyHex)).
  now rewrite (keyWindow_fixed (keyWindow keyHex)) by apply keyWindow_length.
Qed.

(* ================================================================== *)
(** ** Bytes and their hexadecimal form *)
(* ================================================================== *)

Lemma strEq_eq (a b : jstring) : strEq a b = true <-> a = b.
Proof.
  revert b. induction a as [|x a IH]; intros [|y b]; cbn; try (split; congruence).
  rewrite andb_true_iff, Ascii.eqb_eq, IH. split; [intros [-> ->]; reflexivity|].
  intros H; injection H as -> ->. now split.
Qed.

Lemma isLowerHex_In (c : ascii) : isLowerHex c = true <-> In c hexLookup.
Proof.
  unfold isLowerHex. rewrite existsb_exists. split.
  - intros [x [Hin Heq]]. apply Ascii.eqb_eq in Heq. now subst.
  - intros H. exists c. split; [assumption|apply Ascii.eqb_refl].
Qed.

Lemma byte_cases (P : Z -> bool) :
  forallb P (map Z.of_nat (seq 0 256)) = true ->
  forall b, 0 <= b < 256 -> P b = true.
Proof.
  intros H b Hb. rewrite forallb_forall in H. apply H.
  rewrite in_map_iff. exists (Z.to_nat b). split; [lia|]. apply in_seq. lia.
Qed.

Lemma byteHex_spec (b : Z) :
  0 <= b < 256 ->
  exists c1 c2, byteHex b = [c1; c2] /\ In c1 hexLookup /\ In c2 hexLookup /\
                parseInt16 [c1; c2] = Some b.
Proof.
  intros Hb.
  assert (Hall : forallb byteHex_ok (map Z.of_nat (seq 0 256)) = true)
    by (vm_compute; reflexivity).
  pose proof (byte_cases _ Hall b Hb) as H. unfold byteHex_ok in H.
  destruct (byteHex b) as [|c1 [|c2 [|]]]; try discriminate H.
  apply andb_true_iff in H as [H H3]. apply andb_true_iff in H as [H1 H2].
  exists c1, c2. rewrite isLowerHex_In in H1, H2. repeat split; try assumption.
  destruct (parseInt16 [c1; c2]); [|discriminate]. apply Z.eqb_eq in H3. now subst.
Qed.

Lemma pair_spec (c1 c2 : ascii) :
  In c1 hexLookup -> In c2 hexLookup ->
  exists b, 0 <= b < 256 /\ parseInt16 [c1; c2] = Some b /\ byteHex b = [c1; c2].
Proof.
  intros H1 H2.
  assert (Hall : forallb (fun x => forallb (pair_ok x) hexLookup) hexLookup = true)
    by (vm_compute; reflexivity).
  rewrite forallb_forall in Hall. specialize (Hall c1 H1).
  rewrite forallb_forall in Hall. specialize (Hall c2 H2).
  unfold pair_ok in Hall. destruct (parseInt16 [c1; c2]) as [b|]; [|discriminate].
  apply andb_true_iff in Hall as [H H3]. apply andb_true_iff in H as [Hlo Hhi].
  exists b. rewrite strEq_eq in H3. repeat split; try assumption; lia.
Qed.

Lemma bytesToHex_cons (b : Z) (bs : Bytes) :
  bytesToHex (b :: bs) = byteHex b ++ bytesToHex bs.
Proof. reflexivity. Qed.

Lemma bytesToHex_shape (bs : Bytes) :
  byteBlock bs ->
  lowerHexString (bytesToHex bs) /\ length (bytesToHex bs) = (2 * length bs)%nat.
Proof.
  induction 1 as [|b bs Hb _ [IH1 IH2]]; [split; [constructor|reflexivity]|].
  destruct (byteHex_spec b Hb) as [c1 [c2 [E [H1 [H2 _]]]]].
  rewrite bytesToHex_cons, E. cbn [app length]. rewrite IH2.
  split; [apply Forall_cons; [assumption|apply Forall_cons; assumption]|lia].
Qed.

Lemma trimStart_id (s : jstring) :
  Forall (fun c => isSpace c = false) s -> trimStart s = s.
Proof. intros H. destruct H as [|c s Hc _]; [reflexivity|]. cbn. now rewrite Hc. Qed.

Lemma trim_id (s : jstring) :
  Forall (fun c => isSpace c = false) s -> trim s = s.
Proof.
  intros H. unfold trim, trimEnd. rewrite (trimStart_id s H).
  rewrite trimStart_id by now apply Forall_rev. apply rev_involutive.
Qed.

Lemma lowerHex_not_space (c : ascii) : In c hexLookup -> isSpace c = false.
Proof. intros H. vm_compute in H. intuition (subst; reflexivity). Qed.

Lemma trim_lowerHex (s : jstring) : lowerHexString s -> trim s = s.
Proof. intros H. apply trim_id. eapply Forall_impl; [|exact H]. apply lowerHex_not_space. Qed.

Lemma parsePairs_bytes (bs : Bytes) :
  byteBlock bs -> parsePairs (map byteHex bs) = Returned bs.
Proof.
  induction 1 as [|b bs Hb _ IH]; [reflexivity|].
  destruct (byteHex_spec b Hb) as [c1 [c2 [E [_ [_ Hp]]]]].
  cbn [map parsePairs]. rewrite E, Hp, IH. cbn. now rewrite Z.mod_small.
Qed.

Lemma byteHex_length (bs : Bytes) :
  byteBlock bs -> Forall (fun p => length p = 2%nat) (map byteHex bs).
Proof.
  intros H. rewrite Forall_map. eapply Forall_impl; [|exact H].
  intros b Hb. destruct (byteHex_spec b Hb) as [c1 [c2 [E _]]]. now rewrite E.
Qed.

(** Bytes to hex and back. *)
Lemma hexToBytes_bytesToHex (bs : Bytes) :
  byteBlock bs -> hexToBytes (bytesToHex bs) = Returned bs.
Proof.
  intros H. destruct (bytesToHex_shape bs H) as [Hhex Hlen].
  unfold hexToBytes. rewrite trim_lowerHex by assumption. rewrite Hlen.
  replace (2 * length bs)%nat with (length bs * 2)%nat by lia.
  rewrite Nat.Div0.mod_mul. cbn [Nat.eqb].
  unfold bytesToHex. change (fun byte => padStart (toString16 byte) 2 "0"%char) with byteHex.
  rewrite chunks_concat; [now apply parsePairs_bytes|lia|now apply byteHex_length].
Qed.

Lemma parsePairs_lowerHex (n : nat) :
  forall s, lowerHexString s -> length s = (2 * n)%nat ->
    exists bs, parsePairs (chunks 2 s) = Returned bs /\ byteBlock bs /\
               length bs = n /\ bytesToHex bs = s.
Proof.
  induction n as [|n IH]; intros s Hs Hlen.
  - destruct s; [|discriminate]. exists []. repeat split. constructor.
  - destruct s as [|c1 [|c2 s]]; try (cbn in Hlen; lia).
    inversion Hs as [|? ? H1 Hs1]; subst. inversion Hs1 as [|? ? H2 Hs2]; subst.
    destruct (pair_spec c1 c2 H1 H2) as [b [Hb [Hp Hhex]]].
    destruct (IH s Hs2) as [bs [Hbs [Bbs [Lbs Ebs]]]]; [cbn in Hlen; lia|].
    change (c1 :: c2 :: s) with ([c1; c2] ++ s).
    rewrite chunks_app by (cbn; lia). cbn [parsePairs]. rewrite Hp, Hbs. cbn [bind].
    exists (b :: bs). rewrite Z.mod_small by lia.
    repeat split; try (constructor; assumption).
    + cbn. now rewrite Lbs.
    + rewrite bytesToHex_cons, Hhex, Ebs. reflexivity.
Qed.

(** Hex to bytes and back, for digits of [hexLookup]. *)
Lemma bytesToHex_hexToBytes (n : nat) (s : jstring) :
  lowerHexString s -> length s = (2 * n)%nat ->
  exists bs, hexToBytes s = Returned bs /\ byteBlock bs /\
             length bs = n /\ bytesToHex bs = s.
Proof.
  intros Hs Hlen. unfold hexToBytes. rewrite trim_lowerHex by assumption.
  rewrite Hlen. replace (2 * n)%nat with (n * 2)%nat by lia.
  rewrite Nat.Div0.mod_mul. cbn [Nat.eqb]. apply parsePairs_lowerHex; [assumption|lia].
Qed.

(** [encryptBlock] and [decryptBlock] never throw and return eight bytes. *)
Lemma cipherBlock_total (block : Bytes) (keyHex : jstring) (m : Mode) :
  exists bytes,
    hexToBytes (outputHex (runCore (bytesToHex block) keyHex m)) = Returned bytes /\
    byteBlock bytes /\ length bytes = 8%nat /\
    bytesToHex bytes = outputHex (runCore (bytesToHex block) keyHex m).
Proof.
  destruct (runCore_output_shape (bytesToHex block) keyHex m) as [Hlen [Hhex _]].
  apply bytesToHex_hexToBytes; assumption.
Qed.

Lemma encryptBlock_total (block : Bytes) (keyHex : jstring) :
  exists bytes,
    encryptBlock block keyHex = Returned (bytes, des_encrypt (bytesToHex block) keyHex) /\
    byteBlock bytes /\ length bytes = 8%nat /\
    bytesToHex bytes = outputHex (des_encrypt (bytesToHex block) keyHex).
Proof.
  destruct (cipherBlock_total block keyHex encrypt) as [bytes [H [B [L E]]]].
  exists bytes. unfold encryptBlock, des_encrypt. rewrite H. now repeat split.
Qed.

Lemma decryptBlock_total (block : Bytes) (keyHex : jstring) :
  exists bytes,
    decryptBlock block keyHex = Returned (bytes, des_decrypt (bytesToHex block) keyHex) /\
    byteBlock bytes /\ length bytes = 8%nat /\
    bytesToHex bytes = outputHex (des_decrypt (bytesToHex block) keyHex).
Proof.
  destruct (cipherBlock_total block keyHex decrypt) as [bytes [H [B [L E]]]].
  exists bytes. unfold decryptBlock, des_decrypt. rewrite H. now repeat split.
Qed.

(** A block of eight bytes survives [encryptBlock] then [decryptBlock]. *)
Lemma block_round_trip (block cipher : Bytes) (keyHex : jstring) (r : DESResult) :
  byteBlock block -> length block = 8%nat ->
  encryptBlock block keyHex = Returned (cipher, r) ->
  decryptBlock cipher keyHex = Returned (block, des_decrypt (bytesToHex cipher) keyHex).
Proof.
  intros Hb Hlen Henc.
  destruct (encryptBlock_total block keyHex) as [c [Hc [_ [_ Ec]]]].
  rewrite Hc in Henc. injection Henc as <- <-.
  destruct (bytesToHex_shape block Hb) as [Hhex Hl].
  unfold decryptBlock. rewrite Ec, cipher_round_trip_any_case.
  - rewrite toLowerCase_lowerHex by assumption.
    rewrite hexToBytes_bytesToHex by assumption. reflexivity.
  - rewrite Hl, Hlen. reflexivity.
  - now apply lowerHexString_hexString.
Qed.

(* ================================================================== *)
(** ** Padding *)
(* ================================================================== *)

Lemma padTo8Bytes_spec (bytes : Bytes) :
  let n := (8 - length bytes mod 8)%nat in
  (1 <= n <= 8)%nat /\ padTo8Bytes bytes = bytes ++ repeat (Z.of_nat n) n /\
  ((length bytes + n) mod 8 = 0)%nat.
Proof.
  cbn zeta. pose proof (Nat.mod_upper_bound (length bytes) 8 ltac:(lia)) as Hm.
  split; [lia|]. split.
  - unfold padTo8Bytes. cbv zeta.
    destruct (Nat.eqb_spec (8 - length bytes mod 8) 0); [lia|reflexivity].
  - pose proof (Nat.div_mod_eq (length bytes) 8) as Hd.
    replace (length bytes + (8 - length bytes mod 8))%nat
      with ((length bytes / 8 + 1) * 8)%nat by lia.
    apply Nat.Div0.mod_mul.
Qed.

(** The loop of [unpadPkcs] and the trailing bytes it inspects. *)
Lemma trailing_iff (bytes : Bytes) (v : Z) (n : nat) :
  (n <= length bytes)%nat ->
  forallb (fun i => at_ 0 bytes (Z.of_nat (length bytes) - 1 - Z.of_nat i) =? v) (seq 0 n)
    = true
  <-> skipn (length bytes - n) bytes = repeat v n.
Proof.
  intros Hn. rewrite forallb_forall. split.
  - intros H. apply (nth_ext _ _ 0 0).
    + rewrite length_skipn, repeat_length. lia.
    + intros i Hi. rewrite length_skipn in Hi.
      rewrite nth_skipn, nth_repeat_lt by lia.
      specialize (H (n - 1 - i)%nat). rewrite in_seq in H.
      specialize (H ltac:(lia)). apply Z.eqb_eq in H. rewrite <- H.
      replace (Z.of_nat (length bytes) - 1 - Z.of_nat (n - 1 - i))
        with (Z.of_nat (length bytes - n + i)) by lia.
      now rewrite at_nth.
  - intros H i Hi. rewrite in_seq in Hi. apply Z.eqb_eq.
    replace (Z.of_nat (length bytes) - 1 - Z.of_nat i)
      with (Z.of_nat (length bytes - n + (n - 1 - i))) by lia.
    rewrite at_nth, <- nth_skipn, H. apply nth_repeat_lt. lia.
Qed.

Lemma validPadding_last (bytes : Bytes) (n : nat) :
  validPadding bytes n -> at_ 0 bytes (Z.of_nat (length bytes) - 1) = Z.of_nat n.
Proof.
  intros [Hn [Hlen Hskip]].
  replace (Z.of_nat (length bytes) - 1)
    with (Z.of_nat (length bytes - n + (n - 1))) by lia.
  rewrite at_nth, <- nth_skipn, Hskip. apply nth_repeat_lt. lia.
Qed.

Lemma unpadPkcs_valid (bytes : Bytes) (n : nat) :
  validPadding bytes n -> unpadPkcs bytes = firstn (length bytes - n) bytes.
Proof.
  intros Hv. pose proof (validPadding_last bytes n Hv) as Hlast.
  destruct Hv as [Hn [Hlen Hskip]]. unfold unpadPkcs. cbv zeta.
  destruct (Nat.eqb_spec (length bytes) 0); [lia|]. rewrite Hlast.
  destruct (Z.ltb_spec (Z.of_nat n) 1); [lia|].
  destruct (Z.gtb_spec (Z.of_nat n) 8); [lia|].
  destruct (Z.gtb_spec (Z.of_nat n) (Z.of_nat (length bytes))); [lia|].
  cbn [orb]. rewrite Nat2Z.id.
  apply (trailing_iff bytes (Z.of_nat n) n Hlen) in Hskip. rewrite Hskip.
  apply slice_0.
Qed.

Lemma unpadPkcs_invalid (bytes : Bytes) :
  (forall n, ~ validPadding bytes n) -> unpadPkcs bytes = bytes.
Proof.
  intros Hno. unfold unpadPkcs. cbv zeta.
  destruct (Nat.eqb_spec (length bytes) 0); [reflexivity|].
  set (pad := at_ 0 bytes (Z.of_nat (length bytes) - 1)).
  destruct (Z.ltb_spec pad 1); [reflexivity|].
  destruct (Z.gtb_spec pad 8); [reflexivity|].
  destruct (Z.gtb_spec pad (Z.of_nat (length bytes))); [reflexivity|].
  cbn [orb]. destruct (forallb _ _) eqn:Hall; [|reflexivity].
  exfalso. apply (Hno (Z.to_nat pad)). unfold validPadding.
  split; [lia|]. split; [lia|].
  apply trailing_iff; [lia|]. now rewrite Z2Nat.id by lia.
Qed.

Lemma unpad_pad (bytes : Bytes) : unpadPkcs (padTo8Bytes bytes) = bytes.
Proof.
  destruct (padTo8Bytes_spec bytes) as [Hn [Hpad _]]. cbv zeta in *.
  set (n := (8 - length bytes mod 8)%nat) in *. rewrite Hpad.
  rewrite (unpadPkcs_valid _ n).
  - rewrite length_app, repeat_length.
    replace (length bytes + n - n)%nat with (length bytes) by lia.
    rewrite firstn_app, Nat.sub_diag, firstn_all. cbn. apply app_nil_r.
  - unfold validPadding. rewrite length_app, repeat_length.
    split; [lia|]. split; [lia|].
    replace (length bytes + n - n)%nat with (length bytes) by lia.
    rewrite skipn_app, Nat.sub_diag, skipn_all. reflexivity.
Qed.

(* ================================================================== *)
(** ** The modes of operation *)
(* ================================================================== *)

Lemma lxor_byte (a b : Z) :
  0 <= a < 256 -> 0 <= b < 256 -> 0 <= Z.lxor a b < 256.
Proof.
  intros Ha Hb.
  assert (Hall : forallb lxor_ok (map Z.of_nat (seq 0 256)) = true)
    by (vm_compute; reflexivity).
  pose proof (byte_cases _ Hall a Ha) as H. unfold lxor_ok in H.
  pose proof (byte_cases _ H b Hb) as H'. cbn beta in H'. lia.
Qed.

Lemma xor_byte_cancel (x y : Z) :
  0 <= x < 256 -> 0 <= y < 256 ->
  Z.lxor (Z.lxor x y mod 256) y mod 256 = x.
Proof.
  intros Hx Hy. pose proof (lxor_byte x y Hx Hy).
  rewrite (Z.mod_small (Z.lxor x y)) by assumption.
  rewrite Z.lxor_assoc, Z.lxor_nilpotent, Z.lxor_0_r. now apply Z.mod_small.
Qed.

Lemma at_byte (bs : Bytes) (i : Z) : byteBlock bs -> 0 <= at_ 0 bs i < 256.
Proof.
  intros Hb. unfold at_. destruct (i <? 0); [lia|].
  destruct (Nat.lt_ge_cases (Z.to_nat i) (length bs)) as [Hlt|Hge].
  - unfold byteBlock in Hb. rewrite Forall_forall in Hb. apply Hb. now apply nth_In.
  - rewrite nth_overflow by assumption. lia.
Qed.

Lemma xorBlocks_shape (a b : Bytes) :
  byteBlock (xorBlocks a b) /\ length (xorBlocks a b) = 8%nat.
Proof.
  split; [|reflexivity]. unfold xorBlocks, byteBlock. rewrite Forall_map.
  apply Forall_forall. intros i _. apply Z.mod_pos_bound. lia.
Qed.

Lemma xorBlocks_cancel (a b : Bytes) :
  byteBlock a -> length a = 8%nat -> byteBlock b ->
  xorBlocks (xorBlocks a b) b = a.
Proof.
  intros Ha Hlen Hb.
  do 8 (destruct a as [|? a]; [discriminate Hlen|]).
  destruct a; [|discriminate Hlen].
  unfold xorBlocks. cbn [map seq]. rewrite !at_nth. cbn [nth].
  unfold byteBlock in Ha. rewrite Forall_forall in Ha.
  repeat match goal with |- _ :: _ = _ :: _ => f_equal end;
    (apply xor_byte_cancel;
     [apply Ha; cbn; tauto|rewrite <- at_nth; now apply at_byte]).
Qed.

(** One block through an encryption step and the cipher block through the
    matching decryption step, both sides holding the same chaining value. *)
Lemma mode_step (m : DesMode) (keyHex : jstring) (s sd : ModeState) (block : Bytes) :
  byteBlock block -> length block = 8%nat ->
  (m = CBC -> byteBlock (ms_chain s)) -> ms_chain sd = ms_chain s ->
  exists s' c,
    enc_step m keyHex s block = Returned s' /\
    ms_blocks s' = ms_blocks s ++ [c] /\ ms_first s' <> None /\
    length c = 8%nat /\ (m = CBC -> byteBlock (ms_chain s')) /\
    exists sd',
      dec_step m keyHex sd c = Returned sd' /\
      ms_blocks sd' = ms_blocks sd ++ [block] /\ ms_chain sd' = ms_chain s'.
Proof.
  intros Hb Hlen Hchain Hsame.
  assert (Hfirst : forall o r, getFirst o r <> None) by (intros [r'|] r; discriminate).
  destruct m; unfold enc_step, dec_step.
  - (* ECB *)
    destruct (encryptBlock_total block keyHex) as [c [Hc [Bc [Lc Ec]]]].
    rewrite Hc. cbn [bind]. eexists. exists c. split; [reflexivity|]. cbn [ms_blocks ms_chain ms_first].
    split; [reflexivity|]. split; [apply Hfirst|]. split; [assumption|].
    split; [discriminate|].
    rewrite (block_round_trip block c keyHex _ Hb Hlen Hc). cbn [bind].
    eexists. split; [reflexivity|]. cbn [ms_blocks ms_chain ms_first]. split; [reflexivity|assumption].
  - (* CBC *)
    destruct (xorBlocks_shape block (ms_chain s)) as [Bx Lx].
    destruct (encryptBlock_total (xorBlocks block (ms_chain s)) keyHex)
      as [c [Hc [Bc [Lc Ec]]]].
    rewrite Hc. cbn [bind]. eexists. exists c. split; [reflexivity|]. cbn [ms_blocks ms_chain ms_first].
    split; [reflexivity|]. split; [apply Hfirst|]. split; [assumption|].
    split; [intros _; assumption|].
    rewrite (block_round_trip _ c keyHex _ Bx Lx Hc). cbn [bind].
    eexists. split; [reflexivity|]. cbn [ms_blocks ms_chain ms_first]. split; [|reflexivity].
    rewrite Hsame, xorBlocks_cancel; auto.
  - (* CFB *)
    destruct (encryptBlock_total (ms_chain s) keyHex) as [k [Hk [Bk [Lk Ek]]]].
    rewrite Hsame, Hk. cbn [bind]. eexists. exists (xorBlocks block k).
    split; [reflexivity|]. cbn [ms_blocks ms_chain ms_first].
    split; [reflexivity|]. split; [apply Hfirst|]. split; [reflexivity|].
    split; [discriminate|].
    eexists. split; [reflexivity|]. cbn [ms_blocks ms_chain ms_first]. split; [|reflexivity].
    rewrite xorBlocks_cancel; auto.
  - (* OFB *)
    destruct (encryptBlock_total (ms_chain s) keyHex) as [k [Hk [Bk [Lk Ek]]]].
    rewrite Hsame, Hk. cbn [bind]. eexists. exists (xorBlocks block k).
    split; [reflexivity|]. cbn [ms_blocks ms_chain ms_first].
    split; [reflexivity|]. split; [apply Hfirst|]. split; [reflexivity|].
    split; [discriminate|].
    eexists. split; [reflexivity|]. cbn [ms_blocks ms_chain ms_first]. split; [|reflexivity].
    rewrite xorBlocks_cancel; auto.
  - (* CTR *)
    destruct (encryptBlock_total (ms_chain s) keyHex) as [k [Hk [Bk [Lk Ek]]]].
    rewrite Hsame, Hk. cbn [bind]. eexists. exists (xorBlocks block k).
    split; [reflexivity|]. cbn [ms_blocks ms_chain ms_first].
    split; [reflexivity|]. split; [apply Hfirst|]. split; [reflexivity|].
    split; [discriminate|].
    eexists. split; [reflexivity|]. cbn [ms_blocks ms_chain ms_first]. split; [|reflexivity].
    rewrite xorBlocks_cancel; auto.
Qed.

Lemma mode_loop (m : DesMode) (keyHex : jstring) (blocks : list Bytes) :
  Forall (fun b => byteBlock b /\ length b = 8%nat) blocks ->
  forall s sd,
    (m = CBC -> byteBlock (ms_chain s)) -> ms_chain sd = ms_chain s ->
    exists s' cs,
      forEachBlock (enc_step m keyHex) blocks s = Returned s' /\
      ms_blocks s' = ms_blocks s ++ cs /\
      (blocks <> [] -> ms_first s' <> None) /\
      (blocks = [] -> ms_first s' = ms_first s) /\
      Forall (fun c => length c = 8%nat) cs /\ length cs = length blocks /\
      exists sd',
        forEachBlock (dec_step m keyHex) cs sd = Returned sd' /\
        ms_blocks sd' = ms_blocks sd ++ blocks.
Proof.
  induction 1 as [|b blocks [Bb Lb] _ IH]; intros s sd Hchain Hsame.
  - exists s, []. cbn [forEachBlock]. rewrite app_nil_r.
    repeat split; try congruence; try constructor.
    exists sd. now rewrite app_nil_r.
  - destruct (mode_step m keyHex s sd b Bb Lb Hchain Hsame)
      as [s1 [c [Henc [Hblocks [Hfirst [Lc [Hchain1 [sd1 [Hdec [Hdblocks Hsame1]]]]]]]]]].
    destruct (IH s1 sd1 Hchain1 Hsame1)
      as [s' [cs [Hloop [Hbl [Hf1 [Hf2 [Hcs [Hlcs [sd' [Hdloop Hdbl]]]]]]]]]].
    exists s', (c :: cs). cbn [forEachBlock]. rewrite Henc. cbn [bind].
    split; [exact Hloop|]. split; [rewrite Hbl, Hblocks, <- app_assoc; reflexivity|].
    split.
    { intros _. destruct blocks as [|b' blocks'].
      - rewrite Hf2 by reflexivity. exact Hfirst.
      - apply Hf1. discriminate. }
    split; [discriminate|]. split; [now constructor|].
    split; [cbn [length]; now rewrite Hlcs|].
    exists sd'. rewrite Hdec. cbn [bind]. split; [exact Hdloop|].
    rewrite Hdbl, Hdblocks, <- app_assoc. reflexivity.
Qed.

Lemma length_concat_8 (cs : list Bytes) :
  Forall (fun c => length c = 8%nat) cs -> length (concat cs) = (length cs * 8)%nat.
Proof.
  induction 1 as [|c cs Hc _ IH]; [reflexivity|].
  cbn [concat length]. rewrite length_app, IH, Hc. lia.
Qed.

(** The steps never throw: the cipher always prints sixteen digits. *)
Lemma dec_loop_total (m : DesMode) (keyHex : jstring) (blocks : list Bytes) :
  forall s, exists s', forEachBlock (dec_step m keyHex) blocks s = Returned s'.
Proof.
  induction blocks as [|b blocks IH]; intros s; [now exists s|].
  cbn [forEachBlock].
  assert (Hstep : exists s1, dec_step m keyHex s b = Returned s1).
  { destruct m; unfold dec_step;
      [destruct (decryptBlock_total b keyHex) as [c [Hc _]]
      |destruct (decryptBlock_total b keyHex) as [c [Hc _]]
      |destruct (encryptBlock_total (ms_chain s) keyHex) as [c [Hc _]]
      |destruct (encryptBlock_total (ms_chain s) keyHex) as [c [Hc _]]
      |destruct (encryptBlock_total (ms_chain s) keyHex) as [c [Hc _]]];
      rewrite Hc; cbn [bind]; eexists; reflexivity. }
  destruct Hstep as [s1 Hs1]. rewrite Hs1. cbn [bind]. apply IH.
Qed.

Lemma padTo8Bytes_blocks (payload : Bytes) :
  byteBlock payload ->
  let blocks := chunks 8 (padTo8Bytes payload) in
  Forall (fun b => byteBlock b /\ length b = 8%nat) blocks /\
  concat blocks = padTo8Bytes payload /\ blocks <> [].
Proof.
  intros Hb. cbn zeta.
  destruct (padTo8Bytes_spec payload) as [Hn [Hpad Hmod]]. cbn zeta in *.
  set (n := (8 - length payload mod 8)%nat) in *.
  assert (Hlen : length (padTo8Bytes payload) = (length payload + n)%nat).
  { rewrite Hpad, length_app, repeat_length. reflexivity. }
  assert (Hbytes : byteBlock (padTo8Bytes payload)).
  { rewrite Hpad. apply Forall_app. split; [assumption|].
    apply Forall_forall. intros x Hx. apply repeat_spec in Hx. lia. }
  pose proof (Nat.div_mod_eq (length payload + n) 8) as Hd. rewrite Hmod in Hd.
  destruct (chunks_lengths 8 ((length payload + n) / 8) ltac:(lia) (padTo8Bytes payload))
    as [H8 Hcat]; [lia|].
  split; [|split; [exact Hcat|]].
  - rewrite <- Hcat in Hbytes. unfold byteBlock in Hbytes.
    rewrite Forall_concat in Hbytes.
    rewrite Forall_forall in *. intros b Hin. split; [now apply Hbytes|now apply H8].
  - intros Hnil. rewrite Hnil in Hcat. cbn [concat] in Hcat.
    rewrite <- Hcat in Hlen. cbn [length] in Hlen. lia.
Qed.

(* ================================================================== *)
(** ** The diagnostic scan *)
(* ================================================================== *)

Lemma strEq_false (a b : jstring) : a <> b -> strEq a b = false.
Proof.
  intros H. destruct (strEq a b) eqn:E; [|reflexivity].
  apply strEq_eq in E. contradiction.
Qed.

Lemma scanPatterns_first (p k student expected : jstring) (earlier : list Pattern)
  (pat : Pattern) (later : list Pattern) :
  runVariant p k (options pat) = student ->
  (forall q, In q earlier -> runVariant p k (options q) <> student) ->
  scanPatterns p k student expected (earlier ++ pat :: later)
    = Some (matchResult pat expected student).
Proof.
  intros Hpat. induction earlier as [|q earlier IH]; intros Hearlier.
  - cbn [app scanPatterns]. cbv zeta.
    rewrite (proj2 (strEq_eq _ _) Hpat). reflexivity.
  - cbn [app scanPatterns]. cbv zeta.
    rewrite strEq_false by (apply Hearlier; now left).
    apply IH. intros q' Hq'. apply Hearlier. now right.
Qed.

Lemma scanPatterns_none (p k student expected : jstring) (ps : list Pattern) :
  (forall q, In q ps -> runVariant p k (options q) <> student) ->
  scanPatterns p k student expected ps = None.
Proof.
  induction ps as [|q ps IH]; intros H; [reflexivity|].
  cbn [scanPatterns]. cbv zeta. rewrite strEq_false by (apply H; now left).
  apply IH. intros q' Hq'. apply H. now right.
Qed.

Lemma credit_clamped (q : Pattern) :
  In q patterns -> mathMin 1 (mathMax 0 (credit q)) = credit q.
Proof.
  unfold patterns. cbn [In]. intros H.
  repeat (destruct H as [<- | H]; [reflexivity|]). contradiction.
Qed.

Lemma lowerHexString_dec (s : jstring) :
  forallb isLowerHex s = true -> lowerHexString s.
Proof.
  intros H. rewrite forallb_forall in H. apply Forall_forall.
  intros c Hc. now apply isLowerHex_In, H.
Qed.

Lemma hexString_dec (s : jstring) : forallb isHexDigit s = true -> hexString s.
Proof. intros H. rewrite forallb_forall in H. now apply Forall_forall. Qed.

Lemma byteBlock_dec (bs : Bytes) :
  forallb (fun b => (0 <=? b) && (b <? 256)) bs = true -> byteBlock bs.
Proof.
  intros H. rewrite forallb_forall in H. apply Forall_forall.
  intros b Hb. specialize (H b Hb). lia.
Qed.

Lemma bitlist_dec (bits : Bits) :
  forallb (fun b => (b =? 0) || (b =? 1)) bits = true -> bitlist bits.
Proof.
  intros H. rewrite forallb_forall in H. apply Forall_forall.
  intros b Hb. specialize (H b Hb). unfold is_bit. lia.
Qed.

Lemma iv_prefix (iv body : Bytes) :
  length iv = 8%nat ->
  slice (concat [iv; body]) 0 8 = iv /\
  sliceFrom (concat [iv; body]) 8 = body /\
  length (concat [iv; body]) = (8 + length body)%nat.
Proof.
  intros Hlen. cbn [concat]. rewrite app_nil_r, slice_0.
  change 8 with (Z.of_nat 8). rewrite sliceFrom_nat.
  rewrite firstn_app, skipn_app, length_app, Hlen, Nat.sub_diag.
  rewrite firstn_all2, skipn_all2 by lia. cbn [firstn skipn app].
  now rewrite app_nil_r.
Qed.

Lemma bodyLength_mod (m : DesMode) (sourceBytes : Bytes) :
  bodyLength m sourceBytes mod 8 = 0 <-> (length sourceBytes mod 8 = 0)%nat.
Proof.
  assert (H : Z.of_nat (length sourceBytes) mod 8 = 0
              <-> (length sourceBytes mod 8 = 0)%nat).
  { rewrite <- (Nat2Z.inj_iff _ 0), Nat2Z.inj_mod. reflexivity. }
  destruct m; cbn [bodyLength]; try exact H.
  all: rewrite <- H;
    replace (Z.of_nat (length sourceBytes) - 8)
      with (Z.of_nat (length sourceBytes) + (-1) * 8) by lia;
    now rewrite Z.mod_add by lia.
Qed.

(** The round trip of the two mode functions on a padded payload. *)
Lemma mode_functions_round_trip (m : DesMode) (payload : Bytes) (keyHex : jstring)
  (randomBlock : Bytes) (customIv : option Bytes) :
  byteBlock payload ->
  (m <> ECB -> byteBlock (usedIv randomBlock customIv) /\
               length (usedIv randomBlock customIv) = 8%nat) ->
  exists output first first',
    encryptBytesWithMode randomBlock (padTo8Bytes payload) keyHex m customIv
      = Returned (output, first) /\
    (m <> ECB -> slice output 0 8 = usedIv randomBlock customIv) /\
    (length output mod 8 = 0)%nat /\
    decryptBytesWithMode output keyHex m = Returned (padTo8Bytes payload, first').
Proof.
  intros Hp Hiv.
  destruct (padTo8Bytes_blocks payload Hp) as [Hblocks [Hcat Hne]]. cbn zeta in *.
  set (chain0 := match m with ECB => [] | _ => usedIv randomBlock customIv end).
  set (s0 := {| ms_chain := chain0; ms_blocks := []; ms_first := None |}).
  destruct (mode_loop m keyHex _ Hblocks s0 s0)
    as [s' [cs [Henc [Hbl [Hf1 [_ [Hcs [Hlcs [sd' [Hdec Hdbl]]]]]]]]]].
  { intros ->. apply Hiv. discriminate. }
  { reflexivity. }
  cbn [s0 ms_blocks app] in Hbl, Hdbl.
  destruct (ms_first s') as [first|] eqn:Hfirst; [|exfalso; now apply Hf1].
  assert (Hcs_len : cs <> []).
  { intros ->. apply Hne. now apply length_zero_iff_nil. }
  pose proof (length_concat_8 cs Hcs) as Hclen.
  assert (Hchunks : chunks 8 (concat cs) = cs) by (apply chunks_concat; [lia|assumption]).
  destruct m; unfold encryptBytesWithMode, decryptBytesWithMode, concatByteChunks;
    unfold s0, chain0, usedIv in Henc, Hdec; unfold usedIv;
    rewrite Henc; cbn [bind]; rewrite Hfirst, Hbl.
  1: { (* ECB *)
    exists (concat cs), first, (ms_first sd').
    split; [reflexivity|]. split; [congruence|].
    rewrite Hclen. split; [apply Nat.Div0.mod_mul|].
    rewrite Hchunks, Hdec. cbn [bind]. now rewrite Hdbl, Hcat. }
  all: destruct (Hiv ltac:(discriminate)) as [Biv Liv]; unfold usedIv in Biv, Liv;
    destruct (iv_prefix _ (concat cs) Liv) as [Hpre [Hbody Hlen]];
    eexists; exists first, (ms_first sd'); (split; [reflexivity|]);
    (split; [intros _; exact Hpre|]); rewrite Hlen, Hclen;
    (split; [replace (8 + length cs * 8)%nat with ((1 + length cs) * 8)%nat by lia;
             apply Nat.Div0.mod_mul|]);
    (destruct (Nat.ltb_spec (8 + length cs * 8) 16);
      [destruct cs; [congruence|cbn [length] in *; lia]|]);
    rewrite Hpre, Hbody, Hchunks, Hdec; cbn [bind]; now rewrite Hdbl, Hcat.
Qed.

(* ================================================================== *)
(** ** The S-box lookups stay inside the tables *)
(* ================================================================== *)

Lemma sboxLookup_chunk (chunk : Bits) (index : nat) :
  bitlist chunk -> length chunk = 6%nat -> (index < 8)%nat ->
  sboxLookupDefined chunk index = true.
Proof.
  intros Hb Hlen Hi. unfold bitlist in Hb.
  do 6 (destruct chunk as [|? chunk]; [discriminate Hlen|]).
  destruct chunk; [|discriminate Hlen].
  repeat match goal with
         | H : Forall _ (_ :: _) |- _ => inversion H; clear H; subst
         end.
  unfold sboxLookupDefined. rewrite (proj2 (Nat.ltb_lt _ _) Hi).
  repeat match goal with
         | H : is_bit _ |- _ => destruct H as [-> | ->]
         end; reflexivity.
Qed.

Lemma sboxLookup_chunks (cs : list Bits) :
  Forall (fun c => bitlist c /\ length c = 6%nat) cs ->
  forall i, (i + length cs <= 8)%nat ->
    forallb (fun ok => ok) (mapiFrom sboxLookupDefined i cs) = true.
Proof.
  induction 1 as [|c cs [Bc Lc] _ IH]; intros i Hi; [reflexivity|].
  cbn [mapiFrom forallb length] in *.
  rewrite sboxLookup_chunk by (assumption || lia). apply IH. lia.
Qed.

Lemma sboxDefined_48 (bits : Bits) :
  bitlist bits -> length bits = 48%nat -> sboxDefined bits = true.
Proof.
  intros Hb Hlen. unfold sboxDefined, chunkBits, mapi.
  destruct (chunks_lengths 6 8 ltac:(lia) bits Hlen) as [H6 Hcat].
  pose proof Hlen as Hn. rewrite <- Hcat in Hn.
  assert (Hlen6 : forall cs : list Bits, Forall (fun p => length p = 6%nat) cs ->
                  length (concat cs) = (length cs * 6)%nat).
  { induction 1 as [|c cs Hc _ IH]; [reflexivity|].
    cbn [concat length]. rewrite length_app, IH, Hc. lia. }
  rewrite (Hlen6 _ H6) in Hn.
  apply sboxLookup_chunks; [|lia].
  rewrite <- Hcat in Hb. unfold bitlist in Hb. rewrite Forall_concat in Hb.
  rewrite Forall_forall in *. intros c Hc. split; [now apply Hb|now apply H6].
Qed.

(** Every substitution the round function asks for reads defined entries:
    the input of the S-boxes is always 48 bits. *)
Lemma f_function_sbox_defined (right subKey : Bits) :
  sboxDefined (f_xorResult (f_function right subKey)) = true.
Proof.
  unfold f_function. cbn [f_xorResult]. apply sboxDefined_48.
  - apply xorBits_bitlist.
  - rewrite xorBits_length. apply permute_length.
Qed.

(* ================================================================== *)
(** ** The properties of the specification *)
(* ================================================================== *)

(** C1. The published vectors: the FIPS example, the classroom vector and
    its decryption. *)
Theorem des_published_vectors :
  outputHex (des_encrypt (str "0123456789abcdef") (str "133457799bbcdff1"))
    = str "85e813540f0ab405" /\
  outputHex (des_encrypt (str "02468aceeca86420") (str "0f1571c947d9e859"))
    = str "da02ce3a89ecac3b" /\
  outputHex (des_decrypt (str "da02ce3a89ecac3b") (str "0f1571c947d9e859"))
    = str "02468aceeca86420".
Proof. repeat split; vm_compute; reflexivity. Qed.

(** C2. For every block of sixteen hexadecimal digits and every key,
    decrypting the encryption of the block under the same key gives the
    block back: the same 64 bits, printed in the digits of [hexLookup], so
    the same string when the block is written in those digits.  Encryption
    and decryption are the same skeleton [core_output] of sixteen rounds,
    run over the subkeys in generation order and in reverse order. *)
Theorem des_round_trip (block keyHex : jstring) :
  length block = 16%nat -> hexString block ->
  hexToBits (outputHex (des_decrypt (outputHex (des_encrypt block keyHex)) keyHex)) 64
    = hexToBits block 64 /\
  outputHex (des_decrypt (outputHex (des_encrypt block keyHex)) keyHex)
    = toLowerCase block /\
  (lowerHexString block ->
   outputHex (des_decrypt (outputHex (des_encrypt block keyHex)) keyHex) = block) /\
  (forall input,
     outputHex (des_encrypt input keyHex)
       = core_output (hexToBits input 64) (snd (generate_subkeys keyHex)) /\
     outputHex (des_decrypt input keyHex)
       = core_output (hexToBits input 64) (rev (snd (generate_subkeys keyHex))) /\
     length (rounds (des_encrypt input keyHex)) = 16%nat /\
     length (rounds (des_decrypt input keyHex)) = 16%nat).
Proof.
  intros Hlen Hhex.
  pose proof (cipher_round_trip_any_case block keyHex Hlen Hhex) as Hback.
  split; [|split; [exact Hback|split]].
  - rewrite Hback, !hexToBits_unfold.
    now rewrite (toLowerCase_lowerHex (toLowerCase block))
      by now apply toLowerCase_hexString.
  - intros Hlow. rewrite Hback. now apply toLowerCase_lowerHex.
  - intros input. unfold des_encrypt, des_decrypt.
    assert (H16 : length (snd (generate_subkeys keyHex)) = 16%nat).
    { destruct (generate_subkeys_shape keyHex) as [Hr [_ [Hs _]]]. cbn zeta in *.
      rewrite Hs, length_map, <- (length_map ks_round), Hr. reflexivity. }
    split; [apply (runCore_output input keyHex encrypt)|].
    split; [apply (runCore_output input keyHex decrypt)|].
    destruct (runCore_fields input keyHex encrypt) as [_ [_ [He _]]].
    destruct (runCore_fields input keyHex decrypt) as [_ [_ [Hd _]]].
    rewrite He, Hd. now split.
Qed.

Lemma des_round_trip_witness :
  length (str "0123456789abcdef") = 16%nat /\
  hexString (str "0123456789abcdef") /\
  outputHex (des_decrypt
               (outputHex (des_encrypt (str "0123456789abcdef") (str "133457799bbcdff1")))
               (str "133457799bbcdff1"))
    = str "0123456789abcdef".
Proof.
  assert (Hhex : hexString (str "0123456789abcdef")) by (apply hexString_dec; reflexivity).
  split; [reflexivity|]. split; [exact Hhex|].
  destruct (des_round_trip (str "0123456789abcdef") (str "133457799bbcdff1")
              eq_refl Hhex) as [_ [_ [Hlow _]]].
  apply Hlow. apply lowerHexString_dec. reflexivity.
Defined.

(** C3. In each of the five modes, for every payload of bytes of any
    length, every key and every IV of eight bytes, encrypting the padded
    payload and decrypting the result returns the padded payload, which
    unpads to the payload; in the modes other than ECB the IV the
    decryption uses is the eight-byte prefix of the ciphertext. *)
Theorem mode_round_trip (m : DesMode) (payload : Bytes) (keyHex : jstring)
  (randomBlock : Bytes) (customIv : option Bytes) :
  byteBlock payload ->
  (m <> ECB -> byteBlock (usedIv randomBlock customIv) /\
               length (usedIv randomBlock customIv) = 8%nat) ->
  exists output first plain first',
    encryptBytesWithMode randomBlock (padTo8Bytes payload) keyHex m customIv
      = Returned (output, first) /\
    (m <> ECB -> slice output 0 8 = usedIv randomBlock customIv) /\
    decryptBytesWithMode output keyHex m = Returned (plain, first') /\
    unpadPkcs plain = payload /\
    runTextProcess_decrypt output keyHex m = Returned (payload, first').
Proof.
  intros Hp Hiv.
  destruct (mode_functions_round_trip m payload keyHex randomBlock customIv Hp Hiv)
    as [output [first [first' [Henc [Hpre [Hmod Hdec]]]]]].
  exists output, first, (padTo8Bytes payload), first'.
  split; [exact Henc|]. split; [exact Hpre|]. split; [exact Hdec|].
  split; [apply unpad_pad|].
  unfold runTextProcess_decrypt. rewrite Hmod, Hdec. cbn [Nat.eqb negb bind].
  now rewrite unpad_pad.
Qed.

Lemma mode_round_trip_witness :
  byteBlock [72; 105] /\
  (CBC <> ECB -> byteBlock (usedIv [] (Some [1; 2; 3; 4; 5; 6; 7; 255])) /\
                 length (usedIv [] (Some [1; 2; 3; 4; 5; 6; 7; 255])) = 8%nat) /\
  exists output first plain first',
    encryptBytesWithMode [] (padTo8Bytes [72; 105]) (str "133457799bbcdff1") CBC
      (Some [1; 2; 3; 4; 5; 6; 7; 255]) = Returned (output, first) /\
    (CBC <> ECB -> slice output 0 8 = usedIv [] (Some [1; 2; 3; 4; 5; 6; 7; 255])) /\
    decryptBytesWithMode output (str "133457799bbcdff1") CBC = Returned (plain, first') /\
    unpadPkcs plain = [72; 105] /\
    runTextProcess_decrypt output (str "133457799bbcdff1") CBC
      = Returned ([72; 105], first').
Proof.
  assert (Hp : byteBlock [72; 105]) by (apply byteBlock_dec; reflexivity).
  assert (Hiv : CBC <> ECB ->
                byteBlock (usedIv [] (Some [1; 2; 3; 4; 5; 6; 7; 255])) /\
                length (usedIv [] (Some [1; 2; 3; 4; 5; 6; 7; 255])) = 8%nat).
  { intros _. split; [apply byteBlock_dec; reflexivity|reflexivity]. }
  split; [exact Hp|]. split; [exact Hiv|].
  exact (mode_round_trip CBC [72; 105] (str "133457799bbcdff1") []
           (Some [1; 2; 3; 4; 5; 6; 7; 255]) Hp Hiv).
Defined.

(** C4, as stated, fails.  The submission in upper case is not the
    string [des_encrypt] returns and is the output of no variant of the
    catalog, yet it is classified 'correct' with score 1; and for a
    plaintext of thirty-two digits the very string [des_encrypt] returns
    is left unclassified with score 0, since the diagnosis reads the first
    sixteen digits and the cipher the last sixteen. *)
Lemma diagnose_normalises_first :
  str "85E813540F0AB405"
    <> outputHex (des_encrypt (str "0123456789abcdef") (str "133457799bbcdff1")) /\
  (forall q, In q patterns ->
     runVariant (str "0123456789abcdef") (str "133457799bbcdff1") (options q)
       <> str "85E813540F0AB405") /\
  matchedPattern
    (diagnoseDESSubmission
       (diagnoseInput (str "0123456789abcdef") (str "133457799bbcdff1")
          (str "85E813540F0AB405"))) = Some (str "correct") /\
  score
    (diagnoseDESSubmission
       (diagnoseInput (str "0123456789abcdef") (str "133457799bbcdff1")
          (str "85E813540F0AB405"))) = 1%Q /\
  outputHex (des_encrypt (str "0123456789abcdeffedcba9876543210") (str "133457799bbcdff1"))
    = str "4ab65b3d4b061518" /\
  matchedPattern
    (diagnoseDESSubmission
       (diagnoseInput (str "0123456789abcdeffedcba9876543210") (str "133457799bbcdff1")
          (str "4ab65b3d4b061518"))) = None /\
  score
    (diagnoseDESSubmission
       (diagnoseInput (str "0123456789abcdeffedcba9876543210") (str "133457799bbcdff1")
          (str "4ab65b3d4b061518"))) = 0%Q.
Proof.
  split; [vm_compute; discriminate|].
  split.
  { unfold patterns. cbn [In]. intros q H.
    repeat (destruct H as [<- | H]; [vm_compute; discriminate|]). contradiction. }
  repeat (split; [vm_compute; reflexivity|]). vm_compute. reflexivity.
Qed.

(** C4, as amended.  For every input: [diagnoseDESSubmission] works on
    the normalised plaintext, key and submission.  A normalised submission
    equal to the correct ciphertext of the normalised plaintext and key is
    classified 'correct' with score 1; otherwise the first pattern of the
    catalog, in its fixed order, whose variant output on the normalised
    plaintext and key is the normalised submission is reported with its
    own credit, whatever later patterns give; when no pattern matches the
    result is 'unclassified' with score 0.  The catalog order and credits
    are the listed ones. *)
Theorem diagnose_classification (p k s : jstring) :
  let plaintextHex := normalizeBlockHex p in
  let keyHex := normalizeBlockHex k in
  let student := normalizeBlockHex s in
  let r := diagnoseDESSubmission (diagnoseInput p k s) in
  (student = outputHex (des_encrypt plaintextHex keyHex) ->
     matchedPattern r = Some (str "correct") /\
     score r = 1%Q /\
     tags r = [str "correct"]) /\
  (student <> outputHex (des_encrypt plaintextHex keyHex) ->
     forall earlier pat later,
       patterns = earlier ++ pat :: later ->
       runVariant plaintextHex keyHex (options pat) = student ->
       (forall q, In q earlier -> runVariant plaintextHex keyHex (options q) <> student) ->
       matchedPattern r = Some (code pat) /\
       score r = credit pat /\
       tags r = [str "incorrect"; code pat]) /\
  (student <> outputHex (des_encrypt plaintextHex keyHex) ->
     (forall q, In q patterns -> runVariant plaintextHex keyHex (options q) <> student) ->
     matchedPattern r = None /\
     score r = 0%Q /\
     tags r = [str "incorrect"; str "unclassified"]) /\
  map (fun q => (code q, credit q)) patterns =
    [(str "skip-ip-fp", 6 # 10); (str "skip-ip", 5 # 10); (str "no-final-swap", 6 # 10);
     (str "swap-after-round-1", 5 # 10); (str "reversed-subkeys", 4 # 10);
     (str "two-rounds-only", 2 # 10); (str "four-rounds-only", 3 # 10);
     (str "all-one-bit-shifts", 3 # 10)].
Proof.
  cbv zeta. unfold diagnoseDESSubmission, diagnoseInput.
  cbn [in_plaintextHex in_keyHex in_studentOutputHex]. cbv zeta.
  split; [|split; [|split]].
  - intros ->. rewrite (proj2 (strEq_eq _ _) eq_refl). now repeat split.
  - intros Hne earlier pat later Hcat Hpat Hearlier.
    rewrite strEq_false by assumption.
    rewrite Hcat,
      (scanPatterns_first (normalizeBlockHex p) (normalizeBlockHex k) (normalizeBlockHex s)
         _ earlier pat later Hpat Hearlier).
    cbn [matchedPattern score tags matchResult]. repeat split.
    apply credit_clamped. rewrite Hcat. apply in_elt.
  - intros Hne Hnone. rewrite strEq_false by assumption.
    rewrite (scanPatterns_none (normalizeBlockHex p) (normalizeBlockHex k)
               (normalizeBlockHex s) _ patterns Hnone).
    now repeat split.
  - reflexivity.
Qed.

Lemma diagnose_classification_witness :
  matchedPattern
    (diagnoseDESSubmission
       (diagnoseInput (str "01:23 45 67 89 AB CD EF") (str "133457799BBCDFF1")
          (str "2D9DDEE626003682 "))) = Some (str "skip-ip") /\
  score
    (diagnoseDESSubmission
       (diagnoseInput (str "01:23 45 67 89 AB CD EF") (str "133457799BBCDFF1")
          (str "2D9DDEE626003682 "))) = 5 # 10.
Proof.
  destruct (diagnose_classification (str "01:23 45 67 89 AB CD EF") (str "133457799BBCDFF1")
              (str "2D9DDEE626003682 ")) as [_ [Hfirst _]].
  destruct (Hfirst ltac:(vm_compute; discriminate)
              (firstn 1 patterns) (nth 1 patterns emptyPattern) (skipn 2 patterns)
              eq_refl ltac:(vm_compute; reflexivity)) as [H1 [H2 _]].
  - intros q [<- | []]. vm_compute. discriminate.
  - split; [exact H1|exact H2].
Defined.

Example diagnose_examples :
  let p := str "0123456789abcdef" in
  let k := str "133457799bbcdff1" in
  let verdict s :=
    (matchedPattern (diagnoseDESSubmission (diagnoseInput p k s)),
     score (diagnoseDESSubmission (diagnoseInput p k s)),
     tags (diagnoseDESSubmission (diagnoseInput p k s))) in
  verdict (str "85e813540f0ab405") = (Some (str "correct"), 1%Q, [str "correct"]) /\
  verdict (str "0c465f038e5907dc")
    = (Some (str "skip-ip-fp"), 6 # 10, [str "incorrect"; str "skip-ip-fp"]) /\
  verdict (str "9da4cee1048ceec0")
    = (Some (str "two-rounds-only"), 2 # 10, [str "incorrect"; str "two-rounds-only"]) /\
  verdict (str "0000000000000000")
    = (None, 0%Q, [str "incorrect"; str "unclassified"]).
Proof. repeat split; vm_compute; reflexivity. Qed.

(** C5. Padding appends [8 - (len mod 8)] bytes, eight when the length is
    already a multiple of eight, each equal to their number; unpadding
    removes the trailing [n] bytes exactly when they are [n] copies of [n]
    with [1 <= n <= 8], returns its argument otherwise, and never throws;
    unpadding a padded array gives the array back. *)
Theorem padding_round_trip (bytes : Bytes) :
  (1 <= 8 - length bytes mod 8 <= 8)%nat /\
  ((length bytes mod 8 = 0)%nat -> (8 - length bytes mod 8 = 8)%nat) /\
  padTo8Bytes bytes
    = bytes ++ repeat (Z.of_nat (8 - length bytes mod 8)) (8 - length bytes mod 8) /\
  (forall n, validPadding bytes n -> unpadPkcs bytes = firstn (length bytes - n) bytes) /\
  ((forall n, ~ validPadding bytes n) -> unpadPkcs bytes = bytes) /\
  unpadPkcs (padTo8Bytes bytes) = bytes.
Proof.
  destruct (padTo8Bytes_spec bytes) as [Hn [Hpad _]]. cbn zeta in *.
  split; [exact Hn|]. split; [lia|]. split; [exact Hpad|].
  split; [apply unpadPkcs_valid|]. split; [apply unpadPkcs_invalid|apply unpad_pad].
Qed.

Example unpadPkcs_examples :
  validPadding [1; 2; 3; 2; 2] 2 /\ unpadPkcs [1; 2; 3; 2; 2] = [1; 2; 3] /\
  unpadPkcs [1; 2; 3; 9] = [1; 2; 3; 9] /\ unpadPkcs [7; 3; 3] = [7; 3; 3] /\
  unpadPkcs [2] = [2] /\ unpadPkcs [] = [] /\
  padTo8Bytes [] = [8; 8; 8; 8; 8; 8; 8; 8] /\
  padTo8Bytes [1; 2; 3; 4; 5] = [1; 2; 3; 4; 5; 3; 3; 3].
Proof. repeat split; try reflexivity; cbn; lia. Qed.

(** [decryptBytesWithMode] on its own: the missing-IV guard is its only
    way to throw. *)
Lemma decryptBytesWithMode_outcome (sourceBytes : Bytes) (keyHex : jstring) (m : DesMode) :
  (m <> ECB -> (length sourceBytes < 16)%nat ->
   decryptBytesWithMode sourceBytes keyHex m = Threw MissingIvError) /\
  (m = ECB \/ (16 <= length sourceBytes)%nat ->
   exists v, decryptBytesWithMode sourceBytes keyHex m = Returned v).
Proof.
  split.
  - intros Hm H16. destruct m; [congruence|..]; unfold decryptBytesWithMode;
      destruct (Nat.ltb_spec (length sourceBytes) 16); try lia; reflexivity.
  - intros Hm. destruct m; unfold decryptBytesWithMode.
    1: destruct (dec_loop_total ECB keyHex (chunks 8 sourceBytes)
                   {| ms_chain := []; ms_blocks := []; ms_first := None |}) as [s' Hs'];
       rewrite Hs'; cbn [bind]; eexists; reflexivity.
    all: destruct Hm as [Hm|Hm]; [discriminate Hm|];
      destruct (Nat.ltb_spec (length sourceBytes) 16); [lia|];
      match goal with
      | |- context [forEachBlock (dec_step ?md ?kh) ?bl ?s0] =>
          destruct (dec_loop_total md kh bl s0) as [s' Hs']; rewrite Hs'
      end; cbn [bind]; eexists; reflexivity.
Qed.

(** C6. The decrypt path of the mode layer (the caller's length guard,
    then [decryptBytesWithMode], then unpadding) throws exactly when the
    ciphertext without its IV is not a multiple of eight bytes, with the
    length message, or when a non-ECB input is shorter than sixteen bytes,
    with the missing-IV message when the length guard has passed;
    [decryptBytesWithMode] itself throws exactly in the second case, always
    with the missing-IV message; a call that throws returns no output. *)
Theorem decrypt_failures (sourceBytes : Bytes) (keyHex : jstring) (m : DesMode) :
  ((exists e, runTextProcess_decrypt sourceBytes keyHex m = Threw e) <->
   (bodyLength m sourceBytes mod 8 <> 0 \/
    (m <> ECB /\ (length sourceBytes < 16)%nat))) /\
  (bodyLength m sourceBytes mod 8 <> 0 ->
   runTextProcess_decrypt sourceBytes keyHex m = Threw LengthError) /\
  (bodyLength m sourceBytes mod 8 = 0 -> m <> ECB -> (length sourceBytes < 16)%nat ->
   runTextProcess_decrypt sourceBytes keyHex m = Threw MissingIvError) /\
  ((exists e, decryptBytesWithMode sourceBytes keyHex m = Threw e) <->
   (m <> ECB /\ (length sourceBytes < 16)%nat)) /\
  (m <> ECB -> (length sourceBytes < 16)%nat ->
   decryptBytesWithMode sourceBytes keyHex m = Threw MissingIvError) /\
  (forall e, runTextProcess_decrypt sourceBytes keyHex m = Threw e ->
   forall v, runTextProcess_decrypt sourceBytes keyHex m <> Returned v).
Proof.
  pose proof (bodyLength_mod m sourceBytes) as Hbody.
  destruct (decryptBytesWithMode_outcome sourceBytes keyHex m) as [Hmiss Hret].
  assert (Hcases : m = ECB \/ (16 <= length sourceBytes)%nat \/
                   (m <> ECB /\ (length sourceBytes < 16)%nat)).
  { destruct m; [now left|..];
      (destruct (Nat.lt_ge_cases (length sourceBytes) 16);
       [right; right; split; [discriminate|assumption]|right; now left]). }
  assert (Hlen : bodyLength m sourceBytes mod 8 <> 0 ->
                 runTextProcess_decrypt sourceBytes keyHex m = Threw LengthError).
  { intros H. unfold runTextProcess_decrypt.
    destruct (Nat.eqb_spec (length sourceBytes mod 8) 0); [tauto|reflexivity]. }
  assert (Hiv : bodyLength m sourceBytes mod 8 = 0 -> m <> ECB ->
                (length sourceBytes < 16)%nat ->
                runTextProcess_decrypt sourceBytes keyHex m = Threw MissingIvError).
  { intros H Hm H16. unfold runTextProcess_decrypt.
    destruct (Nat.eqb_spec (length sourceBytes mod 8) 0); [|tauto]. cbn [negb].
    now rewrite Hmiss. }
  assert (Hok : bodyLength m sourceBytes mod 8 = 0 ->
                (m = ECB \/ (16 <= length sourceBytes)%nat) ->
                exists v, runTextProcess_decrypt sourceBytes keyHex m = Returned v).
  { intros H Hm. unfold runTextProcess_decrypt.
    destruct (Nat.eqb_spec (length sourceBytes mod 8) 0); [|tauto]. cbn [negb].
    destruct (Hret Hm) as [[output first] Hv]. rewrite Hv. cbn [bind].
    eexists. reflexivity. }
  split; [|split; [exact Hlen|split; [exact Hiv|split; [|split; [exact Hmiss|]]]]].
  - split.
    + intros [e He].
      destruct (Z.eq_dec (bodyLength m sourceBytes mod 8) 0) as [Hz|Hz]; [|now left].
      right. destruct Hcases as [Hc|[Hc|Hc]]; [| |exact Hc].
      * destruct (Hok Hz (or_introl Hc)) as [v Hv]. congruence.
      * destruct (Hok Hz (or_intror Hc)) as [v Hv]. congruence.
    + intros [H|[Hm H16]].
      * eexists. now apply Hlen.
      * destruct (Z.eq_dec (bodyLength m sourceBytes mod 8) 0) as [Hz|Hz].
        -- eexists. now apply Hiv.
        -- eexists. now apply Hlen.
  - split.
    + intros [e He]. destruct Hcases as [Hc|[Hc|Hc]]; [| |exact Hc].
      * destruct (Hret (or_introl Hc)) as [v Hv]. congruence.
      * destruct (Hret (or_intror Hc)) as [v Hv]. congruence.
    + intros [Hm H16]. eexists. now apply Hmiss.
  - intros e He v Hv. congruence.
Qed.

Example decrypt_failure_examples :
  runTextProcess_decrypt (repeat 0 9) (str "133457799bbcdff1") ECB = Threw LengthError /\
  runTextProcess_decrypt (repeat 0 3) (str "133457799bbcdff1") CBC = Threw LengthError /\
  runTextProcess_decrypt (repeat 0 8) (str "133457799bbcdff1") CBC = Threw MissingIvError /\
  decryptBytesWithMode (repeat 0 3) (str "133457799bbcdff1") CBC = Threw MissingIvError /\
  runTextProcess_decrypt [] (str "133457799bbcdff1") ECB = Returned ([], None).
Proof. repeat split; vm_compute; reflexivity. Qed.

(** The length guard is the caller's: on its own [decryptBytesWithMode]
    answers a CBC input of seventeen bytes. *)
Remark decryptBytesWithMode_unguarded :
  exists v, decryptBytesWithMode (repeat 0 17) (str "133457799bbcdff1") CBC = Returned v.
Proof. vm_compute. eexists. reflexivity. Qed.

(** C7, as stated, fails: a block of one character and a block of eighteen
    are enciphered like the sixteen characters [hexToBits] makes of them, a
    key of fifteen characters like its right-padded form, and
    [encryptBlock] hands a two-character block to the cipher and returns. *)
Lemma cipher_accepts_other_lengths :
  length (str "1") <> 16%nat /\
  outputHex (des_encrypt (str "1") (str "133457799bbcdff1")) = str "5d59d44607495a7a" /\
  outputHex (des_encrypt (str "0000000000000001") (str "133457799bbcdff1"))
    = str "5d59d44607495a7a" /\
  outputHex (des_encrypt (str "ff0123456789abcdef") (str "133457799bbcdff1"))
    = outputHex (des_encrypt (str "0123456789abcdef") (str "133457799bbcdff1")) /\
  outputHex (des_encrypt (str "0123456789abcdef") (str "133457799bbcdff"))
    = outputHex (des_encrypt (str "0123456789abcdef") (str "133457799bbcdff0")) /\
  exists bytes r,
    encryptBlock [1] (str "133457799bbcdff1") = Returned (bytes, r) /\
    inputHex r = str "01" /\ bytes = [93; 89; 212; 70; 7; 73; 90; 122].
Proof.
  split; [discriminate|]. repeat (split; [vm_compute; reflexivity|]).
  vm_compute. eexists. eexists. repeat split.
Qed.

Lemma blockWindow_cases (inputHex : jstring) :
  ((length inputHex <= 16)%nat ->
   blockWindow inputHex = repeat "0"%char (16 - length inputHex) ++ inputHex) /\
  ((16 <= length inputHex)%nat ->
   blockWindow inputHex = skipn (length inputHex - 16) inputHex).
Proof.
  unfold blockWindow, padStart. cbv zeta. rewrite length_app, repeat_length. split; intros H.
  - replace (Z.of_nat (16 - length inputHex + length inputHex) - 16)
      with (Z.of_nat 0) by lia.
    now rewrite sliceFrom_nat.
  - replace (16 - length inputHex)%nat with 0%nat by lia. cbn [repeat app Nat.add].
    replace (Z.of_nat (length inputHex) - 16)
      with (Z.of_nat (length inputHex - 16)) by lia.
    now rewrite sliceFrom_nat.
Qed.

Lemma keyWindow_cases (keyHex : jstring) :
  ((length keyHex <= 16)%nat ->
   keyWindow keyHex = keyHex ++ repeat "0"%char (16 - length keyHex)) /\
  ((16 <= length keyHex)%nat -> keyWindow keyHex = firstn 16 keyHex).
Proof.
  unfold keyWindow, padEnd. rewrite slice_0. split; intros H.
  - apply firstn_all2. rewrite length_app, repeat_length. lia.
  - replace (16 - length keyHex)%nat with 0%nat by lia. cbn [repeat].
    now rewrite app_nil_r.
Qed.

(** C7, amended. The cipher never rejects its input.  A block shorter
    than sixteen characters is padded with '0' on the left and a longer one
    keeps its last sixteen; a key shorter than sixteen characters is padded
    with '0' on the right and a longer one keeps its first sixteen; the
    output, the round trace and the key schedule are those of that
    sixteen-character block and key, and the output is a block of 64 bits. *)
Theorem cipher_reads_window (inputHex keyHex : jstring) (m : Mode) :
  ((length inputHex <= 16)%nat ->
   blockWindow inputHex = repeat "0"%char (16 - length inputHex) ++ inputHex) /\
  ((16 <= length inputHex)%nat ->
   blockWindow inputHex = skipn (length inputHex - 16) inputHex) /\
  ((length keyHex <= 16)%nat ->
   keyWindow keyHex = keyHex ++ repeat "0"%char (16 - length keyHex)) /\
  ((16 <= length keyHex)%nat -> keyWindow keyHex = firstn 16 keyHex) /\
  outputHex (runCore inputHex keyHex m)
    = outputHex (runCore (blockWindow inputHex) (keyWindow keyHex) m) /\
  rounds (runCore inputHex keyHex m)
    = rounds (runCore (blockWindow inputHex) (keyWindow keyHex) m) /\
  subKeys (runCore inputHex keyHex m)
    = subKeys (runCore (blockWindow inputHex) (keyWindow keyHex) m) /\
  keySchedule (runCore inputHex keyHex m)
    = keySchedule (runCore (blockWindow inputHex) (keyWindow keyHex) m) /\
  hexOfBits 64 (outputHex (runCore inputHex keyHex m)).
Proof.
  destruct (blockWindow_cases inputHex) as [B1 B2].
  destruct (keyWindow_cases keyHex) as [K1 K2].
  split; [exact B1|]. split; [exact B2|]. split; [exact K1|]. split; [exact K2|].
  unfold runCore.
  rewrite <- (hexToBits_window inputHex), <- (generate_subkeys_window keyHex).
  destruct (generate_subkeys keyHex) as [ks sks] eqn:E.
  cbn [outputHex rounds subKeys keySchedule].
  repeat (split; [reflexivity|]).
  pose proof (runCore_output_shape inputHex keyHex m) as Hshape.
  unfold runCore in Hshape. rewrite E in Hshape. exact Hshape.
Qed.

(** C8. For every key the schedule has sixteen round records numbered 1 to
    16 in generation order, with the shifts of the fixed schedule; every
    subkey is the hexadecimal form of exactly 48 bits and the
    parity-dropped key of exactly 56 bits; the list of subkeys follows the
    records, the cipher stores the schedule unchanged in both modes, and
    only the decrypting cipher reverses the subkeys. *)
Theorem key_schedule_shape (keyHex : jstring) :
  length (ks_rounds (fst (generate_subkeys keyHex))) = 16%nat /\
  map ks_round (ks_rounds (fst (generate_subkeys keyHex))) = seq 1 16 /\
  map ks_shifts (ks_rounds (fst (generate_subkeys keyHex))) = SHIFT_SCHEDULE /\
  snd (generate_subkeys keyHex)
    = map ks_subKey (ks_rounds (fst (generate_subkeys keyHex))) /\
  Forall (fun r => hexOfBits 48 (ks_subKey r))
    (ks_rounds (fst (generate_subkeys keyHex))) /\
  hexOfBits 56 (parityDroppedKey (fst (generate_subkeys keyHex))) /\
  (forall input m,
     keySchedule (runCore input keyHex m) = fst (generate_subkeys keyHex)) /\
  (forall input,
     subKeys (des_encrypt input keyHex) = snd (generate_subkeys keyHex) /\
     subKeys (des_decrypt input keyHex) = rev (snd (generate_subkeys keyHex))).
Proof.
  destruct (generate_subkeys_shape keyHex) as [Hr [Hsh [Hs [Hsub Hpd]]]]. cbn zeta in *.
  split; [rewrite <- (length_map ks_round), Hr; reflexivity|].
  split; [exact Hr|]. split; [exact Hsh|]. split; [exact Hs|].
  split; [exact Hsub|]. split; [exact Hpd|]. split.
  - intros input m. apply runCore_fields.
  - intros input. unfold des_encrypt, des_decrypt.
    destruct (runCore_fields input keyHex encrypt) as [_ [He _]].
    destruct (runCore_fields input keyHex decrypt) as [_ [Hd _]].
    now split.
Qed.

(** C9. Hex and bits convert most significant bit first and without loss:
    at the sizes 64, 56, 48 and 32, a bit sequence of that length survives
    [bitsToHex] then [hexToBits], and a string of hexadecimal digits of the
    matching length survives [hexToBits] then [bitsToHex] up to lower
    case. *)
Theorem hex_bits_round_trip (size : nat) :
  In size [64; 56; 48; 32]%nat ->
  (forall bits, length bits = size -> bitlist bits ->
     hexToBits (bitsToHex bits) size = bits) /\
  (forall hex, length hex = (size / 4)%nat -> hexString hex ->
     bitsToHex (hexToBits hex size) = toLowerCase hex) /\
  (forall c v, hexDigitValue c = Some v ->
     hexToBits [c] 4 = [v / 8 mod 2; v / 4 mod 2; v / 2 mod 2; v mod 2]) /\
  (forall a b c d, is_bit a -> is_bit b -> is_bit c -> is_bit d ->
     exists ch, nth_error hexLookup (Z.to_nat (8 * a + 4 * b + 2 * c + d)) = Some ch /\
                bitsToHex [a; b; c; d] = [ch]).
Proof.
  intros Hsize.
  assert (Hk : exists k, size = (4 * k)%nat).
  { cbn [In] in Hsize.
    destruct Hsize as [<- | [<- | [<- | [<- | []]]]];
      [exists 16%nat|exists 14%nat|exists 12%nat|exists 8%nat]; reflexivity. }
  destruct Hk as [k ->].
  replace (4 * k / 4)%nat with k by (rewrite Nat.mul_comm, Nat.div_mul; lia).
  split; [|split; [|split]].
  - intros bits Hlen Hb. now apply hexToBits_bitsToHex.
  - intros hex Hlen Hhex. rewrite <- Hlen. now apply bitsToHex_hexToBits.
  - intros c v Hv. change 4%nat with (4 * length [c])%nat.
    rewrite hexToBits_exact. cbn [toLowerCase map flat_map]. rewrite app_nil_r.
    now apply charBits_value.
  - intros a b c d Ha Hb Hc Hd.
    destruct (toHexDigit_nibble a b c d Ha Hb Hc Hd) as [Hnth [ch [Hch _]]].
    exists ch. split; [now rewrite <- Hnth|].
    rewrite bitsToHex_cons4, Hch. reflexivity.
Qed.

Lemma hex_bits_round_trip_witness :
  In 64%nat [64; 56; 48; 32]%nat /\
  bitsToHex (hexToBits (str "0123456789ABCDEF") 64) = str "0123456789abcdef" /\
  hexToBits (bitsToHex (repeat 1 32 ++ repeat 0 32)) 64 = repeat 1 32 ++ repeat 0 32.
Proof.
  assert (Hin : In 64%nat [64; 56; 48; 32]%nat) by (left; reflexivity).
  split; [exact Hin|].
  destruct (hex_bits_round_trip 64 Hin) as [Hbits [Hhex _]].
  split.
  - apply (Hhex (str "0123456789ABCDEF")); [reflexivity|apply hexString_dec; reflexivity].
  - apply Hbits; [reflexivity|apply bitlist_dec; reflexivity].
Defined.

(** C10. In every mode, with or without a caller's IV, encrypting an empty
    plaintext throws 'No blocks were encrypted'. *)
Theorem encrypt_empty_throws (randomBlock : Bytes) (keyHex : jstring) (m : DesMode)
  (customIv : option Bytes) :
  encryptBytesWithMode randomBlock [] keyHex m customIv
    = Threw "No blocks were encrypted".
Proof. destruct m; reflexivity. Qed.

(* ================================================================== *)
(** ** Further properties of the code *)
(* ================================================================== *)

Lemma core_output_injective (a b : Bits) (sequence : list jstring) :
  length a = 64%nat -> bitlist a -> length b = 64%nat -> bitlist b ->
  core_output a sequence = core_output b sequence -> a = b.
Proof.
  intros La Ba Lb Bb H.
  pose proof (core_output_reverse a sequence La Ba) as Ha.
  pose proof (core_output_reverse b sequence Lb Bb) as Hb.
  rewrite H, Hb in Ha.
  apply (f_equal (fun h => hexToBits h (4 * 16))) in Ha.
  rewrite !hexToBits_bitsToHex in Ha by assumption. now symmetry.
Qed.

(** X1.  Decryption is a right inverse too: encrypting what [des_decrypt]
    returns for a block of sixteen hexadecimal digits gives the block
    back, in lower case, under the same key. *)
Theorem des_encrypt_after_decrypt (block keyHex : jstring) :
  length block = 16%nat -> hexString block ->
  outputHex (des_encrypt (outputHex (des_decrypt block keyHex)) keyHex) = toLowerCase block.
Proof.
  intros Hlen Hhex. unfold des_decrypt, des_encrypt.
  rewrite (runCore_output _ keyHex encrypt), (runCore_output block keyHex decrypt).
  rewrite <- (rev_involutive (snd (generate_subkeys keyHex))) at 2.
  rewrite core_output_reverse.
  - change 64%nat with (4 * 16)%nat. rewrite <- Hlen. now apply bitsToHex_hexToBits.
  - apply (hexToBits_length _ 16).
  - apply hexToBits_bitlist.
Qed.

Lemma des_encrypt_after_decrypt_witness :
  length (str "85e813540f0ab405") = 16%nat /\ hexString (str "85e813540f0ab405") /\
  outputHex (des_encrypt (outputHex (des_decrypt (str "85e813540f0ab405") (str "133457799bbcdff1")))
     (str "133457799bbcdff1")) = toLowerCase (str "85e813540f0ab405").
Proof.
  assert (H : hexString (str "85e813540f0ab405")) by (apply hexString_dec; reflexivity).
  split; [reflexivity|]. split; [exact H|].
  exact (des_encrypt_after_decrypt (str "85e813540f0ab405") (str "133457799bbcdff1") eq_refl H).
Defined.

(** X2.  Under one key and one mode two inputs with the same output are
    read as the same 64 bits: the single-block cipher is injective on
    blocks. *)
Theorem cipher_injective (a b keyHex : jstring) (m : Mode) :
  outputHex (runCore a keyHex m) = outputHex (runCore b keyHex m) ->
  hexToBits a 64 = hexToBits b 64.
Proof.
  rewrite !runCore_output. apply core_output_injective;
    try apply (hexToBits_length _ 16); apply hexToBits_bitlist.
Qed.

Lemma cipher_injective_witness :
  outputHex (runCore (str "0123456789abcdef") (str "133457799bbcdff1") encrypt)
  = outputHex (runCore (str "ff0123456789ABCDEF") (str "133457799bbcdff1") encrypt) /\
  hexToBits (str "0123456789abcdef") 64 = hexToBits (str "ff0123456789ABCDEF") 64.
Proof.
  assert (H : outputHex (runCore (str "0123456789abcdef") (str "133457799bbcdff1") encrypt)
  = outputHex (runCore (str "ff0123456789ABCDEF") (str "133457799bbcdff1") encrypt))
   by (vm_compute; reflexivity).
  split; [exact H|]. exact (cipher_injective (str "0123456789abcdef") (str "ff0123456789ABCDEF") (str "133457799bbcdff1") encrypt H).
Defined.

Lemma PC1_reads_off_parity (b b' : Bits) :
  (forall i, (i < 64)%nat -> (i mod 8 <> 7)%nat -> nth i b 0 = nth i b' 0) ->
  permute b PC1_TABLE = permute b' PC1_TABLE.
Proof.
  intros H. unfold permute. apply map_ext_in. intros index Hin.
  assert (Hall : PC1_skips_parity = true) by (vm_compute; reflexivity).
  unfold PC1_skips_parity in Hall. rewrite forallb_forall in Hall.
  specialize (Hall index Hin).
  apply andb_true_iff in Hall as [Hall Hmod]. apply andb_true_iff in Hall as [Hlo Hhi].
  apply negb_true_iff, Z.eqb_neq in Hmod.
  replace (index - 1) with (Z.of_nat (Z.to_nat (index - 1))) by lia.
  rewrite !at_nth. apply H; [lia|].
  intros Hc. apply Hmod.
  assert (E : index = Z.of_nat (Z.to_nat (index - 1)) + 1) by lia.
  rewrite E. 
  pose proof (Nat.div_mod_eq (Z.to_nat (index - 1)) 8) as Hd. rewrite Hc in Hd.
  rewrite Hd. replace (Z.of_nat (8 * (Z.to_nat (index - 1) / 8) + 7) + 1)
    with ((Z.of_nat (Z.to_nat (index - 1) / 8) + 1) * 8) by lia.
  apply Z.mod_mul. lia.
Qed.

(** X3.  PC1 never reads a parity position: two keys that agree outside
    every eighth bit have the same key schedule and give the same result
    record for every input and mode. *)
Theorem parity_bits_ignored (k k' : jstring) :
  sameOffParity k k' = true ->
  generate_subkeys k = generate_subkeys k' /\
  forall input m, runCore input k m = runCore input k' m.
Proof.
  intros H.
  assert (Hgen : generate_subkeys k = generate_subkeys k').
  { unfold generate_subkeys. fold (keyBits k) (keyBits k').
    rewrite (PC1_reads_off_parity (keyBits k) (keyBits k')); [reflexivity|].
    intros i Hi Hmod. unfold sameOffParity in H. rewrite forallb_forall in H.
    specialize (H i). rewrite in_seq in H. specialize (H ltac:(lia)).
    apply orb_true_iff in H as [H|H].
    - apply Nat.eqb_eq in H. contradiction.
    - now apply Z.eqb_eq in H. }
  split; [exact Hgen|]. intros input m. unfold runCore. now rewrite Hgen.
Qed.

Lemma parity_bits_ignored_witness :
  sameOffParity (str "133457799bbcdff1") (str "123456789abcdef0") = true /\
  generate_subkeys (str "133457799bbcdff1") = generate_subkeys (str "123456789abcdef0").
Proof.
  split; [reflexivity|].
  exact (proj1 (parity_bits_ignored (str "133457799bbcdff1") (str "123456789abcdef0") eq_refl)).
Defined.

Lemma leftShift_nil (a : nat) : leftShift [] a = [].
Proof. unfold leftShift. now rewrite skipn_nil, firstn_nil. Qed.

Lemma leftShift_nth (l : Bits) (a i : nat) :
  (i < length l)%nat ->
  nth i (leftShift l a) 0 = nth ((i + a) mod length l) l 0.
Proof.
  intros Hi. unfold leftShift. cbv zeta.
  set (n := length l) in *. assert (Hn : (0 < n)%nat) by lia.
  pose proof (Nat.mod_upper_bound a n ltac:(lia)) as Hk.
  set (k := (a mod n)%nat) in *.
  assert (Hmod : ((i + a) mod n = (i + k) mod n)%nat).
  { unfold k. now rewrite Nat.Div0.add_mod_idemp_r. }
  rewrite Hmod.
  destruct (Nat.lt_ge_cases i (n - k)) as [Hlt|Hge].
  - rewrite app_nth1 by (rewrite length_skipn; fold n; lia).
    rewrite nth_skipn, Nat.mod_small by lia. f_equal. lia.
  - rewrite app_nth2 by (rewrite length_skipn; fold n; lia).
    rewrite length_skipn. fold n. rewrite nth_firstn.
    destruct (Nat.ltb_spec (i - (n - k)) k); [|lia].
    replace (i + k)%nat with (i - (n - k) + 1 * n)%nat by lia.
    rewrite Nat.Div0.mod_add, Nat.mod_small by lia. reflexivity.
Qed.

Lemma leftShift_compose (l : Bits) (a b : nat) :
  leftShift (leftShift l a) b = leftShift l (a + b).
Proof.
  destruct l as [|x l]; [now rewrite !leftShift_nil|].
  apply (nth_ext _ _ 0 0); [now rewrite !leftShift_length|].
  intros i Hi. rewrite !leftShift_length in Hi.
  rewrite leftShift_nth by (rewrite leftShift_length; exact Hi).
  rewrite leftShift_length.
  rewrite leftShift_nth by (apply Nat.mod_upper_bound; cbn [length]; lia).
  rewrite leftShift_nth by exact Hi.
  f_equal. rewrite Nat.Div0.add_mod_idemp_l. f_equal. lia.
Qed.

Lemma leftShift_full (l : Bits) (q : nat) : leftShift l (q * length l) = l.
Proof.
  destruct l as [|x l]; [apply leftShift_nil|].
  apply (nth_ext _ _ 0 0); [apply leftShift_length|].
  intros i Hi. rewrite leftShift_length in Hi. rewrite leftShift_nth by exact Hi.
  rewrite Nat.Div0.mod_add, Nat.mod_small by exact Hi. reflexivity.
Qed.

(** X4.  [leftShift] is a rotation: it keeps the length, element [i] of
    the result is element [(i + shift) mod length] of the argument, two
    shifts compose to the shift by the sum, and a shift by the length is
    the identity. *)
Theorem leftShift_rotation (bits : Bits) (a b : nat) :
  length (leftShift bits a) = length bits /\
  (forall i, (i < length bits)%nat ->
     nth i (leftShift bits a) 0 = nth ((i + a) mod length bits) bits 0) /\
  leftShift (leftShift bits a) b = leftShift bits (a + b) /\
  leftShift bits (a + length bits) = leftShift bits a /\
  leftShift bits (length bits) = bits.
Proof.
  split; [apply leftShift_length|]. split; [intros i; apply leftShift_nth|].
  split; [apply leftShift_compose|]. split.
  - rewrite <- leftShift_compose. replace (length bits) with (1 * length (leftShift bits a))%nat
      by (rewrite leftShift_length; lia).
    apply leftShift_full.
  - replace (length bits) with (1 * length bits)%nat at 1 by lia. apply leftShift_full.
Qed.

Lemma ks_loop_records (sched : list nat) :
  forall i s,
    st_rounds (forEachFrom ks_step i sched s)
      = st_rounds s ++ map (roundRecord (st_c s) (st_d s) i sched) (seq 0 (length sched)).
Proof.
  induction sched as [|sh sched IH]; intros i s.
  - cbn. now rewrite app_nil_r.
  - cbn [forEachFrom length]. rewrite IH. cbn [ks_step st_rounds st_c st_d].
    rewrite <- app_assoc. f_equal. cbn [seq map app]. f_equal.
    + unfold roundRecord. cbn [Nat.add firstn nth]. unfold list_sum. cbn [fold_right].
      rewrite !Nat.add_0_r. reflexivity.
    + rewrite <- seq_shift, map_map. apply map_ext. intros j.
      unfold roundRecord. cbn [Nat.add firstn nth]. unfold list_sum. cbn [fold_right].
      fold (list_sum (firstn (j + 1) sched)).
      rewrite !leftShift_compose. f_equal. lia.
Qed.

Lemma bitsToHex_app (n : nat) :
  forall a b : Bits, length a = (4 * n)%nat ->
    bitsToHex (a ++ b) = bitsToHex a ++ bitsToHex b.
Proof.
  induction n as [|n IH]; intros a b Hlen.
  - destruct a; [reflexivity|discriminate].
  - destruct a as [|x1 [|x2 [|x3 [|x4 a]]]]; try (cbn in Hlen; lia).
    cbn [app]. rewrite !bitsToHex_cons4, IH by (cbn in Hlen; lia).
    now rewrite app_assoc.
Qed.

(** X5.  The key schedule in closed form: the record of round [j + 1]
    holds the two halves of the parity-dropped key rotated by the sum of
    the first [j + 1] shifts, and its subkey is PC2 of them.  The sixteen
    shifts sum to 28, so the last record shows the two halves as they
    started. *)
Theorem key_schedule_closed_form (keyHex : jstring) :
  let pd := permute (keyBits keyHex) PC1_TABLE in
  let c0 := slice pd 0 28 in
  let d0 := sliceFrom pd 28 in
  ks_rounds (fst (generate_subkeys keyHex))
    = map (roundRecord c0 d0 0 SHIFT_SCHEDULE) (seq 0 16) /\
  list_sum SHIFT_SCHEDULE = 28%nat /\
  ks_c (roundRecord c0 d0 0 SHIFT_SCHEDULE 15) ++ ks_d (roundRecord c0 d0 0 SHIFT_SCHEDULE 15)
    = parityDroppedKey (fst (generate_subkeys keyHex)).
Proof.
  cbn zeta. split; [|split; [reflexivity|]].
  - unfold generate_subkeys. fold (keyBits keyHex). cbn [fst ks_rounds].
    unfold forEach. rewrite ks_loop_records. reflexivity.
  - destruct (parityDropped_shape keyHex) as [Hlen [Hb [Hc [Hd _]]]].
    cbn [st_c st_d] in Hc, Hd.
    unfold roundRecord. cbn [ks_c ks_d].
    change (list_sum (firstn (15 + 1) SHIFT_SCHEDULE)) with 28%nat.
    pose proof (leftShift_full (slice (permute (keyBits keyHex) PC1_TABLE) 0 28) 1) as E1.
    pose proof (leftShift_full (sliceFrom (permute (keyBits keyHex) PC1_TABLE) 28) 1) as E2.
    rewrite Hc in E1. rewrite Hd in E2. change (1 * 28)%nat with 28%nat in E1, E2.
    rewrite E1, E2.
    unfold generate_subkeys. fold (keyBits keyHex). cbn [fst parityDroppedKey].
    rewrite <- (bitsToHex_app 7) by exact Hc.
    rewrite slice_0. change 28 with (Z.of_nat 28). rewrite sliceFrom_nat.
    now rewrite firstn_skipn.
Qed.

Lemma concat_mapiFrom_bitlist (f : Bits -> nat -> Bits) (cs : list Bits) :
  (forall c j, bitlist (f c j)) -> forall i, bitlist (concat (mapiFrom f i cs)).
Proof.
  intros Hf. induction cs as [|c cs IH]; intros i; cbn [mapiFrom concat].
  - constructor.
  - apply bitlist_app; [apply Hf|apply IH].
Qed.

Lemma concat_mapiFrom_length (f : Bits -> nat -> Bits) (cs : list Bits) :
  (forall c j, length (f c j) = 4%nat) ->
  forall i, length (concat (mapiFrom f i cs)) = (4 * length cs)%nat.
Proof.
  intros Hf. induction cs as [|c cs IH]; intros i; [reflexivity|].
  cbn [mapiFrom concat length]. rewrite length_app, Hf, IH. lia.
Qed.

Lemma s_box_bitlist (bits : Bits) : bitlist (s_box_substitution bits).
Proof.
  unfold s_box_substitution, mapi. apply concat_mapiFrom_bitlist.
  intros c j. repeat (apply Forall_cons; [apply land_1_bit|]). constructor.
Qed.

Lemma chunks_count (size n : nat) (bits : Bits) :
  (0 < size)%nat -> length bits = (n * size)%nat -> length (chunks size bits) = n.
Proof.
  intros Hs Hlen. destruct (chunks_lengths size n Hs bits Hlen) as [Hall Hcat].
  assert (G : forall cs : list Bits, Forall (fun p => length p = size) cs ->
              length (concat cs) = (length cs * size)%nat).
  { induction 1 as [|c cs Hc _ IH]; [reflexivity|].
    cbn [concat length]. rewrite length_app, IH, Hc. lia. }
  pose proof (G _ Hall) as E. rewrite Hcat, Hlen in E. nia.
Qed.

Lemma s_box_length (bits : Bits) :
  length bits = 48%nat -> length (s_box_substitution bits) = 32%nat.
Proof.
  intros Hlen. unfold s_box_substitution, mapi.
  rewrite concat_mapiFrom_length by reflexivity.
  unfold chunkBits. now rewrite (chunks_count 6 8) by (lia || assumption).
Qed.

(** What one round keeps true and what its record shows. *)
Lemma core_step_linked (s : CoreState) (k : jstring) (i : nat) :
  length (cs_left s) = 32%nat -> length (cs_right s) = 32%nat ->
  bitlist (cs_left s) -> bitlist (cs_right s) ->
  let s' := core_step s k i in
  length (cs_left s') = 32%nat /\ length (cs_right s') = 32%nat /\
  bitlist (cs_left s') /\ bitlist (cs_right s') /\
  exists x, cs_roundData s' = cs_roundData s ++ [x] /\
            ri_round x = (i + 1)%nat /\ ri_subKey x = k /\
            roundInput x = bitsToHex (cs_left s ++ cs_right s) /\
            ri_roundOutput x = bitsToHex (cs_left s' ++ cs_right s') /\
            roundLinked x.
Proof.
  intros Ll Lr Bl Br. cbn zeta. unfold core_step, feistel_round, f_function.
  cbn [cs_left cs_right cs_roundData r_left r_right r_expanded r_xorResult
       r_sBoxResult r_pBoxResult f_expanded f_xorResult f_sBoxResult f_pBoxResult].
  set (e := expansion_permutation (cs_right s)).
  set (x := xorBits e (hexToBits k 48)).
  set (sb := s_box_substitution x).
  set (pb := p_box_permutation sb).
  assert (Le : length e = 48%nat) by apply permute_length.
  assert (Be : bitlist e) by now apply permute_bitlist.
  assert (Lx : length x = 48%nat) by (unfold x; now rewrite xorBits_length).
  assert (Bx : bitlist x) by apply xorBits_bitlist.
  assert (Lsb : length sb = 32%nat) by now apply s_box_length.
  assert (Bsb : bitlist sb) by apply s_box_bitlist.
  assert (Lpb : length pb = 32%nat) by apply permute_length.
  assert (Bpb : bitlist pb) by now apply permute_bitlist.
  split; [exact Lr|]. split; [now rewrite xorBits_length|].
  split; [exact Br|]. split; [apply xorBits_bitlist|].
  eexists. split; [reflexivity|]. cbn [ri_round ri_subKey ri_roundOutput].
  split; [reflexivity|]. split; [reflexivity|].
  split; [unfold roundInput; cbn [ri_left ri_right]; symmetry; now apply (bitsToHex_app 8)|].
  split; [reflexivity|].
  unfold roundLinked.
  cbn [ri_left ri_right ri_subKey ri_expanded ri_xorWithKey ri_sBoxOutput
       ri_pBoxOutput ri_roundOutput].
  assert (E1 : hexToBits (bitsToHex (cs_right s)) 32 = cs_right s)
    by (apply (hexToBits_bitsToHex 8); assumption).
  assert (E2 : hexToBits (bitsToHex (cs_left s)) 32 = cs_left s)
    by (apply (hexToBits_bitsToHex 8); assumption).
  assert (E3 : hexToBits (bitsToHex e) 48 = e)
    by (apply (hexToBits_bitsToHex 12); assumption).
  assert (E4 : hexToBits (bitsToHex x) 48 = x)
    by (apply (hexToBits_bitsToHex 12); assumption).
  assert (E5 : hexToBits (bitsToHex sb) 32 = sb)
    by (apply (hexToBits_bitsToHex 8); assumption).
  assert (E6 : hexToBits (bitsToHex pb) 32 = pb)
    by (apply (hexToBits_bitsToHex 8); assumption).
  rewrite E1, E2, E3, E4, E5, E6.
  repeat (split; [reflexivity|]). now apply (bitsToHex_app 8).
Qed.

Lemma core_loop_trace (sequence : list jstring) :
  forall i s,
    length (cs_left s) = 32%nat -> length (cs_right s) = 32%nat ->
    bitlist (cs_left s) -> bitlist (cs_right s) ->
    let s' := forEachFrom core_step i sequence s in
    length (cs_left s') = 32%nat /\ bitlist (cs_left s') /\ bitlist (cs_right s') /\
    exists new,
      cs_roundData s' = cs_roundData s ++ new /\
      map ri_round new = seq (i + 1) (length sequence) /\
      map ri_subKey new = sequence /\
      map roundInput new ++ [bitsToHex (cs_left s' ++ cs_right s')]
        = bitsToHex (cs_left s ++ cs_right s) :: map ri_roundOutput new /\
      Forall roundLinked new.
Proof.
  induction sequence as [|k ks IH]; intros i s Ll Lr Bl Br; cbn zeta.
  - cbn [forEachFrom]. split; [exact Ll|]. split; [exact Bl|]. split; [exact Br|].
    exists []. rewrite app_nil_r. repeat split. constructor.
  - cbn [forEachFrom].
    destruct (core_step_linked s k i Ll Lr Bl Br)
      as [Ll1 [Lr1 [Bl1 [Br1 [x [Hd [Hr [Hk [Hin [Hout Hlink]]]]]]]]]]. cbn zeta in *.
    destruct (IH (S i) (core_step s k i) Ll1 Lr1 Bl1 Br1)
      as [Ll' [Bl' [Br' [new [Hd' [Hr' [Hk' [Hchain Hlinks]]]]]]]]. cbn zeta in *.
    split; [exact Ll'|]. split; [exact Bl'|]. split; [exact Br'|].
    exists (x :: new). rewrite Hd', Hd, <- app_assoc. cbn [app map length seq].
    rewrite Hr, Hk, Hr', Hk', Hin, Hchain, Hout.
    replace (S i + 1)%nat with (S (i + 1)) by lia.
    repeat split. now constructor.
Qed.

(** X6.  The round trace is consistent with itself: the rounds are
    numbered 1 to 16 and carry the subkeys in the order used; each round
    starts from the output of the round before (the first from the IP
    output); every displayed stage (expansion, key mixing, S-boxes,
    P-box, round output) is computed from the stage displayed before it;
    and the cipher output is FP of the swapped halves of the last round
    output. *)
Theorem round_trace_consistent (inputHex keyHex : jstring) (m : Mode) :
  map ri_round (rounds (runCore inputHex keyHex m)) = seq 1 16 /\
  map ri_subKey (rounds (runCore inputHex keyHex m)) = subKeys (runCore inputHex keyHex m) /\
  map roundInput (rounds (runCore inputHex keyHex m))
    = ipOutput (runCore inputHex keyHex m)
      :: removelast (map ri_roundOutput (rounds (runCore inputHex keyHex m))) /\
  Forall roundLinked (rounds (runCore inputHex keyHex m)) /\
  outputHex (runCore inputHex keyHex m)
    = bitsToHex (final_permutation
        (sliceFrom (hexToBits (last (map ri_roundOutput (rounds (runCore inputHex keyHex m))) []) 64) 32
         ++ slice (hexToBits (last (map ri_roundOutput (rounds (runCore inputHex keyHex m))) []) 64) 0 32)).
Proof.
  assert (H16 : length (snd (generate_subkeys keyHex)) = 16%nat).
  { destruct (generate_subkeys_shape keyHex) as [Hr [_ [Hs _]]]. cbn zeta in *.
    rewrite Hs, length_map, <- (length_map ks_round), Hr. reflexivity. }
  unfold runCore. destruct (generate_subkeys keyHex) as [ks sks]. cbn [snd] in H16.
  cbn [rounds subKeys ipOutput outputHex]. unfold forEach.
  set (q := match m with encrypt => sks | decrypt => rev sks end).
  assert (Hq : length q = 16%nat) by (unfold q; destruct m; [|rewrite length_rev]; exact H16).
  set (ip := initial_permutation (hexToBits inputHex 64)).
  assert (Lip : length ip = 64%nat) by apply permute_length.
  assert (Bip : bitlist ip) by (apply permute_bitlist, hexToBits_bitlist).
  destruct (halves_shape ip Lip Bip) as [L0 [R0 [BL [BR Happ]]]]. cbn zeta in *.
  set (s0 := {| cs_left := slice ip 0 32; cs_right := sliceFrom ip 32; cs_roundData := [] |}).
  destruct (core_loop_trace q 0 s0 L0 R0 BL BR)
    as [Ll [Bl [Br [new [Hd [Hr [Hk [Hchain Hlinks]]]]]]]]. cbn zeta in *.
  cbn [s0 cs_roundData cs_left cs_right app] in Hd, Hchain. rewrite Happ in Hchain.
  set (sF := forEachFrom core_step 0 q s0) in *.
  rewrite Hd, Hr, Hk, Hq.
  assert (Lr : length (cs_right sF) = 32%nat).
  { destruct (core_loop q 0%nat s0) as [Hpair _]. cbn zeta in Hpair. fold sF in Hpair.
    destruct (feistel_rounds_reverse q _ _ BL BR) as [_ [_ [Hlen _]]]. cbn zeta in Hlen.
    cbn [s0 cs_left cs_right] in Hpair. rewrite <- Hpair in Hlen. cbn [fst snd] in Hlen.
    destruct Hlen as [_ H2]; congruence. }
  assert (Hne : map ri_roundOutput new <> []).
  { intros E. apply (f_equal (@length _)) in E. rewrite length_map in E.
    rewrite <- (length_map ri_subKey), Hk, Hq in E. discriminate. }
  split; [reflexivity|]. split; [reflexivity|]. split; [|split; [exact Hlinks|]].
  - apply (f_equal (@removelast _)) in Hchain.
    rewrite removelast_last in Hchain. rewrite Hchain.
    destruct (map ri_roundOutput new); [congruence|reflexivity].
  - apply (f_equal (fun l => last l [])) in Hchain. rewrite last_last in Hchain.
    assert (E : last (map ri_roundOutput new) []
                = bitsToHex (cs_left sF ++ cs_right sF)).
    { rewrite Hchain. destruct (map ri_roundOutput new); [congruence|reflexivity]. }
    rewrite E.
    assert (E0 : hexToBits (bitsToHex (cs_left sF ++ cs_right sF)) 64
                 = cs_left sF ++ cs_right sF).
    { apply (hexToBits_bitsToHex 16); [rewrite length_app; lia|now apply bitlist_app]. }
    rewrite E0.
    destruct (halves_app (cs_left sF) (cs_right sF) Ll) as [E1 E2].
    now rewrite E1, E2.
Qed.

Lemma isHexDigit_22 (c : ascii) : isHexDigit c = true -> In c hexDigits22.
Proof. each_ascii c; intros H; vm_compute in H; try discriminate H; vm_compute; tauto. Qed.

Lemma anyCasePair_spec (c1 c2 : ascii) :
  isHexDigit c1 = true -> isHexDigit c2 = true ->
  exists b, 0 <= b < 256 /\ parseInt16 [c1; c2] = Some b /\
            byteHex b = [lowerChar c1; lowerChar c2].
Proof.
  intros H1 H2. apply isHexDigit_22 in H1, H2.
  assert (Hall : forallb (fun x => forallb (anyCasePair_ok x) hexDigits22) hexDigits22 = true)
    by (vm_compute; reflexivity).
  rewrite forallb_forall in Hall. specialize (Hall c1 H1).
  rewrite forallb_forall in Hall. specialize (Hall c2 H2).
  unfold anyCasePair_ok in Hall. destruct (parseInt16 [c1; c2]) as [b|]; [|discriminate].
  apply andb_true_iff in Hall as [H H3]. apply andb_true_iff in H as [Hlo Hhi].
  exists b. rewrite strEq_eq in H3. repeat split; try assumption; lia.
Qed.

Lemma parsePairs_anyCase (n : nat) :
  forall s, hexString s -> length s = (2 * n)%nat ->
    exists bs, parsePairs (chunks 2 s) = Returned bs /\ byteBlock bs /\
               length bs = n /\ bytesToHex bs = toLowerCase s.
Proof.
  induction n as [|n IH]; intros s Hs Hlen.
  - destruct s; [|discriminate]. exists []. repeat split. constructor.
  - destruct s as [|c1 [|c2 s]]; try (cbn in Hlen; lia).
    inversion Hs as [|? ? H1 Hs1]; subst. inversion Hs1 as [|? ? H2 Hs2]; subst.
    destruct (anyCasePair_spec c1 c2 H1 H2) as [b [Hb [Hp Hhex]]].
    destruct (IH s Hs2) as [bs [Hbs [Bbs [Lbs Ebs]]]]; [cbn in Hlen; lia|].
    change (c1 :: c2 :: s) with ([c1; c2] ++ s).
    rewrite chunks_app by (cbn; lia). cbn [parsePairs]. rewrite Hp, Hbs. cbn [bind].
    exists (b :: bs). rewrite Z.mod_small by lia.
    repeat split; try (constructor; assumption).
    + cbn. now rewrite Lbs.
    + rewrite bytesToHex_cons, Hhex, Ebs. reflexivity.
Qed.

Lemma hexDigit_not_space (c : ascii) : isHexDigit c = true -> isSpace c = false.
Proof. intros H. apply isHexDigit_22 in H. vm_compute in H. intuition (subst; reflexivity). Qed.

(** X7.  [bytesToHex] and [hexToBytes] are inverse: bytes printed and
    parsed come back, and a string of hexadecimal digits of either case
    and even length parses to bytes that print as the string in lower
    case. *)
Theorem hex_bytes_round_trip :
  (forall bs, byteBlock bs -> hexToBytes (bytesToHex bs) = Returned bs) /\
  (forall s, hexString s -> (length s mod 2 = 0)%nat ->
     exists bs, hexToBytes s = Returned bs /\ byteBlock bs /\
                (2 * length bs = length s)%nat /\ bytesToHex bs = toLowerCase s).
Proof.
  split; [apply hexToBytes_bytesToHex|].
  intros s Hs Heven. unfold hexToBytes.
  rewrite trim_id by (eapply Forall_impl; [|exact Hs]; apply hexDigit_not_space).
  rewrite Heven. cbn [Nat.eqb].
  pose proof (Nat.div_mod_eq (length s) 2) as Hd. rewrite Heven, Nat.add_0_r in Hd.
  destruct (parsePairs_anyCase (length s / 2) s Hs Hd) as [bs [H1 [H2 [H3 H4]]]].
  exists bs. repeat split; try assumption. lia.
Qed.

Section ChunkFacts.
Context {A : Type}.

Lemma chunks_unfold (size : nat) (a : list A) :
  (0 < size)%nat -> a <> [] ->
  chunks size a = firstn size a :: chunks size (skipn size a).
Proof.
  intros Hs Ha. unfold chunks. destruct a as [|x a]; [congruence|].
  cbn [length chunksFuel]. f_equal. apply chunksFuel_enough; try lia.
  rewrite length_skipn. cbn [length]. lia.
Qed.

Lemma chunks_spec (size : nat) :
  (0 < size)%nat ->
  forall n (a : list A), (length a <= n)%nat ->
    concat (chunks size a) = a /\
    Forall (fun p => (1 <= length p <= size)%nat) (chunks size a) /\
    length (chunks size a) = ((length a + size - 1) / size)%nat.
Proof.
  intros Hs. induction n as [|n IH]; intros a Hlen.
  - destruct a; [|cbn in Hlen; lia]. cbn. repeat split; [constructor|].
    symmetry. apply Nat.div_small. lia.
  - destruct a as [|x a]; [cbn; repeat split; [constructor|symmetry; apply Nat.div_small; lia]|].
    rewrite chunks_unfold by (assumption || discriminate).
    assert (Hrest : (length (skipn size (x :: a)) <= n)%nat).
    { rewrite length_skipn. cbn [length] in *. lia. }
    destruct (IH _ Hrest) as [H1 [H2 H3]].
    split; [cbn [concat]; rewrite H1; apply firstn_skipn|]. split.
    + constructor; [|exact H2]. rewrite length_firstn. cbn [length]. lia.
    + cbn [length]. rewrite H3, length_skipn. cbn [length].
      destruct (Nat.le_gt_cases size (S (length a))) as [Hle|Hgt].
      * replace (S (length a) + size - 1)%nat
          with ((S (length a) - size + size - 1) + 1 * size)%nat by lia.
        rewrite Nat.div_add by lia. lia.
      * replace (S (length a) - size)%nat with 0%nat by lia.
        rewrite (Nat.div_small (0 + size - 1)) by lia.
        replace (S (length a) + size - 1)%nat with (length a + 1 * size)%nat by lia.
        rewrite Nat.div_add, Nat.div_small by lia. reflexivity.
Qed.

Lemma chunks_app_aligned (size n : nat) (a b : list A) :
  (0 < size)%nat -> length a = (n * size)%nat ->
  chunks size (a ++ b) = chunks size a ++ chunks size b.
Proof.
  intros Hs. revert a. induction n as [|n IH]; intros a Hlen.
  - destruct a; [reflexivity|cbn in Hlen; lia].
  - rewrite <- (firstn_skipn size a), <- app_assoc.
    assert (Hf : length (firstn size a) = size) by (rewrite length_firstn; cbn in Hlen; lia).
    rewrite (chunks_app size (firstn size a) (skipn size a ++ b)) by assumption.
    rewrite (chunks_app size (firstn size a) (skipn size a)) by assumption.
    cbn [app]. f_equal. apply IH.
    rewrite length_skipn. cbn in Hlen. lia.
Qed.

End ChunkFacts.

Lemma In_allAscii (c : ascii) : In c allAscii.
Proof.
  unfold allAscii. rewrite in_map_iff. exists (nat_of_ascii c).
  split; [apply ascii_nat_embedding|]. apply in_seq.
  pose proof (nat_ascii_bounded c). lia.
Qed.

Lemma lenientPair_parses (p : jstring) :
  lenientPair p = true -> exists b, parseInt16 p = Some b /\ 0 <= b < 256.
Proof.
  destruct p as [|c1 [|c2 [|]]]; try discriminate. cbn [lenientPair]. intros H.
  apply andb_true_iff in H as [H1 H2]. apply isHexDigit_22 in H1.
  assert (Hall : forallb (fun x => forallb (lenientPair_ok x) allAscii) hexDigits22 = true)
    by (vm_compute; reflexivity).
  rewrite forallb_forall in Hall. specialize (Hall c1 H1).
  rewrite forallb_forall in Hall. specialize (Hall c2 (In_allAscii c2)).
  unfold lenientPair_ok in Hall. apply negb_true_iff in H2. rewrite H2 in Hall.
  assert (Hv : forall c v, hexDigitValue c = Some v -> 0 <= v < 16).
  { intros c v Hc. now destruct (charBits_value c v Hc). }
  destruct (hexDigitValue c1) as [v1|] eqn:E1; [|discriminate].
  destruct (hexDigitValue c2) as [v2|] eqn:E2;
    (destruct (parseInt16 [c1; c2]) as [b|]; [|discriminate]);
    apply Z.eqb_eq in Hall; exists b; (split; [reflexivity|]).
  - pose proof (Hv _ _ E1). pose proof (Hv _ _ E2). lia.
  - pose proof (Hv _ _ E1). lia.
Qed.

Lemma parsePairs_lenient (ps : list jstring) :
  forallb lenientPair ps = true ->
  exists bs, parsePairs ps = Returned bs /\ length bs = length ps /\ byteBlock bs.
Proof.
  induction ps as [|p ps IH]; intros H.
  - exists []. repeat split. constructor.
  - cbn [forallb] in H. apply andb_true_iff in H as [Hp Hps].
    destruct (lenientPair_parses p Hp) as [b [Hb Hr]].
    destruct (IH Hps) as [bs [Hbs [Lbs Bbs]]].
    cbn [parsePairs]. rewrite Hb, Hbs. cbn [bind]. exists (b mod 256 :: bs).
    split; [reflexivity|]. split; [cbn; now rewrite Lbs|].
    constructor; [apply Z.mod_pos_bound; lia|exact Bbs].
Qed.

(** X8.  [hexToBytes] throws the even-length error exactly on a trimmed
    input of odd length; on an input whose two-character slices each
    start with a hexadecimal digit (and are not [0x]) it returns one byte
    per slice, also when the second character of a slice is not a digit:
    [parseInt] then reads the first digit alone. *)
Theorem hexToBytes_outcomes (hex : jstring) :
  ((length (trim hex) mod 2 <> 0)%nat ->
   hexToBytes hex = Threw "Hex input must have an even length.") /\
  (forallb lenientPair (chunks 2 (trim hex)) = true ->
   exists bs, hexToBytes hex = Returned bs /\ byteBlock bs /\
              (2 * length bs = length (trim hex))%nat).
Proof.
  split.
  - intros H. unfold hexToBytes.
    destruct (Nat.eqb_spec (length (trim hex) mod 2) 0); [contradiction|reflexivity].
  - intros H. destruct (parsePairs_lenient _ H) as [bs [Hbs [Lbs Bbs]]].
    destruct (chunks_spec 2 ltac:(lia) _ (trim hex) (Nat.le_refl _)) as [Hcat [Hall _]].
    assert (Hlen : length (trim hex) = (2 * length (chunks 2 (trim hex)))%nat).
    { rewrite <- Hcat at 1. clear Hcat Hbs Lbs Hall.
      induction (chunks 2 (trim hex)) as [|p ps IH]; [reflexivity|].
      cbn [forallb] in H. apply andb_true_iff in H as [Hp Hps].
      cbn [concat length]. rewrite length_app, (IH Hps).
      destruct p as [|c1 [|c2 [|]]]; try discriminate Hp. cbn. lia. }
    assert (Heven : (length (trim hex) mod 2 = 0)%nat)
      by (rewrite Hlen, Nat.mul_comm; apply Nat.Div0.mod_mul).
    unfold hexToBytes. cbv zeta. rewrite Heven. cbn [Nat.eqb]. exists bs.
    split; [exact Hbs|]. split; [exact Bbs|]. lia.
Qed.

Lemma hexToBytes_outcomes_witness :
  forallb lenientPair (chunks 2 (trim (str " 1z0A "))) = true /\
  hexToBytes (str " 1z0A ") = Returned [1; 10].
Proof.
  split; [reflexivity|].
  destruct (proj2 (hexToBytes_outcomes (str " 1z0A ")) eq_refl) as [bs [H _]].
  rewrite H. vm_compute in H. injection H as <-. reflexivity.
Defined.

Lemma at_zero_extended (a : Bytes) (i : nat) :
  (i < 8)%nat ->
  at_ 0 (firstn 8 a ++ repeat 0 (8 - length a)) (Z.of_nat i) = at_ 0 a (Z.of_nat i).
Proof.
  intros Hi. rewrite !at_nth.
  destruct (Nat.lt_ge_cases i (length a)) as [Hlt|Hge].
  - rewrite app_nth1 by (rewrite length_firstn; lia).
    rewrite nth_firstn. destruct (Nat.ltb_spec i 8); [reflexivity|lia].
  - rewrite (nth_overflow a) by exact Hge.
    rewrite app_nth2 by (rewrite length_firstn; lia).
    destruct (Nat.lt_ge_cases (i - length (firstn 8 a)) (8 - length a)) as [H|H].
    + now rewrite nth_repeat_lt.
    + now rewrite nth_overflow by (rewrite repeat_length; lia).
Qed.

(** X9.  [xorBlocks] always returns eight bytes, is commutative, reads a
    short first operand as if it were extended with zeros and a long one
    as its first eight bytes; on eight bytes it is undone by the same
    second operand and [xorBlocks a []] is [a]. *)
Theorem xorBlocks_algebra (a b : Bytes) :
  length (xorBlocks a b) = 8%nat /\ byteBlock (xorBlocks a b) /\
  xorBlocks a b = xorBlocks b a /\
  xorBlocks a b = xorBlocks (firstn 8 a ++ repeat 0 (8 - length a)) b /\
  (byteBlock a -> length a = 8%nat -> byteBlock b ->
   xorBlocks (xorBlocks a b) b = a /\ xorBlocks a [] = a).
Proof.
  destruct (xorBlocks_shape a b) as [Hb Hl].
  split; [exact Hl|]. split; [exact Hb|]. split; [|split].
  - unfold xorBlocks. apply map_ext. intros i. now rewrite Z.lxor_comm.
  - unfold xorBlocks. apply map_ext_in. intros i Hi. apply in_seq in Hi.
    now rewrite at_zero_extended by lia.
  - intros Ba La Bb. split; [now apply xorBlocks_cancel|].
    do 8 (destruct a as [|? a]; [discriminate La|]). destruct a; [|discriminate La].
    unfold byteBlock in Ba. rewrite Forall_forall in Ba.
    unfold xorBlocks. cbn [map seq]. rewrite !at_nth. cbn [nth].
    rewrite !Z.lxor_0_r.
    repeat match goal with |- _ :: _ = _ :: _ => f_equal end;
      (apply Z.mod_small, Ba; cbn; tauto).
Qed.

Lemma xorBlocks_algebra_witness :
  byteBlock [1; 2; 3; 4; 5; 6; 7; 8] /\ byteBlock [255; 0; 17] /\
  xorBlocks (xorBlocks [1; 2; 3; 4; 5; 6; 7; 8] [255; 0; 17]) [255; 0; 17]
    = [1; 2; 3; 4; 5; 6; 7; 8].
Proof.
  assert (Ha : byteBlock [1; 2; 3; 4; 5; 6; 7; 8]) by (apply byteBlock_dec; reflexivity).
  assert (Hb : byteBlock [255; 0; 17]) by (apply byteBlock_dec; reflexivity).
  split; [exact Ha|]. split; [exact Hb|].
  destruct (xorBlocks_algebra [1; 2; 3; 4; 5; 6; 7; 8] [255; 0; 17]) as [_ [_ [_ [_ H]]]].
  exact (proj1 (H Ha eq_refl Hb)).
Defined.

(* incrementCounter *)

Lemma setNth_length (i : nat) (v : Z) (a : Bytes) : length (setNth i v a) = length a.
Proof.
  revert i. induction a as [|x a IH]; intros [|i]; cbn; try reflexivity. now rewrite IH.
Qed.

Lemma setNth_split (i : nat) (v : Z) (a : Bytes) :
  (i < length a)%nat -> setNth i v a = firstn i a ++ v :: skipn (S i) a.
Proof.
  revert i. induction a as [|x a IH]; intros [|i] Hi; cbn in *; try lia; try reflexivity.
  f_equal. apply IH. lia.
Qed.

Lemma counterValue_app (a b : Bytes) :
  counterValue (a ++ b) = counterValue a * 256 ^ Z.of_nat (length b) + counterValue b.
Proof.
  unfold counterValue. rewrite fold_left_app.
  generalize (fold_left (fun acc x => acc * 256 + x) a 0). revert a.
  induction b as [|x b IH] using rev_ind; intros a acc.
  - cbn. lia.
  - rewrite !fold_left_app. cbn [fold_left]. rewrite (IH a acc), (IH a 0).
    rewrite length_app. cbn [length]. rewrite Nat2Z.inj_add, Z.pow_add_r by lia.
    cbn. lia.
Qed.

Lemma counterValue_bound (a : Bytes) :
  byteBlock a -> 0 <= counterValue a < 256 ^ Z.of_nat (length a).
Proof.
  induction a as [|x a IH] using rev_ind; intros Hb; [cbn; lia|].
  apply Forall_app in Hb as [Ha Hx]. inversion Hx; subst.
  rewrite counterValue_app, length_app. cbn [length].
  rewrite Nat2Z.inj_add, Z.pow_add_r by lia.
  change (counterValue [x]) with (0 * 256 + x). specialize (IH Ha). cbn. nia.
Qed.

(** The loop from index [n - 1] down: the first [n] bytes, read as a
    number, go up by one modulo [256 ^ n]; the rest is untouched. *)
Lemma incrementFrom_spec (n : nat) :
  forall out, byteBlock out -> (n <= length out)%nat ->
    exists front,
      incrementFrom n out = front ++ skipn n out /\ length front = n /\
      byteBlock front /\
      counterValue front = (counterValue (firstn n out) + 1) mod 256 ^ Z.of_nat n.
Proof.
  induction n as [|n IH]; intros out Hb Hlen.
  - exists []. cbn. repeat split. constructor.
  - cbn [incrementFrom].
    destruct (nth_error out n) as [v|] eqn:Ev;
      [|apply nth_error_None in Ev; lia].
    pose proof (nth_error_nth _ _ 0 Ev) as Hv.
    assert (Bv : 0 <= v < 256).
    { unfold byteBlock in Hb. rewrite Forall_forall in Hb. apply Hb.
      eapply nth_error_In; eassumption. }
    assert (Hfirst : firstn (S n) out = firstn n out ++ [v]).
    { rewrite <- Hv. clear -Hlen. revert out Hlen.
      induction n as [|n IH]; intros [|x out] Hlen; cbn in *; try lia; [reflexivity|].
      f_equal. apply IH. lia. }
    destruct (Forall_firstn_skipn _ n out Hb) as [Bfront Brest].
    pose proof (counterValue_bound _ Bfront) as Hbound.
    rewrite length_firstn, Nat.min_l in Hbound by lia.
    replace (Z.land (v + 1) 255) with ((v + 1) mod 256)
      by (change 255 with (Z.ones 8); now rewrite Z.land_ones by lia).
    rewrite Hfirst, counterValue_app. cbn [length]. change (counterValue [v]) with (0 * 256 + v).
    replace (256 ^ Z.of_nat (S n)) with (256 ^ Z.of_nat n * 256)
      by (rewrite Nat2Z.inj_succ, Z.pow_succ_r by lia; lia).
    change (256 ^ Z.of_nat 1) with 256.
    destruct (Z.eqb_spec ((v + 1) mod 256) 0) as [Hz|Hnz].
    + assert (v = 255).
      { destruct (Z.eq_dec v 255); [assumption|]. rewrite Z.mod_small in Hz by lia. lia. }
      clear Hv. subst v. rewrite Hz.
      assert (Bout' : byteBlock (setNth n 0 out)).
      { rewrite setNth_split by lia. apply Forall_app. split; [exact Bfront|].
        constructor; [lia|]. now apply (Forall_firstn_skipn _ (S n) out). }
      destruct (IH (setNth n 0 out) Bout' ltac:(rewrite setNth_length; lia))
        as [front [Hinc [Lf [Bf Vf]]]].
      exists (front ++ [0]). rewrite Hinc, setNth_split by lia.
      rewrite skipn_app, length_firstn, Nat.min_l, Nat.sub_diag by lia.
      rewrite skipn_all2 by (rewrite length_firstn; lia). cbn [skipn app].
      rewrite <- app_assoc. cbn [app]. split; [reflexivity|].
      split; [rewrite length_app, Lf; cbn; lia|].
      split; [apply Forall_app; split; [exact Bf|constructor; [lia|constructor]]|].
      assert (Hf' : firstn n (setNth n 0 out) = firstn n out).
      { rewrite setNth_split by lia.
        rewrite firstn_app, length_firstn, Nat.min_l, Nat.sub_diag by lia.
        rewrite firstn_all2 by (rewrite length_firstn; lia). cbn [firstn].
        apply app_nil_r. }
      rewrite Hf' in Vf.
      rewrite counterValue_app, Vf. cbn [length]. change (256 ^ Z.of_nat 1) with 256.
      change (counterValue [0]) with 0.
      replace (counterValue (firstn n out) * 256 + (0 * 256 + 255) + 1)
        with ((counterValue (firstn n out) + 1) * 256) by lia.
      rewrite Z.mul_mod_distr_r by lia. lia.
    + assert (Hv255 : v <> 255) by (intros E; apply Hnz; rewrite E; reflexivity).
      assert (Hsmall : (v + 1) mod 256 = v + 1) by (apply Z.mod_small; lia).
      rewrite Hsmall in *.
      exists (firstn n out ++ [v + 1]). rewrite setNth_split by lia.
      rewrite <- app_assoc. cbn [app]. split; [reflexivity|].
      split; [rewrite length_app, length_firstn; cbn; lia|].
      split; [apply Forall_app; split; [exact Bfront|constructor; [lia|constructor]]|].
      rewrite counterValue_app. cbn [length]. change (256 ^ Z.of_nat 1) with 256.
      change (counterValue [v + 1]) with (0 * 256 + (v + 1)).
      rewrite Z.mod_small; [lia|]. nia.
Qed.

(** X10.  [incrementCounter] adds one to the eight-byte counter read as a
    big-endian number, wrapping at 2^64, and returns eight bytes again; a
    counter shorter than eight bytes is returned unchanged. *)
Theorem incrementCounter_adds_one (counter : Bytes) :
  byteBlock counter ->
  (length counter = 8%nat ->
   length (incrementCounter counter) = 8%nat /\ byteBlock (incrementCounter counter) /\
   counterValue (incrementCounter counter) = (counterValue counter + 1) mod 2 ^ 64) /\
  ((length counter < 8)%nat -> incrementCounter counter = counter).
Proof.
  intros Hb. split.
  - intros Hlen. unfold incrementCounter.
    destruct (incrementFrom_spec 8 counter Hb ltac:(lia)) as [front [Hinc [Lf [Bf Vf]]]].
    rewrite Hinc, skipn_all2, app_nil_r by lia.
    rewrite firstn_all2 in Vf by lia.
    split; [exact Lf|]. split; [exact Bf|]. exact Vf.
  - intros Hlen. unfold incrementCounter. cbn [incrementFrom].
    destruct (nth_error counter 7) eqn:E; [|reflexivity].
    assert (H : nth_error counter 7 <> None) by congruence.
    apply nth_error_Some in H. lia.
Qed.

Lemma incrementCounter_adds_one_witness :
  byteBlock [0; 0; 0; 0; 0; 0; 255; 255] /\
  counterValue (incrementCounter [0; 0; 0; 0; 0; 0; 255; 255]) = 65536.
Proof.
  assert (Hb : byteBlock [0; 0; 0; 0; 0; 0; 255; 255]) by (apply byteBlock_dec; reflexivity).
  split; [exact Hb|].
  destruct (incrementCounter_adds_one [0; 0; 0; 0; 0; 0; 255; 255] Hb) as [H _].
  destruct (H eq_refl) as [_ [_ Hv]]. rewrite Hv. reflexivity.
Defined.

Lemma bytesToHex_app (a b : Bytes) : bytesToHex (a ++ b) = bytesToHex a ++ bytesToHex b.
Proof. unfold bytesToHex. now rewrite map_app, concat_app. Qed.

Lemma bytesToHex_zeros (n : nat) : bytesToHex (repeat 0 n) = repeat "0"%char (2 * n).
Proof.
  induction n as [|n IH]; [reflexivity|].
  cbn [repeat]. rewrite bytesToHex_cons, IH.
  replace (2 * S n)%nat with (S (S (2 * n))) by lia. reflexivity.
Qed.

Lemma zero_extended_bits (block : Bytes) :
  byteBlock block -> (length block <= 8)%nat ->
  hexToBits (bytesToHex (repeat 0 (8 - length block) ++ block)) 64
    = hexToBits (bytesToHex block) 64.
Proof.
  intros Hb Hlen. destruct (bytesToHex_shape block Hb) as [_ Hl].
  rewrite (hexToBits_window (bytesToHex block)).
  destruct (blockWindow_cases (bytesToHex block)) as [Hw _].
  rewrite Hw by lia. rewrite bytesToHex_app, bytesToHex_zeros, Hl.
  do 2 f_equal. f_equal. lia.
Qed.

(** X11.  [encryptBlock] never throws and reads a block shorter than eight
    bytes as if it were extended with zero bytes on the left: both give
    the same eight cipher bytes, and [decryptBlock] returns the extended
    block. *)
Theorem encryptBlock_zero_extends (block : Bytes) (keyHex : jstring) :
  byteBlock block -> (length block <= 8)%nat ->
  exists bytes r r',
    encryptBlock block keyHex = Returned (bytes, r) /\
    encryptBlock (repeat 0 (8 - length block) ++ block) keyHex = Returned (bytes, r') /\
    length bytes = 8%nat /\ byteBlock bytes /\
    decryptBlock bytes keyHex
      = Returned (repeat 0 (8 - length block) ++ block, des_decrypt (bytesToHex bytes) keyHex).
Proof.
  intros Hb Hlen.
  destruct (encryptBlock_total block keyHex) as [c [Hc [Bc [Lc Ec]]]].
  destruct (encryptBlock_total (repeat 0 (8 - length block) ++ block) keyHex)
    as [c' [Hc' [Bc' [Lc' Ec']]]].
  assert (E : outputHex (des_encrypt (bytesToHex block) keyHex)
              = outputHex (des_encrypt (bytesToHex (repeat 0 (8 - length block) ++ block)) keyHex)).
  { unfold des_encrypt.
    rewrite (runCore_output (bytesToHex block)),
      (runCore_output (bytesToHex (repeat 0 (8 - length block) ++ block))).
    rewrite (zero_extended_bits block Hb Hlen). reflexivity. }
  assert (Hcc : c = c').
  { rewrite E, <- Ec' in Ec.
    pose proof (hexToBytes_bytesToHex c Bc) as H1.
    pose proof (hexToBytes_bytesToHex c' Bc') as H2. rewrite Ec in H1. congruence. }
  subst c'. exists c. eexists. eexists. split; [exact Hc|]. split; [exact Hc'|].
  split; [exact Lc|]. split; [exact Bc|].
  eapply block_round_trip; [| |exact Hc'].
  - apply Forall_app. split; [|exact Hb]. apply Forall_forall.
    intros x Hx. apply repeat_spec in Hx. lia.
  - rewrite length_app, repeat_length. lia.
Qed.

Lemma encryptBlock_zero_extends_witness :
  byteBlock [7; 9] /\ (length [7; 9] <= 8)%nat /\
  exists bytes r r',
    encryptBlock [7; 9] (str "133457799bbcdff1") = Returned (bytes, r) /\
    encryptBlock [0; 0; 0; 0; 0; 0; 7; 9] (str "133457799bbcdff1") = Returned (bytes, r').
Proof.
  assert (Hb : byteBlock [7; 9]) by (apply byteBlock_dec; reflexivity).
  assert (Hl : (length [7; 9] <= 8)%nat) by (cbn; lia).
  split; [exact Hb|]. split; [exact Hl|].
  destruct (encryptBlock_zero_extends [7; 9] (str "133457799bbcdff1") Hb Hl)
    as [bytes [r [r' [H1 [H2 _]]]]].
  exists bytes, r, r'. split; [exact H1|exact H2].
Defined.

(** One encryption step never throws and appends one block of eight bytes. *)
Lemma enc_step_total (m : DesMode) (keyHex : jstring) (s : ModeState) (block : Bytes) :
  exists s' c,
    enc_step m keyHex s block = Returned s' /\
    ms_blocks s' = ms_blocks s ++ [c] /\ length c = 8%nat /\ byteBlock c /\
    ms_first s' <> None /\
    (forall r, ms_first s = Some r -> ms_first s' = Some r) /\
    fixed_step m keyHex (ms_chain s, ms_blocks s) block
      = Returned (ms_chain s', ms_blocks s').
Proof.
  assert (Hfirst : forall o r, getFirst o r <> None) by (intros [r'|] r; discriminate).
  destruct m; unfold enc_step, fixed_step; cbn [fst snd];
    [destruct (encryptBlock_total block keyHex) as [c [Hc [Bc [Lc _]]]]
    |destruct (encryptBlock_total (xorBlocks block (ms_chain s)) keyHex) as [c [Hc [Bc [Lc _]]]]
    |destruct (encryptBlock_total (ms_chain s) keyHex) as [c [Hc [Bc [Lc _]]]]
    |destruct (encryptBlock_total (ms_chain s) keyHex) as [c [Hc [Bc [Lc _]]]]
    |destruct (encryptBlock_total (ms_chain s) keyHex) as [c [Hc [Bc [Lc _]]]]];
    cbv zeta; rewrite Hc; cbn [bind]; eexists; eexists;
    (split; [reflexivity|]); cbn [ms_blocks ms_first ms_chain];
    (split; [reflexivity|]).
  1,2: split; [exact Lc|]; split; [exact Bc|]; split; [apply Hfirst|];
       split; [intros r ->; reflexivity|reflexivity].
  all: destruct (xorBlocks_shape block c) as [Bx Lx];
       split; [exact Lx|]; split; [exact Bx|]; split; [apply Hfirst|];
       split; [intros r ->; reflexivity|reflexivity].
Qed.

Lemma enc_loop_total (m : DesMode) (keyHex : jstring) (blocks : list Bytes) :
  forall s,
    exists s' cs,
      forEachBlock (enc_step m keyHex) blocks s = Returned s' /\
      ms_blocks s' = ms_blocks s ++ cs /\ length cs = length blocks /\
      Forall (fun c => length c = 8%nat) cs /\ Forall byteBlock cs /\
      (blocks <> [] -> ms_first s' <> None) /\
      forEachOutcome (fixed_step m keyHex) blocks (ms_chain s, ms_blocks s)
        = Returned (ms_chain s', ms_blocks s').
Proof.
  induction blocks as [|b blocks IH]; intros s.
  - exists s, []. cbn [forEachBlock forEachOutcome]. rewrite app_nil_r.
    repeat split; try constructor. congruence.
  - destruct (enc_step_total m keyHex s b) as [s1 [c [H1 [Hb1 [Lc [Bc [Hf1 [Hkeep Hfix]]]]]]]].
    destruct (IH s1) as [s' [cs [H' [Hb' [Lcs [L8 [Bcs [Hf' Hfix']]]]]]]].
    exists s', (c :: cs). cbn [forEachBlock forEachOutcome]. rewrite H1, Hfix. cbn [bind].
    split; [exact H'|]. split; [rewrite Hb', Hb1, <- app_assoc; reflexivity|].
    split; [cbn; now rewrite Lcs|]. split; [now constructor|]. split; [now constructor|].
    split; [|exact Hfix'].
    intros _. destruct (ms_first s1) as [r|] eqn:E; [|congruence].
    destruct blocks as [|b' blocks'].
    + cbn [forEachBlock] in H'. injection H' as <-. congruence.
    + apply Hf'. discriminate.
Qed.

Lemma dec_step_total (m : DesMode) (keyHex : jstring) (s : ModeState) (block : Bytes) :
  exists s' c,
    dec_step m keyHex s block = Returned s' /\
    ms_blocks s' = ms_blocks s ++ [c] /\ length c = 8%nat /\ byteBlock c.
Proof.
  destruct m; unfold dec_step;
    [destruct (decryptBlock_total block keyHex) as [c [Hc [Bc [Lc _]]]]
    |destruct (decryptBlock_total block keyHex) as [c [Hc [Bc [Lc _]]]]
    |destruct (encryptBlock_total (ms_chain s) keyHex) as [c [Hc [Bc [Lc _]]]]
    |destruct (encryptBlock_total (ms_chain s) keyHex) as [c [Hc [Bc [Lc _]]]]
    |destruct (encryptBlock_total (ms_chain s) keyHex) as [c [Hc [Bc [Lc _]]]]];
    rewrite Hc; cbn [bind]; eexists; eexists;
    (split; [reflexivity|]); cbn [ms_blocks]; (split; [reflexivity|]);
    try (split; [exact Lc|exact Bc]);
    (split; apply xorBlocks_shape).
Qed.

Lemma dec_loop_lengths (m : DesMode) (keyHex : jstring) (blocks : list Bytes) :
  forall s,
    exists s' cs,
      forEachBlock (dec_step m keyHex) blocks s = Returned s' /\
      ms_blocks s' = ms_blocks s ++ cs /\ length cs = length blocks /\
      Forall (fun c => length c = 8%nat) cs.
Proof.
  induction blocks as [|b blocks IH]; intros s.
  - exists s, []. cbn [forEachBlock]. rewrite app_nil_r. repeat split. constructor.
  - destruct (dec_step_total m keyHex s b) as [s1 [c [H1 [Hb1 [Lc _]]]]].
    destruct (IH s1) as [s' [cs [H' [Hb' [Lcs L8]]]]].
    exists s', (c :: cs). cbn [forEachBlock]. rewrite H1. cbn [bind].
    split; [exact H'|]. split; [rewrite Hb', Hb1, <- app_assoc; reflexivity|].
    split; [cbn; now rewrite Lcs|now constructor].
Qed.

Lemma blockCount_chunks (bytes : Bytes) : length (chunks 8 bytes) = blockCount bytes.
Proof.
  destruct (chunks_spec 8 ltac:(lia) _ bytes (Nat.le_refl _)) as [_ [_ H]].
  rewrite H. unfold blockCount. f_equal. lia.
Qed.

Lemma encrypt_returns (randomBlock plaintext : Bytes) (keyHex : jstring)
  (m : DesMode) (customIv : option Bytes) :
  plaintext <> [] ->
  exists output first,
    encryptBytesWithMode randomBlock plaintext keyHex m customIv = Returned (output, first) /\
    length output
      = ((match m with ECB => 0 | _ => length (usedIv randomBlock customIv) end)
         + 8 * blockCount plaintext)%nat.
Proof.
  intros Hne.
  assert (Hblocks : chunks 8 plaintext <> []).
  { intros E. pose proof (blockCount_chunks plaintext) as H. rewrite E in H.
    unfold blockCount in H. cbn [length] in H. destruct plaintext; [congruence|].
    cbn [length] in H. symmetry in H. apply Nat.div_small_iff in H; lia. }
  set (chain0 := match m with ECB => [] | _ => usedIv randomBlock customIv end).
  destruct (enc_loop_total m keyHex (chunks 8 plaintext)
              {| ms_chain := chain0; ms_blocks := []; ms_first := None |})
    as [s' [cs [Henc [Hbl [Lcs [L8 [_ [Hf _]]]]]]]].
  cbn [ms_blocks app] in Hbl.
  destruct (ms_first s') as [first|] eqn:Hfirst; [|exfalso; now apply Hf].
  pose proof (length_concat_8 cs L8) as Hlen.
  rewrite Lcs, blockCount_chunks in Hlen.
  destruct m; unfold encryptBytesWithMode, concatByteChunks;
    unfold chain0, usedIv in Henc; unfold usedIv;
    rewrite Henc; cbn [bind]; rewrite Hfirst, Hbl; eexists; eexists;
    (split; [reflexivity|]); cbn [concat]; rewrite ?length_app, ?app_nil_r, Hlen;
    cbn [length]; lia.
Qed.

(** X12.  On a plaintext that is not empty [encryptBytesWithMode] returns
    in every mode, whatever the bytes, the key and the IV: eight bytes
    per started block, after the IV outside ECB.  [decryptBytesWithMode]
    returns eight bytes per started block of the body whenever the IV
    guard passes. *)
Theorem mode_output_lengths (randomBlock plaintext : Bytes) (keyHex : jstring)
  (m : DesMode) (customIv : option Bytes) :
  plaintext <> [] ->
  (exists output first,
     encryptBytesWithMode randomBlock plaintext keyHex m customIv = Returned (output, first) /\
     length output
       = ((match m with ECB => 0 | _ => length (usedIv randomBlock customIv) end)
          + 8 * blockCount plaintext)%nat) /\
  (m = ECB \/ (16 <= length plaintext)%nat ->
   exists output first,
     decryptBytesWithMode plaintext keyHex m = Returned (output, first) /\
     length output
       = (8 * blockCount (match m with ECB => plaintext | _ => skipn 8 plaintext end))%nat).
Proof.
  intros Hne. split; [now apply encrypt_returns|].
  intros Hm.
  assert (Hdec : forall md bl s0, exists s' cs,
             forEachBlock (dec_step md keyHex) (chunks 8 bl) s0 = Returned s' /\
             ms_blocks s' = ms_blocks s0 ++ cs /\
             length (concat cs) = (8 * blockCount bl)%nat).
  { intros md bl s0. destruct (dec_loop_lengths md keyHex (chunks 8 bl) s0)
      as [s' [cs [H1 [H2 [H3 H4]]]]].
    exists s', cs. split; [exact H1|]. split; [exact H2|].
    rewrite (length_concat_8 cs H4), H3, blockCount_chunks. lia. }
  destruct m; unfold decryptBytesWithMode, concatByteChunks.
  1: destruct (Hdec ECB plaintext {| ms_chain := []; ms_blocks := []; ms_first := None |})
       as [s' [cs [H1 [H2 H3]]]]; rewrite H1; cbn [bind]; eexists; eexists;
     (split; [reflexivity|]); rewrite H2; exact H3.
  all: destruct Hm as [Hm|Hm]; [discriminate Hm|];
    destruct (Nat.ltb_spec (length plaintext) 16); [lia|];
    change 8 with (Z.of_nat 8); rewrite sliceFrom_nat;
    match goal with
    | |- context [forEachBlock (dec_step ?md ?kh) (chunks 8 ?bl) ?s0] =>
        destruct (Hdec md bl s0) as [s' [cs [H1 [H2 H3]]]]; rewrite H1
    end; cbn [bind]; eexists; eexists; (split; [reflexivity|]); rewrite H2; exact H3.
Qed.

Lemma mode_output_lengths_witness :
  [1; 2; 3] <> ([] : Bytes) /\
  exists output first,
    encryptBytesWithMode [] [1; 2; 3] (str "133457799bbcdff1") CBC
      (Some [0; 0; 0; 0; 0; 0; 0; 0]) = Returned (output, first) /\
    length output = 16%nat.
Proof.
  assert (Hne : [1; 2; 3] <> ([] : Bytes)) by discriminate.
  split; [exact Hne|].
  destruct (mode_output_lengths [] [1; 2; 3] (str "133457799bbcdff1") CBC
              (Some [0; 0; 0; 0; 0; 0; 0; 0]) Hne) as [[output [first [H1 H2]]] _].
  exists output, first. split; [exact H1|exact H2].
Defined.

(** In OFB and CTR the decryption loop is the encryption loop. *)
Lemma stream_loop (m : DesMode) (keyHex : jstring) (blocks : list Bytes) :
  m = OFB \/ m = CTR ->
  forall s, forEachBlock (dec_step m keyHex) blocks s
            = forEachBlock (enc_step m keyHex) blocks s.
Proof.
  intros Hm. induction blocks as [|b blocks IH]; intros s; [reflexivity|].
  cbn [forEachBlock].
  assert (E : dec_step m keyHex s b = enc_step m keyHex s b)
    by (destruct Hm as [Hm | Hm]; rewrite Hm; unfold dec_step, enc_step; reflexivity).
  rewrite E. destruct (enc_step m keyHex s b) as [s1|msg]; cbn [bind]; [apply IH|reflexivity].
Qed.

(** X13.  In OFB and CTR decryption is encryption: decrypting [iv ++ data]
    gives the bytes that encrypting [data] with that IV puts after the
    IV, and the same first-block record. *)
Theorem stream_modes_symmetric (m : DesMode) (randomBlock iv data : Bytes)
  (keyHex : jstring) :
  m = OFB \/ m = CTR -> length iv = 8%nat -> (8 <= length data)%nat ->
  exists body first,
    encryptBytesWithMode randomBlock data keyHex m (Some iv) = Returned (iv ++ body, first) /\
    decryptBytesWithMode (iv ++ data) keyHex m = Returned (body, Some first) /\
    length body = (8 * blockCount data)%nat.
Proof.
  intros Hm Hiv Hdata.
  assert (Hne : data <> []) by (destruct data; [cbn in Hdata; lia|discriminate]).
  destruct (encrypt_returns randomBlock data keyHex m (Some iv) Hne)
    as [output [first [Henc Hlen]]].
  assert (Hslice : slice (iv ++ data) 0 8 = iv).
  { rewrite slice_0, firstn_app, Hiv, Nat.sub_diag, firstn_O, app_nil_r.
    rewrite <- Hiv. apply firstn_all. }
  assert (Hbody : sliceFrom (iv ++ data) 8 = data).
  { change 8 with (Z.of_nat 8). rewrite sliceFrom_nat, skipn_app, Hiv, Nat.sub_diag.
    rewrite <- Hiv, skipn_all. reflexivity. }
  assert (Hlong : (length (iv ++ data) <? 16)%nat = false).
  { apply Nat.ltb_ge. rewrite length_app. lia. }
  assert (Hshape : exists s,
             forEachBlock (enc_step m keyHex) (chunks 8 data)
               {| ms_chain := iv; ms_blocks := []; ms_first := None |} = Returned s /\
             ms_first s = Some first /\
             output = iv ++ concatByteChunks (ms_blocks s)).
  { destruct Hm as [-> | ->]; unfold encryptBytesWithMode in Henc; cbv zeta in Henc;
      match type of Henc with
      | context [forEachBlock ?f ?bl ?s0] => destruct (forEachBlock f bl s0) as [s|msg]
      end; cbn [bind] in Henc; try discriminate Henc;
      (destruct (ms_first s) as [r|] eqn:Er; [|discriminate Henc]);
      injection Henc as Ho Hf; exists s; (split; [reflexivity|]);
      (split; [rewrite Er, Hf; reflexivity|]); rewrite <- Ho; unfold concatByteChunks;
      cbn [concat]; now rewrite app_nil_r. }
  destruct Hshape as [s [Hloop [Hfirst Hout]]].
  exists (concatByteChunks (ms_blocks s)), first.
  split; [now rewrite Henc, Hout|]. split.
  - destruct Hm as [-> | ->]; unfold decryptBytesWithMode; rewrite Hlong; cbv zeta;
      rewrite Hslice, Hbody, stream_loop, Hloop by tauto; cbn [bind];
      now rewrite Hfirst.
  - assert (H : length output = (8 + 8 * blockCount data)%nat).
    { rewrite Hlen. destruct Hm as [-> | ->]; unfold usedIv; now rewrite Hiv. }
    rewrite Hout, length_app, Hiv in H. lia.
Qed.

Lemma stream_modes_symmetric_witness :
  exists body first,
    encryptBytesWithMode [] [1; 2; 3; 4; 5; 6; 7; 8; 9] (str "133457799bbcdff1") CTR
      (Some [0; 0; 0; 0; 0; 0; 0; 255]) = Returned ([0; 0; 0; 0; 0; 0; 0; 255] ++ body, first) /\
    decryptBytesWithMode ([0; 0; 0; 0; 0; 0; 0; 255] ++ [1; 2; 3; 4; 5; 6; 7; 8; 9])
      (str "133457799bbcdff1") CTR = Returned (body, Some first) /\
    length body = 16%nat.
Proof.
  apply (stream_modes_symmetric CTR [] [0; 0; 0; 0; 0; 0; 0; 255]
           [1; 2; 3; 4; 5; 6; 7; 8; 9] (str "133457799bbcdff1")).
  - right. reflexivity.
  - reflexivity.
  - cbn. lia.
Defined.

(** The ECB loops block by block. *)
Lemma ecb_loop (keyHex : jstring) (blocks : list Bytes) :
  forall s,
    forEachBlock (enc_step ECB keyHex) blocks s
      = Returned {| ms_chain := ms_chain s;
                    ms_blocks := ms_blocks s ++ map (ecbBlock keyHex) blocks;
                    ms_first :=
                      match ms_first s, blocks with
                      | Some r, _ => Some r
                      | None, b :: _ => Some (des_encrypt (bytesToHex b) keyHex)
                      | None, [] => None
                      end |}.
Proof.
  induction blocks as [|b blocks IH]; intros s.
  - cbn [forEachBlock map]. rewrite app_nil_r. destruct s as [ch bl [r|]]; reflexivity.
  - cbn [forEachBlock map]. unfold enc_step at 1.
    destruct (encryptBlock_total b keyHex) as [c [Hc _]].
    assert (Ec : ecbBlock keyHex b = c) by (unfold ecbBlock; now rewrite Hc).
    rewrite Hc. cbn [bind]. rewrite IH. cbn [ms_chain ms_blocks ms_first].
    rewrite Ec, <- app_assoc. cbn [app].
    destruct (ms_first s) as [r|]; reflexivity.
Qed.

Lemma chunks_head (a : Bytes) :
  a <> [] -> exists rest, chunks 8 a = firstn 8 a :: rest.
Proof.
  intros Hne. rewrite (chunks_unfold 8%nat a) by (lia || assumption). eexists. reflexivity.
Qed.

(** X14.  ECB works block by block and ignores the IV arguments: the
    output for [a ++ b], with [a] a whole number of blocks, is the output
    for [a] followed by the output for [b]; equal plaintexts give equal
    outputs, and the first-block record is that of the first eight
    bytes. *)
Theorem ecb_blockwise (keyHex : jstring) (a b : Bytes)
  (random1 random2 random3 : Bytes) (iv1 iv2 iv3 : option Bytes) :
  a <> [] -> b <> [] -> (length a mod 8 = 0)%nat ->
  exists outA outB first firstB,
    encryptBytesWithMode random1 a keyHex ECB iv1 = Returned (outA, first) /\
    encryptBytesWithMode random2 b keyHex ECB iv2 = Returned (outB, firstB) /\
    encryptBytesWithMode random3 (a ++ b) keyHex ECB iv3 = Returned (outA ++ outB, first) /\
    first = des_encrypt (bytesToHex (firstn 8 a)) keyHex /\
    (a = b -> outA = outB).
Proof.
  intros Ha Hb Hmod.
  destruct (chunks_head a Ha) as [ra Hca].
  destruct (chunks_head b Hb) as [rb Hcb].
  assert (Hab : chunks 8 (a ++ b) = chunks 8 a ++ chunks 8 b)
    by (apply (chunks_app_aligned 8 (length a / 8)); [lia|];
        apply Nat.Div0.div_exact in Hmod; lia).
  exists (concat (map (ecbBlock keyHex) (chunks 8 a))),
         (concat (map (ecbBlock keyHex) (chunks 8 b))),
         (des_encrypt (bytesToHex (firstn 8 a)) keyHex),
         (des_encrypt (bytesToHex (firstn 8 b)) keyHex).
  unfold encryptBytesWithMode, concatByteChunks.
  rewrite !ecb_loop. cbn [bind ms_first ms_blocks app].
  rewrite Hab, map_app, concat_app, Hca, Hcb. cbn [app].
  repeat split. intros E. subst b. congruence.
Qed.

Lemma ecb_blockwise_witness :
  exists outA outB first firstB,
    encryptBytesWithMode [] [1; 2; 3; 4; 5; 6; 7; 8] (str "133457799bbcdff1") ECB None
      = Returned (outA, first) /\
    encryptBytesWithMode [] [1; 2; 3; 4; 5; 6; 7; 8] (str "133457799bbcdff1") ECB None
      = Returned (outB, firstB) /\
    encryptBytesWithMode [] ([1; 2; 3; 4; 5; 6; 7; 8] ++ [1; 2; 3; 4; 5; 6; 7; 8])
      (str "133457799bbcdff1") ECB None = Returned (outA ++ outB, first) /\
    first = des_encrypt (bytesToHex (firstn 8 [1; 2; 3; 4; 5; 6; 7; 8])) (str "133457799bbcdff1") /\
    ([1; 2; 3; 4; 5; 6; 7; 8] = [1; 2; 3; 4; 5; 6; 7; 8] -> outA = outB).
Proof.
  apply (ecb_blockwise (str "133457799bbcdff1") [1; 2; 3; 4; 5; 6; 7; 8]
           [1; 2; 3; 4; 5; 6; 7; 8] [] [] [] None None None).
  - discriminate.
  - discriminate.
  - reflexivity.
Defined.

(** X15.  [encryptBytesWithModeFixedIv] outside ECB throws without an
    IV and with an IV that is not eight bytes long; otherwise it returns
    the bytes [encryptBytesWithMode] returns with that IV.  On an empty
    plaintext it returns the IV alone (nothing in ECB), where
    [encryptBytesWithMode] throws. *)
Theorem encryptBytesWithModeFixedIv_outcomes (plaintext : Bytes) (keyHex : jstring)
  (m : DesMode) :
  (m <> ECB ->
   encryptBytesWithModeFixedIv plaintext keyHex m None
     = Threw "IV/nonce required for non-ECB test vector.") /\
  (forall v, m <> ECB -> length v <> 8%nat ->
   encryptBytesWithModeFixedIv plaintext keyHex m (Some v) = Threw "IV must be 8 bytes.") /\
  (forall iv, m = ECB \/ (exists v, iv = Some v /\ length v = 8%nat) ->
   exists output,
     encryptBytesWithModeFixedIv plaintext keyHex m iv = Returned output /\
     length output
       = ((match m with ECB => 0 | _ => 8 end) + 8 * blockCount plaintext)%nat /\
     (plaintext = [] ->
      output = match m, iv with ECB, _ => [] | _, Some v => v | _, None => [] end) /\
     (plaintext <> [] ->
      forall randomBlock, exists first,
        encryptBytesWithMode randomBlock plaintext keyHex m iv = Returned (output, first))).
Proof.
  split; [|split].
  - intros Hm. destruct m; [congruence| | | |]; reflexivity.
  - intros v Hm Hv. apply Nat.eqb_neq in Hv.
    destruct m; [congruence| | | |]; unfold encryptBytesWithModeFixedIv;
      rewrite Hv; reflexivity.
  - intros iv Hiv.
    set (chain0 := match m, iv with ECB, _ => [] | _, Some v => v | _, None => [] end).
    destruct (enc_loop_total m keyHex (chunks 8 plaintext)
                {| ms_chain := chain0; ms_blocks := []; ms_first := None |})
      as [s' [cs [Henc [Hbl [Lcs [L8 [_ [Hf Hfix]]]]]]]].
    cbn [ms_blocks ms_chain app] in Hbl, Hfix.
    pose proof (length_concat_8 cs L8) as Hlen.
    rewrite Lcs, blockCount_chunks in Hlen.
    assert (Hempty : plaintext = [] -> cs = []).
    { intros ->. destruct cs; [reflexivity|discriminate Lcs]. }
    assert (Hfirst : plaintext <> [] -> exists first, ms_first s' = Some first).
    { intros Hne. destruct (chunks_head plaintext Hne) as [rest Hrest].
      destruct (ms_first s') as [first|] eqn:E; [now exists first|].
      exfalso. apply Hf; [rewrite Hrest; discriminate|reflexivity]. }
    destruct m.
    1: { exists (concat cs). unfold encryptBytesWithModeFixedIv, encryptBytesWithMode.
         unfold chain0 in Henc, Hfix. rewrite Hfix, Henc. cbn [bind snd].
         unfold concatByteChunks. rewrite Hbl.
         split; [reflexivity|]. split; [lia|].
         split; [intros E; now rewrite (Hempty E)|].
         intros Hne randomBlock. destruct (Hfirst Hne) as [first E].
         exists first. now rewrite E. }
    all: destruct Hiv as [Hm | [v [Hiv Hv]]]; [discriminate Hm|]; subst iv;
      exists (v ++ concat cs); unfold encryptBytesWithModeFixedIv, encryptBytesWithMode;
      unfold chain0 in Henc, Hfix; cbv zeta; rewrite Hv, Hfix, Henc;
      cbn [Nat.eqb negb bind snd]; unfold concatByteChunks; rewrite Hbl;
      cbn [concat]; rewrite app_nil_r;
      (split; [reflexivity|]); (split; [rewrite length_app; lia|]);
      (split; [intros E; rewrite (Hempty E); cbn [concat]; now rewrite app_nil_r|]);
      intros Hne randomBlock; destruct (Hfirst Hne) as [first E];
      exists first; now rewrite E.
Qed.

Lemma encryptBytesWithModeFixedIv_outcomes_witness :
  exists output,
    encryptBytesWithModeFixedIv [1; 2; 3] (str "133457799bbcdff1") CBC
      (Some [0; 0; 0; 0; 0; 0; 0; 0]) = Returned output /\
    length output = 16%nat /\
    encryptBytesWithModeFixedIv [1; 2; 3] (str "133457799bbcdff1") CBC None
      = Threw "IV/nonce required for non-ECB test vector." /\
    encryptBytesWithModeFixedIv [1; 2; 3] (str "133457799bbcdff1") CBC (Some [0])
      = Threw "IV must be 8 bytes.".
Proof.
  destruct (encryptBytesWithModeFixedIv_outcomes [1; 2; 3] (str "133457799bbcdff1") CBC)
    as [H1 [H2 H3]].
  destruct (H3 (Some [0; 0; 0; 0; 0; 0; 0; 0])) as [output [Ho [Hl _]]].
  { right. exists [0; 0; 0; 0; 0; 0; 0; 0]. split; reflexivity. }
  exists output. split; [exact Ho|]. split; [exact Hl|]. split.
  - apply H1. discriminate.
  - apply H2; [discriminate|cbn; lia].
Defined.

Lemma isHexDigit_lowerChar (c : ascii) : isHexDigit (lowerChar c) = isHexDigit c.
Proof. each_ascii c; reflexivity. Qed.

Lemma hexString_filter (hex : jstring) : hexString (filter isHexDigit hex).
Proof.
  apply Forall_forall. intros c Hc. apply filter_In in Hc. tauto.
Qed.

Lemma filter_hexString (hex : jstring) : hexString hex -> filter isHexDigit hex = hex.
Proof.
  induction 1 as [|c s Hc _ IH]; [reflexivity|]. cbn [filter]. now rewrite Hc, IH.
Qed.

Lemma normalizeBlockHex_shape (hex : jstring) :
  length (normalizeBlockHex hex) = 16%nat /\ lowerHexString (normalizeBlockHex hex).
Proof.
  unfold normalizeBlockHex, padEnd. rewrite slice_0. split.
  - unfold toLowerCase. rewrite length_map, length_firstn, length_app, repeat_length. lia.
  - apply toLowerCase_hexString. apply Forall_firstn_skipn. apply Forall_app. split.
    + apply hexString_filter.
    + apply Forall_forall. intros c Hc. apply repeat_spec in Hc. now subst c.
Qed.

Lemma normalizeBlockHex_fixed (hex : jstring) :
  length hex = 16%nat -> lowerHexString hex -> normalizeBlockHex hex = hex.
Proof.
  intros Hlen Hhex. unfold normalizeBlockHex.
  rewrite (filter_hexString hex (lowerHexString_hexString hex Hhex)).
  fold (keyWindow hex). rewrite (keyWindow_fixed hex Hlen).
  now apply toLowerCase_lowerHex.
Qed.

Lemma normalizeBlockHex_idem (hex : jstring) :
  normalizeBlockHex (normalizeBlockHex hex) = normalizeBlockHex hex.
Proof.
  destruct (normalizeBlockHex_shape hex) as [H1 H2]. now apply normalizeBlockHex_fixed.
Qed.

Lemma filter_toLowerCase (hex : jstring) :
  filter isHexDigit (toLowerCase hex) = toLowerCase (filter isHexDigit hex).
Proof.
  induction hex as [|c s IH]; [reflexivity|].
  cbn [toLowerCase map filter]. rewrite isHexDigit_lowerChar.
  destruct (isHexDigit c); cbn [map]; unfold toLowerCase in IH; now rewrite IH.
Qed.

Lemma toLowerCase_idem (s : jstring) : toLowerCase (toLowerCase s) = toLowerCase s.
Proof.
  unfold toLowerCase. rewrite map_map. apply map_ext.
  intros c. each_ascii c; reflexivity.
Qed.

(** X16.  [normalizeBlockHex] returns sixteen lower-case hexadecimal
    digits and is idempotent; its fixed points are exactly those strings.
    It ignores case and every character that is not a hexadecimal digit,
    ignores what follows the sixteenth digit, and pads fewer digits with
    '0' on the right. *)
Theorem normalizeBlockHex_canonical (hex : jstring) :
  length (normalizeBlockHex hex) = 16%nat /\
  lowerHexString (normalizeBlockHex hex) /\
  normalizeBlockHex (normalizeBlockHex hex) = normalizeBlockHex hex /\
  (normalizeBlockHex hex = hex <-> length hex = 16%nat /\ lowerHexString hex) /\
  normalizeBlockHex (filter isHexDigit hex) = normalizeBlockHex hex /\
  normalizeBlockHex (toLowerCase hex) = normalizeBlockHex hex /\
  (forall junk rest, Forall (fun c => isHexDigit c = false) junk ->
     normalizeBlockHex (junk ++ rest) = normalizeBlockHex rest) /\
  (forall tail, (16 <= length (filter isHexDigit hex))%nat ->
     normalizeBlockHex (hex ++ tail) = normalizeBlockHex hex) /\
  ((length (filter isHexDigit hex) <= 16)%nat ->
   normalizeBlockHex hex
     = toLowerCase (filter isHexDigit hex)
       ++ repeat "0"%char (16 - length (filter isHexDigit hex))).
Proof.
  destruct (normalizeBlockHex_shape hex) as [Hlen Hhex].
  split; [exact Hlen|]. split; [exact Hhex|]. split; [apply normalizeBlockHex_idem|].
  split.
  { split.
    - intros E. rewrite <- E. now split.
    - intros [H1 H2]. now apply normalizeBlockHex_fixed. }
  split.
  { unfold normalizeBlockHex. now rewrite (filter_hexString _ (hexString_filter hex)). }
  split.
  { unfold normalizeBlockHex. rewrite filter_toLowerCase.
    unfold padEnd, toLowerCase. rewrite !slice_0, length_map.
    rewrite <- !firstn_map, !map_app, map_map.
    f_equal. f_equal. apply map_ext. intros c. each_ascii c; reflexivity. }
  split.
  { intros junk rest Hjunk. unfold normalizeBlockHex. rewrite filter_app.
    assert (E : filter isHexDigit junk = []).
    { induction Hjunk as [|c s Hc _ IH]; [reflexivity|]. cbn [filter]. now rewrite Hc. }
    now rewrite E. }
  split.
  { intros tail Hlong. unfold normalizeBlockHex, padEnd. rewrite filter_app, !slice_0.
    rewrite length_app.
    replace (16 - (length (filter isHexDigit hex) + length (filter isHexDigit tail)))%nat
      with 0%nat by lia.
    replace (16 - length (filter isHexDigit hex))%nat with 0%nat by lia.
    cbn [repeat]. rewrite !app_nil_r. f_equal.
    rewrite firstn_app. replace (16 - length (filter isHexDigit hex))%nat with 0%nat by lia.
    cbn [firstn]. now rewrite app_nil_r. }
  intros Hshort. unfold normalizeBlockHex, padEnd. rewrite slice_0.
  rewrite firstn_all2 by (rewrite length_app, repeat_length; lia).
  unfold toLowerCase. rewrite map_app. f_equal.
  rewrite map_repeat. reflexivity.
Qed.

Lemma normalizeBlockHex_canonical_witness :
  length (normalizeBlockHex (str "1a:2B")) = 16%nat /\
  normalizeBlockHex (str "1a:2B")
    = toLowerCase (filter isHexDigit (str "1a:2B"))
      ++ repeat "0"%char (16 - length (filter isHexDigit (str "1a:2B"))).
Proof.
  destruct (normalizeBlockHex_canonical (str "1a:2B")) as [H1 [_ [_ [_ [_ [_ [_ [_ H9]]]]]]]].
  split; [exact H1|]. apply H9. vm_compute. lia.
Defined.

(** The key-schedule loop of the diagnostic module is the loop of
    [generate_subkeys] without its records. *)
Lemma subkey_loop (sched : list nat) :
  forall i s,
    forEachFrom subkey_step i sched (st_c s, st_d s, st_subKeys s)
      = (st_c (forEachFrom ks_step i sched s), st_d (forEachFrom ks_step i sched s),
         st_subKeys (forEachFrom ks_step i sched s)).
Proof.
  induction sched as [|sh sched IH]; intros i s; [reflexivity|].
  cbn [forEachFrom]. rewrite <- IH. reflexivity.
Qed.

Lemma generateSubkeys_agree (keyHex : jstring) :
  generateSubkeysWithSchedule keyHex None = snd (generate_subkeys (normalizeBlockHex keyHex)).
Proof.
  destruct (normalizeBlockHex_shape keyHex) as [Hlen _].
  unfold generateSubkeysWithSchedule, generate_subkeys. cbv zeta.
  fold (keyWindow (normalizeBlockHex keyHex)).
  rewrite (keyWindow_fixed _ Hlen). unfold forEach. cbn [snd].
  match goal with
  | |- context [forEachFrom ks_step 0 ?sch ?s0] =>
      pose proof (subkey_loop sch 0%nat s0) as H
  end.
  cbn [st_c st_d st_subKeys] in H. unfold permuteBits. unfold permute in H.
  rewrite H. reflexivity.
Qed.

Lemma variant_loop (options : VariantOptions) (sequence : list jstring) :
  swapAfterRound options = None ->
  forall i lr, forEachFrom (variant_step options) i sequence lr = fold_left feistel sequence lr.
Proof.
  intros Hswap. induction sequence as [|k ks IH]; intros i lr; [reflexivity|].
  cbn [forEachFrom fold_left]. rewrite IH. f_equal.
  unfold variant_step, feistel. rewrite Hswap. reflexivity.
Qed.

Lemma subkeys_16 (keyHex : jstring) : length (snd (generate_subkeys keyHex)) = 16%nat.
Proof.
  destruct (generate_subkeys_shape keyHex) as [H1 [_ [H3 _]]]. cbv zeta in H1, H3.
  rewrite H3, length_map, <- (length_map ks_round), H1. reflexivity.
Qed.

Lemma runVariant_plain (inputHex keyHex : jstring) (order : option KeyOrder)
  (limit : option nat) :
  runVariant inputHex keyHex (plainOptions order limit)
  = core_output (hexToBits (normalizeBlockHex inputHex) 64)
      (firstn (match limit with Some n => n | None => 16%nat end)
         (match order with
          | Some reversed => rev (snd (generate_subkeys (normalizeBlockHex keyHex)))
          | _ => snd (generate_subkeys (normalizeBlockHex keyHex))
          end)).
Proof.
  unfold runVariant, core_output, plainOptions.
  cbn [skipIP skipFP skipFinalSwap swapAfterRound roundLimit keyOrder shiftSchedule].
  cbv zeta. rewrite generateSubkeys_agree. unfold forEach.
  rewrite variant_loop by reflexivity.
  set (seq := match order with
              | Some reversed => rev (snd (generate_subkeys (normalizeBlockHex keyHex)))
              | _ => snd (generate_subkeys (normalizeBlockHex keyHex))
              end).
  assert (Hseq : length seq = 16%nat).
  { unfold seq. destruct order as [[|]|]; rewrite ?length_rev; apply subkeys_16. }
  rewrite Hseq.
  assert (Hfirst : forall n, firstn (Nat.min 16 n) seq = firstn n seq).
  { intros n. destruct (Nat.le_ge_cases n 16) as [Hn|Hn].
    - now rewrite Nat.min_r.
    - rewrite Nat.min_l by exact Hn. rewrite !firstn_all2 by lia. reflexivity. }
  rewrite Hfirst. reflexivity.
Qed.

Lemma firstn_subkeys (keyHex : jstring) :
  firstn 16 (snd (generate_subkeys keyHex)) = snd (generate_subkeys keyHex) /\
  firstn 16 (rev (snd (generate_subkeys keyHex))) = rev (snd (generate_subkeys keyHex)).
Proof.
  split; apply firstn_all2; rewrite ?length_rev, subkeys_16; lia.
Qed.

(** X17.  The grader's own cipher agrees with the library: its key
    schedule is that of [generate_subkeys] on the normalised key; a
    variant that only limits the rounds or reverses the key order is the
    cipher skeleton over that many subkeys; with no option it returns
    what [des_encrypt] returns and with the subkeys reversed what
    [des_decrypt] returns. *)
Theorem runVariant_reference (inputHex keyHex : jstring) (order : option KeyOrder)
  (limit : option nat) :
  let block := normalizeBlockHex inputHex in
  let key := normalizeBlockHex keyHex in
  let subKeys := snd (generate_subkeys key) in
  let sequence := match order with Some reversed => rev subKeys | _ => subKeys end in
  generateSubkeysWithSchedule keyHex None = subKeys /\
  runVariant inputHex keyHex (plainOptions order limit)
    = core_output (hexToBits block 64)
        (firstn (match limit with Some n => n | None => 16%nat end) sequence) /\
  runVariant inputHex keyHex (plainOptions None None) = outputHex (des_encrypt block key) /\
  runVariant inputHex keyHex (plainOptions (Some normal) None)
    = outputHex (des_encrypt block key) /\
  runVariant inputHex keyHex (plainOptions (Some reversed) None)
    = outputHex (des_decrypt block key).
Proof.
  cbv zeta.
  split; [apply generateSubkeys_agree|]. split; [apply runVariant_plain|].
  destruct (firstn_subkeys (normalizeBlockHex keyHex)) as [H1 H2].
  unfold des_encrypt, des_decrypt.
  rewrite !runVariant_plain, !runCore_output, H1, H2.
  repeat split.
Qed.

Lemma runVariant_normalized (p k : jstring) (o : VariantOptions) :
  runVariant (normalizeBlockHex p) (normalizeBlockHex k) o = runVariant p k o.
Proof.
  unfold runVariant, generateSubkeysWithSchedule. now rewrite !normalizeBlockHex_idem.
Qed.

Lemma scanPatterns_some (p k student expected : jstring) (ps : list Pattern)
  (r : DiagnosisResult) :
  scanPatterns p k student expected ps = Some r ->
  exists earlier pat later,
    ps = earlier ++ pat :: later /\ r = matchResult pat expected student /\
    runVariant p k (options pat) = student /\
    Forall (fun q => runVariant p k (options q) <> student) earlier.
Proof.
  induction ps as [|q ps IH]; [discriminate|].
  cbn [scanPatterns]. cbv zeta.
  destruct (strEq (runVariant p k (options q)) student) eqn:E.
  - intros H. injection H as <-. exists [], q, ps. apply strEq_eq in E.
    repeat split; [exact E|constructor].
  - intros H. destruct (IH H) as [earlier [pat [later [H1 [H2 [H3 H4]]]]]].
    exists (q :: earlier), pat, later. rewrite H1. repeat split; try assumption.
    constructor; [|exact H4]. intros C. apply strEq_eq in C. congruence.
Qed.

Lemma pattern_credit (q : Pattern) :
  In q patterns ->
  (0 < mathMin 1 (mathMax 0 (credit q)))%Q /\ (mathMin 1 (mathMax 0 (credit q)) < 1)%Q /\
  code q <> str "correct".
Proof.
  unfold patterns. cbn [In]. intros H.
  repeat (destruct H as [<- | H];
          [split; [reflexivity|split; [reflexivity|discriminate]]|]).
  contradiction.
Qed.

(** X18.  For every input, normalised or not: the diagnosis is that of
    the normalised input; it reports the normalised submission and the
    correct ciphertext; the score lies between 0 and 1, is 1 exactly when
    the submission is correct and 0 exactly when no pattern is matched; a
    matched pattern is the first of the catalog whose variant gives the
    submission, reported with its label, description and credit. *)
Theorem diagnose_any_input (input : DiagnoseInput) :
  let plaintextHex := normalizeBlockHex (in_plaintextHex input) in
  let keyHex := normalizeBlockHex (in_keyHex input) in
  let student := normalizeBlockHex (in_studentOutputHex input) in
  let r := diagnoseDESSubmission input in
  r = diagnoseDESSubmission (diagnoseInput plaintextHex keyHex student) /\
  studentOutput r = student /\
  expectedOutput r = outputHex (des_encrypt plaintextHex keyHex) /\
  (0 <= score r <= 1)%Q /\
  (student = expectedOutput r <->
     matchedPattern r = Some (str "correct") /\ score r = 1%Q /\ tags r = [str "correct"]) /\
  (score r == 1 <-> student = expectedOutput r)%Q /\
  (score r == 0 <-> matchedPattern r = None)%Q /\
  (forall c, matchedPattern r = Some c -> c <> str "correct" ->
     exists earlier pat later,
       patterns = earlier ++ pat :: later /\ c = code pat /\
       runVariant (in_plaintextHex input) (in_keyHex input) (options pat) = student /\
       Forall (fun q => runVariant (in_plaintextHex input) (in_keyHex input) (options q)
                        <> student) earlier /\
       tags r = [str "incorrect"; c] /\ variantMatched r = Some (label pat) /\
       message r = description pat /\ (score r == credit pat)%Q).
Proof.
  cbv zeta. split.
  { unfold diagnoseDESSubmission, diagnoseInput.
    cbn [in_plaintextHex in_keyHex in_studentOutputHex].
    now rewrite !normalizeBlockHex_idem. }
  unfold diagnoseDESSubmission. cbv zeta.
  set (p := normalizeBlockHex (in_plaintextHex input)).
  set (k := normalizeBlockHex (in_keyHex input)).
  set (s := normalizeBlockHex (in_studentOutputHex input)).
  set (e := outputHex (des_encrypt p k)).
  destruct (strEq s e) eqn:Eq.
  - apply strEq_eq in Eq.
    cbn [studentOutput expectedOutput score matchedPattern tags variantMatched message].
    split; [reflexivity|]. split; [reflexivity|].
    split; [split; discriminate|]. split; [tauto|]. split; [split; [tauto|reflexivity]|].
    split; [split; discriminate|]. intros c Hc C. exfalso. apply C. injection Hc as Hc. now symmetry.
  - assert (Hne : s <> e) by (intros C; apply strEq_eq in C; congruence).
    destruct (scanPatterns p k s e patterns) as [r|] eqn:Escan.
    + destruct (scanPatterns_some p k s e patterns r Escan)
        as [earlier [pat [later [H1 [H2 [H3 H4]]]]]].
      assert (Hin : In pat patterns) by (rewrite H1; apply in_elt).
      destruct (pattern_credit pat Hin) as [C1 [C2 C3]].
      subst r. unfold matchResult.
      cbn [studentOutput expectedOutput score matchedPattern tags variantMatched message].
      split; [reflexivity|]. split; [reflexivity|].
      split; [split; apply Qlt_le_weak; assumption|].
      split; [split; [contradiction|intros [C _]; exfalso; apply C3; now injection C]|].
      split; [split; [intros C; rewrite C in C2; discriminate C2|contradiction]|].
      split; [split; [intros C; rewrite C in C1; discriminate C1|discriminate]|].
      intros c [= <-] _. exists earlier, pat, later.
      split; [exact H1|]. split; [reflexivity|].
      unfold p, k in H3, H4. rewrite runVariant_normalized in H3.
      split; [exact H3|]. split.
      { eapply Forall_impl; [|exact H4]. intros q Hq. cbv beta in Hq.
        now rewrite runVariant_normalized in Hq. }
      split; [reflexivity|]. split; [reflexivity|]. split; [reflexivity|].
      rewrite (credit_clamped pat Hin). reflexivity.
    + cbn [studentOutput expectedOutput score matchedPattern tags variantMatched message].
      split; [reflexivity|]. split; [reflexivity|].
      split; [split; discriminate|]. split; [split; [contradiction|intros [C _]; discriminate C]|].
      split; [split; [discriminate|contradiction]|].
      split; [split; reflexivity|]. intros c C. discriminate C.
Qed.

Lemma reversedSchedules_eq (keyA keyB : jstring) :
  reversedSchedules keyA keyB = true ->
  snd (generate_subkeys keyB) = rev (snd (generate_subkeys keyA)).
Proof.
  unfold reversedSchedules. intros H.
  assert (Hlen : length (snd (generate_subkeys keyB))
                 = length (rev (snd (generate_subkeys keyA))))
    by (now rewrite length_rev, !subkeys_16).
  revert H Hlen.
  generalize (snd (generate_subkeys keyB)) as a, (rev (snd (generate_subkeys keyA))) as b.
  induction a as [|x a IH]; intros [|y b] H Hlen; try discriminate Hlen; [reflexivity|].
  cbn [combine forallb fst snd] in H. apply andb_true_iff in H as [Hxy H].
  apply strEq_eq in Hxy. subst y. f_equal. apply IH; [exact H|now injection Hlen].
Qed.

Lemma pattern_by_code (q : Pattern) :
  In q patterns -> code q = str "reversed-subkeys" ->
  options q = plainOptions (Some reversed) None.
Proof.
  unfold patterns. cbn [In]. intros H.
  repeat (destruct H as [<- | H]; [cbn [code]; intros E; try discriminate E; reflexivity|]).
  contradiction.
Qed.

(** X19.  When the key schedule of one key is that of another read
    backwards (a weak key, or a semi-weak pair), encrypting with the one
    is decrypting with the other, so encrypting twice gives the block
    back; and for a weak key the grader never reports 'reversed-subkeys',
    since that variant gives the correct ciphertext. *)
Theorem reversed_schedule_inverts (keyA keyB : jstring) :
  reversedSchedules keyA keyB = true ->
  (forall input,
     outputHex (des_encrypt input keyB) = outputHex (des_decrypt input keyA) /\
     outputHex (des_decrypt input keyB) = outputHex (des_encrypt input keyA)) /\
  (forall block, length block = 16%nat -> hexString block ->
     outputHex (des_encrypt (outputHex (des_encrypt block keyA)) keyB) = toLowerCase block) /\
  (keyA = keyB -> normalizeBlockHex keyA = keyA ->
   forall plaintextHex studentOutputHex,
     matchedPattern (diagnoseDESSubmission
                       (diagnoseInput plaintextHex keyA studentOutputHex))
     <> Some (str "reversed-subkeys")).
Proof.
  intros Hrev. apply reversedSchedules_eq in Hrev.
  assert (Hswap : forall input,
            outputHex (des_encrypt input keyB) = outputHex (des_decrypt input keyA) /\
            outputHex (des_decrypt input keyB) = outputHex (des_encrypt input keyA)).
  { intros input. unfold des_encrypt, des_decrypt. rewrite !runCore_output, Hrev.
    rewrite rev_involutive. split; reflexivity. }
  split; [exact Hswap|]. split.
  - intros block Hlen Hhex. rewrite (proj1 (Hswap _)).
    exact (cipher_round_trip_any_case block keyA Hlen Hhex).
  - intros -> Hnorm p s.
    unfold diagnoseDESSubmission, diagnoseInput.
    cbn [in_plaintextHex in_keyHex in_studentOutputHex]. cbv zeta. rewrite Hnorm.
    destruct (strEq _ _) eqn:Eq; [cbn [matchedPattern]; discriminate|].
    destruct (scanPatterns _ _ _ _ patterns) as [r|] eqn:Escan;
      [|cbn [matchedPattern]; discriminate].
    destruct (scanPatterns_some _ _ _ _ _ _ Escan)
      as [earlier [pat [later [H1 [H2 [H3 _]]]]]].
    subst r. cbn [matchResult matchedPattern]. intros [= Hcode].
    assert (Hin : In pat patterns) by (rewrite H1; apply in_elt).
    rewrite (pattern_by_code pat Hin Hcode), runVariant_plain in H3.
    rewrite normalizeBlockHex_idem, Hnorm in H3.
    destruct (firstn_subkeys keyB) as [_ F2]. rewrite F2 in H3.
    pose proof (runCore_output (normalizeBlockHex p) keyB decrypt) as Hd.
    cbv iota in Hd. rewrite <- Hd in H3. fold (des_decrypt (normalizeBlockHex p) keyB) in H3.
    rewrite (proj2 (Hswap _)) in H3.
    assert (C : strEq (normalizeBlockHex s) (outputHex (des_encrypt (normalizeBlockHex p) keyB))
                = true) by (apply strEq_eq; now symmetry).
    congruence.
Qed.

Lemma reversed_schedule_inverts_witness :
  reversedSchedules (str "01fe01fe01fe01fe") (str "fe01fe01fe01fe01") = true /\
  length (str "0123456789abcdef") = 16%nat /\ hexString (str "0123456789abcdef") /\
  outputHex (des_encrypt (outputHex (des_encrypt (str "0123456789abcdef")
                                       (str "01fe01fe01fe01fe")))
               (str "fe01fe01fe01fe01")) = toLowerCase (str "0123456789abcdef").
Proof.
  assert (H1 : reversedSchedules (str "01fe01fe01fe01fe") (str "fe01fe01fe01fe01") = true)
    by (vm_compute; reflexivity).
  assert (H2 : hexString (str "0123456789abcdef")) by (apply hexString_dec; reflexivity).
  split; [exact H1|]. split; [reflexivity|]. split; [exact H2|].
  exact (proj1 (proj2 (reversed_schedule_inverts _ _ H1)) (str "0123456789abcdef") eq_refl H2).
Defined.

Lemma countDiff_from (b : Bits) :
  forall a i acc,
    forEachFrom (fun diff bit idx =>
                   match nth_error b idx with
                   | Some other => if bit =? other then diff else diff + 1
                   | None => diff + 1
                   end) i a acc
    = acc + hamming a (skipn i b).
Proof.
  induction a as [|x a IH]; intros i acc; [cbn; lia|].
  cbn [forEachFrom]. rewrite IH.
  destruct (nth_error b i) as [y|] eqn:E.
  - destruct (nth_error_split b i E) as [l1 [l2 [Hb Hl]]]. subst b i.
    rewrite !skipn_app, Nat.sub_diag, skipn_all.
    replace (S (length l1) - length l1)%nat with 1%nat by lia.
    rewrite skipn_all2 by lia. cbn [skipn app hamming].
    destruct (x =? y); lia.
  - apply nth_error_None in E. rewrite !skipn_all2 by lia. cbn [hamming]. lia.
Qed.

Lemma countDiff_hamming (a b : Bits) : countDiff a b = hamming a b.
Proof. unfold countDiff, forEach. rewrite countDiff_from. cbn [skipn]. lia. Qed.

Lemma hamming_bounds (a : Bits) : forall b, 0 <= hamming a b <= Z.of_nat (length a).
Proof.
  induction a as [|x a IH]; intros b; [cbn; lia|].
  destruct b as [|y b]; cbn [hamming length].
  - specialize (IH []). lia.
  - specialize (IH b). destruct (x =? y); lia.
Qed.

Lemma hamming_zero (a : Bits) :
  forall b, length a = length b -> (hamming a b = 0 <-> a = b).
Proof.
  induction a as [|x a IH]; intros [|y b] Hlen; try discriminate Hlen.
  - split; reflexivity.
  - cbn [hamming]. injection Hlen as Hlen. specialize (IH b Hlen).
    pose proof (hamming_bounds a b) as Hb.
    destruct (Z.eqb_spec x y) as [->|Hxy].
    + split; [intros H; f_equal; apply IH; lia|].
      intros E. injection E as E. apply IH in E. lia.
    + split; [lia|intros [= Hx _]; congruence].
Qed.

Lemma hamming_sym (a : Bits) :
  forall b, length a = length b -> hamming a b = hamming b a.
Proof.
  induction a as [|x a IH]; intros [|y b] Hlen; try discriminate Hlen; [reflexivity|].
  cbn [hamming]. injection Hlen as Hlen. rewrite (IH b Hlen), (Z.eqb_sym x y). reflexivity.
Qed.

Lemma mapiFrom_app {A B : Type} (f : A -> nat -> B) (a b : list A) :
  forall i, mapiFrom f i (a ++ b) = mapiFrom f i a ++ mapiFrom f (i + length a) b.
Proof.
  induction a as [|x a IH]; intros i.
  - cbn. now rewrite Nat.add_0_r.
  - cbn [app mapiFrom length]. rewrite IH.
    replace (S i + length a)%nat with (i + S (length a))%nat by lia. reflexivity.
Qed.

Lemma firstn_S_nth {A : Type} (l : list A) (n : nat) :
  firstn (S n) l = firstn n l ++ match nth_error l n with Some z => [z] | None => [] end.
Proof.
  revert l. induction n as [|n IH]; intros [|x l]; try reflexivity.
  cbn [firstn nth_error app]. now rewrite <- IH.
Qed.

Lemma nth_error_combine {A B : Type} (a : list A) (b : list B) (n : nat) :
  nth_error (combine a b) n
  = match nth_error a n, nth_error b n with
    | Some x, Some y => Some (x, y)
    | _, _ => None
    end.
Proof.
  revert a b. induction n as [|n IH]; intros [|x a] [|y b]; try reflexivity.
  - cbn. now destruct (nth_error a n).
  - cbn [combine nth_error]. apply IH.
Qed.

(** The comparison loop in closed form. *)
Lemma avalanche_loop (base mutated : list RoundInfo) (n : nat) :
  forEachFrom (avalanche_step base mutated) 0 (seq 0 n) []
  = mapi (fun p i => roundDiff i (fst p) (snd p)) (firstn n (combine base mutated)).
Proof.
  induction n as [|n IH]; [reflexivity|].
  rewrite seq_S, forEachFrom_app, IH, firstn_S_nth, nth_error_combine.
  cbn [Nat.add forEachFrom]. unfold avalanche_step, mapi.
  rewrite mapiFrom_app.
  destruct (nth_error base n) as [x|] eqn:Ex; [|now rewrite app_nil_r].
  destruct (nth_error mutated n) as [y|] eqn:Ey; [|now rewrite app_nil_r].
  assert (Hn : length (firstn n (combine base mutated)) = n).
  { apply firstn_length_le. rewrite length_combine.
    assert (n < length base)%nat by (apply nth_error_Some; congruence).
    assert (n < length mutated)%nat by (apply nth_error_Some; congruence). lia. }
  rewrite Hn. cbn [mapiFrom Nat.add fst snd]. unfold roundDiff.
  rewrite countDiff_hamming. reflexivity.
Qed.

Lemma mapiFrom_nth {A B : Type} (f : A -> nat -> B) (a : list A) :
  forall i n, nth_error (mapiFrom f i a) n
              = match nth_error a n with Some x => Some (f x (i + n)%nat) | None => None end.
Proof.
  induction a as [|x a IH]; intros i [|n]; try reflexivity.
  - cbn. now rewrite Nat.add_0_r.
  - cbn [mapiFrom nth_error]. rewrite IH. destruct (nth_error a n); [|reflexivity].
    do 2 f_equal. lia.
Qed.

Lemma ad_round_mapiFrom (l : list (RoundInfo * RoundInfo)) :
  forall i, map ad_round (mapiFrom (fun p i => roundDiff i (fst p) (snd p)) i l)
            = seq (i + 1) (length l).
Proof.
  induction l as [|p l IH]; intros i; [reflexivity|].
  cbn [mapiFrom map length seq roundDiff ad_round]. rewrite IH.
  replace (S i + 1)%nat with (S (i + 1)) by lia. reflexivity.
Qed.

Lemma Forall_mapiFrom {A B : Type} (P : B -> Prop) (f : A -> nat -> B) (l : list A) :
  (forall x i, In x l -> P (f x i)) -> forall i, Forall P (mapiFrom f i l).
Proof.
  induction l as [|x l IH]; intros H i; [constructor|].
  cbn [mapiFrom]. constructor; [apply H; now left|].
  apply IH. intros y j Hy. apply H. now right.
Qed.

Lemma hexToBits_64 (hex : jstring) : length (hexToBits hex 64) = 64%nat.
Proof. apply (hexToBits_length hex 16). Qed.

Lemma toFixed2_percent (d : Z) :
  0 <= d <= 64 -> (0 <= toFixed2 (d * 100) 64 <= 100)%Q.
Proof.
  intros Hd. unfold toFixed2, Qle. cbn [Qnum Qden].
  assert (H : 0 <= (2 * 100 * (d * 100) + 64) / (2 * 64) <= 10000).
  { split; [apply Z.div_pos; lia|].
    assert ((2 * 100 * (d * 100) + 64) / (2 * 64) < 10001)
      by (apply Z.div_lt_upper_bound; lia).
    lia. }
  lia.
Qed.

Lemma differingBits_swap (l : list (RoundInfo * RoundInfo)) :
  forall i,
    map differingBits
      (mapiFrom (fun p i => roundDiff i (fst p) (snd p)) i (map (fun p => (snd p, fst p)) l))
    = map differingBits (mapiFrom (fun p i => roundDiff i (fst p) (snd p)) i l).
Proof.
  induction l as [|p l IH]; intros i; [reflexivity|].
  cbn [map mapiFrom roundDiff differingBits fst snd]. rewrite IH. f_equal.
  apply hamming_sym. now rewrite !hexToBits_64.
Qed.

Lemma combine_swap {A B : Type} (a : list A) (b : list B) :
  combine b a = map (fun p => (snd p, fst p)) (combine a b).
Proof.
  revert b. induction a as [|x a IH]; intros [|y b]; try reflexivity.
  cbn [combine map fst snd]. now rewrite IH.
Qed.

Lemma In_firstn {A : Type} (n : nat) (l : list A) (x : A) :
  In x (firstn n l) -> In x l.
Proof. intros H. rewrite <- (firstn_skipn n l). apply in_or_app. now left. Qed.

Lemma In_combine_same {A : Type} (a : list A) (p : A * A) :
  In p (combine a a) -> fst p = snd p.
Proof.
  induction a as [|x a IH]; [contradiction|].
  cbn [combine In]. intros [<- | H]; [reflexivity|now apply IH].
Qed.

(** X20.  [compareRoundsForAvalanche] makes one entry per index
    below 16 at which both traces have a round, numbered from 1; each
    entry counts the positions at which the 64 bits of the two round
    outputs differ, between 0 and 64, with the percentage of 64 rounded
    to hundredths; the counts do not depend on the order of the two
    traces and are 0 for a trace compared with itself. *)
Theorem compareRoundsForAvalanche_spec (base mutated : list RoundInfo) :
  compareRoundsForAvalanche base mutated
    = mapi (fun p i => roundDiff i (fst p) (snd p)) (firstn 16 (combine base mutated)) /\
  length (compareRoundsForAvalanche base mutated)
    = Nat.min 16 (Nat.min (length base) (length mutated)) /\
  map ad_round (compareRoundsForAvalanche base mutated)
    = seq 1 (length (compareRoundsForAvalanche base mutated)) /\
  Forall (fun d => 0 <= differingBits d <= 64 /\
                   percentage d = toFixed2 (differingBits d * 100) 64 /\
                   (0 <= percentage d <= 100)%Q)
         (compareRoundsForAvalanche base mutated) /\
  map differingBits (compareRoundsForAvalanche mutated base)
    = map differingBits (compareRoundsForAvalanche base mutated) /\
  Forall (fun d => differingBits d = 0 /\ (percentage d == 0)%Q)
         (compareRoundsForAvalanche base base).
Proof.
  unfold compareRoundsForAvalanche, forEach. rewrite !avalanche_loop. unfold mapi.
  split; [reflexivity|].
  split; [now rewrite mapiFrom_length, length_firstn, length_combine|].
  split; [now rewrite ad_round_mapiFrom, mapiFrom_length|].
  split.
  { apply Forall_mapiFrom. intros p i _. cbn [roundDiff differingBits percentage].
    pose proof (hamming_bounds (hexToBits (ri_roundOutput (fst p)) 64)
                               (hexToBits (ri_roundOutput (snd p)) 64)) as H.
    rewrite hexToBits_64 in H.
    split; [lia|]. split; [reflexivity|]. apply toFixed2_percent. lia. }
  split.
  { rewrite (combine_swap base mutated), firstn_map. apply differingBits_swap. }
  apply Forall_mapiFrom. intros p i Hp. apply In_firstn in Hp.
  apply In_combine_same in Hp. cbn [roundDiff differingBits percentage]. rewrite Hp.
  assert (E : hamming (hexToBits (ri_roundOutput (snd p)) 64)
                      (hexToBits (ri_roundOutput (snd p)) 64) = 0)
    by (now apply hamming_zero).
  rewrite E. split; reflexivity.
Qed.

(** One round keeps two different states different. *)
Lemma core_step_distinct (s t : CoreState) (k : jstring) (i : nat) :
  bitlist (cs_left s) -> bitlist (cs_left t) ->
  (cs_left s, cs_right s) <> (cs_left t, cs_right t) ->
  (cs_left (core_step s k i), cs_right (core_step s k i))
    <> (cs_left (core_step t k i), cs_right (core_step t k i)).
Proof.
  intros Bs Bt Hne E. apply Hne.
  change (feistel (cs_left s, cs_right s) k = feistel (cs_left t, cs_right t) k) in E.
  pose proof (feistel_undo (cs_left s) (cs_right s) k Bs) as Hs.
  pose proof (feistel_undo (cs_left t) (cs_right t) k Bt) as Ht.
  rewrite E, Ht in Hs. congruence.
Qed.

Lemma distinct_rounds (sequence : list jstring) :
  forall i s t,
    length (cs_left s) = 32%nat -> length (cs_right s) = 32%nat ->
    bitlist (cs_left s) -> bitlist (cs_right s) ->
    length (cs_left t) = 32%nat -> length (cs_right t) = 32%nat ->
    bitlist (cs_left t) -> bitlist (cs_right t) ->
    (cs_left s, cs_right s) <> (cs_left t, cs_right t) ->
    exists ns nt,
      cs_roundData (forEachFrom core_step i sequence s) = cs_roundData s ++ ns /\
      cs_roundData (forEachFrom core_step i sequence t) = cs_roundData t ++ nt /\
      Forall2 (fun x y => hexToBits (ri_roundOutput x) 64 <> hexToBits (ri_roundOutput y) 64)
              ns nt /\
      length ns = length sequence.
Proof.
  induction sequence as [|k ks IH]; intros i s t Ls Rs BLs BRs Lt Rt BLt BRt Hne.
  - exists [], []. cbn [forEachFrom]. rewrite !app_nil_r. repeat split. constructor.
  - cbn [forEachFrom].
    destruct (core_step_linked s k i Ls Rs BLs BRs)
      as [Ls1 [Rs1 [BLs1 [BRs1 [x [Hx [_ [_ [_ [Hox _]]]]]]]]]].
    destruct (core_step_linked t k i Lt Rt BLt BRt)
      as [Lt1 [Rt1 [BLt1 [BRt1 [y [Hy [_ [_ [_ [Hoy _]]]]]]]]]].
    cbn zeta in *.
    pose proof (core_step_distinct s t k i BLs BLt Hne) as Hne1.
    destruct (IH (S i) _ _ Ls1 Rs1 BLs1 BRs1 Lt1 Rt1 BLt1 BRt1 Hne1)
      as [ns [nt [Hs [Ht [Hall Hlen]]]]].
    exists (x :: ns), (y :: nt). rewrite Hs, Ht, Hx, Hy, <- !app_assoc.
    split; [reflexivity|]. split; [reflexivity|]. split; [|cbn [length]; now rewrite Hlen].
    constructor; [|exact Hall].
    rewrite Hox, Hoy.
    assert (H64 : forall l r : Bits, length l = 32%nat -> length r = 32%nat ->
                    bitlist l -> bitlist r -> hexToBits (bitsToHex (l ++ r)) 64 = l ++ r).
    { intros l r Hl Hr Bl Br. apply (hexToBits_bitsToHex 16).
      - rewrite length_app. lia.
      - now apply bitlist_app. }
    rewrite !H64 by assumption.
    intros E. apply Hne1.
    assert (E1 : cs_left (core_step s k i) = cs_left (core_step t k i)).
    { apply (f_equal (firstn 32)) in E.
      rewrite !firstn_app, Ls1, Lt1, Nat.sub_diag, !firstn_O, !app_nil_r in E.
      rewrite <- Ls1 in E at 1. rewrite firstn_all in E.
      rewrite <- Lt1 in E. now rewrite firstn_all in E. }
    rewrite E1 in E. apply app_inv_head in E. congruence.
Qed.

Lemma Forall2_combine {A B C : Type} (R : A -> B -> Prop) (P : C -> Prop)
  (f : A * B -> nat -> C) (xs : list A) (ys : list B) (n : nat) :
  Forall2 R xs ys -> (forall x y i, R x y -> P (f (x, y) i)) ->
  forall i, Forall P (mapiFrom f i (firstn n (combine xs ys))).
Proof.
  intros H Hf. revert n. induction H as [|x y xs ys Hxy _ IH]; intros n i.
  - destruct n; constructor.
  - destruct n as [|n]; [constructor|]. cbn [combine firstn mapiFrom].
    constructor; [now apply Hf|apply IH].
Qed.

(** X21.  A difference between two inputs never vanishes: for one key
    and mode the comparison of the two round traces has sixteen entries,
    all 0 when the inputs are read as the same 64 bits and all at least 1
    when they are not. *)
Theorem avalanche_never_vanishes (a b keyHex : jstring) (m : Mode) :
  let diffs := compareRoundsForAvalanche (rounds (runCore a keyHex m))
                                         (rounds (runCore b keyHex m)) in
  length diffs = 16%nat /\
  (hexToBits a 64 = hexToBits b 64 -> Forall (fun d => differingBits d = 0) diffs) /\
  (hexToBits a 64 <> hexToBits b 64 -> Forall (fun d => 1 <= differingBits d <= 64) diffs).
Proof.
  cbv zeta.
  assert (H16 : forall x, length (rounds (runCore x keyHex m)) = 16%nat).
  { intros x. destruct (runCore_fields x keyHex m) as [_ [_ [H _]]]. rewrite H.
    destruct (generate_subkeys_shape keyHex) as [Hr [_ [Hs _]]]. cbv zeta in Hr, Hs.
    rewrite Hs, length_map, <- (length_map ks_round), Hr. reflexivity. }
  unfold compareRoundsForAvalanche, forEach. rewrite avalanche_loop. unfold mapi.
  split; [now rewrite mapiFrom_length, length_firstn, length_combine, !H16|].
  split.
  - intros E.
    assert (Hsame : rounds (runCore a keyHex m) = rounds (runCore b keyHex m)).
    { unfold runCore. rewrite E. destruct (generate_subkeys keyHex). reflexivity. }
    rewrite Hsame. apply Forall_mapiFrom. intros p i Hp. apply In_firstn in Hp.
    apply In_combine_same in Hp. cbn [roundDiff differingBits]. rewrite Hp.
    now apply hamming_zero.
  - intros Hne.
    assert (Hpair : Forall2 (fun x y => hexToBits (ri_roundOutput x) 64
                                        <> hexToBits (ri_roundOutput y) 64)
                      (rounds (runCore a keyHex m)) (rounds (runCore b keyHex m))).
    { unfold runCore. destruct (generate_subkeys keyHex) as [ks sks].
      cbn [rounds]. unfold forEach.
      set (q := match m with encrypt => sks | decrypt => rev sks end).
      set (ipa := initial_permutation (hexToBits a 64)).
      set (ipb := initial_permutation (hexToBits b 64)).
      assert (La : length ipa = 64%nat) by apply permute_length.
      assert (Lb : length ipb = 64%nat) by apply permute_length.
      assert (Ba : bitlist ipa) by (apply permute_bitlist, hexToBits_bitlist).
      assert (Bb : bitlist ipb) by (apply permute_bitlist, hexToBits_bitlist).
      destruct (halves_shape ipa La Ba) as [La1 [La2 [Ba1 [Ba2 Ha]]]].
      destruct (halves_shape ipb Lb Bb) as [Lb1 [Lb2 [Bb1 [Bb2 Hb]]]]. cbn zeta in *.
      destruct (distinct_rounds q 0
                  {| cs_left := slice ipa 0 32; cs_right := sliceFrom ipa 32; cs_roundData := [] |}
                  {| cs_left := slice ipb 0 32; cs_right := sliceFrom ipb 32; cs_roundData := [] |}
                  La1 La2 Ba1 Ba2 Lb1 Lb2 Bb1 Bb2) as [ns [nt [Hs [Ht [Hall _]]]]].
      { cbn [cs_left cs_right]. intros E. apply Hne.
        assert (Eip : ipa = ipb) by (rewrite <- Ha, <- Hb; congruence).
        apply (f_equal final_permutation) in Eip. unfold ipa, ipb in Eip.
        rewrite !FP_after_IP in Eip by (apply hexToBits_64 || apply hexToBits_bitlist).
        exact Eip. }
      cbn [cs_roundData app] in Hs, Ht. rewrite Hs, Ht. exact Hall. }
    apply (Forall2_combine _ _ _ _ _ _ Hpair). intros x y i Hxy.
    cbn [roundDiff differingBits fst snd].
    pose proof (hamming_bounds (hexToBits (ri_roundOutput x) 64)
                               (hexToBits (ri_roundOutput y) 64)) as Hb.
    rewrite hexToBits_64 in Hb.
    assert (hamming (hexToBits (ri_roundOutput x) 64) (hexToBits (ri_roundOutput y) 64) <> 0).
    { intros E. apply hamming_zero in E; [contradiction|now rewrite !hexToBits_64]. }
    lia.
Qed.

Lemma avalanche_never_vanishes_witness :
  hexToBits (str "0123456789abcdef") 64 <> hexToBits (str "0123456789abcdee") 64 /\
  Forall (fun d => 1 <= differingBits d <= 64)
    (compareRoundsForAvalanche
       (rounds (runCore (str "0123456789abcdef") (str "133457799bbcdff1") encrypt))
       (rounds (runCore (str "0123456789abcdee") (str "133457799bbcdff1") encrypt))).
Proof.
  assert (H : hexToBits (str "0123456789abcdef") 64 <> hexToBits (str "0123456789abcdee") 64)
    by (vm_compute; discriminate).
  split; [exact H|].
  exact (proj2 (proj2 (avalanche_never_vanishes (str "0123456789abcdef")
                         (str "0123456789abcdee") (str "133457799bbcdff1") encrypt)) H).
Defined.

Lemma two_bytes_value (n : Z) :
  0 <= n < 65536 ->
  Z.lor (Z.shiftl (Z.land (Z.shiftr n 8) 255) 8) (Z.land n 255) = n.
Proof.
  intros Hn. apply Z.bits_inj'. intros i Hi.
  rewrite Z.lor_spec.
  change 255 with (Z.ones 8).
  destruct (Z.ltb_spec i 8) as [Hlt|Hge].
  - rewrite Z.shiftl_spec_low by lia. rewrite Z.land_spec, Z.ones_spec_low by lia.
    cbn [orb]. now rewrite andb_true_r.
  - rewrite Z.shiftl_spec by lia. rewrite !Z.land_spec, Z.shiftr_spec by lia.
    rewrite (Z.ones_spec_high 8 i) by lia. rewrite andb_false_r, orb_false_r.
    replace (i - 8 + 8) with i by lia.
    destruct (Z.ltb_spec (i - 8) 8) as [Hl|Hg].
    + rewrite Z.ones_spec_low by lia. now rewrite andb_true_r.
    + rewrite Z.ones_spec_high by lia. rewrite andb_false_r. symmetry.
      apply (Z.bits_above_log2 n i); [lia|].
      destruct (Z.eq_dec n 0) as [->|Hnz]; [cbn; lia|].
      assert (Z.log2 n < 16) by (apply Z.log2_lt_pow2; lia). lia.
Qed.

Lemma two_bytes_mod (n : Z) :
  0 <= n ->
  Z.lor (Z.shiftl (Z.land (Z.shiftr n 8) 255) 8) (Z.land n 255) = n mod 65536.
Proof.
  intros Hn.
  assert (E1 : Z.land (Z.shiftr n 8) 255 = Z.land (Z.shiftr (n mod 65536) 8) 255).
  { change 255 with (Z.ones 8). rewrite !Z.land_ones, !Z.shiftr_div_pow2 by lia.
    change (2 ^ 8) with 256.
    rewrite (Z.div_mod n 65536) at 1 by lia.
    replace (65536 * (n / 65536) + n mod 65536)
      with (n mod 65536 + (256 * (n / 65536)) * 256) by lia.
    rewrite Z.div_add by lia. rewrite Z.add_mod by lia.
    rewrite (Z.mul_comm 256 (n / 65536)), Z.mod_mul by lia.
    rewrite Z.add_0_r, Z.mod_mod by lia. reflexivity. }
  assert (E2 : Z.land n 255 = Z.land (n mod 65536) 255).
  { change 255 with (Z.ones 8). rewrite !Z.land_ones by lia. change (2 ^ 8) with 256.
    rewrite (Z.div_mod n 65536) at 1 by lia.
    replace (65536 * (n / 65536) + n mod 65536)
      with (n mod 65536 + (256 * (n / 65536)) * 256) by lia.
    now rewrite Z.mod_add by lia. }
  rewrite E1, E2. apply two_bytes_value. apply Z.mod_pos_bound. lia.
Qed.

Lemma customIvBytes_shape (ivInput : jstring) :
  exists customIv,
    customIvBytes ivInput = Returned customIv /\
    (forall v, customIv = Some v -> byteBlock v /\ length v = 8%nat) /\
    (customIv <> None <-> length ivInput = 16%nat /\ hexString ivInput).
Proof.
  unfold customIvBytes.
  destruct (Nat.eqb_spec (length ivInput) 16) as [Hlen|Hlen].
  2: { rewrite andb_false_r. exists None. split; [reflexivity|].
       split; [discriminate|]. split; [congruence|tauto]. }
  destruct (forallb isHexDigit ivInput) eqn:Hhex.
  2: { rewrite andb_false_r. exists None. split; [reflexivity|].
       split; [discriminate|]. split; [congruence|].
       intros [_ H]. pose proof (proj1 (Forall_forall _ _) H) as H'.
       rewrite (proj2 (forallb_forall _ _) H') in Hhex.
       discriminate Hhex. }
  assert (Hs : hexString ivInput) by now apply hexString_dec.
  assert (Htrim : trim ivInput = ivInput)
    by (apply trim_id; eapply Forall_impl; [|exact Hs]; apply hexDigit_not_space).
  rewrite Htrim.
  destruct ivInput as [|c rest]; [discriminate Hlen|].
  cbn [strEq negb andb].
  unfold hexToBytes. rewrite Htrim, Hlen. cbn [Nat.modulo Nat.eqb].
  change ((16 mod 2 =? 0)%nat) with true. cbv iota.
  destruct (parsePairs_anyCase 8 (c :: rest) Hs Hlen) as [bs [H1 [H2 [H3 _]]]].
  rewrite H1. cbn [bind]. exists (Some bs). split; [reflexivity|].
  split; [intros v [= <-]; now split|]. split; [now split|discriminate].
Qed.

Section EnvelopeFacts.
Variable textToUtf8Bytes : jstring -> Bytes.
Variable utf8BytesToText : Bytes -> jstring.

Lemma unwrap_wrap (name : jstring) (data : Bytes) :
  let nameBytes := textToUtf8Bytes (orFile name) in
  let k := Z.to_nat (Z.of_nat (length nameBytes) mod 65536) in
  unwrapFileEnvelope utf8BytesToText (wrapFileEnvelope textToUtf8Bytes name data)
  = {| env_name := orDecrypted (utf8BytesToText (firstn k nameBytes));
       env_data := skipn k nameBytes ++ data |}.
Proof.
  cbv zeta. unfold wrapFileEnvelope, unwrapFileEnvelope. cbv zeta.
  set (nameBytes := textToUtf8Bytes (orFile name)).
  cbn [app length Nat.ltb Nat.leb].
  unfold at_. cbn [Z.ltb Z.compare Z.to_nat nth Pos.to_nat Pos.iter_op Nat.add].
  rewrite !two_bytes_mod by lia.
  set (k := Z.of_nat (length nameBytes) mod 65536).
  assert (Hk : 0 <= k <= Z.of_nat (length nameBytes)).
  { unfold k. split; [apply Z.mod_pos_bound; lia|apply Z.mod_le; lia]. }
  rewrite Z.min_r by (rewrite length_app; lia).
  replace (2 + k) with (Z.of_nat (2 + Z.to_nat k)) by lia.
  rewrite sliceFrom_nat, Nat2Z.id. unfold slice.
  replace (2 + Z.to_nat k - 2)%nat with (Z.to_nat k) by lia.
  cbn [skipn Nat.add].
  rewrite firstn_app. replace (Z.to_nat k - length nameBytes)%nat with 0%nat by lia.
  rewrite firstn_O, app_nil_r.
  rewrite skipn_app. replace (Z.to_nat k - length nameBytes)%nat with 0%nat by lia.
  reflexivity.
Qed.

Lemma unwrap_wrap_short (name : jstring) (data : Bytes) :
  utf8BytesToText (textToUtf8Bytes (orFile name)) = orFile name ->
  Z.of_nat (length (textToUtf8Bytes (orFile name))) < 65536 ->
  unwrapFileEnvelope utf8BytesToText (wrapFileEnvelope textToUtf8Bytes name data)
  = {| env_name := orFile name; env_data := data |}.
Proof.
  intros Hdec Hlen. pose proof (unwrap_wrap name data) as H. cbv zeta in H.
  rewrite H, Z.mod_small, Nat2Z.id by lia.
  rewrite firstn_all, skipn_all, Hdec. cbn [app].
  destruct name; reflexivity.
Qed.

Lemma wrapFileEnvelope_bytes (name : jstring) (data : Bytes) :
  byteBlock (textToUtf8Bytes (orFile name)) -> byteBlock data ->
  byteBlock (wrapFileEnvelope textToUtf8Bytes name data).
Proof.
  intros Hn Hd. unfold wrapFileEnvelope. cbv zeta. cbn [app].
  change 255 with (Z.ones 8).
  constructor; [rewrite Z.land_ones by lia; apply Z.mod_pos_bound; lia|].
  constructor; [rewrite Z.land_ones by lia; apply Z.mod_pos_bound; lia|].
  apply Forall_app. now split.
Qed.

End EnvelopeFacts.

(** X22.  The file envelope is two length bytes, the encoded name and
    the data.  Unwrapping what was wrapped gives the name and the data
    back when the encoded name is shorter than 65536 bytes; a longer name
    overflows the two length bytes and part of the name is returned as
    data.  Fewer than two bytes unwrap to 'decrypted.bin' and the
    bytes. *)
Theorem file_envelope_round_trip (textToUtf8Bytes : jstring -> Bytes)
  (utf8BytesToText : Bytes -> jstring) (name : jstring) (data : Bytes) :
  let nameBytes := textToUtf8Bytes (orFile name) in
  utf8BytesToText nameBytes = orFile name ->
  (Z.of_nat (length nameBytes) < 65536 ->
   unwrapFileEnvelope utf8BytesToText (wrapFileEnvelope textToUtf8Bytes name data)
   = {| env_name := orFile name; env_data := data |}) /\
  (65536 <= Z.of_nat (length nameBytes) ->
   (length (env_data (unwrapFileEnvelope utf8BytesToText
                        (wrapFileEnvelope textToUtf8Bytes name data)))
    > length data)%nat) /\
  length (wrapFileEnvelope textToUtf8Bytes name data)
    = (2 + length nameBytes + length data)%nat /\
  (byteBlock nameBytes -> byteBlock data ->
   byteBlock (wrapFileEnvelope textToUtf8Bytes name data)) /\
  (forall bytes, (length bytes < 2)%nat ->
   unwrapFileEnvelope utf8BytesToText bytes
   = {| env_name := str "decrypted.bin"; env_data := bytes |}).
Proof.
  cbv zeta. intros Hdec.
  pose proof (unwrap_wrap textToUtf8Bytes utf8BytesToText name data) as H. cbv zeta in H.
  split; [|split; [|split; [|split]]].
  - intros Hlen. now apply unwrap_wrap_short.
  - intros Hlen. rewrite H. cbn [env_data]. rewrite length_app, length_skipn.
    pose proof (Z.mod_pos_bound (Z.of_nat (length (textToUtf8Bytes (orFile name)))) 65536). lia.
  - unfold wrapFileEnvelope. cbv zeta. cbn [app length]. rewrite length_app. lia.
  - apply wrapFileEnvelope_bytes.
  - intros bytes Hlen. unfold unwrapFileEnvelope.
    destruct (Nat.ltb_spec (length bytes) 2); [reflexivity|lia].
Qed.

Lemma file_envelope_round_trip_witness :
  asciiText (asciiBytes (orFile (str "a.txt"))) = orFile (str "a.txt") /\
  Z.of_nat (length (asciiBytes (orFile (str "a.txt")))) < 65536 /\
  unwrapFileEnvelope asciiText (wrapFileEnvelope asciiBytes (str "a.txt") [1; 2; 3])
  = {| env_name := str "a.txt"; env_data := [1; 2; 3] |}.
Proof.
  assert (H1 : asciiText (asciiBytes (orFile (str "a.txt"))) = orFile (str "a.txt"))
    by reflexivity.
  assert (H2 : Z.of_nat (length (asciiBytes (orFile (str "a.txt")))) < 65536) by (cbn; lia).
  split; [exact H1|]. split; [exact H2|].
  exact (proj1 (file_envelope_round_trip asciiBytes asciiText (str "a.txt") [1; 2; 3] H1) H2).
Defined.

Section ChunkShape.
Context {A : Type}.

Lemma chunks_full (size : nat) :
  (0 < size)%nat ->
  forall n (a : list A), (length a <= n)%nat ->
    Forall (fun p => length p = size) (removelast (chunks size a)) /\
    ((length a mod size = 0)%nat -> Forall (fun p => length p = size) (chunks size a)).
Proof.
  intros Hs. induction n as [|n IH]; intros a Hlen.
  - destruct a; [|cbn in Hlen; lia]. cbn. split; [constructor|intros _; constructor].
  - destruct a as [|x a]; [cbn; split; [constructor|intros _; constructor]|].
    rewrite chunks_unfold by (assumption || discriminate).
    assert (Hrest : (length (skipn size (x :: a)) <= n)%nat).
    { rewrite length_skipn. cbn [length] in *. lia. }
    destruct (IH _ Hrest) as [H1 H2]. split.
    + destruct (chunks size (skipn size (x :: a))) as [|p ps] eqn:E; [constructor|].
      change (removelast (firstn size (x :: a) :: p :: ps))
        with (firstn size (x :: a) :: removelast (p :: ps)).
      constructor; [|exact H1].
      apply firstn_length_le.
      destruct (Nat.le_gt_cases size (length (x :: a))) as [Hle|Hgt]; [exact Hle|].
      rewrite skipn_all2 in E by lia. discriminate E.
    + intros Hmod.
      assert (Hge : (size <= length (x :: a))%nat).
      { apply Nat.Div0.div_exact in Hmod. cbn [length] in *.
        destruct (length (x :: a) / size)%nat eqn:Eq; cbn [length] in *; nia. }
      constructor; [now apply firstn_length_le|]. apply H2.
      rewrite length_skipn.
      apply Nat.Div0.div_exact in Hmod. apply Nat.Div0.div_exact.
      remember (length (x :: a)) as len. remember (len / size)%nat as q.
      assert (Hq : ((len - size) / size = q - 1)%nat).
      { replace (len - size)%nat with ((q - 1) * size)%nat by nia.
        apply Nat.div_mul. lia. }
      rewrite Hq. nia.
Qed.

End ChunkShape.

(** X24.  [chunkArray], [chunkBits] and [chunkBinaryToRows] cut their
    argument into consecutive pieces: concatenated they give the argument
    back, every piece but the last has exactly [size] elements and the
    last between 1 and [size], and there are ceil(length / size)
    pieces. *)
Theorem chunk_partition (size : nat) :
  (0 < size)%nat ->
  (forall (T : Type) (array : list T),
     concat (chunkArray array size) = array /\
     Forall (fun p => (1 <= length p <= size)%nat) (chunkArray array size) /\
     Forall (fun p => length p = size) (removelast (chunkArray array size)) /\
     length (chunkArray array size) = ((length array + size - 1) / size)%nat /\
     ((length array mod size = 0)%nat ->
      Forall (fun p => length p = size) (chunkArray array size))) /\
  (forall bits, chunkBits bits size = chunkArray bits size) /\
  (forall binary,
     chunkBinaryToRows binary (Some size)
       = map (map (fun c => [c])) (chunkArray binary size) /\
     concat (concat (chunkBinaryToRows binary (Some size))) = binary).
Proof.
  intros Hs. split; [|split].
  - intros T array. unfold chunkArray.
    destruct (chunks_spec size Hs _ array (Nat.le_refl _)) as [H1 [H2 H3]].
    destruct (chunks_full size Hs _ array (Nat.le_refl _)) as [H4 H5].
    repeat split; assumption.
  - reflexivity.
  - intros binary. unfold chunkBinaryToRows, chunkArray.
    destruct (chunks_spec size Hs _ binary (Nat.le_refl _)) as [H1 [H2 _]].
    assert (E : flat_map (fun piece : list ascii =>
                  if (length (map (fun c => [c]) piece) =? 0)%nat
                  then [] else [map (fun c => [c]) piece]) (chunks size binary)
                = map (map (fun c => [c])) (chunks size binary)).
    { clear H1. induction H2 as [|p ps Hp _ IH]; [reflexivity|].
      cbn [flat_map map]. rewrite IH, length_map.
      destruct (Nat.eqb_spec (length p) 0); [lia|reflexivity]. }
    cbv zeta. rewrite E. split; [reflexivity|].
    rewrite <- H1 at 2. clear.
    induction (chunks size binary) as [|p ps IH]; [reflexivity|].
    cbn [map concat]. rewrite concat_app, IH. f_equal.
    induction p as [|c p IHp]; [reflexivity|]. cbn [map concat app]. now rewrite IHp.
Qed.

Lemma chunk_partition_witness :
  (0 < 6)%nat /\
  concat (chunkArray [1; 0; 1; 1; 0; 0; 1; 1] 6) = [1; 0; 1; 1; 0; 0; 1; 1] /\
  length (chunkArray [1; 0; 1; 1; 0; 0; 1; 1] 6) = 2%nat.
Proof.
  assert (H : (0 < 6)%nat) by lia.
  split; [exact H|].
  destruct (chunk_partition 6 H) as [Hall _].
  destruct (Hall Z [1; 0; 1; 1; 0; 0; 1; 1]) as [H1 [_ [_ [H4 _]]]].
  split; [exact H1|exact H4].
Defined.

Lemma forEachBlock_app (f : ModeState -> Bytes -> outcome ModeState) (a b : list Bytes) :
  forall s, forEachBlock f (a ++ b) s = (s' <- forEachBlock f a s ;; forEachBlock f b s').
Proof.
  induction a as [|x a IH]; intros s; [reflexivity|].
  cbn [app forEachBlock]. destruct (f s x) as [s1|msg]; cbn [bind]; [apply IH|reflexivity].
Qed.

Lemma unpadPkcs_strips (bytes : Bytes) :
  exists n, (n <= 8)%nat /\ unpadPkcs bytes = firstn (length bytes - n) bytes.
Proof.
  assert (Hid : exists n, (n <= 8)%nat /\ bytes = firstn (length bytes - n) bytes)
    by (exists 0%nat; split; [lia|]; now rewrite Nat.sub_0_r, firstn_all).
  unfold unpadPkcs. cbv zeta.
  destruct (length bytes =? 0)%nat; [exact Hid|].
  set (pad := at_ 0 bytes (Z.of_nat (length bytes) - 1)).
  destruct (Z.ltb_spec pad 1); [exact Hid|].
  destruct (Z.gtb_spec pad 8); [exact Hid|].
  destruct (Z.gtb_spec pad (Z.of_nat (length bytes))); [exact Hid|].
  cbn [orb]. destruct (forallb _ _); [|exact Hid].
  exists (Z.to_nat pad). split; [lia|]. apply slice_0.
Qed.

(** Decryption is stable under appending a block: the output only grows by
    the eight bytes made of that block. *)
Lemma decrypt_append (m : DesMode) (ciphertext block : Bytes) (keyHex : jstring)
  (output : Bytes) (first : option DESResult) :
  (length ciphertext mod 8 = 0)%nat -> ciphertext <> [] -> block <> [] ->
  (length block <= 8)%nat ->
  decryptBytesWithMode ciphertext keyHex m = Returned (output, first) ->
  exists extra first',
    length extra = 8%nat /\ byteBlock extra /\
    decryptBytesWithMode (ciphertext ++ block) keyHex m = Returned (output ++ extra, first').
Proof.
  intros Hmod Hne Hb Hb8 Hdec.
  assert (Hlen8 : (8 <= length ciphertext)%nat).
  { destruct ciphertext as [|x ct]; [congruence|].
    apply Nat.Div0.div_exact in Hmod. cbn [length] in *. lia. }
  assert (Hblock : chunks 8 block = [block]).
  { rewrite (chunks_unfold 8%nat block) by (lia || assumption).
    rewrite firstn_all2, skipn_all2 by lia. reflexivity. }
  assert (Hstep : forall md s, forEachBlock (dec_step md keyHex) [block] s
                    = dec_step md keyHex s block).
  { intros md s. cbn [forEachBlock]. destruct (dec_step md keyHex s block); reflexivity. }
  assert (Hloop : forall md body s0 s1,
            (length body mod 8 = 0)%nat ->
            forEachBlock (dec_step md keyHex) (chunks 8 body) s0 = Returned s1 ->
            exists s2 extra,
              forEachBlock (dec_step md keyHex) (chunks 8 (body ++ block)) s0 = Returned s2 /\
              ms_blocks s2 = ms_blocks s1 ++ [extra] /\ length extra = 8%nat /\
              byteBlock extra).
  { intros md body s0 s1 Hbody Hrun.
    rewrite (chunks_app_aligned 8 (length body / 8) body block)
      by (try lia; apply Nat.Div0.div_exact in Hbody; lia).
    rewrite forEachBlock_app, Hrun. cbn [bind]. rewrite Hblock, Hstep.
    destruct (dec_step_total md keyHex s1 block) as [s2 [c [H1 [H2 [H3 H4]]]]].
    exists s2, c. repeat split; assumption. }
  destruct m; unfold decryptBytesWithMode in Hdec |- *; unfold concatByteChunks in *.
  1: { destruct (forEachBlock (dec_step ECB keyHex) (chunks 8 ciphertext) _) as [s1|msg] eqn:E;
         cbn [bind] in Hdec; [|discriminate Hdec].
       injection Hdec as Ho Hf.
       destruct (Hloop ECB ciphertext _ s1 Hmod E) as [s2 [extra [H1 [H2 [H3 H4]]]]].
       rewrite H1. cbn [bind]. exists extra, (ms_first s2). split; [exact H3|].
       split; [exact H4|].
       rewrite H2, concat_app, Ho. cbn [concat]. now rewrite app_nil_r. }
  all: destruct (Nat.ltb_spec (length ciphertext) 16) as [Hs|Hl]; [discriminate Hdec|];
    destruct (Nat.ltb_spec (length (ciphertext ++ block)) 16) as [Hs'|_];
      [rewrite length_app in Hs'; lia|];
    cbv zeta in Hdec |- *;
    assert (Hiv : slice (ciphertext ++ block) 0 8 = slice ciphertext 0 8)
      by (rewrite !slice_0, firstn_app;
          replace (8 - length ciphertext)%nat with 0%nat by lia;
          cbn [firstn]; now rewrite app_nil_r);
    assert (Hbody : sliceFrom (ciphertext ++ block) 8 = sliceFrom ciphertext 8 ++ block)
      by (change 8 with (Z.of_nat 8); rewrite !sliceFrom_nat, skipn_app;
          replace (8 - length ciphertext)%nat with 0%nat by lia; reflexivity);
    assert (Hbmod : (length (sliceFrom ciphertext 8) mod 8 = 0)%nat)
      by (change 8 with (Z.of_nat 8); rewrite sliceFrom_nat, length_skipn;
          apply Nat.Div0.div_exact in Hmod; apply Nat.Div0.div_exact;
          remember (length ciphertext) as len; remember (len / 8)%nat as q;
          replace ((len - 8) / 8)%nat with (q - 1)%nat
            by (replace (len - 8)%nat with ((q - 1) * 8)%nat by lia;
                now rewrite Nat.div_mul by lia);
          lia);
    rewrite Hiv, Hbody;
    match type of Hdec with
    | context [forEachBlock (dec_step ?md ?kh) (chunks 8 ?body) ?s0] =>
        destruct (forEachBlock (dec_step md kh) (chunks 8 body) s0) as [s1|msg] eqn:E;
        cbn [bind] in Hdec; [|discriminate Hdec];
        injection Hdec as Ho Hf;
        destruct (Hloop md body s0 s1 Hbmod E) as [s2 [extra [H1 [H2 [H3 H4]]]]]
    end;
    rewrite H1; cbn [bind]; exists extra, (ms_first s2); (split; [exact H3|]);
    (split; [exact H4|]);
    rewrite H2, concat_app, Ho; cbn [concat]; now rewrite app_nil_r.
Qed.

Lemma encrypt_output_bytes (randomBlock plaintext : Bytes) (keyHex : jstring) (m : DesMode)
  (customIv : option Bytes) (output : Bytes) (first : DESResult) :
  (m <> ECB -> byteBlock (usedIv randomBlock customIv)) ->
  encryptBytesWithMode randomBlock plaintext keyHex m customIv = Returned (output, first) ->
  byteBlock output.
Proof.
  intros Hiv Henc.
  set (chain0 := match m with ECB => [] | _ => usedIv randomBlock customIv end).
  destruct (enc_loop_total m keyHex (chunks 8 plaintext)
              {| ms_chain := chain0; ms_blocks := []; ms_first := None |})
    as [s' [cs [Hloop [Hbl [_ [_ [Bcs _]]]]]]].
  cbn [ms_blocks app] in Hbl.
  assert (Bcat : byteBlock (concat cs)).
  { clear -Bcs. induction Bcs as [|c cs Hc _ IH]; [constructor|].
    cbn [concat]. apply Forall_app. now split. }
  destruct m; unfold encryptBytesWithMode, concatByteChunks in Henc;
    unfold chain0, usedIv in Hloop; cbv zeta in Henc; rewrite Hloop in Henc;
    cbn [bind] in Henc; (destruct (ms_first s') as [r|]; [|discriminate Henc]);
    injection Henc as Ho _; rewrite <- Ho, Hbl.
  1: exact Bcat.
  all: cbn [concat]; rewrite app_nil_r; apply Forall_app; split; [|exact Bcat];
    apply Hiv; discriminate.
Qed.

Lemma nibble_digit (c1 c2 c3 c4 : ascii) :
  binaryString [c1; c2; c3; c4] ->
  exists ch,
    numberToString toString16 (parseInt2 [c1; c2; c3; c4]) = [ch] /\
    toHexDigit [charBit c1; charBit c2; charBit c3; charBit c4] = Some ch /\
    In ch hexLookup /\
    hexToBinaryString [ch] = [c1; c2; c3; c4].
Proof.
  intros H. inversion H as [|? ? H1 H']; subst. inversion H' as [|? ? H2 H'']; subst.
  inversion H'' as [|? ? H3 H''']; subst. inversion H''' as [|? ? H4 _]; subst.
  destruct H1 as [-> | ->], H2 as [-> | ->], H3 as [-> | ->], H4 as [-> | ->];
    eexists; (split; [reflexivity|]); (split; [reflexivity|]);
    (split; [vm_compute; tauto|reflexivity]).
Qed.

Lemma hexchar_bits (c : ascii) :
  isHexDigit c = true ->
  hexToBinaryString [c] = map bitChar (charBits (lowerChar c)).
Proof. each_ascii c; intros H; vm_compute in H; try discriminate H; reflexivity. Qed.

Lemma hexToBinaryString_cons (c : ascii) (h : jstring) :
  hexToBinaryString (c :: h) = hexToBinaryString [c] ++ hexToBinaryString h.
Proof. unfold hexToBinaryString. cbn [map concat]. now rewrite app_nil_r. Qed.

Lemma hexToBinaryString_app (a b : jstring) :
  hexToBinaryString (a ++ b) = hexToBinaryString a ++ hexToBinaryString b.
Proof. unfold hexToBinaryString. now rewrite map_app, concat_app. Qed.

Lemma nibbles_hex (n : nat) :
  forall b, length b = (4 * n)%nat -> binaryString b ->
    let hex := concat (map (fun nibble => numberToString toString16 (parseInt2 nibble))
                           (chunks 4 b)) in
    hex = bitsToHex (map charBit b) /\ hexToBinaryString hex = b /\
    length hex = n /\ lowerHexString hex.
Proof.
  induction n as [|n IH]; intros b Hlen Hb; cbv zeta.
  - destruct b; [|discriminate Hlen]. cbn. repeat split. constructor.
  - destruct b as [|c1 [|c2 [|c3 [|c4 rest]]]]; try (cbn in Hlen; lia).
    assert (Hn : binaryString [c1; c2; c3; c4] /\ binaryString rest).
    { apply (Forall_app _ [c1; c2; c3; c4] rest). exact Hb. }
    destruct Hn as [Hn Hrest].
    destruct (nibble_digit c1 c2 c3 c4 Hn) as [ch [H1 [H2 [H3 H4]]]].
    destruct (IH rest ltac:(cbn in Hlen; lia) Hrest) as [I1 [I2 [I3 I4]]].
    change (c1 :: c2 :: c3 :: c4 :: rest) with ([c1; c2; c3; c4] ++ rest).
    rewrite chunks_app by (cbn; lia). cbn [map concat]. rewrite H1.
    cbn [app map]. rewrite bitsToHex_cons4, H2.
    split; [cbn [app]; now rewrite I1|].
    split; [rewrite hexToBinaryString_cons, H4, I2; reflexivity|].
    split; [cbn [length]; now rewrite I3|].
    constructor; assumption.
Qed.

Lemma padEnd_binary (b : jstring) (n : nat) :
  binaryString b -> binaryString (padEnd b n "0"%char).
Proof.
  intros H. unfold padEnd. apply Forall_app. split; [exact H|].
  apply Forall_forall. intros c Hc. apply repeat_spec in Hc. now left.
Qed.

Lemma charBit_bitChar (bits : Bits) : bitlist bits -> map charBit (map bitChar bits) = bits.
Proof.
  induction 1 as [|x bits [-> | ->] _ IH]; [reflexivity| |]; cbn [map]; now rewrite IH.
Qed.

Lemma bitChar_binary (bits : Bits) : binaryString (map bitChar bits).
Proof.
  induction bits as [|x bits IH]; [constructor|]. cbn [map]. constructor; [|exact IH].
  unfold bitChar. destruct (x =? 1); tauto.
Qed.

Lemma hexToBinaryString_bits (h : jstring) :
  hexString h ->
  hexToBinaryString h = map bitChar (hexToBits h (4 * length h)).
Proof.
  intros Hh. rewrite hexToBits_exact.
  induction Hh as [|c h Hc _ IH]; [reflexivity|].
  rewrite hexToBinaryString_cons, IH, (hexchar_bits c Hc).
  cbn [toLowerCase map flat_map]. now rewrite map_app.
Qed.

Lemma binaryStringToHex_spec (b : jstring) :
  binaryString b ->
  let padded := padEnd b ((length b + 3) / 4 * 4) "0"%char in
  binaryStringToHex b = bitsToHex (map charBit padded) /\
  length (binaryStringToHex b) = ((length b + 3) / 4)%nat /\
  lowerHexString (binaryStringToHex b) /\
  hexToBinaryString (binaryStringToHex b) = padded /\
  ((length b mod 4 = 0)%nat -> padded = b).
Proof.
  intros Hb. cbv zeta.
  assert (Hpad : length (padEnd b ((length b + 3) / 4 * 4) "0"%char)
                 = (4 * ((length b + 3) / 4))%nat).
  { unfold padEnd. rewrite length_app, repeat_length.
    pose proof (Nat.div_mod_eq (length b + 3) 4) as Hd.
    pose proof (Nat.mod_upper_bound (length b + 3) 4 ltac:(lia)). lia. }
  assert (Hexact : (length b mod 4 = 0)%nat ->
                   padEnd b ((length b + 3) / 4 * 4) "0"%char = b).
  { intros Hmod. unfold padEnd.
    pose proof (Nat.div_mod_eq (length b) 4) as Hd. rewrite Hmod, Nat.add_0_r in Hd.
    assert (E : ((length b + 3) / 4 = length b / 4)%nat).
    { rewrite Hd at 1. rewrite Nat.mul_comm, Nat.div_add_l by lia.
      rewrite (Nat.div_small 3 4) by lia. lia. }
    rewrite E. replace (length b / 4 * 4 - length b)%nat with 0%nat by lia.
    cbn [repeat]. apply app_nil_r. }
  destruct b as [|c b].
  - cbn. repeat split. constructor.
  - unfold binaryStringToHex. cbn [length Nat.eqb]. cbv zeta.
    destruct (nibbles_hex _ _ Hpad (padEnd_binary (c :: b) _ Hb))
      as [H1 [H2 [H3 H4]]].
    cbn [length] in H1, H2, H3, H4 |- *.
    split; [exact H1|]. split; [exact H3|]. split; [exact H4|]. split; [exact H2|].
    exact Hexact.
Qed.

Lemma hexToBinaryString_spec (h : jstring) :
  hexString h ->
  hexToBinaryString h = map bitChar (hexToBits h (4 * length h)) /\
  length (hexToBinaryString h) = (4 * length h)%nat /\
  binaryString (hexToBinaryString h) /\
  binaryStringToHex (hexToBinaryString h) = toLowerCase h.
Proof.
  intros Hh.
  pose proof (hexToBinaryString_bits h Hh) as Hbits.
  assert (Hlen : length (hexToBinaryString h) = (4 * length h)%nat)
    by (rewrite Hbits, length_map; apply hexToBits_length).
  assert (Hb : binaryString (hexToBinaryString h)) by (rewrite Hbits; apply bitChar_binary).
  split; [exact Hbits|]. split; [exact Hlen|]. split; [exact Hb|].
  destruct (binaryStringToHex_spec _ Hb) as [H1 [_ [_ [_ H5]]]]. cbv zeta in H1, H5.
  rewrite H1, H5 by (rewrite Hlen, Nat.mul_comm; apply Nat.Div0.mod_mul).
  rewrite Hbits, charBit_bitChar by apply hexToBits_bitlist.
  now apply bitsToHex_hexToBits.
Qed.

(** X26.  [binaryStringToHex] pads a string of binary digits with '0' on
    the right to whole nibbles and prints each nibble as one hexadecimal
    digit, as [bitsToHex] does; [hexToBinaryString] prints the bits
    [hexToBits] reads; each undoes the other (up to the padding and the
    case of the digits). *)
Theorem binary_hex_strings :
  (forall b, binaryString b ->
     let padded := padEnd b ((length b + 3) / 4 * 4) "0"%char in
     binaryStringToHex b = bitsToHex (map charBit padded) /\
     length (binaryStringToHex b) = ((length b + 3) / 4)%nat /\
     lowerHexString (binaryStringToHex b) /\
     hexToBinaryString (binaryStringToHex b) = padded /\
     ((length b mod 4 = 0)%nat -> padded = b)) /\
  (forall h, hexString h ->
     hexToBinaryString h = map bitChar (hexToBits h (4 * length h)) /\
     length (hexToBinaryString h) = (4 * length h)%nat /\
     binaryString (hexToBinaryString h) /\
     binaryStringToHex (hexToBinaryString h) = toLowerCase h) /\
  (forall b, binaryString b -> (length b mod 4 = 0)%nat ->
     hexToBits (binaryStringToHex b) (length b) = map charBit b).
Proof.
  split; [exact binaryStringToHex_spec|]. split; [exact hexToBinaryString_spec|].
  intros b Hb Hmod.
  destruct (binaryStringToHex_spec b Hb) as [H1 [_ [_ [_ H5]]]]. cbv zeta in H1, H5.
  rewrite H1, (H5 Hmod).
  pose proof (Nat.div_mod_eq (length b) 4) as Hd. rewrite Hmod, Nat.add_0_r in Hd.
  assert (E : hexToBits (bitsToHex (map charBit b)) (4 * (length b / 4)) = map charBit b).
  2: { now rewrite <- Hd in E. }
  apply hexToBits_bitsToHex.
  - now rewrite length_map.
  - clear. induction b as [|c b IH]; [constructor|]. cbn [map].
    constructor; [|exact IH]. unfold charBit, is_bit. destruct (Ascii.eqb c "1"); tauto.
Qed.

Lemma binary_hex_strings_witness :
  binaryString (str "101") /\ hexString (str "A5") /\
  binaryStringToHex (str "101") = str "a" /\
  hexToBinaryString (str "A5") = str "10100101" /\
  binaryStringToHex (hexToBinaryString (str "A5")) = str "a5".
Proof.
  assert (H1 : binaryString (str "101")) by (repeat (apply Forall_cons; [tauto|]); constructor).
  assert (H2 : hexString (str "A5")) by (apply hexString_dec; reflexivity).
  destruct binary_hex_strings as [Hb [Hh _]].
  destruct (Hb _ H1) as [E1 _]. destruct (Hh _ H2) as [E2 [_ [_ E3]]].
  split; [exact H1|]. split; [exact H2|].
  split; [rewrite E1; reflexivity|]. split; [rewrite E2; reflexivity|].
  rewrite E3. reflexivity.
Defined.

Lemma filter_binary (s : jstring) : binaryString (filter isBinaryDigit s).
Proof.
  apply Forall_forall. intros c Hc. apply filter_In in Hc as [_ Hc].
  unfold isBinaryDigit in Hc. apply orb_true_iff in Hc as [Hc|Hc];
    apply Ascii.eqb_eq in Hc; tauto.
Qed.

Lemma firstn_repeat_le {A : Type} (x : A) :
  forall m k, (k <= m)%nat -> firstn k (repeat x m) = repeat x k.
Proof.
  induction m as [|m IH]; intros [|k] Hk; try reflexivity; [lia|].
  cbn [repeat firstn]. f_equal. apply IH. lia.
Qed.

Lemma textKey_shape (textToUtf8Bytes : jstring -> Bytes) (value : jstring) :
  byteBlock (textToUtf8Bytes value) ->
  length (textKeyToDesKeyBytes textToUtf8Bytes value) = 8%nat /\
  byteBlock (textKeyToDesKeyBytes textToUtf8Bytes value) /\
  textKeyToDesKeyBytes textToUtf8Bytes value
    = firstn 8 (textToUtf8Bytes value ++ repeat 0 8).
Proof.
  intros Hb. unfold textKeyToDesKeyBytes. cbv zeta.
  set (bytes := textToUtf8Bytes value) in *.
  assert (Hz : byteBlock (repeat 0 (8 - length bytes))).
  { apply Forall_forall. intros x Hx. apply repeat_spec in Hx. lia. }
  rewrite firstn_app, firstn_repeat_le by lia.
  destruct (Nat.ltb_spec 8 (length bytes)) as [Hlong|Hle].
  - rewrite slice_0. split; [rewrite length_firstn; lia|].
    split; [now apply Forall_firstn_skipn|].
    replace (8 - length bytes)%nat with 0%nat by lia. cbn [repeat]. now rewrite app_nil_r.
  - rewrite (firstn_all2 bytes) by lia.
    destruct (Nat.ltb_spec (length bytes) 8) as [Hshort|Hge].
    + split; [rewrite length_app, repeat_length; lia|].
      split; [now apply Forall_app|reflexivity].
    + replace (8 - length bytes)%nat with 0%nat by lia. cbn [repeat]. rewrite app_nil_r.
      split; [lia|]. split; [exact Hb|reflexivity].
Qed.

Lemma sanitized_hex (s : jstring) : lowerHexString (toLowerCase (filter isHexDigit s)).
Proof. apply toLowerCase_hexString, hexString_filter. Qed.

(** X27.  A key that [keyValidation] accepts is sixteen lower-case
    hexadecimal digits, which the cipher reads whole, and its binary form
    is the 64 bits of those digits; in the hex and text formats this holds
    even when the key is not accepted.  A text key is the first eight
    bytes of its encoding, padded with zero bytes; a hex key is
    [normalizeBlockHex] of the field. *)
Theorem validated_key (textToUtf8Bytes : jstring -> Bytes) (keyValue : jstring)
  (keyFormat : KeyFormat) :
  byteBlock (textToUtf8Bytes keyValue) ->
  let v := keyValidation textToUtf8Bytes keyValue keyFormat in
  (kv_valid v = true \/ keyFormat <> kf_binary ->
   length (kv_hex v) = 16%nat /\ lowerHexString (kv_hex v) /\
   keyWindow (kv_hex v) = kv_hex v /\
   kv_binary v = hexToBinaryString (kv_hex v) /\ length (kv_binary v) = 64%nat) /\
  (keyFormat = kf_text ->
   kv_hex v = bytesToHex (firstn 8 (textToUtf8Bytes keyValue ++ repeat 0 8)) /\
   (kv_valid v = true <-> trim keyValue <> [])) /\
  (keyFormat = kf_hex ->
   kv_hex v = normalizeBlockHex keyValue /\
   (kv_valid v = true <-> (16 <= length (filter isHexDigit keyValue))%nat)) /\
  (keyFormat = kf_binary ->
   (kv_valid v = true <-> (64 <= length (filter isBinaryDigit keyValue))%nat) /\
   (kv_valid v = true -> kv_display v = firstn 64 (filter isBinaryDigit keyValue) /\
                         kv_binary v = kv_display v)).
Proof.
  intros Hb. cbv zeta.
  assert (Hshape : forall hex, length hex = 16%nat -> lowerHexString hex ->
            length hex = 16%nat /\ lowerHexString hex /\ keyWindow hex = hex /\
            hexToBinaryString hex = hexToBinaryString hex /\
            length (hexToBinaryString hex) = 64%nat).
  { intros hex Hl Hh. split; [exact Hl|]. split; [exact Hh|].
    split; [now apply keyWindow_fixed|]. split; [reflexivity|].
    destruct (hexToBinaryString_spec hex (lowerHexString_hexString hex Hh)) as [_ [H _]].
    now rewrite H, Hl. }
  destruct keyFormat; unfold keyValidation;
    cbn [kv_valid kv_hex kv_binary kv_display].
  - (* binary *)
    set (digits := filter isBinaryDigit keyValue).
    assert (Bs : binaryString (slice digits 0 64))
      by (rewrite slice_0; apply Forall_firstn_skipn, filter_binary).
    assert (Ls : length (slice digits 0 64) = Nat.min 64 (length digits))
      by (rewrite slice_0; apply length_firstn).
    split; [|split; [discriminate|split; [discriminate|]]].
    + intros [Hv|Hv]; [|congruence]. apply Nat.eqb_eq in Hv.
      destruct (binaryStringToHex_spec _ Bs) as [_ [H2 [H3 [H4 H5]]]]. cbv zeta in *.
      rewrite Hv in H2, H4, H5. specialize (H5 eq_refl).
      change ((64 + 3) / 4 * 4)%nat with 64%nat in H4, H5.
      change ((64 + 3) / 4)%nat with 16%nat in H2.
      split; [exact H2|]. split; [exact H3|]. split; [now apply keyWindow_fixed|].
      rewrite H4. split; [reflexivity|]. now rewrite H5.
    + intros _. split.
      * rewrite Nat.eqb_eq, Ls. lia.
      * intros Hv. apply Nat.eqb_eq in Hv. split; [apply slice_0|].
        unfold padEnd. rewrite Hv. cbn [Nat.sub repeat]. apply app_nil_r.
  - (* hex *)
    set (sanitized := toLowerCase (slice (filter isHexDigit keyValue) 0 16)).
    assert (Hs : lowerHexString sanitized).
    { apply toLowerCase_hexString. rewrite slice_0.
      apply Forall_firstn_skipn, hexString_filter. }
    assert (Ls : length sanitized = Nat.min 16 (length (filter isHexDigit keyValue))).
    { unfold sanitized, toLowerCase. rewrite length_map, slice_0. apply length_firstn. }
    assert (Hnorm : padEnd sanitized 16 "0"%char = normalizeBlockHex keyValue).
    { unfold normalizeBlockHex, sanitized, padEnd, toLowerCase.
      rewrite !slice_0, length_map, length_firstn, firstn_app.
      rewrite (firstn_all2 (repeat "0"%char _)) by (rewrite repeat_length; lia).
      rewrite map_app, map_repeat. change (lowerChar "0") with "0"%char.
      f_equal. f_equal. lia. }
    split; [|split; [discriminate|split; [|discriminate]]].
    + intros _. rewrite Hnorm.
      destruct (normalizeBlockHex_shape keyValue) as [H1 H2].
      apply (Hshape _ H1 H2).
    + intros _. split; [exact Hnorm|]. rewrite Nat.eqb_eq, Ls. lia.
  - (* text *)
    destruct (textKey_shape textToUtf8Bytes keyValue Hb) as [H1 [H2 H3]].
    destruct (bytesToHex_shape _ H2) as [H4 H5]. rewrite H1 in H5.
    split; [|split; [|split; discriminate]].
    + intros _. apply (Hshape _ H5 H4).
    + intros _. split; [now rewrite H3|].
      rewrite Nat.ltb_lt. destruct (trim keyValue) as [|c t]; cbn [length].
      * split; [lia|congruence].
      * split; [discriminate|lia].
Qed.

Lemma validated_key_witness :
  byteBlock (asciiBytes (str "secret")) /\
  kv_hex (keyValidation asciiBytes (str "secret") kf_text)
    = bytesToHex (firstn 8 (asciiBytes (str "secret") ++ repeat 0 8)) /\
  length (kv_hex (keyValidation asciiBytes (str "secret") kf_text)) = 16%nat.
Proof.
  assert (H : byteBlock (asciiBytes (str "secret"))) by (apply byteBlock_dec; reflexivity).
  split; [exact H|].
  destruct (validated_key asciiBytes (str "secret") kf_text H) as [H1 [H2 _]].
  split; [exact (proj1 (H2 eq_refl))|].
  assert (Hf : kf_text <> kf_binary) by discriminate.
  exact (proj1 (H1 (or_intror Hf))).
Defined.

Lemma aligned_hex_bytes (hex : jstring) :
  lowerHexString hex -> hex <> [] -> (length hex mod 16 = 0)%nat ->
  exists inputBytes,
    hexToBytes hex = Returned inputBytes /\ byteBlock inputBytes /\
    (length inputBytes mod 8 = 0)%nat /\ inputBytes <> [] /\
    bytesToHex inputBytes = hex.
Proof.
  intros Hh Hne Hmod. apply Nat.Div0.div_exact in Hmod.
  destruct (bytesToHex_hexToBytes (8 * (length hex / 16)) hex Hh ltac:(lia))
    as [bs [H1 [H2 [H3 H4]]]].
  exists bs. split; [exact H1|]. split; [exact H2|].
  split; [rewrite H3, Nat.mul_comm; apply Nat.Div0.mod_mul|]. split; [|exact H4].
  intros ->. cbn in H4. congruence.
Qed.

Lemma remaining_range (len : nat) (block : Z) :
  0 < block ->
  0 <= block - orNumber (Z.of_nat len mod block) block < block /\
  (block - orNumber (Z.of_nat len mod block) block = 0 <-> Z.of_nat len mod block = 0).
Proof.
  intros Hb. unfold orNumber.
  pose proof (Z.mod_pos_bound (Z.of_nat len) block Hb).
  destruct (Z.eqb_spec (Z.of_nat len mod block) 0) as [E|E]; lia.
Qed.

Lemma valid_length (len n : nat) :
  (0 < n)%nat ->
  ((0 <? len)%nat && (len mod n =? 0)%nat = true
   <-> Z.of_nat len mod Z.of_nat n = 0 /\ (0 < len)%nat).
Proof.
  intros Hn. rewrite andb_true_iff, Nat.ltb_lt, Nat.eqb_eq.
  rewrite <- Nat2Z.inj_mod. split; intros [H1 H2]; split; lia.
Qed.

(** X28.  A plaintext that [plainValidation] accepts is a positive whole
    number of 16-digit blocks: [hexToBytes] returns for it a positive
    multiple of eight bytes that print as the same digits.  The field is
    accepted exactly when it is not empty and nothing remains to fill the
    last block. *)
Theorem validated_plaintext (plaintext : jstring) (plaintextFormat : InputFormat) :
  let v := plainValidation plaintext plaintextFormat in
  lowerHexString (pv_hex v) /\ binaryString (pv_binary v) /\
  0 <= pv_remaining v < (match plaintextFormat with if_binary => 64 | if_hex => 16 end) /\
  (pv_valid v = true <-> pv_remaining v = 0 /\ pv_display v <> []) /\
  (pv_valid v = true ->
   (length (pv_hex v) mod 16 = 0)%nat /\ pv_hex v <> [] /\
   length (pv_binary v) = (4 * length (pv_hex v))%nat /\
   hexToBinaryString (pv_hex v) = pv_binary v /\
   exists inputBytes,
     hexToBytes (pv_hex v) = Returned inputBytes /\ byteBlock inputBytes /\
     (length inputBytes mod 8 = 0)%nat /\ inputBytes <> [] /\
     bytesToHex inputBytes = pv_hex v).
Proof.
  cbv zeta.
  assert (Hnil : forall s : jstring, s <> [] <-> (0 < length s)%nat).
  { intros [|c s]; cbn [length]; split; intros H; try lia; congruence. }
  destruct plaintextFormat; unfold plainValidation;
    cbn [pv_hex pv_binary pv_remaining pv_valid pv_display].
  - set (sanitized := filter isBinaryDigit plaintext).
    assert (Bs : binaryString sanitized) by apply filter_binary.
    destruct (binaryStringToHex_spec sanitized Bs) as [_ [H2 [H3 [H4 H5]]]]. cbv zeta in *.
    destruct (remaining_range (length sanitized) 64 ltac:(lia)) as [R1 R2].
    split; [exact H3|]. split; [exact Bs|]. split; [exact R1|].
    split.
    { rewrite (valid_length _ 64) by lia. rewrite R2, Hnil. reflexivity. }
    intros Hv. apply (valid_length _ 64) in Hv; [|lia]. destruct Hv as [Hm Hpos].
    change (Z.of_nat 64) with 64 in Hm.
    assert (Hm' : (length sanitized mod 64 = 0)%nat).
    { apply Nat2Z.inj. rewrite Nat2Z.inj_mod. exact Hm. }
    apply Nat.Div0.div_exact in Hm'.
    assert (Hq : ((length sanitized + 3) / 4 = 16 * (length sanitized / 64))%nat).
    { rewrite Hm' at 1.
      replace (64 * (length sanitized / 64) + 3)%nat
        with (3 + (16 * (length sanitized / 64)) * 4)%nat by lia.
      rewrite Nat.div_add by lia. rewrite (Nat.div_small 3 4) by lia. lia. }
    assert (Hm4 : (length sanitized mod 4 = 0)%nat).
    { rewrite Hm'. replace (64 * (length sanitized / 64))%nat
        with ((16 * (length sanitized / 64)) * 4)%nat by lia.
      apply Nat.Div0.mod_mul. }
    assert (Hhne : binaryStringToHex sanitized <> []).
    { apply Hnil. rewrite H2, Hq. lia. }
    split; [rewrite H2, Hq, Nat.mul_comm; apply Nat.Div0.mod_mul|].
    split; [exact Hhne|]. split; [rewrite H2, Hq; lia|].
    split; [rewrite H4; now apply H5|].
    apply aligned_hex_bytes; [exact H3|exact Hhne|].
    rewrite H2, Hq, Nat.mul_comm. apply Nat.Div0.mod_mul.
  - set (sanitized := toLowerCase (filter isHexDigit plaintext)).
    assert (Hs : lowerHexString sanitized) by apply sanitized_hex.
    destruct (hexToBinaryString_spec sanitized (lowerHexString_hexString _ Hs))
      as [_ [H2 [H3 _]]].
    destruct (remaining_range (length sanitized) 16 ltac:(lia)) as [R1 R2].
    split; [exact Hs|]. split; [exact H3|]. split; [exact R1|].
    split.
    { rewrite (valid_length _ 16) by lia. rewrite R2, Hnil. reflexivity. }
    intros Hv. apply (valid_length _ 16) in Hv; [|lia]. destruct Hv as [Hm Hpos].
    change (Z.of_nat 16) with 16 in Hm.
    assert (Hm' : (length sanitized mod 16 = 0)%nat).
    { apply Nat2Z.inj. rewrite Nat2Z.inj_mod. exact Hm. }
    split; [exact Hm'|]. split; [now apply Hnil|]. split; [exact H2|].
    split; [reflexivity|].
    apply aligned_hex_bytes; [exact Hs|now apply Hnil|exact Hm'].
Qed.

Lemma validated_plaintext_witness :
  pv_valid (plainValidation (str "01 23 45 67 89 AB CD EF") if_hex) = true /\
  exists inputBytes,
    hexToBytes (pv_hex (plainValidation (str "01 23 45 67 89 AB CD EF") if_hex))
      = Returned inputBytes /\
    (length inputBytes mod 8 = 0)%nat.
Proof.
  assert (H : pv_valid (plainValidation (str "01 23 45 67 89 AB CD EF") if_hex) = true)
    by reflexivity.
  split; [exact H|].
  destruct (validated_plaintext (str "01 23 45 67 89 AB CD EF") if_hex)
    as [_ [_ [_ [_ Hv]]]].
  destruct (Hv H) as [_ [_ [_ [_ [inputBytes [H1 [_ [H3 _]]]]]]]].
  exists inputBytes. split; [exact H1|exact H3].
Defined.

Lemma trimStart_spaces (pre s : jstring) :
  Forall (fun c => isSpace c = true) pre -> trimStart (pre ++ s) = trimStart s.
Proof.
  induction 1 as [|c pre Hc _ IH]; [reflexivity|]. cbn [app trimStart]. now rewrite Hc.
Qed.

Lemma trimStart_all_spaces (post : jstring) :
  Forall (fun c => isSpace c = true) post -> trimStart post = [].
Proof.
  induction 1 as [|c post Hc _ IH]; [reflexivity|]. cbn [trimStart]. now rewrite Hc.
Qed.

Lemma trim_spaces (pre s post : jstring) :
  Forall (fun c => isSpace c = true) pre -> Forall (fun c => isSpace c = true) post ->
  Forall (fun c => isSpace c = false) s ->
  trim (pre ++ s ++ post) = s.
Proof.
  intros Hpre Hpost Hs. unfold trim, trimEnd.
  rewrite trimStart_spaces by exact Hpre.
  destruct s as [|c s].
  - cbn [app]. rewrite (trimStart_all_spaces post Hpost). reflexivity.
  - assert (Hhead : trimStart ((c :: s) ++ post) = (c :: s) ++ post).
    { cbn [app trimStart]. inversion Hs; subst.
      match goal with H : isSpace c = false |- _ => now rewrite H end. }
    rewrite Hhead, rev_app_distr.
    rewrite trimStart_spaces by (apply Forall_rev; exact Hpost).
    rewrite trimStart_id by (apply Forall_rev; exact Hs).
    apply rev_involutive.
Qed.

Lemma customIvBytes_cases (ivInput : jstring) :
  (length ivInput = 16%nat /\ hexString ivInput ->
   exists v, customIvBytes ivInput = Returned (Some v) /\ hexToBytes ivInput = Returned v /\
             byteBlock v /\ length v = 8%nat) /\
  (~ (length ivInput = 16%nat /\ hexString ivInput) -> customIvBytes ivInput = Returned None).
Proof.
  destruct (customIvBytes_shape ivInput) as [customIv [Hiv [Hshape Hsome]]].
  split.
  - intros H. apply Hsome in H. destruct customIv as [v|]; [|congruence].
    exists v. split; [exact Hiv|]. split; [|now apply Hshape].
    unfold customIvBytes in Hiv. destruct (_ && _); [|discriminate Hiv].
    destruct (hexToBytes ivInput) as [bytes|msg]; cbn [bind] in Hiv; [|discriminate Hiv].
    now injection Hiv as ->.
  - intros H. destruct customIv as [v|]; [|exact Hiv].
    exfalso. apply H, Hsome. discriminate.
Qed.

Lemma usedIv_block (randomBlock : Bytes) (ivInput : jstring) (customIv : option Bytes) :
  customIvBytes ivInput = Returned customIv ->
  byteBlock randomBlock -> length randomBlock = 8%nat ->
  byteBlock (usedIv randomBlock customIv) /\ length (usedIv randomBlock customIv) = 8%nat.
Proof.
  intros Hiv Br Lr. destruct (customIvBytes_shape ivInput) as [c [Hc [Hshape _]]].
  rewrite Hiv in Hc. injection Hc as <-.
  destruct customIv as [v|]; cbn [usedIv]; [now apply Hshape|now split].
Qed.

Lemma valid_plaintext_bytes (plaintext : jstring) (plaintextFormat : InputFormat) :
  pv_valid (plainValidation plaintext plaintextFormat) = true ->
  exists inputBytes,
    hexToBytes (pv_hex (plainValidation plaintext plaintextFormat)) = Returned inputBytes /\
    byteBlock inputBytes /\
    bytesToHex inputBytes = pv_hex (plainValidation plaintext plaintextFormat).
Proof.
  assert (Hnil : forall s : jstring, (0 < length s)%nat -> s <> []).
  { intros [|c s]; cbn [length]; intros H; [lia|congruence]. }
  assert (Hal : forall hex, lowerHexString hex -> hex <> [] -> (length hex mod 16 = 0)%nat ->
                exists inputBytes, hexToBytes hex = Returned inputBytes /\
                                   byteBlock inputBytes /\ bytesToHex inputBytes = hex).
  { intros hex H1 H2 H3. destruct (aligned_hex_bytes hex H1 H2 H3) as [bs [E1 [E2 [_ [_ E3]]]]].
    now exists bs. }
  destruct plaintextFormat; unfold plainValidation; cbn [pv_hex pv_valid]; intros Hv.
  - set (sanitized := filter isBinaryDigit plaintext) in *.
    destruct (binaryStringToHex_spec sanitized (filter_binary plaintext)) as [_ [H2 [H3 _]]].
    apply (valid_length _ 64) in Hv; [|lia]. destruct Hv as [Hm Hpos].
    change (Z.of_nat 64) with 64 in Hm.
    assert (Hm' : (length sanitized mod 64 = 0)%nat).
    { apply Nat2Z.inj. rewrite Nat2Z.inj_mod. exact Hm. }
    apply Nat.Div0.div_exact in Hm'.
    assert (Hq : ((length sanitized + 3) / 4 = 16 * (length sanitized / 64))%nat).
    { rewrite Hm' at 1.
      replace (64 * (length sanitized / 64) + 3)%nat
        with (3 + (16 * (length sanitized / 64)) * 4)%nat by lia.
      rewrite Nat.div_add by lia. rewrite (Nat.div_small 3 4) by lia. lia. }
    apply Hal; [exact H3|apply Hnil; lia|].
    rewrite H2, Hq, Nat.mul_comm. apply Nat.Div0.mod_mul.
  - set (sanitized := toLowerCase (filter isHexDigit plaintext)) in *.
    apply (valid_length _ 16) in Hv; [|lia]. destruct Hv as [Hm Hpos].
    change (Z.of_nat 16) with 16 in Hm.
    apply Hal; [apply sanitized_hex|now apply Hnil|].
    apply Nat2Z.inj. rewrite Nat2Z.inj_mod. exact Hm.
Qed.

Lemma hex_field_valid (hex : jstring) :
  lowerHexString hex -> (0 < length hex)%nat -> (length hex mod 16 = 0)%nat ->
  pv_valid (plainValidation hex if_hex) = true /\ pv_hex (plainValidation hex if_hex) = hex.
Proof.
  intros Hh Hpos Hmod. unfold plainValidation. cbn [pv_valid pv_hex].
  rewrite (filter_hexString hex (lowerHexString_hexString hex Hh)).
  rewrite (toLowerCase_lowerHex hex Hh). split; [|reflexivity].
  rewrite Hmod. apply andb_true_iff. split; [now apply Nat.ltb_lt|reflexivity].
Qed.

Lemma padTo8Bytes_nonempty (bytes : Bytes) : padTo8Bytes bytes <> [].
Proof.
  destruct (padTo8Bytes_spec bytes) as [Hn [Hpad _]]. cbv zeta in Hn, Hpad.
  rewrite Hpad. intros E. apply (f_equal (@length _)) in E.
  rewrite length_app, repeat_length in E. cbn [length] in E. lia.
Qed.

(** What the three callbacks share when they encrypt: the padded payload
    is enciphered, the output is whole blocks of bytes and starts with the
    IV outside ECB, and deciphering it gives the padded payload. *)
Lemma encrypt_with_field (randomBlock payload : Bytes) (keyHex ivInput : jstring)
  (m : DesMode) :
  byteBlock payload -> byteBlock randomBlock -> length randomBlock = 8%nat ->
  exists customIv output first first',
    customIvBytes ivInput = Returned customIv /\
    encryptBytesWithMode randomBlock (padTo8Bytes payload) keyHex m customIv
      = Returned (output, first) /\
    (m <> ECB -> slice output 0 8 = usedIv randomBlock customIv) /\
    (length output mod 8 = 0)%nat /\
    (8 * (match m with ECB => 1 | _ => 2 end) <= length output)%nat /\
    byteBlock output /\
    decryptBytesWithMode output keyHex m = Returned (padTo8Bytes payload, first').
Proof.
  intros Bp Br Lr.
  destruct (customIvBytes_shape ivInput) as [customIv [Hiv _]].
  pose proof (usedIv_block randomBlock ivInput customIv Hiv Br Lr) as Hused.
  destruct (mode_functions_round_trip m payload keyHex randomBlock customIv Bp
              (fun _ => Hused))
    as [output [first [first' [Henc [Hpre [Hmod Hdec]]]]]].
  exists customIv, output, first, first'.
  split; [exact Hiv|]. split; [exact Henc|]. split; [exact Hpre|]. split; [exact Hmod|].
  split.
  { destruct (encrypt_returns randomBlock (padTo8Bytes payload) keyHex m customIv
                (padTo8Bytes_nonempty payload)) as [o [f [Ho Hl]]].
    rewrite Henc in Ho. injection Ho as <- _.
    assert (Hbc : (1 <= blockCount (padTo8Bytes payload))%nat).
    { pose proof (padTo8Bytes_nonempty payload) as Hne.
      unfold blockCount. destruct (padTo8Bytes payload) as [|x l]; [congruence|].
      cbn [length]. replace (S (length l) + 7)%nat with (length l + 1 * 8)%nat by lia.
      rewrite Nat.div_add by lia. lia. }
    destruct m; rewrite Hl, ?(proj2 Hused); lia. }
  split; [|exact Hdec].
  exact (encrypt_output_bytes _ _ _ _ _ _ _ (fun _ => proj1 Hused) Henc).
Qed.

Lemma isEmpty_false (s : jstring) : s <> [] -> isEmpty s = false.
Proof. destruct s; [congruence|reflexivity]. Qed.

(** X23.  The file path end to end.  [runFileProcess] refuses, setting
    only its error message, when the key is not valid and when there is no
    file to work on; to decrypt it takes the selected file and, only when
    none is selected, the bytes of the last encryption.  Otherwise, for
    every mode of operation, encrypting a selected file whose name encodes
    to fewer than 65536 bytes gives bytes that, selected as the file or
    left as the last encryption with no file selected, are decrypted under
    the same key and mode to the original bytes and file name.  Outside
    ECB the output starts with the bytes of the IV field when that is
    exactly sixteen hexadecimal digits, and with the random block
    otherwise. *)
Theorem file_process_round_trip (textToUtf8Bytes : jstring -> Bytes)
  (utf8BytesToText : Bytes -> jstring) (randomBlock : Bytes) (st : AppState) :
  let run := runFileProcess textToUtf8Bytes utf8BytesToText in
  let key := keyValidation textToUtf8Bytes (st_keyValue st) (st_keyFormat st) in
  let nameBytes := textToUtf8Bytes (orFile (st_fileName st)) in
  (kv_valid key = false ->
   forall mode, run randomBlock st mode = ErrorSet (keyErrorMessage (st_keyFormat st))) /\
  (kv_valid key = true -> st_fileBytes st = None ->
   run randomBlock st encrypt = ErrorSet "Select a file first." /\
   (st_fileCipherBytes st = None ->
    run randomBlock st decrypt = ErrorSet "Select a file first.")) /\
  (forall data,
   kv_valid key = true -> st_fileBytes st = Some data -> (length data mod 8 <> 0)%nat ->
   run randomBlock st decrypt
     = ErrorSet "Encrypted file length must be a multiple of 8 bytes.") /\
  (forall data,
   kv_valid key = true -> st_fileBytes st = Some data -> byteBlock data ->
   utf8BytesToText nameBytes = orFile (st_fileName st) ->
   byteBlock nameBytes -> Z.of_nat (length nameBytes) < 65536 ->
   byteBlock randomBlock -> length randomBlock = 8%nat ->
   exists values output,
     run randomBlock st encrypt = ValuesSet values /\
     fv_fileCipherBytes values = Some output /\
     fv_filePlainBytes values = None /\
     fv_fileOutputName values = orFile (st_fileName st) ++ str ".des" /\
     (length output mod 8 = 0)%nat /\
     (st_desMode st <> ECB ->
      (length (st_ivInput st) = 16%nat /\ hexString (st_ivInput st) ->
       hexToBytes (st_ivInput st) = Returned (slice output 0 8)) /\
      (~ (length (st_ivInput st) = 16%nat /\ hexString (st_ivInput st)) ->
       slice output 0 8 = randomBlock)) /\
     forall randomBlock' st',
       st_keyValue st' = st_keyValue st -> st_keyFormat st' = st_keyFormat st ->
       st_desMode st' = st_desMode st ->
       st_fileBytes st' = Some output \/
       st_fileBytes st' = None /\ st_fileCipherBytes st' = Some output ->
       exists values',
         run randomBlock' st' decrypt = ValuesSet values' /\
         fv_filePlainBytes values' = Some data /\
         fv_fileCipherBytes values' = None /\
         fv_fileOutputName values' = orFile (st_fileName st)).
Proof.
  cbv zeta. unfold runFileProcess. cbv zeta.
  split; [|split; [|split]].
  - intros Hk mode. now rewrite Hk.
  - intros Hk Hf. rewrite Hk, Hf. cbn [negb]. split; [reflexivity|].
    intros Hc. now rewrite Hc.
  - intros data Hk Hf Hmod. rewrite Hk, Hf. cbn [negb].
    destruct (Nat.eqb_spec (length data mod 8) 0) as [E|E]; [contradiction|reflexivity].
  - intros data Hk Hf Bd Hdec Bn Ln Br Lr.
    set (name := orFile (st_fileName st)) in *.
    assert (Hor : orFile name = name) by (unfold name; destruct (st_fileName st); reflexivity).
    assert (Hor' : orDecrypted name = name)
      by (unfold name; destruct (st_fileName st); reflexivity).
    set (payload := wrapFileEnvelope textToUtf8Bytes name data).
    assert (Bp : byteBlock payload)
      by (apply wrapFileEnvelope_bytes; [rewrite Hor; exact Bn|exact Bd]).
    assert (Hun : unwrapFileEnvelope utf8BytesToText payload
                  = {| env_name := name; env_data := data |}).
    { unfold payload. rewrite <- Hor at 2. apply unwrap_wrap_short; rewrite Hor; assumption. }
    destruct (encrypt_with_field randomBlock payload
                (kv_hex (keyValidation textToUtf8Bytes (st_keyValue st) (st_keyFormat st)))
                (st_ivInput st) (st_desMode st) Bp Br Lr)
      as [customIv [output [first [first' [Hiv [Henc [Hpre [Hmod [_ [_ Hdecr]]]]]]]]]].
    rewrite Hk, Hf. cbn [negb]. rewrite Hiv. cbn [bind]. fold payload.
    rewrite Henc. cbn [bind tryCatch].
    eexists. exists output. split; [reflexivity|].
    cbn [fv_fileCipherBytes fv_filePlainBytes fv_fileOutputName].
    split; [reflexivity|]. split; [reflexivity|]. split; [reflexivity|].
    split; [exact Hmod|].
    split.
    { intros Hm. destruct (customIvBytes_cases (st_ivInput st)) as [Hyes Hno].
      split; intros Hfield.
      - destruct (Hyes Hfield) as [v [Hv [Hbytes _]]].
        rewrite Hiv in Hv. injection Hv as ->.
        rewrite (Hpre Hm). exact Hbytes.
      - rewrite (Hno Hfield) in Hiv. injection Hiv as <-. exact (Hpre Hm). }
    intros randomBlock' st' Ekv Ekf Em Hfile.
    assert (Htarget : match st_fileBytes st' with
                      | Some bytes => Some bytes
                      | None => st_fileCipherBytes st'
                      end = Some output).
    { destruct Hfile as [-> | [-> ->]]; reflexivity. }
    rewrite Ekv, Ekf, Hk, Em, Htarget. cbn [negb].
    rewrite Hmod. cbn [Nat.eqb negb]. rewrite Hdecr. cbn [bind tryCatch]. cbv zeta.
    eexists. split; [reflexivity|].
    cbn [fv_fileCipherBytes fv_filePlainBytes fv_fileOutputName].
    rewrite unpad_pad, Hun. cbn [env_data env_name]. rewrite Hor'. repeat split.
Qed.

Lemma file_process_round_trip_witness :
  let st fileBytes fileCipherBytes :=
    {| st_plaintext := []; st_plaintextFormat := if_hex;
       st_keyValue := str "133457799bbcdff1"; st_keyFormat := kf_hex;
       st_inputKind := ik_file; st_textInput := [];
       st_textCipherInput := []; st_textCipherEncoding := ce_hex;
       st_fileBytes := fileBytes; st_fileName := str "a.txt";
       st_fileCipherBytes := fileCipherBytes;
       st_desMode := CBC; st_ivInput := [] |} in
  exists values output values',
    runFileProcess asciiBytes asciiText [8; 7; 6; 5; 4; 3; 2; 1] (st (Some [1; 2; 3]) None)
      encrypt = ValuesSet values /\
    fv_fileCipherBytes values = Some output /\
    slice output 0 8 = [8; 7; 6; 5; 4; 3; 2; 1] /\
    runFileProcess asciiBytes asciiText [] (st None (Some output)) decrypt
      = ValuesSet values' /\
    fv_filePlainBytes values' = Some [1; 2; 3] /\
    fv_fileOutputName values' = str "a.txt".
Proof.
  intros st.
  destruct (file_process_round_trip asciiBytes asciiText [8; 7; 6; 5; 4; 3; 2; 1]
              (st (Some [1; 2; 3]) None)) as [_ [_ [_ H]]].
  destruct (H [1; 2; 3]) as [values [output [H1 [H2 [_ [_ [_ [H3 H4]]]]]]]].
  - reflexivity.
  - reflexivity.
  - apply byteBlock_dec. reflexivity.
  - reflexivity.
  - apply byteBlock_dec. reflexivity.
  - cbn. lia.
  - apply byteBlock_dec. reflexivity.
  - reflexivity.
  - destruct (H4 [] (st None (Some output)) eq_refl eq_refl eq_refl)
      as [values' [H5 [H6 [_ H7]]]].
    + right. split; reflexivity.
    + exists values, output, values'.
      split; [exact H1|]. split; [exact H2|].
      split; [apply H3; [discriminate|]; intros [C _]; discriminate C|].
      split; [exact H5|]. split; [exact H6|exact H7].
Defined.

(** X25.  The binary and hex path of [runProcess], called without
    overrides.  It refuses, setting only its error message, when the key
    is not valid and when the plaintext field is not a positive number of
    whole blocks.  Otherwise encrypting returns whole 16-digit blocks of
    lower-case hex; and since the path pads its input before decrypting it
    too, decrypting a hex field that holds that output under the same key
    and mode puts in the plaintext field the padded plaintext followed by
    up to eight more bytes, never the plaintext alone. *)
Theorem runProcess_decrypt_appends (textToUtf8Bytes : jstring -> Bytes)
  (utf8BytesToText : Bytes -> jstring) (btoa : jstring -> jstring)
  (atob : jstring -> option jstring) (randomBlock : Bytes) (st : AppState) :
  st_inputKind st = ik_binary \/ st_inputKind st = ik_hex ->
  let run := runProcess textToUtf8Bytes utf8BytesToText btoa atob in
  let key := keyValidation textToUtf8Bytes (st_keyValue st) (st_keyFormat st) in
  let plain := plainValidation (st_plaintext st) (st_plaintextFormat st) in
  (kv_valid key = false ->
   forall mode,
     run randomBlock st mode None = ByBlocks (ErrorSet (keyErrorMessage (st_keyFormat st)))) /\
  (kv_valid key = true -> pv_valid plain = false ->
   forall mode,
     run randomBlock st mode None
       = ByBlocks (ErrorSet "Provide data in multiples of 64 bits (16 hex chars) for this mode.")) /\
  (kv_valid key = true -> pv_valid plain = true ->
   byteBlock randomBlock -> length randomBlock = 8%nat ->
   exists values payload,
     hexToBytes (pv_hex plain) = Returned payload /\
     bytesToHex payload = pv_hex plain /\
     run randomBlock st encrypt None = ByBlocks (ValuesSet values) /\
     bv_plaintext values = None /\
     bv_lastKeyHex values = kv_hex key /\
     lowerHexString (bv_lastCipherHex values) /\
     (length (bv_lastCipherHex values) mod 16 = 0)%nat /\
     forall randomBlock' st',
       st_inputKind st' = ik_binary \/ st_inputKind st' = ik_hex ->
       st_keyValue st' = st_keyValue st -> st_keyFormat st' = st_keyFormat st ->
       st_desMode st' = st_desMode st ->
       st_plaintextFormat st' = if_hex ->
       st_plaintext st' = bv_lastCipherHex values ->
       exists values' shown rest,
         run randomBlock' st' decrypt None = ByBlocks (ValuesSet values') /\
         bv_plaintext values' = Some shown /\
         bv_lastCipherHex values' = bv_lastCipherHex values /\
         shown = bytesToHex (padTo8Bytes payload) ++ rest /\
         (length rest <= 16)%nat /\
         shown <> pv_hex plain).
Proof.
  intros Hkind. cbv zeta.
  assert (Hrun : forall randomBlock0 st0 mode,
            st_inputKind st0 = ik_binary \/ st_inputKind st0 = ik_hex ->
            runProcess textToUtf8Bytes utf8BytesToText btoa atob randomBlock0 st0 mode None
            = ByBlocks
                (let keyValidation :=
                   keyValidation textToUtf8Bytes (st_keyValue st0) (st_keyFormat st0) in
                 let plainValidation :=
                   plainValidation (st_plaintext st0) (st_plaintextFormat st0) in
                 if negb (kv_valid keyValidation)
                 then ErrorSet (keyErrorMessage (st_keyFormat st0))
                 else if negb (pv_valid plainValidation)
                 then ErrorSet
                        "Provide data in multiples of 64 bits (16 hex chars) for this mode."
                 else
                   tryCatch
                     (inputBytes <- hexToBytes (pv_hex plainValidation) ;;
                      match mode with
                      | encrypt =>
                          customIv <- customIvBytes (st_ivInput st0) ;;
                          ' (output, firstBlockResult) <-
                              encryptBytesWithMode randomBlock0 (padTo8Bytes inputBytes)
                                (kv_hex keyValidation) (st_desMode st0) customIv ;;
                          Returned {| bv_currentResult := Some firstBlockResult;
                                      bv_activeMode := encrypt;
                                      bv_lastKeyHex := kv_hex keyValidation;
                                      bv_lastCipherHex := bytesToHex output;
                                      bv_lastIvHex :=
                                        match st_desMode st0 with
                                        | ECB => None
                                        | _ => Some (slice (bytesToHex output) 0 16)
                                        end;
                                      bv_plaintext := None |}
                      | decrypt =>
                          ' (output, firstBlockResult) <-
                              decryptBytesWithMode (padTo8Bytes inputBytes)
                                (kv_hex keyValidation) (st_desMode st0) ;;
                          Returned {| bv_currentResult := firstBlockResult;
                                      bv_activeMode := decrypt;
                                      bv_lastKeyHex := kv_hex keyValidation;
                                      bv_lastCipherHex := bytesToHex inputBytes;
                                      bv_lastIvHex :=
                                        match st_desMode st0 with
                                        | ECB => None
                                        | _ => Some (slice (bytesToHex inputBytes) 0 16)
                                        end;
                                      bv_plaintext := Some (bytesToHex (unpadPkcs output)) |}
                      end))).
  { intros randomBlock0 st0 mode Hk0. unfold runProcess.
    cbn [overrideKeyHex overridePlaintextHex isMissing orElse]. rewrite !andb_true_r.
    destruct Hk0 as [-> | ->]; reflexivity. }
  split; [|split].
  - intros Hk mode. rewrite (Hrun _ _ _ Hkind). cbv zeta. now rewrite Hk.
  - intros Hk Hp mode. rewrite (Hrun _ _ _ Hkind). cbv zeta. now rewrite Hk, Hp.
  - intros Hk Hp Br Lr.
    set (keyHex := kv_hex (keyValidation textToUtf8Bytes (st_keyValue st) (st_keyFormat st))).
    destruct (valid_plaintext_bytes _ _ Hp) as [payload [Hhex [Bp Hback]]].
    destruct (encrypt_with_field randomBlock payload keyHex (st_ivInput st) (st_desMode st)
                Bp Br Lr)
      as [customIv [output [first [first0 [Hiv [Henc [_ [Hmod [Hlen [Bo Hdec]]]]]]]]]].
    destruct (bytesToHex_shape output Bo) as [Hohex Holen].
    assert (Hmod16 : (length (bytesToHex output) mod 16 = 0)%nat).
    { rewrite Holen. apply Nat.Div0.div_exact in Hmod. rewrite Hmod.
      replace (2 * (8 * (length output / 8)))%nat with ((length output / 8) * 16)%nat by lia.
      apply Nat.Div0.mod_mul. }
    exists {| bv_currentResult := Some first;
              bv_activeMode := encrypt;
              bv_lastKeyHex := keyHex;
              bv_lastCipherHex := bytesToHex output;
              bv_lastIvHex := match st_desMode st with
                              | ECB => None
                              | _ => Some (slice (bytesToHex output) 0 16)
                              end;
              bv_plaintext := None |}, payload.
    cbn [bv_plaintext bv_lastKeyHex bv_lastCipherHex].
    split; [exact Hhex|]. split; [exact Hback|].
    split.
    { rewrite (Hrun _ _ _ Hkind). cbv zeta. rewrite Hk, Hp. cbn [negb].
      rewrite Hhex. cbn [bind]. rewrite Hiv. cbn [bind]. fold keyHex. rewrite Henc.
      reflexivity. }
    split; [reflexivity|]. split; [reflexivity|]. split; [exact Hohex|].
    split; [exact Hmod16|].
    intros randomBlock' st' Hkind' Ekv Ekf Em Efmt Eplain.
    destruct (hex_field_valid (bytesToHex output) Hohex) as [Hv' Hh'];
      [destruct (st_desMode st); lia|exact Hmod16|].
    assert (Hone : output <> []).
    { intros E. rewrite E in Hlen. cbn [length] in Hlen. destruct (st_desMode st); lia. }
    assert (Hpad8 : padTo8Bytes output = output ++ repeat 8 8).
    { destruct (padTo8Bytes_spec output) as [_ [H _]]. cbv zeta in H.
      rewrite Hmod in H. exact H. }
    destruct (decrypt_append (st_desMode st) output (repeat 8 8) keyHex _ _ Hmod Hone
                ltac:(discriminate) ltac:(cbn; lia) Hdec)
      as [extra [first' [Le [Be Hdec']]]].
    destruct (unpadPkcs_strips (padTo8Bytes payload ++ extra)) as [n [Hn8 Hun]].
    assert (Hcut : unpadPkcs (padTo8Bytes payload ++ extra)
                   = padTo8Bytes payload ++ firstn (8 - n) extra).
    { rewrite Hun, length_app, Le, firstn_app.
      rewrite firstn_all2 by lia. f_equal. f_equal. lia. }
    assert (Brest : byteBlock (firstn (8 - n) extra)) by now apply Forall_firstn_skipn.
    destruct (bytesToHex_shape _ Brest) as [_ Lrest].
    eexists. exists (bytesToHex (padTo8Bytes payload ++ firstn (8 - n) extra)),
                    (bytesToHex (firstn (8 - n) extra)).
    split.
    { rewrite (Hrun _ _ _ Hkind'). cbv zeta.
      rewrite Ekv, Ekf, Hk, Efmt, Eplain, Em. cbn [negb].
      rewrite Hv', Hh'. cbn [negb].
      rewrite (hexToBytes_bytesToHex output Bo). cbn [bind].
      rewrite Hpad8. fold keyHex. rewrite Hdec'. cbn [bind tryCatch]. rewrite Hcut.
      reflexivity. }
    cbn [bv_plaintext bv_lastCipherHex].
    split; [reflexivity|]. split; [reflexivity|].
    split; [apply bytesToHex_app|].
    split; [rewrite Lrest, length_firstn; lia|].
    rewrite <- Hback. intros E. apply (f_equal (@length _)) in E.
    rewrite bytesToHex_app, length_app in E.
    destruct (padTo8Bytes_spec payload) as [Hn [Hpad _]]. cbv zeta in Hn, Hpad.
    assert (Bpad : byteBlock (padTo8Bytes payload)).
    { rewrite Hpad. apply Forall_app. split; [exact Bp|].
      apply Forall_forall. intros x Hx. apply repeat_spec in Hx. lia. }
    destruct (bytesToHex_shape _ Bpad) as [_ L1].
    destruct (bytesToHex_shape _ Bp) as [_ L2].
    rewrite L1, L2, Hpad, length_app, repeat_length in E. lia.
Qed.

Lemma runProcess_decrypt_appends_witness :
  let st plaintext :=
    {| st_plaintext := plaintext; st_plaintextFormat := if_hex;
       st_keyValue := str "133457799bbcdff1"; st_keyFormat := kf_hex;
       st_inputKind := ik_hex; st_textInput := [];
       st_textCipherInput := []; st_textCipherEncoding := ce_hex;
       st_fileBytes := None; st_fileName := []; st_fileCipherBytes := None;
       st_desMode := ECB; st_ivInput := [] |} in
  exists values values' shown,
    runProcess asciiBytes asciiText (fun s => s) Some [0; 0; 0; 0; 0; 0; 0; 0]
      (st (str "0123456789abcdef")) encrypt None = ByBlocks (ValuesSet values) /\
    runProcess asciiBytes asciiText (fun s => s) Some [] (st (bv_lastCipherHex values))
      decrypt None = ByBlocks (ValuesSet values') /\
    bv_plaintext values' = Some shown /\
    shown <> str "0123456789abcdef".
Proof.
  intros st.
  destruct (runProcess_decrypt_appends asciiBytes asciiText (fun s => s) Some
              [0; 0; 0; 0; 0; 0; 0; 0] (st (str "0123456789abcdef")))
    as [_ [_ H]].
  - right. reflexivity.
  - destruct H as [values [payload [_ [_ [H1 [_ [_ [_ [_ H2]]]]]]]]].
    + reflexivity.
    + reflexivity.
    + apply byteBlock_dec. reflexivity.
    + reflexivity.
    + destruct (H2 [] (st (bv_lastCipherHex values)))
        as [values' [shown [rest [H3 [H4 [_ [_ [_ H5]]]]]]]]; try reflexivity.
      * right. reflexivity.
      * exists values, values', shown. repeat split; assumption.
Defined.

(** X29.  The text path end to end.  [runTextProcess] refuses, setting
    only its error message, when the key is not valid, when it is to
    encrypt a text that is blank, and when it is to decrypt a ciphertext
    field that is blank.  Otherwise, for every mode of operation and IV
    field, encrypting puts in the ciphertext field whole 16-digit blocks
    of lower-case hex (one more for the IV outside ECB), and decrypting a
    field holding that hex, also with white space around it, under the
    same key and mode shows the text again. *)
Theorem text_process_round_trip (textToUtf8Bytes : jstring -> Bytes)
  (utf8BytesToText : Bytes -> jstring) (btoa : jstring -> jstring)
  (atob : jstring -> option jstring) (randomBlock : Bytes) (st : AppState) :
  let run := runTextProcess textToUtf8Bytes utf8BytesToText btoa atob in
  let key := keyValidation textToUtf8Bytes (st_keyValue st) (st_keyFormat st) in
  (kv_valid key = false ->
   forall mode, run randomBlock st mode = ErrorSet (keyErrorMessage (st_keyFormat st))) /\
  (kv_valid key = true -> trim (st_textInput st) = [] ->
   run randomBlock st encrypt = ErrorSet "Enter text to encrypt.") /\
  (kv_valid key = true -> trim (st_textCipherInput st) = [] ->
   run randomBlock st decrypt = ErrorSet "Paste ciphertext in hex or Base64 to decrypt.") /\
  (kv_valid key = true -> trim (st_textInput st) <> [] ->
   utf8BytesToText (textToUtf8Bytes (st_textInput st)) = st_textInput st ->
   byteBlock (textToUtf8Bytes (st_textInput st)) ->
   byteBlock randomBlock -> length randomBlock = 8%nat ->
   exists values cipherHex,
     run randomBlock st encrypt = ValuesSet values /\
     tv_textCipherInput values = Some cipherHex /\
     tv_textCipherHex values = cipherHex /\
     tv_lastKeyHex values = kv_hex key /\
     lowerHexString cipherHex /\ (length cipherHex mod 16 = 0)%nat /\
     (16 * (match st_desMode st with ECB => 1 | _ => 2 end) <= length cipherHex)%nat /\
     forall randomBlock' st' before after,
       st_keyValue st' = st_keyValue st -> st_keyFormat st' = st_keyFormat st ->
       st_desMode st' = st_desMode st ->
       st_textCipherEncoding st' = ce_hex ->
       st_textCipherInput st' = before ++ cipherHex ++ after ->
       Forall (fun c => isSpace c = true) before ->
       Forall (fun c => isSpace c = true) after ->
       exists values',
         run randomBlock' st' decrypt = ValuesSet values' /\
         tv_textPlainOutput values' = st_textInput st /\
         tv_textCipherHex values' = cipherHex /\
         tv_textCipherInput values' = None).
Proof.
  cbv zeta. unfold runTextProcess. cbv zeta.
  split; [|split; [|split]].
  - intros Hk mode. now rewrite Hk.
  - intros Hk Ht. rewrite Hk, Ht. reflexivity.
  - intros Hk Ht. rewrite Hk, Ht. reflexivity.
  - intros Hk Ht Hdec Bt Br Lr.
    rewrite Hk, (isEmpty_false _ Ht). cbn [negb].
    destruct (encrypt_with_field randomBlock (textToUtf8Bytes (st_textInput st))
                (kv_hex (keyValidation textToUtf8Bytes (st_keyValue st) (st_keyFormat st)))
                (st_ivInput st) (st_desMode st) Bt Br Lr)
      as [customIv [output [first [first' [Hiv [Henc [_ [Hmod [Hlen [Bo Hdecr]]]]]]]]]].
    destruct (bytesToHex_shape output Bo) as [Hhex Hl].
    rewrite Hiv. cbn [bind]. rewrite Henc. cbn [bind tryCatch].
    eexists. exists (bytesToHex output).
    split; [reflexivity|]. cbn [tv_textCipherInput tv_textCipherHex tv_lastKeyHex].
    split; [reflexivity|]. split; [reflexivity|]. split; [reflexivity|].
    split; [exact Hhex|].
    split.
    { rewrite Hl. apply Nat.Div0.div_exact in Hmod. rewrite Hmod.
      replace (2 * (8 * (length output / 8)))%nat with ((length output / 8) * 16)%nat by lia.
      apply Nat.Div0.mod_mul. }
    split; [rewrite Hl; destruct (st_desMode st); lia|].
    intros randomBlock' st' pre post Ekv Ekf Em Eenc Efield Hpre Hpost.
    assert (Htrim : trim (st_textCipherInput st') = bytesToHex output).
    { rewrite Efield. apply trim_spaces; [exact Hpre|exact Hpost|].
      eapply Forall_impl; [|exact Hhex]. apply lowerHex_not_space. }
    rewrite Ekv, Ekf, Hk, Eenc, Em, Htrim. cbn [negb].
    rewrite isEmpty_false.
    2: { intros E. rewrite E in Hl. cbn [length] in Hl. destruct (st_desMode st); lia. }
    rewrite (hexToBytes_bytesToHex output Bo). cbn [bind].
    unfold runTextProcess_decrypt. rewrite Hmod. cbn [Nat.eqb negb].
    rewrite Hdecr. cbn [bind tryCatch].
    eexists. split; [reflexivity|].
    cbn [tv_textPlainOutput tv_textCipherHex tv_textCipherInput].
    rewrite unpad_pad, Hdec. repeat split.
Qed.

Lemma text_process_round_trip_witness :
  let st textCipherInput :=
    {| st_plaintext := []; st_plaintextFormat := if_hex;
       st_keyValue := str "133457799bbcdff1"; st_keyFormat := kf_hex;
       st_inputKind := ik_text; st_textInput := str "HELLO DES!";
       st_textCipherInput := textCipherInput; st_textCipherEncoding := ce_hex;
       st_fileBytes := None; st_fileName := []; st_fileCipherBytes := None;
       st_desMode := CFB; st_ivInput := str "0123456789abcdef" |} in
  exists values cipherHex values',
    runTextProcess asciiBytes asciiText (fun s => s) Some [8; 7; 6; 5; 4; 3; 2; 1]
      (st []) encrypt = ValuesSet values /\
    tv_textCipherInput values = Some cipherHex /\
    runTextProcess asciiBytes asciiText (fun s => s) Some [] (st cipherHex) decrypt
      = ValuesSet values' /\
    tv_textPlainOutput values' = str "HELLO DES!".
Proof.
  intros st.
  destruct (text_process_round_trip asciiBytes asciiText (fun s => s) Some
              [8; 7; 6; 5; 4; 3; 2; 1] (st [])) as [_ [_ [_ H]]].
  destruct H as [values [cipherHex [H1 [H2 [_ [_ [_ [_ [_ H3]]]]]]]]].
  - reflexivity.
  - vm_compute. discriminate.
  - reflexivity.
  - apply byteBlock_dec. reflexivity.
  - apply byteBlock_dec. reflexivity.
  - reflexivity.
  - destruct (H3 [] (st cipherHex) [] [] eq_refl eq_refl eq_refl eq_refl)
      as [values' [H4 [H5 _]]].
    + cbn [st_textCipherInput st app]. now rewrite app_nil_r.
    + constructor.
    + constructor.
    + exists values, cipherHex, values'. repeat split; assumption.
Defined.

Lemma complBits_length (bits : Bits) : length (complBits bits) = length bits.
Proof. apply length_map. Qed.

Lemma complBits_bitlist (bits : Bits) : bitlist bits -> bitlist (complBits bits).
Proof.
  induction 1 as [|x bits [-> | ->] _ IH]; [constructor| |];
    cbn [complBits map]; constructor; try exact IH; [now right|now left].
Qed.

Lemma complBits_app (a b : Bits) : complBits (a ++ b) = complBits a ++ complBits b.
Proof. apply map_app. Qed.

Lemma permute_compl (bits : Bits) (table : list Z) :
  tableWithin (Z.of_nat (length bits)) table = true ->
  permute (complBits bits) table = complBits (permute bits table).
Proof.
  intros H. unfold permute, complBits. rewrite map_map. apply map_ext_in.
  intros index Hin. unfold tableWithin in H. rewrite forallb_forall in H.
  specialize (H index Hin). apply andb_true_iff in H as [Hlo Hhi].
  apply Z.leb_le in Hlo, Hhi.
  replace (index - 1) with (Z.of_nat (Z.to_nat (index - 1))) by lia.
  rewrite !at_nth.
  rewrite (nth_indep _ 0 (1 - 0)) by (rewrite length_map; lia).
  apply map_nth.
Qed.

Lemma leftShift_compl (bits : Bits) (n : nat) :
  leftShift (complBits bits) n = complBits (leftShift bits n).
Proof.
  unfold leftShift, complBits. cbv zeta.
  now rewrite length_map, map_app, skipn_map, firstn_map.
Qed.

Lemma xor_compl_both (x y : Z) :
  is_bit x -> is_bit y -> Z.land (Z.lxor (1 - x) (1 - y)) 1 = Z.land (Z.lxor x y) 1.
Proof. intros [-> | ->] [-> | ->]; reflexivity. Qed.

Lemma xor_compl_left (x y : Z) :
  is_bit x -> is_bit y -> Z.land (Z.lxor (1 - x) y) 1 = 1 - Z.land (Z.lxor x y) 1.
Proof. intros [-> | ->] [-> | ->]; reflexivity. Qed.

Lemma xorBits_compl_both (a b : Bits) :
  bitlist a -> bitlist b -> (length a <= length b)%nat ->
  xorBits (complBits a) (complBits b) = xorBits a b.
Proof.
  intros Ha Hb Hlen. unfold xorBits, mapi.
  assert (H : forall i, (i + length a <= length b)%nat ->
            mapiFrom (fun bit idx => Z.land (Z.lxor bit (at_ 0 (complBits b) (Z.of_nat idx))) 1)
                     i (complBits a)
            = mapiFrom (fun bit idx => Z.land (Z.lxor bit (at_ 0 b (Z.of_nat idx))) 1) i a).
  { clear Hlen. induction Ha as [|x a Hx _ IH]; intros i Hi; [reflexivity|].
    cbn [complBits map mapiFrom]. cbn [length] in Hi. f_equal.
    - rewrite !at_nth. unfold complBits.
      rewrite (nth_indep _ 0 (1 - 0)) by (rewrite length_map; lia).
      rewrite map_nth. apply xor_compl_both; [exact Hx|].
      apply (proj1 (Forall_forall _ _) Hb). apply nth_In. lia.
    - apply IH. lia. }
  apply H. lia.
Qed.

Lemma xorBits_compl_left (a b : Bits) :
  bitlist a -> bitlist b -> (length a <= length b)%nat ->
  xorBits (complBits a) b = complBits (xorBits a b).
Proof.
  intros Ha Hb Hlen. unfold xorBits, mapi.
  assert (H : forall i, (i + length a <= length b)%nat ->
            mapiFrom (fun bit idx => Z.land (Z.lxor bit (at_ 0 b (Z.of_nat idx))) 1)
                     i (complBits a)
            = complBits
                (mapiFrom (fun bit idx => Z.land (Z.lxor bit (at_ 0 b (Z.of_nat idx))) 1) i a)).
  { clear Hlen. induction Ha as [|x a Hx _ IH]; intros i Hi; [reflexivity|].
    cbn [complBits map mapiFrom]. cbn [length] in Hi. f_equal.
    - rewrite !at_nth. apply xor_compl_left; [exact Hx|].
      apply (proj1 (Forall_forall _ _) Hb). apply nth_In. lia.
    - apply IH. lia. }
  apply H. lia.
Qed.

Lemma complement_read (n : nat) (bits : Bits) :
  length bits = (4 * n)%nat -> bitlist bits ->
  hexToBits (bitsToHex (complBits bits)) (4 * n) = complBits bits.
Proof.
  intros Hlen Hb. apply hexToBits_bitsToHex.
  - now rewrite complBits_length.
  - now apply complBits_bitlist.
Qed.

(** One round on complemented halves with the complemented subkey. *)
Lemma feistel_compl (l r : Bits) (k : jstring) :
  bitlist l -> bitlist r -> length l = 32%nat -> length r = 32%nat ->
  feistel (complBits l, complBits r) (complementHex 48 k)
  = (complBits (fst (feistel (l, r) k)), complBits (snd (feistel (l, r) k))).
Proof.
  intros Bl Br Ll Lr. unfold feistel, feistel_round, f_function.
  cbn [fst snd r_left r_right f_pBoxResult]. unfold complementHex.
  assert (Hk : hexToBits (bitsToHex (complBits (hexToBits k 48))) 48
               = complBits (hexToBits k 48)).
  { apply (complement_read 12); [apply (hexToBits_length k 12)|apply hexToBits_bitlist]. }
  rewrite Hk. f_equal.
  unfold expansion_permutation.
  rewrite permute_compl by (rewrite Lr; reflexivity).
  rewrite xorBits_compl_both.
  - apply xorBits_compl_left; [exact Bl|apply permute_bitlist, s_box_bitlist|].
    unfold p_box_permutation. rewrite permute_length, Ll. cbn. lia.
  - now apply permute_bitlist.
  - apply hexToBits_bitlist.
  - rewrite permute_length. pose proof (hexToBits_length k 12) as H.
    change (4 * 12)%nat with 48%nat in H. rewrite H. cbn. lia.
Qed.

Lemma rounds_compl (ks : list jstring) :
  forall l r, bitlist l -> bitlist r -> length l = 32%nat -> length r = 32%nat ->
    fold_left feistel (map (complementHex 48) ks) (complBits l, complBits r)
    = (complBits (fst (fold_left feistel ks (l, r))),
       complBits (snd (fold_left feistel ks (l, r)))).
Proof.
  induction ks as [|k ks IH]; intros l r Bl Br Ll Lr; [reflexivity|].
  cbn [map fold_left]. rewrite (feistel_compl l r k Bl Br Ll Lr).
  destruct (feistel_shape (l, r) k) as [H1 [H2 H3]]. cbn [fst snd] in H1, H3.
  destruct (feistel (l, r) k) as [l1 r1] eqn:E. cbn [fst snd] in *. subst l1.
  apply IH; [exact Br|exact H2|exact Lr|congruence].
Qed.

Lemma core_output_compl (block : Bits) (ks : list jstring) :
  length block = 64%nat -> bitlist block ->
  core_output (complBits block) (map (complementHex 48) ks)
  = bitsToHex (complBits (hexToBits (core_output block ks) 64)).
Proof.
  intros Hlen Hb. unfold core_output. cbv zeta.
  unfold initial_permutation.
  rewrite permute_compl by (rewrite Hlen; reflexivity).
  set (ip := permute block IP_TABLE).
  assert (Lip : length ip = 64%nat) by apply permute_length.
  assert (Bip : bitlist ip) by now apply permute_bitlist.
  destruct (halves_shape ip Lip Bip) as [L0 [R0 [BL [BR _]]]]. cbv zeta in *.
  assert (Hl : slice (complBits ip) 0 32 = complBits (slice ip 0 32))
    by (rewrite !slice_0; unfold complBits; apply firstn_map).
  assert (Hr : sliceFrom (complBits ip) 32 = complBits (sliceFrom ip 32))
    by (change 32 with (Z.of_nat 32); rewrite !sliceFrom_nat; unfold complBits;
        apply skipn_map).
  rewrite Hl, Hr, rounds_compl by assumption. cbn [fst snd].
  destruct (feistel_rounds_reverse ks _ _ BL BR) as [B1 [B2 [Hlens _]]]. cbv zeta in *.
  destruct (Hlens ltac:(congruence)) as [L1 L2].
  set (final := fold_left feistel ks (slice ip 0 32, sliceFrom ip 32)) in *.
  rewrite <- complBits_app.
  unfold final_permutation.
  rewrite permute_compl
    by (rewrite length_app, L1, L2, L0; reflexivity).
  f_equal. f_equal. symmetry. apply (hexToBits_bitsToHex 16).
  - apply permute_length.
  - apply permute_bitlist, bitlist_app; assumption.
Qed.

Lemma ks_step_compl (s s' : KsState) (shift index : nat) :
  ks_inv s ->
  st_c s' = complBits (st_c s) -> st_d s' = complBits (st_d s) ->
  st_subKeys s' = map (complementHex 48) (st_subKeys s) ->
  st_c (ks_step s' shift index) = complBits (st_c (ks_step s shift index)) /\
  st_d (ks_step s' shift index) = complBits (st_d (ks_step s shift index)) /\
  st_subKeys (ks_step s' shift index)
    = map (complementHex 48) (st_subKeys (ks_step s shift index)).
Proof.
  intros [Lc [Ld [Bc Bd]]] Hc Hd Hk. unfold ks_step. cbv zeta.
  cbn [st_c st_d st_subKeys]. rewrite Hc, Hd, Hk, !leftShift_compl.
  split; [reflexivity|]. split; [reflexivity|].
  rewrite map_app. cbn [map]. f_equal. f_equal.
  rewrite <- complBits_app.
  rewrite permute_compl
    by (rewrite length_app, !leftShift_length, Lc, Ld; reflexivity).
  unfold complementHex. f_equal. f_equal. symmetry. apply (hexToBits_bitsToHex 12).
  - apply permute_length.
  - apply permute_bitlist, bitlist_app; now apply leftShift_bitlist.
Qed.

Lemma ks_loop_compl (sched : list nat) :
  forall i s s', ks_inv s ->
    st_c s' = complBits (st_c s) -> st_d s' = complBits (st_d s) ->
    st_subKeys s' = map (complementHex 48) (st_subKeys s) ->
    st_subKeys (forEachFrom ks_step i sched s')
      = map (complementHex 48) (st_subKeys (forEachFrom ks_step i sched s)).
Proof.
  induction sched as [|shift sched IH]; intros i s s' Hinv Hc Hd Hk; [exact Hk|].
  cbn [forEachFrom].
  destruct (ks_step_compl s s' shift i Hinv Hc Hd Hk) as [Hc1 [Hd1 Hk1]].
  apply IH; try assumption. now apply ks_step_inv.
Qed.

Lemma subkeys_compl (keyHex : jstring) :
  snd (generate_subkeys (complementKey keyHex))
  = map (complementHex 48) (snd (generate_subkeys keyHex)).
Proof.
  destruct (keyBits_shape keyHex) as [Lk Bk].
  assert (Hbits : keyBits (complementKey keyHex) = complBits (keyBits keyHex)).
  { unfold keyBits at 1. fold (keyWindow (complementKey keyHex)).
    rewrite keyWindow_fixed.
    - unfold complementKey. now apply (complement_read 16).
    - unfold complementKey.
      destruct (bits_hex_bits 16 (complBits (keyBits keyHex))) as [H _];
        [now rewrite complBits_length|now apply complBits_bitlist|exact H]. }
  unfold generate_subkeys. fold (keyBits (complementKey keyHex)) (keyBits keyHex).
  cbn [snd]. rewrite Hbits. unfold forEach.
  rewrite permute_compl by (rewrite Lk; reflexivity).
  destruct (parityDropped_shape keyHex) as [_ [_ Hinv]]. cbv zeta in Hinv.
  apply ks_loop_compl; [exact Hinv| | |reflexivity]; cbn [st_c st_d].
  - rewrite !slice_0. unfold complBits. apply firstn_map.
  - change 28 with (Z.of_nat 28). rewrite !sliceFrom_nat. unfold complBits. apply skipn_map.
Qed.

(** X30.  The complementation property: complementing the 64 bits of
    the input and the 64 bits of the key complements every subkey and the
    64 bits of the output, in both modes. *)
Theorem des_complementation (inputHex keyHex : jstring) (m : Mode) :
  outputHex (runCore (complementHex 64 inputHex) (complementKey keyHex) m)
    = complementHex 64 (outputHex (runCore inputHex keyHex m)) /\
  subKeys (runCore (complementHex 64 inputHex) (complementKey keyHex) m)
    = map (complementHex 48) (subKeys (runCore inputHex keyHex m)) /\
  hexToBits (complementHex 64 inputHex) 64 = complBits (hexToBits inputHex 64) /\
  keyBits (complementKey keyHex) = complBits (keyBits keyHex).
Proof.
  assert (Hin : hexToBits (complementHex 64 inputHex) 64 = complBits (hexToBits inputHex 64)).
  { unfold complementHex. apply (complement_read 16);
      [apply (hexToBits_length _ 16)|apply hexToBits_bitlist]. }
  assert (Hseq : (match m with
                  | encrypt => snd (generate_subkeys (complementKey keyHex))
                  | decrypt => rev (snd (generate_subkeys (complementKey keyHex)))
                  end)
                 = map (complementHex 48)
                     (match m with
                      | encrypt => snd (generate_subkeys keyHex)
                      | decrypt => rev (snd (generate_subkeys keyHex))
                      end)).
  { rewrite subkeys_compl. destruct m; [reflexivity|]. symmetry. apply map_rev. }
  split; [|split; [|split; [exact Hin|]]].
  - rewrite !runCore_output, Hin, Hseq. unfold complementHex at 2.
    apply core_output_compl; [apply (hexToBits_length _ 16)|apply hexToBits_bitlist].
  - destruct (runCore_fields (complementHex 64 inputHex) (complementKey keyHex) m)
      as [_ [H1 _]].
    destruct (runCore_fields inputHex keyHex m) as [_ [H2 _]].
    rewrite H1, H2. exact Hseq.
  - destruct (keyBits_shape keyHex) as [Lk Bk].
    unfold keyBits at 1. fold (keyWindow (complementKey keyHex)).
    rewrite keyWindow_fixed.
    + unfold complementKey. now apply (complement_read 16).
    + unfold complementKey.
      destruct (bits_hex_bits 16 (complBits (keyBits keyHex))) as [H _];
        [now rewrite complBits_length|now apply complBits_bitlist|exact H].
Qed.
